(** * Tempest: Cartesian grid patch, column operators and the thermal bubble test

    A shallow embedding of three translation units of the Tempest
    atmospheric model:

    - [ThermalBubbleCartesianTest.cpp]  (test case and its [main]),
    - [GridPatchCartesianGLL.cpp]       (topography, geometric terms,
                                         heights, boundary conditions,
                                         vorticity and divergence,
                                         interpolation at points),
    - [LinearColumnOperatorFEM.cpp]     (vertical interpolation and
                                         differentiation operators).

    Conventions.  A C++ [double] is an element of [R]: arithmetic is exact,
    so rounding is outside the model.  [fabs] is [Rabs], [sqrt] and [cos] are
    the functions of the same name.  [pow] is [c_pow_any], which has no
    value where the C function returns NaN or an infinity; where the base
    is the width of an element of a column, [pow] is read as [c_pow], the
    real power of a positive base.  An [int] is a [nat] or a [Z]; integer
    division by zero and accesses outside an array have no meaning in the
    model, so the statements about a function say on which arguments its
    definition is read.
    A [DataVector<double>] is a [list R] read with [nth _ _ 0]; a pointer
    into such a vector is the function [fun i => nth (off + i) v 0].
    [_EXCEPTIONT] is the [Exception] constructor of [Result]. *)

From Stdlib Require Import String Ascii.
From Stdlib Require Import Reals Lra Lia List Bool Arith ZArith.
From Stdlib Require Import Machin.
Import ListNotations.

Open Scope R_scope.

(** ** Shared pieces *)

Inductive Result (A : Type) : Type :=
| Ok (a : A)
| Exception (msg : string).
Arguments Ok {A} a.
Arguments Exception {A} msg.

(** [pow(x, y)] of <cmath>, for a positive base. *)
Definition c_pow (x y : R) : R := Rpower x y.

(** [pow(x, y)] of <cmath>, for any base.  The result is a number for a
    positive base, for a negative base with an integer exponent, and for a
    zero base with an exponent that is not negative.  [None] stands for the
    other results: NaN for a negative base with an exponent that is not an
    integer, an infinity for a zero base with a negative exponent. *)
Definition c_pow_any (x y : R) : option R :=
  if Rlt_dec 0 x then Some (Rpower x y)
  else if Rlt_dec x 0 then
    if Req_dec_T y (IZR (Int_part y)) then Some (powerRZ x (Int_part y))
    else None
  else
    if Rlt_dec 0 y then Some 0
    else if Rlt_dec y 0 then None
    else Some 1.

(** [v[i] = x] on a buffer; an index past the end leaves the buffer as it is
    (the C++ code never does that on a buffer of [GetComponents()] cells). *)
Fixpoint store (v : list R) (i : nat) (x : R) : list R :=
  match v, i with
  | [], _ => []
  | _ :: t, O => x :: t
  | h :: t, S i' => h :: store t i' x
  end.

(** [for (int i = 0; i < n; i++) body], threading the state. *)
Definition for_loop {S : Type} (n : nat) (body : nat -> S -> S) (s : S) : S :=
  fold_left (fun s i => body i s) (seq 0 n) s.

(** *** Exceptions inside loops *)

Definition bind {A B : Type} (r : Result A) (f : A -> Result B) : Result B :=
  match r with
  | Ok a => f a
  | Exception msg => Exception msg
  end.

(** A [for] loop whose body may throw: the first exception ends the loop. *)
Definition for_loopM {S : Type} (n : nat) (body : nat -> S -> Result S)
    (s : S) : Result S :=
  fold_left (fun r i => bind r (body i)) (seq 0 n) (Ok s).

(** Iteration [i] of a throwing loop raises [msg] when [bad i], and does
    what the pure body [bodyP i] does otherwise, on every state that
    satisfies [Inv]; the pure body keeps [Inv]. *)
Definition DecidedBody {S : Type} (body : nat -> S -> Result S)
    (bodyP : nat -> S -> S) (bad : nat -> Prop) (Inv : S -> Prop)
    (msg : string) (n : nat) : Prop :=
  (forall i t, (i < n)%nat -> Inv t -> Inv (bodyP i t)) /\
  (forall i t, (i < n)%nat -> Inv t ->
     (~ bad i /\ body i t = Ok (bodyP i t)) \/
     (bad i /\ body i t = Exception msg)).

(** ** ThermalBubbleCartesianTest.cpp *)

Module ThermalBubble.

(** The accessors of [PhysicalConstants] the test case reads. *)
Record PhysicalConstants := {
  GetG  : R;
  GetCv : R;
  GetCp : R;
  GetR  : R;
  GetP0 : R
}.

(** The data members of [class ThermalBubbleCartesianTest]. *)
Record TestCase := {
  m_dGDim     : list R;
  m_dH0       : R;
  m_dThetaBar : R;
  m_dThetaC   : R;
  m_drC       : R;
  m_dxC       : R;
  m_dzC       : R;
  m_dpiC      : R
}.

(** The constructor's initialiser list and body. *)
Definition ThermalBubbleCartesianTest : TestCase := {|
  m_dGDim     := [0; 1000; -1000; 1000; 0; 1000];
  m_dH0       := 10000;
  m_dThetaBar := 300;
  m_dThetaC   := 0.5;
  m_drC       := 250;
  m_dxC       := 500;
  m_dzC       := 350;
  m_dpiC      := 3.14159265
|}.

Definition GetTracerCount (t : TestCase) : nat := 0.

Definition GetZtop (t : TestCase) : R := nth 5 (m_dGDim t) 0.

Definition HasReferenceState (t : TestCase) : bool := true.

Definition EvaluateTopography (t : TestCase) (dXp dYp : R) : R := 0.

(** Distance of (x, z) from the bubble centre. *)
Definition BubbleDistance (t : TestCase) (dXp dZp : R) : R :=
  sqrt ((dXp - m_dxC t) * (dXp - m_dxC t)
        + (dZp - m_dzC t) * (dZp - m_dzC t)).

(** [m_dpiC] is 3.14159265, so that over the real numbers the cosine
    profile ends at 1/2 theta_c (1 + cos 3.14159265), at most 1e-17, at the
    distance [m_drC]; in double arithmetic that value is 0.  What is stated
    of the perturbation at that distance is stated up to 1e-17. *)
Definition EvaluateTPrime (t : TestCase) (phys : PhysicalConstants)
    (dXp dZp : R) : R :=
  let xL2 := (dXp - m_dxC t) * (dXp - m_dxC t) in
  let zL2 := (dZp - m_dzC t) * (dZp - m_dzC t) in
  let dRp := sqrt (xL2 + zL2) in
  let dThetaHat := 1 in
  if Rle_dec dRp (m_drC t) then
    0.5 * m_dThetaC t * (1 + cos (m_dpiC t * dRp / m_drC t))
  else if Rgt_dec dRp (m_drC t) then
    0
  else
    dThetaHat.

(** The result is the state buffer when every cell written is a number,
    and [None] when the density written to cell 4 is not: [pow] has no value
    at the Exner function [dExnerP] of the height. *)
Definition EvaluateReferenceState (t : TestCase) (phys : PhysicalConstants)
    (dZp dXp dYp : R) (dState : list R) : option (list R) :=
  let dG := GetG phys in
  let dCv := GetCv phys in
  let dCp := GetCp phys in
  let dRd := GetR phys in
  let dP0 := GetP0 phys in
  let dState := store dState 0 0 in
  let dState := store dState 1 0 in
  let dState := store dState 3 0 in
  let dState := store dState 2 (m_dThetaBar t) in
  let dExnerP := - dG / (dCp * m_dThetaBar t) * dZp + 1 in
  match c_pow_any dExnerP (dCv / dRd) with
  | Some dPow =>
      let dRho := dP0 / (dRd * m_dThetaBar t) * dPow in
      Some (store dState 4 dRho)
  | None => None
  end.


(** Pressure from the equation of state, p = p0 (Rd rho theta / p0)^(Cp/Cv),
    as a function of the primitive state buffer; a real power, for a
    positive density and positive constants. *)
Definition Pressure (phys : PhysicalConstants) (dState : list R) : R :=
  GetP0 phys *
  Rpower (GetR phys * nth 4 dState 0 * nth 2 dState 0 / GetP0 phys)
         (GetCp phys / GetCv phys).

(** *** The command line defaults set by [main] *)

Record CommandLine := {
  ResolutionX     : Z;
  ResolutionY     : Z;
  Levels          : Z;
  OutputDeltaT    : string;
  DeltaT          : string;
  EndTime         : string;
  HorizontalOrder : Z;
  VerticalOrder   : Z
}.

Definition BeginTempestCommandLine (name : string) : CommandLine := {|
  ResolutionX := 0; ResolutionY := 0; Levels := 0;
  OutputDeltaT := EmptyString; DeltaT := EmptyString; EndTime := EmptyString;
  HorizontalOrder := 0; VerticalOrder := 0
|}.

Definition SetDefaultResolutionX (n : Z) (c : CommandLine) :=
  {| ResolutionX := n; ResolutionY := ResolutionY c; Levels := Levels c;
     OutputDeltaT := OutputDeltaT c; DeltaT := DeltaT c; EndTime := EndTime c;
     HorizontalOrder := HorizontalOrder c; VerticalOrder := VerticalOrder c |}.
Definition SetDefaultResolutionY (n : Z) (c : CommandLine) :=
  {| ResolutionX := ResolutionX c; ResolutionY := n; Levels := Levels c;
     OutputDeltaT := OutputDeltaT c; DeltaT := DeltaT c; EndTime := EndTime c;
     HorizontalOrder := HorizontalOrder c; VerticalOrder := VerticalOrder c |}.
Definition SetDefaultLevels (n : Z) (c : CommandLine) :=
  {| ResolutionX := ResolutionX c; ResolutionY := ResolutionY c; Levels := n;
     OutputDeltaT := OutputDeltaT c; DeltaT := DeltaT c; EndTime := EndTime c;
     HorizontalOrder := HorizontalOrder c; VerticalOrder := VerticalOrder c |}.
Definition SetDefaultOutputDeltaT (s : string) (c : CommandLine) :=
  {| ResolutionX := ResolutionX c; ResolutionY := ResolutionY c;
     Levels := Levels c;
     OutputDeltaT := s; DeltaT := DeltaT c; EndTime := EndTime c;
     HorizontalOrder := HorizontalOrder c; VerticalOrder := VerticalOrder c |}.
Definition SetDefaultDeltaT (s : string) (c : CommandLine) :=
  {| ResolutionX := ResolutionX c; ResolutionY := ResolutionY c;
     Levels := Levels c;
     OutputDeltaT := OutputDeltaT c; DeltaT := s; EndTime := EndTime c;
     HorizontalOrder := HorizontalOrder c; VerticalOrder := VerticalOrder c |}.
Definition SetDefaultEndTime (s : string) (c : CommandLine) :=
  {| ResolutionX := ResolutionX c; ResolutionY := ResolutionY c;
     Levels := Levels c;
     OutputDeltaT := OutputDeltaT c; DeltaT := DeltaT c; EndTime := s;
     HorizontalOrder := HorizontalOrder c; VerticalOrder := VerticalOrder c |}.
Definition SetDefaultHorizontalOrder (n : Z) (c : CommandLine) :=
  {| ResolutionX := ResolutionX c; ResolutionY := ResolutionY c;
     Levels := Levels c;
     OutputDeltaT := OutputDeltaT c; DeltaT := DeltaT c; EndTime := EndTime c;
     HorizontalOrder := n; VerticalOrder := VerticalOrder c |}.
Definition SetDefaultVerticalOrder (n : Z) (c : CommandLine) :=
  {| ResolutionX := ResolutionX c; ResolutionY := ResolutionY c;
     Levels := Levels c;
     OutputDeltaT := OutputDeltaT c; DeltaT := DeltaT c; EndTime := EndTime c;
     HorizontalOrder := HorizontalOrder c; VerticalOrder := n |}.

(** The block between [BeginTempestCommandLine] and [ParseCommandLine]. *)
Definition main_defaults : CommandLine :=
  let c := BeginTempestCommandLine "ThermalBubbleCartesianTest" in
  let c := SetDefaultResolutionX 36 c in
  let c := SetDefaultResolutionY 1 c in
  let c := SetDefaultLevels 72 c in
  let c := SetDefaultOutputDeltaT "10s" c in
  let c := SetDefaultDeltaT "10000u" c in
  let c := SetDefaultEndTime "700s" c in
  let c := SetDefaultHorizontalOrder 4 c in
  SetDefaultVerticalOrder 1 c.

(** The arguments [main] hands to [TempestSetupCartesianModel]:
    the box, the reference latitude and the topography height. *)
Definition main_setup_arguments : list R * R * R :=
  (m_dGDim ThermalBubbleCartesianTest, 0, 0).

Inductive TimeUnit := Seconds | Microseconds.

Definition digit_of (c : ascii) : option Z :=
  let n := Z.of_nat (nat_of_ascii c) in
  if ((48 <=? n) && (n <=? 57))%Z then Some (n - 48)%Z else None.

(** Modelled from the spec: the [Time] class that reads the literals "10000u"
    and "700s" is in the base library, outside the translation units above.
    The scenario reads them as 10000 microseconds and 700 seconds: a run of
    decimal digits followed by one unit letter, [u] for microseconds and [s]
    for seconds. *)
Fixpoint ParseTimeLiteral_from (acc : Z) (s : string) : option (Z * TimeUnit) :=
  match s with
  | EmptyString => None
  | String c EmptyString =>
      if Ascii.eqb c "u" then Some (acc, Microseconds)
      else if Ascii.eqb c "s" then Some (acc, Seconds)
      else None
  | String c rest =>
      match digit_of c with
      | Some d => ParseTimeLiteral_from (10 * acc + d)%Z rest
      | None => None
      end
  end.

Definition ParseTimeLiteral (s : string) : option (Z * TimeUnit) :=
  ParseTimeLiteral_from 0%Z s.

End ThermalBubble.

(** ** GridPatchCartesianGLL.cpp *)

Module GridPatch.

Inductive VerticalStaggering :=
| VerticalStaggering_Levels
| VerticalStaggering_Interfaces
| VerticalStaggering_CharneyPhillips.

Definition VerticalStaggering_eqb (x y : VerticalStaggering) : bool :=
  match x, y with
  | VerticalStaggering_Levels, VerticalStaggering_Levels => true
  | VerticalStaggering_Interfaces, VerticalStaggering_Interfaces => true
  | VerticalStaggering_CharneyPhillips, VerticalStaggering_CharneyPhillips => true
  | _, _ => false
  end.

(** The data members of the patch that the three functions read or write.
    Each is a multi-dimensional array of doubles; an element is addressed by
    the member and the list of its subscripts, in source order. *)
Inductive DataArray :=
| m_dataLon | m_dataLat
| m_dataTopography | m_dataTopographyDeriv
| m_dataJacobian2D
| m_dataContraMetric2DA | m_dataContraMetric2DB
| m_dataCovMetric2DA | m_dataCovMetric2DB
| m_dataJacobian | m_dataElementArea
| m_dataContraMetricA | m_dataContraMetricB | m_dataContraMetricXi
| m_dataCovMetricA | m_dataCovMetricB | m_dataCovMetricXi
| m_dataDerivRNode
| m_dataJacobianREdge | m_dataElementAreaREdge
| m_dataContraMetricAREdge | m_dataContraMetricBREdge
| m_dataContraMetricXiREdge
| m_dataDerivRREdge
| m_dataZLevels | m_dataZInterfaces
| m_datavecStateNode | m_datavecStateREdge.

Definition DataArray_tag (a : DataArray) : nat :=
  match a with
  | m_dataLon => 0 | m_dataLat => 1
  | m_dataTopography => 2 | m_dataTopographyDeriv => 3
  | m_dataJacobian2D => 4
  | m_dataContraMetric2DA => 5 | m_dataContraMetric2DB => 6
  | m_dataCovMetric2DA => 7 | m_dataCovMetric2DB => 8
  | m_dataJacobian => 9 | m_dataElementArea => 10
  | m_dataContraMetricA => 11 | m_dataContraMetricB => 12
  | m_dataContraMetricXi => 13
  | m_dataCovMetricA => 14 | m_dataCovMetricB => 15 | m_dataCovMetricXi => 16
  | m_dataDerivRNode => 17
  | m_dataJacobianREdge => 18 | m_dataElementAreaREdge => 19
  | m_dataContraMetricAREdge => 20 | m_dataContraMetricBREdge => 21
  | m_dataContraMetricXiREdge => 22
  | m_dataDerivRREdge => 23
  | m_dataZLevels => 24 | m_dataZInterfaces => 25
  | m_datavecStateNode => 26 | m_datavecStateREdge => 27
  end%nat.

Fixpoint subscripts_eqb (x y : list nat) : bool :=
  match x, y with
  | [], [] => true
  | a :: x', b :: y' => Nat.eqb a b && subscripts_eqb x' y'
  | _, _ => false
  end.

(** One array cell: member and subscripts. *)
Definition cell_eqb (a : DataArray) (ix : list nat)
    (a' : DataArray) (ix' : list nat) : bool :=
  Nat.eqb (DataArray_tag a) (DataArray_tag a') && subscripts_eqb ix ix'.

(** The contents of all arrays of the patch. *)
Definition Store := DataArray -> list nat -> R.

(** [a[ix] = v]. *)
Definition upd (st : Store) (a : DataArray) (ix : list nat) (v : R) : Store :=
  fun a' ix' => if cell_eqb a ix a' ix' then v else st a' ix'.

(** What the patch reads from its owning grid ([m_grid]). *)
Record Grid := {
  GetVerticalStaggering     : VerticalStaggering;
  GetRElements              : nat;
  GetREtaLevel              : nat -> R;
  GetREtaInterface          : nat -> R;
  GetZtop                   : R;
  (** [EvaluateVerticalStretchF(dREta, dREtaStretch, dDxREtaStretch)]:
      the two output arguments as a pair. *)
  EvaluateVerticalStretchF  : R -> R * R;
  GetREtaLevelsNormArea     : list R;
  GetREtaInterfacesNormArea : list R
}.

(** What the patch reads from its box and from the GLL base class.  [dWL] are
    the Gauss-Lobatto weights returned by [GaussLobattoQuadrature::GetPoints]
    on [0,1] for the horizontal order. *)
Record Patch := {
  m_nHorizontalOrder : nat;
  GetATotalWidth     : nat;
  GetBTotalWidth     : nat;
  GetAInteriorBegin  : nat;
  GetBInteriorBegin  : nat;
  GetElementCountA   : nat;
  GetElementCountB   : nat;
  GetElementDeltaA   : R;
  GetElementDeltaB   : R;
  dWL                : nat -> R
}.

Section EvaluateGeometricTerms.

Variable g : Grid.
Variable p : Patch.

(** The body of the loop over model levels, lines 262-351. *)
Definition NodeTerms (i j iA iB : nat) (dZs dDaZs dDbZs : R) (k : nat)
    (st : Store) : Store :=
  let dWNode := GetREtaLevelsNormArea g in
  let dREta := GetREtaLevel g k in
  let dREtaStretch := fst (EvaluateVerticalStretchF g dREta) in
  let dDxREtaStretch := snd (EvaluateVerticalStretchF g dREta) in
  let dZ := dZs + (GetZtop g - dZs) * dREtaStretch in
  let dDaZ := (1.0 - dREtaStretch) * dDaZs in
  let dDbZ := (1.0 - dREtaStretch) * dDbZs in
  let dDxZ := (GetZtop g - dZs) * dDxREtaStretch in
  let st := upd st m_dataJacobian [k; iA; iB]%nat
              (dDxZ * st m_dataJacobian2D [iA; iB]%nat) in
  let st := upd st m_dataElementArea [k; iA; iB]%nat
              (st m_dataJacobian [k; iA; iB]%nat
               * dWL p i * GetElementDeltaA p
               * dWL p j * GetElementDeltaB p
               * nth k dWNode 0) in
  let st := upd st m_dataContraMetricA [k; iA; iB; 0]%nat
              (st m_dataContraMetric2DA [iA; iB; 0]%nat) in
  let st := upd st m_dataContraMetricA [k; iA; iB; 1]%nat
              (st m_dataContraMetric2DA [iA; iB; 1]%nat) in
  let st := upd st m_dataContraMetricA [k; iA; iB; 2]%nat (- dDaZ / dDxZ) in
  let st := upd st m_dataContraMetricB [k; iA; iB; 0]%nat
              (st m_dataContraMetric2DB [iA; iB; 0]%nat) in
  let st := upd st m_dataContraMetricB [k; iA; iB; 1]%nat
              (st m_dataContraMetric2DB [iA; iB; 1]%nat) in
  let st := upd st m_dataContraMetricB [k; iA; iB; 2]%nat (- dDbZ / dDxZ) in
  let st := upd st m_dataContraMetricXi [k; iA; iB; 0]%nat
              (st m_dataContraMetricA [k; iA; iB; 2]%nat) in
  let st := upd st m_dataContraMetricXi [k; iA; iB; 1]%nat
              (st m_dataContraMetricB [k; iA; iB; 2]%nat) in
  let st := upd st m_dataContraMetricXi [k; iA; iB; 2]%nat
              ((1.0 + dDaZ * dDaZ + dDbZ * dDbZ) / (dDxZ * dDxZ)) in
  let st := upd st m_dataCovMetricA [k; iA; iB; 0]%nat
              (st m_dataCovMetric2DA [iA; iB; 0]%nat + dDaZ * dDaZ) in
  let st := upd st m_dataCovMetricA [k; iA; iB; 1]%nat
              (st m_dataCovMetric2DA [iA; iB; 1]%nat + dDaZ * dDbZ) in
  let st := upd st m_dataCovMetricA [k; iA; iB; 2]%nat (dDaZ * dDxZ) in
  let st := upd st m_dataCovMetricB [k; iA; iB; 0]%nat
              (st m_dataCovMetric2DB [iA; iB; 0]%nat + dDbZ * dDaZ) in
  let st := upd st m_dataCovMetricB [k; iA; iB; 1]%nat
              (st m_dataCovMetric2DB [iA; iB; 1]%nat + dDbZ * dDbZ) in
  let st := upd st m_dataCovMetricB [k; iA; iB; 2]%nat (dDbZ * dDxZ) in
  let st := upd st m_dataCovMetricXi [k; iA; iB; 0]%nat (dDaZ * dDxZ) in
  let st := upd st m_dataCovMetricXi [k; iA; iB; 1]%nat (dDbZ * dDxZ) in
  let st := upd st m_dataCovMetricXi [k; iA; iB; 2]%nat (dDxZ * dDxZ) in
  let st := upd st m_dataDerivRNode [k; iA; iB; 0]%nat dDaZ in
  let st := upd st m_dataDerivRNode [k; iA; iB; 1]%nat dDbZ in
  upd st m_dataDerivRNode [k; iA; iB; 2]%nat dDxZ.

(** The height [dZ] that [NodeTerms] computes at level [k] (line 278); it is
    a local of the loop body and is not stored. *)
Definition NodeTerms_dZ (dZs : R) (k : nat) : R :=
  let dREtaStretch := fst (EvaluateVerticalStretchF g (GetREtaLevel g k)) in
  dZs + (GetZtop g - dZs) * dREtaStretch.

(** The body of the loop over model interfaces, lines 353-430. *)
Definition REdgeTerms (i j iA iB : nat) (dZs dDaZs dDbZs : R) (k : nat)
    (st : Store) : Store :=
  let dWREdge := GetREtaInterfacesNormArea g in
  let dREta := GetREtaInterface g k in
  let dREtaStretch := fst (EvaluateVerticalStretchF g dREta) in
  let dDxREtaStretch := snd (EvaluateVerticalStretchF g dREta) in
  let dDaZ := (1.0 - dREtaStretch) * dDaZs in
  let dDbZ := (1.0 - dREtaStretch) * dDbZs in
  let dDxZ := (GetZtop g - dZs) * dDxREtaStretch in
  let st := upd st m_dataJacobianREdge [k; iA; iB]%nat
              (dDxZ * st m_dataJacobian2D [iA; iB]%nat) in
  let st := upd st m_dataElementAreaREdge [k; iA; iB]%nat
              (st m_dataJacobianREdge [k; iA; iB]%nat
               * dWL p i * GetElementDeltaA p
               * dWL p j * GetElementDeltaB p
               * nth k dWREdge 0) in
  let st := upd st m_dataContraMetricAREdge [k; iA; iB; 0]%nat
              (st m_dataContraMetric2DA [iA; iB; 0]%nat) in
  let st := upd st m_dataContraMetricAREdge [k; iA; iB; 1]%nat
              (st m_dataContraMetric2DA [iA; iB; 1]%nat) in
  let st := upd st m_dataContraMetricAREdge [k; iA; iB; 2]%nat (- dDaZ / dDxZ) in
  let st := upd st m_dataContraMetricBREdge [k; iA; iB; 0]%nat
              (st m_dataContraMetric2DB [iA; iB; 0]%nat) in
  let st := upd st m_dataContraMetricBREdge [k; iA; iB; 1]%nat
              (st m_dataContraMetric2DB [iA; iB; 1]%nat) in
  let st := upd st m_dataContraMetricBREdge [k; iA; iB; 2]%nat (- dDbZ / dDxZ) in
  let st := upd st m_dataContraMetricXiREdge [k; iA; iB; 0]%nat (- dDaZ / dDxZ) in
  let st := upd st m_dataContraMetricXiREdge [k; iA; iB; 1]%nat (- dDbZ / dDxZ) in
  let st := upd st m_dataContraMetricXiREdge [k; iA; iB; 2]%nat
              ((1.0 + dDaZ * dDaZ + dDbZ * dDbZ) / (dDxZ * dDxZ)) in
  let st := upd st m_dataDerivRREdge [k; iA; iB; 0]%nat dDaZ in
  let st := upd st m_dataDerivRREdge [k; iA; iB; 1]%nat dDbZ in
  upd st m_dataDerivRREdge [k; iA; iB; 2]%nat dDxZ.

(** The horizontal metric of the node [iA], [iB], lines 244-259. *)
Definition Metric2DTerms (iA iB : nat) (st : Store) : Store :=
  let st := upd st m_dataJacobian2D [iA; iB] 1.0 in
  let st := upd st m_dataContraMetric2DA [iA; iB; 0]%nat 1.0 in
  let st := upd st m_dataContraMetric2DA [iA; iB; 1]%nat 0.0 in
  let st := upd st m_dataContraMetric2DB [iA; iB; 0]%nat 0.0 in
  let st := upd st m_dataContraMetric2DB [iA; iB; 1]%nat 1.0 in
  let st := upd st m_dataCovMetric2DA [iA; iB; 0]%nat 1.0 in
  let st := upd st m_dataCovMetric2DA [iA; iB; 1]%nat 0.0 in
  let st := upd st m_dataCovMetric2DB [iA; iB; 0]%nat 0.0 in
  upd st m_dataCovMetric2DB [iA; iB; 1]%nat 1.0.

(** The body of the loops over the nodes [i], [j] of element [a], [b],
    lines 232-431. *)
Definition ElementNodeTerms (a b i j : nat) (st : Store) : Store :=
  let iElementA := (GetAInteriorBegin p + a * m_nHorizontalOrder p)%nat in
  let iElementB := (GetBInteriorBegin p + b * m_nHorizontalOrder p)%nat in
  let iA := (iElementA + i)%nat in
  let iB := (iElementB + j)%nat in
  let dZs := st m_dataTopography [iA; iB] in
  let dDaZs := st m_dataTopographyDeriv [0; iA; iB]%nat in
  let dDbZs := st m_dataTopographyDeriv [1; iA; iB]%nat in
  let st := Metric2DTerms iA iB st in
  let st := for_loop (GetRElements g)
              (NodeTerms i j iA iB dZs dDaZs dDbZs) st in
  for_loop (GetRElements g + 1)
    (REdgeTerms i j iA iB dZs dDaZs dDbZs) st.

(** Left-to-right accumulation [sum += w[k]] from [0.0]. *)
Definition NormAreaSum (w : list R) : R := fold_left Rplus w 0.0.

(** [EvaluateGeometricTerms].  The Coriolis values [dy0], [dfp], [dbetap] are
    computed and never used (the loop that would store them is commented
    out), so they do not appear.  The exception message carries the offending
    sum in the source; here only its fixed text. *)
Definition EvaluateGeometricTerms (st : Store) : Result Store :=
  let dWNode := GetREtaLevelsNormArea g in
  let dWREdge := GetREtaInterfacesNormArea g in
  let dWNodeSum := NormAreaSum dWNode in
  if Rgt_dec (Rabs (dWNodeSum - 1.0)) 1.0e-13 then
    Exception "Error in normalized areas"
  else if negb (VerticalStaggering_eqb (GetVerticalStaggering g)
                  VerticalStaggering_Interfaces)
          && (if Rgt_dec (Rabs (NormAreaSum dWREdge - 1.0)) 1.0e-13
              then true else false)
  then
    Exception "Error in normalized areas"
  else
    Ok (for_loop (GetElementCountA p) (fun a =>
        for_loop (GetElementCountB p) (fun b =>
        for_loop (m_nHorizontalOrder p) (fun i =>
        for_loop (m_nHorizontalOrder p) (fun j =>
          ElementNodeTerms a b i j)))) st).

End EvaluateGeometricTerms.

(** What [EvaluateTestCase] and [EvaluateTopography] call on the test case
    (the [PhysicalConstants] argument is fixed inside). *)
Record TestCase := {
  EvaluateTopography_at : R -> R -> R
}.

Section EvaluateTestCase.

Variable g : Grid.
Variable p : Patch.
Variable test : TestCase.

(** The first loop nest of [EvaluateTopography], lines 108-120.  The second
    nest (lines 130-162) fills [m_dataTopographyDeriv] from the spectral
    derivative matrix of the grid and touches no height array. *)
Definition EvaluateTopography_values (GetANode GetBNode : nat -> R)
    (st : Store) : Result Store :=
  for_loopM (GetATotalWidth p) (fun i =>
  for_loopM (GetBTotalWidth p) (fun j st =>
    let dX := GetANode i in
    let dY := GetBNode j in
    let st := upd st m_dataTopography [i; j]%nat
                (EvaluateTopography_at test dX dY) in
    if Rge_dec (st m_dataTopography [i; j]%nat) (GetZtop g) then
      Exception "TestCase topography exceeds model top."
    else Ok st)) st.

(** The body of the loop nest of [EvaluateTestCase] that fills the cached
    heights, lines 469-491. *)
Definition EvaluateTestCase_column (i j : nat) (st : Store) : Result Store :=
  let st := upd st m_dataTopography [i; j]%nat
              (EvaluateTopography_at test
                 (st m_dataLon [i; j]%nat) (st m_dataLat [i; j]%nat)) in
  if Rge_dec (st m_dataTopography [i; j]%nat) (GetZtop g) then
    Exception "TestCase topography exceeds model top."
  else
    let st := for_loop (GetRElements g) (fun k st =>
                upd st m_dataZLevels [k; i; j]%nat
                  (st m_dataTopography [i; j]%nat
                   + GetREtaLevel g k
                     * (GetZtop g - st m_dataTopography [i; j]%nat))) st in
    Ok (for_loop (GetRElements g + 1) (fun k st =>
          upd st m_dataZInterfaces [k; i; j]%nat
            (st m_dataTopography [i; j]%nat
             + GetREtaInterface g k
               * (GetZtop g - st m_dataTopography [i; j]%nat))) st).

(** What [EvaluateTestCase_column] stores when its check passes. *)
Definition EvaluateTestCase_column_stores (i j : nat) (st : Store) : Store :=
  let st := upd st m_dataTopography [i; j]%nat
              (EvaluateTopography_at test
                 (st m_dataLon [i; j]%nat) (st m_dataLat [i; j]%nat)) in
  let st := for_loop (GetRElements g) (fun k st =>
              upd st m_dataZLevels [k; i; j]%nat
                (st m_dataTopography [i; j]%nat
                 + GetREtaLevel g k
                   * (GetZtop g - st m_dataTopography [i; j]%nat))) st in
  for_loop (GetRElements g + 1) (fun k st =>
    upd st m_dataZInterfaces [k; i; j]%nat
      (st m_dataTopography [i; j]%nat
       + GetREtaInterface g k
         * (GetZtop g - st m_dataTopography [i; j]%nat))) st.

(** The part of [EvaluateTestCase] that initialises the topography and the
    heights [m_dataZLevels], [m_dataZInterfaces] (lines 466-507).  The code
    before it validates [iDataIndex] and calls [EvaluateTopography]; the code
    after it samples the test case at the heights stored here and does not
    write them again. *)
Definition EvaluateTestCase_heights (st : Store) : Result Store :=
  for_loopM (GetATotalWidth p) (fun i =>
  for_loopM (GetBTotalWidth p) (fun j =>
    EvaluateTestCase_column i j)) st.

End EvaluateTestCase.

Section ApplyBoundaryConditions.

Variable g : Grid.
Variable p : Patch.

(** The preprocessor symbol of [Defines.h]. *)
Variable USE_COVARIANT_VELOCITIES : bool.

(** [GridPatch::CalculateNoFlowUrNode(k, i, j, dUa, dUb)], a const member of
    the base class defined in another translation unit; it sees the arrays
    of the patch. *)
Variable CalculateNoFlowUrNode : Store -> nat -> nat -> nat -> R -> R -> R.

Definition UIx : nat := 0.
Definition VIx : nat := 1.
Definition TIx : nat := 2.
Definition WIx : nat := 3.
Definition RIx : nat := 4.

(** The loop body of the [VerticalStaggering_Interfaces] branch. *)
Definition NoFlow_Interfaces (iDataIndex i j : nat) (st : Store) : Store :=
  if USE_COVARIANT_VELOCITIES then
    upd st m_datavecStateNode [iDataIndex; WIx; 0; i; j]%nat
      (- (st m_dataContraMetricXi [0; i; j; 0]%nat
            * st m_datavecStateNode [iDataIndex; UIx; 0; i; j]%nat
          + st m_dataContraMetricXi [0; i; j; 1]%nat
            * st m_datavecStateNode [iDataIndex; VIx; 0; i; j]%nat)
       / st m_dataContraMetricXi [0; i; j; 2]%nat
       / st m_dataDerivRNode [0; i; j; 2]%nat)
  else
    upd st m_datavecStateNode [iDataIndex; WIx; 0; i; j]%nat
      (CalculateNoFlowUrNode st 0 i j
         (st m_datavecStateNode [iDataIndex; UIx; 0; i; j]%nat)
         (st m_datavecStateNode [iDataIndex; VIx; 0; i; j]%nat)).

(** The loop body of the final [else] branch (Charney-Phillips). *)
Definition NoFlow_CharneyPhillips (iDataIndex i j : nat) (st : Store)
    : Store :=
  if USE_COVARIANT_VELOCITIES then
    upd st m_datavecStateREdge [iDataIndex; WIx; 0; i; j]%nat
      (- (st m_dataContraMetricXi [0; i; j; 0]%nat
            * st m_datavecStateNode [iDataIndex; UIx; 0; i; j]%nat
          + st m_dataContraMetricXi [0; i; j; 1]%nat
            * st m_datavecStateNode [iDataIndex; VIx; 0; i; j]%nat)
       / st m_dataContraMetricXi [0; i; j; 2]%nat
       / st m_dataDerivRNode [0; i; j; 2]%nat)
  else
    upd st m_datavecStateNode [iDataIndex; WIx; 0; i; j]%nat
      (CalculateNoFlowUrNode st 0 i j
         (st m_datavecStateNode [iDataIndex; UIx; 0; i; j]%nat)
         (st m_datavecStateNode [iDataIndex; VIx; 0; i; j]%nat)).

(** [ApplyBoundaryConditions(iDataIndex, eDataType)]; the second argument is
    not read. *)
Definition ApplyBoundaryConditions (iDataIndex : nat) (st : Store)
    : Result Store :=
  match GetVerticalStaggering g with
  | VerticalStaggering_Levels =>
      Exception "Not implemented"
  | VerticalStaggering_Interfaces =>
      Ok (for_loop (GetATotalWidth p) (fun i =>
          for_loop (GetBTotalWidth p) (fun j =>
            NoFlow_Interfaces iDataIndex i j)) st)
  | VerticalStaggering_CharneyPhillips =>
      Ok (for_loop (GetATotalWidth p) (fun i =>
          for_loop (GetBTotalWidth p) (fun j =>
            NoFlow_CharneyPhillips iDataIndex i j)) st)
  end.

End ApplyBoundaryConditions.

(** *** InitializeDataLocal and EvaluateTopography *)

Section Topography.

Variable g : Grid.
Variable p : Patch.

(** [m_box.GetANode(i)] and [m_box.GetBNode(j)]: the coordinates of the
    nodes of the patch box. *)
Variables GetANode GetBNode : nat -> R.

(** [InitializeDataLocal], lines 71-98.  The call of the base class
    [GridPatch::InitializeDataLocal] allocates the arrays, which the store
    already holds.  The result is the store and the scale height [m_dSL];
    [dTopoHeight] is the member [m_dTopoHeight] set by the constructor. *)
Definition InitializeDataLocal (dTopoHeight : R) (st : Store)
    : Result (Store * R) :=
  let st :=
    for_loop (GetATotalWidth p) (fun i =>
    for_loop (GetBTotalWidth p) (fun j st =>
      let st := upd st m_dataLon [i; j]%nat (GetANode i) in
      upd st m_dataLat [i; j]%nat (GetBNode j))) st in
  let m_dSL := 10.0 * dTopoHeight in
  if Rge_dec m_dSL (GetZtop g) then
    Exception "Coordinate scale height exceeds model top."
  else Ok (st, m_dSL).

Variable test : TestCase.

(** [gridCartesianGLL.GetDxBasis1D()]: the derivatives of the basis
    functions of an element at its nodes, from the grid. *)
Variable dDxBasis1D : nat -> nat -> R.

(** The body of the loop nest over the nodes of the elements in
    [EvaluateTopography], lines 136-160. *)
Definition TopographyDerivTerms (a b i j : nat) (st : Store) : Store :=
  let iElementA := (GetAInteriorBegin p + a * m_nHorizontalOrder p)%nat in
  let iElementB := (GetBInteriorBegin p + b * m_nHorizontalOrder p)%nat in
  let iA := (iElementA + i)%nat in
  let iB := (iElementB + j)%nat in
  let sums :=
    for_loop (m_nHorizontalOrder p) (fun s (d : R * R) =>
      (fst d + dDxBasis1D s i * st m_dataTopography [iElementA + s; iB]%nat,
       snd d + dDxBasis1D s j * st m_dataTopography [iA; iElementB + s]%nat))
      (0.0, 0.0) in
  let dDaZs := fst sums / GetElementDeltaA p in
  let dDbZs := snd sums / GetElementDeltaB p in
  let st := upd st m_dataTopographyDeriv [0; iA; iB]%nat dDaZs in
  upd st m_dataTopographyDeriv [1; iA; iB]%nat dDbZs.

(** [EvaluateTopography(test)], lines 102-163: the values at all nodes of
    the box, then the derivatives at the nodes of the elements. *)
Definition EvaluateTopography (st : Store) : Result Store :=
  bind (EvaluateTopography_values g p test GetANode GetBNode st) (fun st =>
    Ok (for_loop (GetElementCountA p) (fun a =>
        for_loop (GetElementCountB p) (fun b =>
        for_loop (m_nHorizontalOrder p) (fun i =>
        for_loop (m_nHorizontalOrder p) (fun j =>
          TopographyDerivTerms a b i j)))) st)).

End Topography.

(** *** ComputeCurlAndDiv and ComputeVorticityDivergence *)

(** A [GridData3D] indexed by level and node, and a [DataMatrix]. *)
Definition GridData3D := nat -> nat -> nat -> R.
Definition DataMatrix := nat -> nat -> R.

Definition set3D (f : GridData3D) (k i j : nat) (v : R) : GridData3D :=
  fun k' i' j' =>
    if Nat.eqb k' k && Nat.eqb i' i && Nat.eqb j' j then v else f k' i' j'.

Definition setMatrix (M : DataMatrix) (i j : nat) (v : R) : DataMatrix :=
  fun i' j' => if Nat.eqb i' i && Nat.eqb j' j then v else M i' j'.

(** What [ComputeCurlAndDiv] writes: the two diagnostic arrays of the patch
    and its two work matrices. *)
Record CurlAndDiv := {
  m_dataVorticity  : GridData3D;
  m_dataDivergence : GridData3D;
  dConUa           : DataMatrix;
  dConUb           : DataMatrix
}.

Section ComputeCurlAndDiv.

Variable g : Grid.
Variable p : Patch.

(** [gridCSGLL.GetDxBasis1D()], and from the box of the patch
    [GetAInteriorWidth()], [GetBInteriorWidth()] and [GetHaloElements()]. *)
Variable dDxBasis1D : nat -> nat -> R.
Variables GetAInteriorWidth GetBInteriorWidth GetHaloElements : nat.

(** The first loop nest over the nodes of an element, lines 850-864. *)
Definition ContravariantVelocity (st : Store) (dataUa dataUb : GridData3D)
    (k iA iB i j : nat) (d : CurlAndDiv) : CurlAndDiv :=
  let d :=
    {| m_dataVorticity := m_dataVorticity d;
       m_dataDivergence := m_dataDivergence d;
       dConUa := setMatrix (dConUa d) i j
         (st m_dataContraMetric2DA [iA + i; iB + j; 0]%nat
            * dataUa k (iA + i)%nat (iB + j)%nat
          + st m_dataContraMetric2DA [iA + i; iB + j; 1]%nat
            * dataUb k (iA + i)%nat (iB + j)%nat);
       dConUb := dConUb d |} in
  {| m_dataVorticity := m_dataVorticity d;
     m_dataDivergence := m_dataDivergence d;
     dConUa := dConUa d;
     dConUb := setMatrix (dConUb d) i j
       (st m_dataContraMetric2DB [iA + i; iB + j; 0]%nat
          * dataUa k (iA + i)%nat (iB + j)%nat
        + st m_dataContraMetric2DB [iA + i; iB + j; 1]%nat
          * dataUb k (iA + i)%nat (iB + j)%nat) |}.

(** The four sums over [s] of the second loop nest, lines 871-892, in the
    order [dDaJUa], [dDbJUb], [dCovDaUb], [dCovDbUa]. *)
Definition NodeDerivatives (st : Store) (dataUa dataUb : GridData3D)
    (k iA iB i j : nat) (d : CurlAndDiv) : R * R * R * R :=
  for_loop (m_nHorizontalOrder p) (fun s (acc : R * R * R * R) =>
    let '(dDaJUa, dDbJUb, dCovDaUb, dCovDbUa) := acc in
    (dDaJUa + dDxBasis1D s i
              * st m_dataJacobian2D [iA + s; iB + j]%nat
              * dConUa d s j,
     dDbJUb + dDxBasis1D s j
              * st m_dataJacobian2D [iA + i; iB + s]%nat
              * dConUb d i s,
     dCovDaUb + dDxBasis1D s i * dataUb k (iA + s)%nat (iB + j)%nat,
     dCovDbUa + dDxBasis1D s j * dataUa k (iA + i)%nat (iB + s)%nat))
    (0.0, 0.0, 0.0, 0.0).

(** The second loop nest over the nodes of an element, lines 867-905. *)
Definition CurlAndDivAtNode (st : Store) (dataUa dataUb : GridData3D)
    (k iA iB i j : nat) (d : CurlAndDiv) : CurlAndDiv :=
  let '(dDaJUa, dDbJUb, dCovDaUb, dCovDbUa) :=
    NodeDerivatives st dataUa dataUb k iA iB i j d in
  let dDaJUa := dDaJUa / GetElementDeltaA p in
  let dDbJUb := dDbJUb / GetElementDeltaB p in
  let dCovDaUb := dCovDaUb / GetElementDeltaA p in
  let dCovDbUa := dCovDbUa / GetElementDeltaB p in
  let d :=
    {| m_dataVorticity := set3D (m_dataVorticity d) k (iA + i) (iB + j)
         ((dCovDaUb - dCovDbUa) / st m_dataJacobian2D [iA + i; iB + j]%nat);
       m_dataDivergence := m_dataDivergence d;
       dConUa := dConUa d;
       dConUb := dConUb d |} in
  {| m_dataVorticity := m_dataVorticity d;
     m_dataDivergence := set3D (m_dataDivergence d) k (iA + i) (iB + j)
       ((dDaJUa + dDbJUb) / st m_dataJacobian2D [iA + i; iB + j]%nat);
     dConUa := dConUa d;
     dConUb := dConUb d |}.

(** The body of the loop over levels and elements, lines 841-939. *)
Definition CurlAndDivOfElement (st : Store) (dataUa dataUb : GridData3D)
    (k a b : nat) (d : CurlAndDiv) : CurlAndDiv :=
  let iA := (a * m_nHorizontalOrder p + GetHaloElements)%nat in
  let iB := (b * m_nHorizontalOrder p + GetHaloElements)%nat in
  let d :=
    for_loop (m_nHorizontalOrder p) (fun i =>
    for_loop (m_nHorizontalOrder p) (fun j =>
      ContravariantVelocity st dataUa dataUb k iA iB i j)) d in
  for_loop (m_nHorizontalOrder p) (fun i =>
  for_loop (m_nHorizontalOrder p) (fun j =>
    CurlAndDivAtNode st dataUa dataUb k iA iB i j)) d.

(** [ComputeCurlAndDiv(dataUa, dataUb)], lines 821-940.  The two work
    matrices are allocated by the function, which a [DataMatrix] does with
    zeros; the diagnostic arrays are those of the patch. *)
Definition ComputeCurlAndDiv (st : Store) (dataUa dataUb : GridData3D)
    (d : CurlAndDiv) : CurlAndDiv :=
  let nAFiniteElements := (GetAInteriorWidth / m_nHorizontalOrder p)%nat in
  let nBFiniteElements := (GetBInteriorWidth / m_nHorizontalOrder p)%nat in
  let d :=
    {| m_dataVorticity := m_dataVorticity d;
       m_dataDivergence := m_dataDivergence d;
       dConUa := fun _ _ => 0.0;
       dConUb := fun _ _ => 0.0 |} in
  for_loop (GetRElements g) (fun k =>
  for_loop nAFiniteElements (fun a =>
  for_loop nBFiniteElements (fun b =>
    CurlAndDivOfElement st dataUa dataUb k a b))) d.

(** [ComputeVorticityDivergence(iDataIndex)], lines 944-967: the first two
    components of the state on nodes are the velocities; [nComponents] is
    [dataState.GetComponents()]. *)
Definition ComputeVorticityDivergence (nComponents iDataIndex : nat)
    (st : Store) (d : CurlAndDiv) : Result CurlAndDiv :=
  if Nat.ltb nComponents 2 then
    Exception "Insufficient components for vorticity calculation"
  else
    let dataUa : GridData3D := fun k i j =>
      st m_datavecStateNode [iDataIndex; 0; k; i; j]%nat in
    let dataUb : GridData3D := fun k i j =>
      st m_datavecStateNode [iDataIndex; 1; k; i; j]%nat in
    Ok (ComputeCurlAndDiv st dataUa dataUb d).

End ComputeCurlAndDiv.

(** The node indices the element loops of [ComputeCurlAndDiv] visit in one
    direction: [GetHaloElements() + a * m_nHorizontalOrder + i] for the
    elements [a] below [width / m_nHorizontalOrder] and [i] below the
    order. *)
Definition InElements (p : Patch) (width halo I : nat) : Prop :=
  (halo <= I < halo + (width / m_nHorizontalOrder p) * m_nHorizontalOrder p)%nat.

(** *** Reading the cached metric *)

Inductive DataLocation := DataLocation_Node | DataLocation_REdge.

(** Row [r] (0 = A, 1 = B, 2 = Xi), column [c] of the stored contravariant
    metric at a node or an interface. *)
Definition ContraMetric (st : Store) (loc : DataLocation) (k i j r c : nat)
    : R :=
  match loc, r with
  | DataLocation_Node, O => st m_dataContraMetricA [k; i; j; c]%nat
  | DataLocation_Node, S O => st m_dataContraMetricB [k; i; j; c]%nat
  | DataLocation_Node, _ => st m_dataContraMetricXi [k; i; j; c]%nat
  | DataLocation_REdge, O => st m_dataContraMetricAREdge [k; i; j; c]%nat
  | DataLocation_REdge, S O => st m_dataContraMetricBREdge [k; i; j; c]%nat
  | DataLocation_REdge, _ => st m_dataContraMetricXiREdge [k; i; j; c]%nat
  end.

(** The stored covariant metric.  [EvaluateGeometricTerms] fills
    [m_dataCovMetricA], [m_dataCovMetricB], [m_dataCovMetricXi] on model
    levels only: the loop over interfaces (lines 353-430) stores no covariant
    component, so there is nothing to read at an interface. *)
Definition CovMetric (st : Store) (loc : DataLocation) (k i j r c : nat)
    : option R :=
  match loc, r with
  | DataLocation_Node, O => Some (st m_dataCovMetricA [k; i; j; c]%nat)
  | DataLocation_Node, S O => Some (st m_dataCovMetricB [k; i; j; c]%nat)
  | DataLocation_Node, _ => Some (st m_dataCovMetricXi [k; i; j; c]%nat)
  | DataLocation_REdge, _ => None
  end.

Definition Jacobian (st : Store) (loc : DataLocation) (k i j : nat) : R :=
  match loc with
  | DataLocation_Node => st m_dataJacobian [k; i; j]%nat
  | DataLocation_REdge => st m_dataJacobianREdge [k; i; j]%nat
  end.

Definition DerivR (st : Store) (loc : DataLocation) (k i j c : nat) : R :=
  match loc with
  | DataLocation_Node => st m_dataDerivRNode [k; i; j; c]%nat
  | DataLocation_REdge => st m_dataDerivRREdge [k; i; j; c]%nat
  end.

(** The covariant metric of the terrain-following map with derivatives
    [dDaZ], [dDbZ], [dDxZ] over the Cartesian plane: the expressions of lines
    326-345, as a function of the derivatives. *)
Definition CovMetric_of_DerivR (dDaZ dDbZ dDxZ : R) (r c : nat) : R :=
  match r, c with
  | O, O => 1.0 + dDaZ * dDaZ
  | O, S O => 0.0 + dDaZ * dDbZ
  | O, _ => dDaZ * dDxZ
  | S O, O => 0.0 + dDbZ * dDaZ
  | S O, S O => 1.0 + dDbZ * dDbZ
  | S O, _ => dDbZ * dDxZ
  | _, O => dDaZ * dDxZ
  | _, S O => dDbZ * dDxZ
  | _, _ => dDxZ * dDxZ
  end.

Definition delta (a c : nat) : R := if Nat.eqb a c then 1 else 0.

(** The reference coordinate of level or interface [k], and how many of
    them the loops of [EvaluateGeometricTerms] visit. *)
Definition REta_at (g : Grid) (loc : DataLocation) (k : nat) : R :=
  match loc with
  | DataLocation_Node => GetREtaLevel g k
  | DataLocation_REdge => GetREtaInterface g k
  end.

Definition levels_at (g : Grid) (loc : DataLocation) : nat :=
  match loc with
  | DataLocation_Node => GetRElements g
  | DataLocation_REdge => (GetRElements g + 1)%nat
  end.

(** The node of element [a] (or [b]) with local index [i] (or [j]). *)
Definition NodeIndex (iBegin nOrder a i : nat) : nat :=
  (iBegin + a * nOrder + i)%nat.


End GridPatch.

(** ** LinearColumnOperatorFEM.cpp *)

Module ColumnOperator.

(** *** Polynomial kernels *)

Fixpoint sumR (n : nat) (f : nat -> R) : R :=
  match n with
  | O => 0
  | S m => sumR m f + f m
  end.

Fixpoint prodR (n : nat) (f : nat -> R) : R :=
  match n with
  | O => 1
  | S m => prodR m f * f m
  end.

(** The derivative of [prodR n f] when [f'] are the derivatives of the
    factors (product rule, factor by factor). *)
Fixpoint dprodR (n : nat) (f f' : nat -> R) : R :=
  match n with
  | O => 0
  | S m => dprodR m f f' * f m + prodR m f * f' m
  end.

(** A pointer [&(v[off])] into a vector. *)
Definition ptr (v : list R) (off : nat) : nat -> R :=
  fun i => nth (off + i) v 0.

(** Modelled from the spec: [PolynomialInterp::LagrangianPolynomialCoeffs]
    is in the base library, outside the translation units above.  Section 4.1
    describes it as the Lagrangian interpolation coefficients L_i(x) at an
    arbitrary x given n sample points: L_i(x) is the product over j <> i of
    (x - x_j) / (x_i - x_j).  The result stands for the [nPoints] cells the
    C++ function writes through its output pointer. *)
Definition LagrangianPolynomialCoeffs (nPoints : nat) (dX : nat -> R)
    (dXsample : R) : nat -> R :=
  fun i =>
    prodR nPoints (fun j =>
      if Nat.eqb j i then 1 else (dXsample - dX j) / (dX i - dX j)).

(** Modelled from the spec: [PolynomialInterp::DiffLagrangianPolynomialCoeffs]
    is in the base library as well.  Section 4.1 describes it as the
    derivative coefficients L'_i(x): the derivative in x of the product
    above. *)
Definition DiffLagrangianPolynomialCoeffs (nPoints : nat) (dX : nat -> R)
    (dXsample : R) : nat -> R :=
  fun i =>
    dprodR nPoints
      (fun j => if Nat.eqb j i then 1 else (dXsample - dX j) / (dX i - dX j))
      (fun j => if Nat.eqb j i then 0 else 1 / (dX i - dX j)).

(** The nodes [X 0 .. X (n-1)] are pairwise distinct. *)
Definition distinct_nodes (n : nat) (X : nat -> R) : Prop :=
  forall i j, (i < n)%nat -> (j < n)%nat -> i <> j -> X i <> X j.

(** A vector of reference coordinates in strictly increasing order. *)
Definition StrictlyIncreasing (v : list R) : Prop :=
  forall i j, (i < j)%nat -> (j < length v)%nat -> nth i v 0 < nth j v 0.

(** *** One row of [m_dCoeff] and the loops over it *)

Definition set (r : nat -> R) (k : nat) (v : R) : nat -> R :=
  fun m => if Nat.eqb m k then v else r m.

(** The row that holds [v 0 .. v (n-1)] in the cells [off .. off+n-1] and
    zero elsewhere. *)
Definition window (off n : nat) (v : nat -> R) : nat -> R :=
  fun m => if Nat.leb off m && Nat.ltb m (off + n) then v (m - off)%nat else 0.

(** A kernel called with output pointer [&(r[off])]: it fills [n] cells. *)
Definition write_coeffs (off n : nat) (v : nat -> R) (r : nat -> R)
    : nat -> R :=
  for_loop n (fun i r => set r (off + i) (v i)) r.

(** [for (k = lo; k < lo + n; k++) r[k] *= c]. *)
Definition scale_coeffs (lo n : nat) (c : R) (r : nat -> R) : nat -> R :=
  for_loop n (fun k r => set r (lo + k) (r (lo + k)%nat * c)) r.

(** [for (k = lo; k < lo + n; k++) r[k] /= c]. *)
Definition divide_coeffs (lo n : nat) (c : R) (r : nat -> R) : nat -> R :=
  for_loop n (fun k r => set r (lo + k) (r (lo + k)%nat / c)) r.

(** [for (k = 0; k < n; k++) r[off + k] += c * v[k]]. *)
Definition add_coeffs (off n : nat) (c : R) (v : nat -> R) (r : nat -> R)
    : nat -> R :=
  for_loop n (fun k r => set r (off + k) (r (off + k)%nat + c * v k)) r.

(** [for (k = 0; k < n; k++) r[off + k] -= c * v[k]]. *)
Definition sub_coeffs (off n : nat) (c : R) (v : nat -> R) (r : nat -> R)
    : nat -> R :=
  for_loop n (fun k r => set r (off + k) (r (off + k)%nat - c * v k)) r.

(** [for (k = 0; k < n; k++) { r[o1 + k] += c * v1[k]; r[o2 + k] -= c * v2[k]; }] *)
Definition add_sub_coeffs (o1 o2 n : nat) (c : R) (v1 v2 : nat -> R)
    (r : nat -> R) : nat -> R :=
  for_loop n (fun k r =>
    let r := set r (o1 + k) (r (o1 + k)%nat + c * v1 k) in
    set r (o2 + k) (r (o2 + k)%nat - c * v2 k)) r.

Record Row := {
  coeff  : nat -> R;
  iBegin : nat;
  iEnd   : nat
}.

(** Modelled from the spec: [LinearColumnOperator::Initialize(nIn, nOut)] is
    in LinearColumnOperator.cpp, outside the translation units above.  It
    allocates the coefficient matrix and the two bound vectors; a freshly
    initialised [DataMatrix] holds zeros. *)
Definition ZeroRow : Row := {| coeff := fun _ => 0; iBegin := 0; iEnd := 0 |}.

Record LinearColumnOperator := {
  nRowsIn  : nat;
  nRowsOut : nat;
  rows     : nat -> Row
}.

Definition Initialize_LinearColumnOperator (nIn nOut : nat)
    : LinearColumnOperator :=
  {| nRowsIn := nIn; nRowsOut := nOut; rows := fun _ => ZeroRow |}.

Definition set_row (op : LinearColumnOperator) (l : nat) (r : Row)
    : LinearColumnOperator :=
  {| nRowsIn := nRowsIn op; nRowsOut := nRowsOut op;
     rows := fun m => if Nat.eqb m l then r else rows op m |}.

Definition m_dCoeff (op : LinearColumnOperator) (l k : nat) : R :=
  coeff (rows op l) k.

(** Modelled from the spec: [LinearColumnOperator::ComposeWith] is in
    LinearColumnOperator.cpp.  Section 3 says that compositions are dense
    matrix products: this operator applied after [op2]. *)
Definition ComposeWith (op op2 : LinearColumnOperator)
    : LinearColumnOperator :=
  {| nRowsIn := nRowsIn op2;
     nRowsOut := nRowsOut op;
     rows := fun l =>
       {| coeff := fun k =>
            sumR (nRowsIn op) (fun m => m_dCoeff op l m * m_dCoeff op2 m k);
          iBegin := 0;
          iEnd := nRowsIn op2 |} |}.

(** The sum of the coefficients of row [l]: the operator applied to the
    constant column 1. *)
Definition RowSum (op : LinearColumnOperator) (l : nat) : R :=
  sumR (nRowsIn op) (m_dCoeff op l).

Inductive InterpSource := InterpSource_Levels | InterpSource_Interfaces.

Definition ParamEpsilon : R := 1.0e-12.

(** The search loop shared by all the [Initialize] functions:
<<
    for (a = 0; a < nFiniteElements - 1; a++) {
        double dNextREtaREdgeIn = dREtaREdge[(a+1) * stride] - ParamEpsilon;
        if (dREtaOut[l] < dNextREtaREdgeIn) break;
        if (dREtaOut[l] < dNextREtaREdgeIn + 2.0 * ParamEpsilon) {
            fOnREdge = true; break;
        }
    }
>>
    [fuel] counts the iterations left; the result is [(a, fOnREdge)]. *)
Fixpoint FindElement (dREtaREdge : list R) (stride : nat) (dOut : R)
    (fuel a : nat) : nat * bool :=
  match fuel with
  | O => (a, false)
  | S fuel' =>
      let dNextREtaREdgeIn := nth ((a + 1) * stride) dREtaREdge 0
                              - ParamEpsilon in
      if Rlt_dec dOut dNextREtaREdgeIn then (a, false)
      else if Rlt_dec dOut (dNextREtaREdgeIn + 2.0 * ParamEpsilon)
      then (a, true)
      else FindElement dREtaREdge stride dOut fuel' (S a)
  end.

(** Element edges that the search loop can tell apart: any two of them are
    more than [ParamEpsilon] apart. *)
Definition SeparatedEdges (v : list R) : Prop :=
  forall i j, (i < j)%nat -> (j < length v)%nat ->
    nth i v 0 + ParamEpsilon < nth j v 0.

(** The error weights of the two sides of an interior element edge. *)
Definition dWeightL (dDeltaREtaL dDeltaREtaR : R) (nOrder : nat) : R :=
  let dErrorL := c_pow dDeltaREtaL (INR nOrder) in
  let dErrorR := c_pow dDeltaREtaR (INR nOrder) in
  dErrorR / (dErrorL + dErrorR).

Definition dWeightR (dDeltaREtaL dDeltaREtaR : R) (nOrder : nat) : R :=
  let dErrorL := c_pow dDeltaREtaL (INR nOrder) in
  let dErrorR := c_pow dDeltaREtaR (INR nOrder) in
  dErrorL / (dErrorL + dErrorR).

(** The average of the two one-sided rows at the edge between elements [a]
    and [a + 1], weighted by the error weights: [kernel] applied to the [n]
    points of [X] that start at [a * stride], and to those that start at
    [(a + 1) * stride]. *)
Definition WeightedEdgeRow (kernel : nat -> (nat -> R) -> R -> nat -> R)
    (n : nat) (X dREtaREdge : list R) (stride a : nat) (dOut : R)
    : nat -> R :=
  let dDeltaREtaL :=
    nth ((a + 1) * stride) dREtaREdge 0 - nth (a * stride) dREtaREdge 0 in
  let dDeltaREtaR :=
    nth ((a + 2) * stride) dREtaREdge 0
    - nth ((a + 1) * stride) dREtaREdge 0 in
  fun m =>
    dWeightL dDeltaREtaL dDeltaREtaR stride
    * window (a * stride) n (kernel n (ptr X (a * stride)) dOut) m
    + dWeightR dDeltaREtaL dDeltaREtaR stride
      * window ((a + 1) * stride) n
          (kernel n (ptr X ((a + 1) * stride)) dOut) m.

(** The three argument checks at the top of each [Initialize].  The code
    computes [nRElementsIn / nVerticalOrder] before the checks, an integer
    division that has no result for an order of zero: the checks, and the
    functions that start with them, are read for a positive order only. *)
Definition VerifyInput {A : Type} (nVerticalOrder : nat)
    (dREtaNode dREtaREdge : list R) (k : Result A) : Result A :=
  let nRElementsIn := length dREtaNode in
  if Nat.eqb nRElementsIn 0 then
    Exception "At least one row required for dREtaNode"
  else if negb (Nat.eqb (length dREtaREdge) (nRElementsIn + 1)) then
    Exception "REtaNode / REtaREdge mismatch"
  else if negb (Nat.eqb (nRElementsIn mod nVerticalOrder) 0) then
    Exception "Column RElements / VerticalOrder mismatch"
  else k.

(** The checks at the top of the [Initialize] functions pass exactly on a
    non-empty column whose level count is a multiple of the order. *)
Definition ValidColumn (nVerticalOrder : nat) (dREtaNode dREtaREdge : list R)
    : Prop :=
  length dREtaNode <> 0%nat /\
  length dREtaREdge = (length dREtaNode + 1)%nat /\
  (length dREtaNode mod nVerticalOrder = 0)%nat.

(** *** LinearColumnInterpFEM::Initialize *)

Section Interp.

Variable eInterpSource : InterpSource.
Variable nVerticalOrder : nat.
Variables dREtaNode dREtaREdge dREtaOut : list R.
Variable fZeroBoundaries : bool.

Let nRElementsIn : nat := length dREtaNode.
Let nRElementsOut : nat := length dREtaOut.
Let nFiniteElementsIn : nat := (nRElementsIn / nVerticalOrder)%nat.

(** The body of the loop over output rows, lines 80-191, on a fresh row.
    A row of the model has a cell for every index, while a row of [m_dCoeff]
    has [nRElementsIn] cells ([nRElementsIn + 1] from interfaces): a write
    past the last cell, or at the index [(a - 1) * nVerticalOrder] for
    a = 0, is outside the matrix in the code and has no meaning here.  This
    happens only in the branches for [nVerticalOrder == 1] (lines 118-136):
    in the first row when the element found is the top one or the point is
    on the lower edge of the top element, and in the last row when the
    element found is the bottom one.  The rows are read outside these
    cases. *)
Definition InterpRow (l : nat) : Row :=
  let dOut := nth l dREtaOut 0 in
  let a := fst (FindElement dREtaREdge nVerticalOrder dOut
                  (nFiniteElementsIn - 1) 0) in
  let fOnREdge := snd (FindElement dREtaREdge nVerticalOrder dOut
                         (nFiniteElementsIn - 1) 0) in
  match eInterpSource with
  | InterpSource_Interfaces =>
      if fOnREdge then
        {| coeff := set (coeff ZeroRow) ((a + 1) * nVerticalOrder) 1.0;
           iBegin := iBegin ZeroRow;
           iEnd := iEnd ZeroRow |}
      else
        {| coeff :=
             write_coeffs (a * nVerticalOrder) (nVerticalOrder + 1)
               (LagrangianPolynomialCoeffs (nVerticalOrder + 1)
                  (ptr dREtaREdge (a * nVerticalOrder)) dOut)
               (coeff ZeroRow);
           iBegin := (a * nVerticalOrder)%nat;
           iEnd := ((a + 1) * nVerticalOrder + 1)%nat |}
  | InterpSource_Levels =>
      let r :=
        if Nat.eqb nVerticalOrder 1 && Nat.eqb l 0 then
          {| coeff :=
               write_coeffs (a * nVerticalOrder) (nVerticalOrder + 1)
                 (LagrangianPolynomialCoeffs (nVerticalOrder + 1)
                    (ptr dREtaNode (a * nVerticalOrder)) dOut)
                 (coeff ZeroRow);
             iBegin := (a * nVerticalOrder)%nat;
             iEnd := ((a + 2) * nVerticalOrder)%nat |}
        else if Nat.eqb nVerticalOrder 1
                && Nat.eqb l (nRElementsOut - 1) then
          {| coeff :=
               write_coeffs ((a - 1) * nVerticalOrder) (nVerticalOrder + 1)
                 (LagrangianPolynomialCoeffs (nVerticalOrder + 1)
                    (ptr dREtaNode ((a - 1) * nVerticalOrder)) dOut)
                 (coeff ZeroRow);
             iBegin := ((a - 1) * nVerticalOrder)%nat;
             iEnd := ((a + 1) * nVerticalOrder)%nat |}
        else
          {| coeff :=
               write_coeffs (a * nVerticalOrder) nVerticalOrder
                 (LagrangianPolynomialCoeffs nVerticalOrder
                    (ptr dREtaNode (a * nVerticalOrder)) dOut)
                 (coeff ZeroRow);
             iBegin := (a * nVerticalOrder)%nat;
             iEnd := ((a + 1) * nVerticalOrder)%nat |} in
      if fOnREdge then
        let dDeltaREtaL :=
          nth ((a + 1) * nVerticalOrder) dREtaREdge 0
          - nth (a * nVerticalOrder) dREtaREdge 0 in
        let dDeltaREtaR :=
          nth ((a + 2) * nVerticalOrder) dREtaREdge 0
          - nth ((a + 1) * nVerticalOrder) dREtaREdge 0 in
        let wL := dWeightL dDeltaREtaL dDeltaREtaR nVerticalOrder in
        let wR := dWeightR dDeltaREtaL dDeltaREtaR nVerticalOrder in
        let c := write_coeffs (iEnd r) nVerticalOrder
                   (LagrangianPolynomialCoeffs nVerticalOrder
                      (ptr dREtaNode ((a + 1) * nVerticalOrder)) dOut)
                   (coeff r) in
        let c := scale_coeffs (iBegin r) (iEnd r - iBegin r) wL c in
        let iNewEnd := (iEnd r + nVerticalOrder)%nat in
        let c := scale_coeffs (iEnd r) (iNewEnd - iEnd r) wR c in
        {| coeff := c; iBegin := iBegin r; iEnd := iNewEnd |}
      else r
  end.

Definition Interp_lBegin : nat :=
  if fZeroBoundaries
     && (if Rlt_dec (Rabs (nth 0 dREtaOut 0)) ParamEpsilon
         then true else false)
  then 1%nat else 0%nat.

Definition Interp_lEnd : nat :=
  if fZeroBoundaries
     && (if Rlt_dec (Rabs (nth (length dREtaOut - 1) dREtaOut 0 - 1.0))
                    ParamEpsilon
         then true else false)
  then (nRElementsOut - 1)%nat else nRElementsOut.

Definition Interp_Initialize : Result LinearColumnOperator :=
  VerifyInput nVerticalOrder dREtaNode dREtaREdge
    (let op :=
       match eInterpSource with
       | InterpSource_Interfaces =>
           Initialize_LinearColumnOperator (nRElementsIn + 1) nRElementsOut
       | InterpSource_Levels =>
           Initialize_LinearColumnOperator nRElementsIn nRElementsOut
       end in
     Ok (for_loop (Interp_lEnd - Interp_lBegin) (fun d op =>
           set_row op (Interp_lBegin + d) (InterpRow (Interp_lBegin + d)))
         op)).

End Interp.

(** *** LinearColumnDiffFEM *)

Section Diff.

(** [FluxCorrectionFunction::GetDerivatives(nType, nOrder, dNodes, dDerivs)]
    on a single node, from FluxCorrectionFunction.cpp (another translation
    unit): type, order and node give the derivative. *)
Variable FluxCorrectionFunction_GetDerivatives : nat -> nat -> R -> R.

Variable eInterpSource : InterpSource.
Variable nVerticalOrder : nat.
Variables dREtaNode dREtaREdge dREtaOut : list R.
Variable fZeroBoundaries : bool.

Let nRElementsIn : nat := length dREtaNode.
Let nRElementsOut : nat := length dREtaOut.
Let nFiniteElements : nat := (nRElementsIn / nVerticalOrder)%nat.

(** The body of the loop over output rows of [InitializeInterfaceMethod],
    lines 241-316, on a fresh row. *)
Definition InterfaceMethodRow (l : nat) : Row :=
  let dOut := nth l dREtaOut 0 in
  let a := fst (FindElement dREtaREdge nVerticalOrder dOut
                  (nFiniteElements - 1) 0) in
  let fOnREdge := snd (FindElement dREtaREdge nVerticalOrder dOut
                         (nFiniteElements - 1) 0) in
  let c := write_coeffs (a * nVerticalOrder) (nVerticalOrder + 1)
             (DiffLagrangianPolynomialCoeffs (nVerticalOrder + 1)
                (ptr dREtaREdge (a * nVerticalOrder)) dOut)
             (coeff ZeroRow) in
  if fOnREdge then
    let dDeltaREtaL :=
      nth ((a + 1) * nVerticalOrder) dREtaREdge 0
      - nth (a * nVerticalOrder) dREtaREdge 0 in
    let dDeltaREtaR :=
      nth ((a + 2) * nVerticalOrder) dREtaREdge 0
      - nth ((a + 1) * nVerticalOrder) dREtaREdge 0 in
    let wL := dWeightL dDeltaREtaL dDeltaREtaR nVerticalOrder in
    let wR := dWeightR dDeltaREtaL dDeltaREtaR nVerticalOrder in
    let dTempCoeff :=
      DiffLagrangianPolynomialCoeffs (nVerticalOrder + 1)
        (ptr dREtaREdge ((a + 1) * nVerticalOrder)) dOut in
    let c := scale_coeffs (a * nVerticalOrder) (nVerticalOrder + 1) wL c in
    let c := add_coeffs ((a + 1) * nVerticalOrder) (nVerticalOrder + 1)
               wR dTempCoeff c in
    {| coeff := c;
       iBegin := (a * nVerticalOrder)%nat;
       iEnd := ((a + 2) * nVerticalOrder + 1)%nat |}
  else
    {| coeff := c;
       iBegin := (a * nVerticalOrder)%nat;
       iEnd := ((a + 1) * nVerticalOrder + 1)%nat |}.

Definition InitializeInterfaceMethod : Result LinearColumnOperator :=
  VerifyInput nVerticalOrder dREtaNode dREtaREdge
    (let op := Initialize_LinearColumnOperator (nRElementsIn + 1)
                 nRElementsOut in
     let op := for_loop nRElementsOut (fun l op =>
                 set_row op l (InterfaceMethodRow l)) op in
     match eInterpSource with
     | InterpSource_Levels =>
         bind (Interp_Initialize InterpSource_Levels nVerticalOrder
                 dREtaNode dREtaREdge dREtaREdge fZeroBoundaries)
              (fun opInterp => Ok (ComposeWith op opInterp))
     | InterpSource_Interfaces => Ok op
     end).

Definition ParamFluxCorrectionType : nat := 2.

(** [(!fZeroBoundaries) && (nFiniteElements != 1)], the condition under
    which a row of an element on the domain boundary receives a one-sided
    correction (lines 524 and 545). *)
Definition BoundaryCorrectionApplies : bool :=
  negb fZeroBoundaries && negb (Nat.eqb nFiniteElements 1).

(** The pieces of one row of [InitializeFluxCorrectionMethod] for an output
    point [dOut] that the search placed in element [a]. *)
Section FluxCorrectionRow.

Variable dOut : R.
Variable a : nat.
Variable fOnREdge : bool.

Definition dDeltaREta : R :=
  nth ((a + 1) * nVerticalOrder) dREtaREdge 0
  - nth (a * nVerticalOrder) dREtaREdge 0.

(** Lines 413-435: the local derivative, scaled by the element width. *)
Definition Flux_LocalDerivative : nat -> R :=
  let c := write_coeffs (a * nVerticalOrder) nVerticalOrder
             (DiffLagrangianPolynomialCoeffs nVerticalOrder
                (ptr dREtaNode (a * nVerticalOrder)) dOut)
             (coeff ZeroRow) in
  if fOnREdge then
    let c := write_coeffs ((a + 1) * nVerticalOrder) nVerticalOrder
               (DiffLagrangianPolynomialCoeffs nVerticalOrder
                  (ptr dREtaNode ((a + 1) * nVerticalOrder)) dOut)
               c in
    scale_coeffs 0 nRElementsIn (0.5 * dDeltaREta) c
  else
    scale_coeffs 0 nRElementsIn dDeltaREta c.

Definition dNodesR : R :=
  (dOut - nth (a * nVerticalOrder) dREtaREdge 0) / dDeltaREta.

Definition dNodesL : R := 1.0 - dNodesR.

Definition dDerivR : R :=
  FluxCorrectionFunction_GetDerivatives ParamFluxCorrectionType
    (nVerticalOrder + 1) dNodesR.

(** After [dDerivL[0] *= -1.0]. *)
Definition dDerivL : R :=
  FluxCorrectionFunction_GetDerivatives ParamFluxCorrectionType
    (nVerticalOrder + 1) dNodesL * -1.0.

(** Interpolation of element [a] to its left and to its right edge. *)
Definition dTempCoeffLR : nat -> R :=
  LagrangianPolynomialCoeffs nVerticalOrder
    (ptr dREtaNode (a * nVerticalOrder))
    (nth (a * nVerticalOrder) dREtaREdge 0).

Definition dTempCoeffRL : nat -> R :=
  LagrangianPolynomialCoeffs nVerticalOrder
    (ptr dREtaNode (a * nVerticalOrder))
    (nth ((a + 1) * nVerticalOrder) dREtaREdge 0).

(** Interpolation of the element below to the left edge of [a], and of the
    element above to the right edge of [a]; left at zero when there is no
    such element. *)
Definition dTempCoeffLL : nat -> R :=
  if negb (Nat.eqb a 0) then
    LagrangianPolynomialCoeffs nVerticalOrder
      (ptr dREtaNode ((a - 1) * nVerticalOrder))
      (nth (a * nVerticalOrder) dREtaREdge 0)
  else fun _ => 0.

Definition dTempCoeffRR : nat -> R :=
  if negb (Nat.eqb a (nFiniteElements - 1)) then
    LagrangianPolynomialCoeffs nVerticalOrder
      (ptr dREtaNode ((a + 1) * nVerticalOrder))
      (nth ((a + 1) * nVerticalOrder) dREtaREdge 0)
  else fun _ => 0.

(** Lines 510-532: the correction on the left edge of element [a]. *)
Definition Flux_LeftEdge (c : nat -> R) : nat -> R :=
  if negb (Nat.eqb a 0) then
    let c :=
      if negb fOnREdge then
        add_coeffs ((a - 1) * nVerticalOrder) nVerticalOrder
          (0.5 * dDerivL) dTempCoeffLL c
      else c in
    sub_coeffs (a * nVerticalOrder) nVerticalOrder
      (0.5 * dDerivL) dTempCoeffLR c
  else
    if BoundaryCorrectionApplies then
      add_sub_coeffs (a * nVerticalOrder) ((a + 1) * nVerticalOrder)
        nVerticalOrder (0.5 * dDerivL) dTempCoeffRL dTempCoeffRR c
    else c.

(** Lines 534-553: the correction on the right edge of element [a]. *)
Definition Flux_RightEdge (c : nat -> R) : nat -> R :=
  if negb (Nat.eqb a (nFiniteElements - 1)) then
    let c := add_coeffs ((a + 1) * nVerticalOrder) nVerticalOrder
               (0.5 * dDerivR) dTempCoeffRR c in
    sub_coeffs (a * nVerticalOrder) nVerticalOrder
      (0.5 * dDerivR) dTempCoeffRL c
  else
    if BoundaryCorrectionApplies then
      add_sub_coeffs (a * nVerticalOrder) ((a - 1) * nVerticalOrder)
        nVerticalOrder (0.5 * dDerivR) dTempCoeffLR dTempCoeffLL c
    else c.

(** The coefficients of the row, lines 408-557. *)
Definition Flux_Coefficients : nat -> R :=
  divide_coeffs 0 nRElementsIn dDeltaREta
    (Flux_RightEdge (Flux_LeftEdge Flux_LocalDerivative)).

Definition Flux_iBegin : nat :=
  if negb (Nat.eqb a 0) then ((a - 1) * nVerticalOrder)%nat
  else (a * nVerticalOrder)%nat.

Definition Flux_iEnd : nat :=
  if negb (Nat.eqb a (nFiniteElements - 1))
  then ((a + 2) * nVerticalOrder)%nat
  else ((a + 1) * nVerticalOrder)%nat.

End FluxCorrectionRow.

(** The body of the loop over output rows of
    [InitializeFluxCorrectionMethod], lines 384-571, on a fresh row. *)
Definition FluxCorrectionRow (l : nat) : Result Row :=
  let dOut := nth l dREtaOut 0 in
  let a := fst (FindElement dREtaREdge nVerticalOrder dOut
                  (nFiniteElements - 1) 0) in
  let fOnREdge := snd (FindElement dREtaREdge nVerticalOrder dOut
                         (nFiniteElements - 1) 0) in
  if (if Rlt_dec dOut (nth 0 dREtaREdge 0) then true else false)
     || (if Rgt_dec dOut (nth nRElementsIn dREtaREdge 0) then true else false)
  then Exception "REta out of range"
  else Ok {| coeff := Flux_Coefficients dOut a fOnREdge;
             iBegin := Flux_iBegin a;
             iEnd := Flux_iEnd a |}.

Definition InitializeFluxCorrectionMethod : Result LinearColumnOperator :=
  VerifyInput nVerticalOrder dREtaNode dREtaREdge
    (let op :=
       match eInterpSource with
       | InterpSource_Interfaces =>
           Initialize_LinearColumnOperator (nRElementsIn + 1) nRElementsOut
       | InterpSource_Levels =>
           Initialize_LinearColumnOperator nRElementsIn nRElementsOut
       end in
     for_loopM nRElementsOut (fun l op =>
       bind (FluxCorrectionRow l) (fun r => Ok (set_row op l r))) op).

End Diff.

(** *** LinearColumnDiffDiffFEM::InitializeGLLNodes *)

Section DiffDiff.

(** [GaussLobattoQuadrature::GetPoints(n, x0, x1, dG, dW)] from the base
    library: the nodes [dG] and the weights [dW] on the interval. *)
Variable GaussLobattoQuadrature_GetPoints :
  nat -> R -> R -> (nat -> R) * (nat -> R).

Variable nVerticalOrder : nat.
Variable dREtaNode : list R.

Let nRElementsIn : nat := length dREtaNode.
Let nRElementsOut : nat := length dREtaNode.
Let nFiniteElements : nat := ((nRElementsIn - 1) / (nVerticalOrder - 1))%nat.

Definition set2 (M : nat -> nat -> R) (r c : nat) (v : R) : nat -> nat -> R :=
  fun r' c' => if Nat.eqb r' r && Nat.eqb c' c then v else M r' c'.

(** The body of the loop over finite elements, lines 780-839. *)
Definition DiffDiff_Element (a : nat) (M : nat -> nat -> R)
    : nat -> nat -> R :=
  let off := (a * (nVerticalOrder - 1))%nat in
  let GW := GaussLobattoQuadrature_GetPoints nVerticalOrder
              (nth off dREtaNode 0)
              (nth ((a + 1) * (nVerticalOrder - 1)) dREtaNode 0) in
  let dG := fst GW in
  let dW := snd GW in
  let dLocalDiffCoeff := fun i =>
    DiffLagrangianPolynomialCoeffs nVerticalOrder (ptr dREtaNode off)
      (dG i) in
  let M :=
    for_loop nVerticalOrder (fun j M =>
      let jx := (j + off)%nat in
      let dWlocal := dW j in
      let dWlocal :=
        if Nat.eqb j 0 && negb (Nat.eqb a 0)
        then dWlocal * 2.0 else dWlocal in
      let dWlocal :=
        if Nat.eqb j (nVerticalOrder - 1)
           && negb (Nat.eqb a (nFiniteElements - 1))
        then dWlocal * 2.0 else dWlocal in
      for_loop nVerticalOrder (fun i M =>
        let ix := (i + off)%nat in
        for_loop nVerticalOrder (fun s M =>
          set2 M jx ix
            (M jx ix
             - dLocalDiffCoeff s j * dLocalDiffCoeff s i * dW s / dWlocal))
          M) M) M in
  let M :=
    if Nat.eqb a 0 then
      for_loop nVerticalOrder (fun i M =>
        set2 M 0 i (M 0%nat i - dLocalDiffCoeff 0%nat i / dW 0%nat)) M
    else M in
  if Nat.eqb a (nFiniteElements - 1) then
    for_loop nVerticalOrder (fun i M =>
      set2 M (nRElementsOut - 1) (off + i)
        (M (nRElementsOut - 1)%nat (off + i)%nat
         + dLocalDiffCoeff (nVerticalOrder - 1)%nat i
           / dW (nVerticalOrder - 1)%nat)) M
  else M.

(** The coefficient matrix after the loop over elements; the bound vectors
    are not written by this function. *)
Definition DiffDiff_InitializeGLLNodes : Result (nat -> nat -> R) :=
  if Nat.eqb nRElementsIn 0 then
    Exception "At least one row required for dREtaNode"
  else if negb (Nat.eqb ((nRElementsIn - 1) mod (nVerticalOrder - 1)) 0) then
    Exception "Column (RElements-1) / (VerticalOrder-1) mismatch"
  else
    Ok (for_loop nFiniteElements DiffDiff_Element (fun _ _ => 0)).

End DiffDiff.

(** *** LinearColumnDiffFEM::InitializeGLLNodes *)

Section DiffGLL.

Variable nVerticalOrder : nat.
Variables dREtaNode dREtaOut : list R.

Let nRElementsIn : nat := length dREtaNode.
Let nRElementsOut : nat := length dREtaOut.
Let nFiniteElements : nat :=
  ((nRElementsIn - 1) / (nVerticalOrder - 1))%nat.

(** The body of the loop over output rows, lines 609-688, on a fresh row.
    The elements share their end nodes: element [a] owns the
    [nVerticalOrder] nodes that start at [a * (nVerticalOrder - 1)], and the
    search runs over the nodes with that stride. *)
Definition Diff_GLLNodesRow (l : nat) : Row :=
  let dOut := nth l dREtaOut 0 in
  let a := fst (FindElement dREtaNode (nVerticalOrder - 1) dOut
                  (nFiniteElements - 1) 0) in
  let fOnREdge := snd (FindElement dREtaNode (nVerticalOrder - 1) dOut
                         (nFiniteElements - 1) 0) in
  let c := write_coeffs (a * (nVerticalOrder - 1)) nVerticalOrder
             (DiffLagrangianPolynomialCoeffs nVerticalOrder
                (ptr dREtaNode (a * (nVerticalOrder - 1))) dOut)
             (coeff ZeroRow) in
  if fOnREdge then
    let dDeltaREtaL :=
      nth ((a + 1) * (nVerticalOrder - 1)) dREtaNode 0
      - nth (a * (nVerticalOrder - 1)) dREtaNode 0 in
    let dDeltaREtaR :=
      nth ((a + 2) * (nVerticalOrder - 1)) dREtaNode 0
      - nth ((a + 1) * (nVerticalOrder - 1)) dREtaNode 0 in
    let wL := dWeightL dDeltaREtaL dDeltaREtaR (nVerticalOrder - 1) in
    let wR := dWeightR dDeltaREtaL dDeltaREtaR (nVerticalOrder - 1) in
    let dTempCoeff :=
      DiffLagrangianPolynomialCoeffs nVerticalOrder
        (ptr dREtaNode ((a + 1) * (nVerticalOrder - 1))) dOut in
    let c := scale_coeffs (a * (nVerticalOrder - 1)) nVerticalOrder wL c in
    let c := add_coeffs ((a + 1) * (nVerticalOrder - 1)) nVerticalOrder
               wR dTempCoeff c in
    {| coeff := c;
       iBegin := (a * (nVerticalOrder - 1))%nat;
       iEnd := ((a + 2) * (nVerticalOrder - 1) + 1)%nat |}
  else
    {| coeff := c;
       iBegin := (a * (nVerticalOrder - 1))%nat;
       iEnd := ((a + 1) * (nVerticalOrder - 1) + 1)%nat |}.

Definition Diff_InitializeGLLNodes : Result LinearColumnOperator :=
  if Nat.eqb nRElementsIn 0 then
    Exception "At least one row required for dREtaNode"
  else if negb (Nat.eqb ((nRElementsIn - 1) mod (nVerticalOrder - 1)) 0) then
    Exception "Column (RElements-1) / (VerticalOrder-1) mismatch"
  else
    Ok (for_loop nRElementsOut (fun l op =>
          set_row op l (Diff_GLLNodesRow l))
        (Initialize_LinearColumnOperator nRElementsIn nRElementsOut)).

End DiffGLL.

(** A column of elements that share their end nodes, as the two
    [InitializeGLLNodes] functions expect it: order at least two, at least
    one element, and one node more than a multiple of the order minus one. *)
Definition ValidGLLColumn (nVerticalOrder : nat) (dREtaNode : list R)
    : Prop :=
  (2 <= nVerticalOrder)%nat /\
  (nVerticalOrder <= length dREtaNode)%nat /\
  ((length dREtaNode - 1) mod (nVerticalOrder - 1) = 0)%nat.

(** Row [l] of the operator on a column [col]: the sum over the input rows
    of coefficient times entry.  [RowSum] is its value on the constant
    column 1. *)
Definition RowValue (op : LinearColumnOperator) (col : nat -> R) (l : nat)
    : R :=
  sumR (nRowsIn op) (fun m => m_dCoeff op l m * col m).

(** The bounds of a row cover its coefficients: every coefficient outside
    [iBegin, iEnd) is zero, so that applying the row over its bounds loses
    nothing. *)
Definition Supported (r : Row) : Prop :=
  forall m, (m < iBegin r)%nat \/ (iEnd r <= m)%nat -> coeff r m = 0.

(** The width of the band of a row. *)
Definition Bandwidth (r : Row) : nat := (iEnd r - iBegin r)%nat.

(** The condition of the specification for the boundary correction: it is
    added unless fZeroBoundaries is set together with nFiniteElements = 1. *)
Definition Claimed_BoundaryCorrectionApplies (fZeroBoundaries : bool)
    (nFiniteElements : nat) : bool :=
  negb (fZeroBoundaries && Nat.eqb nFiniteElements 1).

End ColumnOperator.

(** ** GridPatchCartesianGLL.cpp: InterpolateData *)

Module PatchInterpolation.

Import GridPatch.

(** The data types [InterpolateData] names.  [DataType_Other] stands for
    the members of the enumeration it does not name, which end in the
    exception of the final [else]. *)
Inductive DataType :=
| DataType_State | DataType_Tracers | DataType_Topography
| DataType_Vorticity | DataType_Divergence | DataType_Temperature
| DataType_Other.

(** [DataMatrix3D<double> dInterpData], indexed by component, level and
    point. *)
Definition DataMatrix3D := nat -> nat -> nat -> R.

(** The conversion of a [double] to an [int] discards the fractional part.
    An [int] is an element of [Z]. *)
Definition double_to_int (x : R) : Z :=
  if Rle_dec 0 x then Int_part x else (- Int_part (- x))%Z.

Section InterpolateData.

Variable g : Grid.
Variable p : Patch.

(** From the box of the patch: the edge coordinates [GetAEdges()] and
    [GetBEdges()], of which [GetAEdge(i)] and [GetBEdge(i)] are the entries,
    and the interior bounds; [GetPatchIndex()] is the index of the patch. *)
Variables GetAEdges GetBEdges : list R.
Variables GetAInteriorEnd GetBInteriorEnd : nat.
Variables GetAInteriorWidth GetBInteriorWidth GetHaloElements : nat.
Variable GetPatchIndex : Z.

(** The arrays of the patch the store does not hold: the component counts
    [GetComponents()] of the state on nodes and on interfaces and of the
    tracers, the tracers of data index 0, the diagnostics, the temperature
    and the reference state. *)
Variables nComponentsNode nComponentsREdge nComponentsTracers : nat.
Variable m_datavecTracers : nat -> nat -> nat -> nat -> R.
Variable diagnostics : CurlAndDiv.
Variable m_dataTemperature : GridData3D.
Variables m_dataRefStateNode m_dataRefStateREdge
  : nat -> nat -> nat -> nat -> R.

Variable st : Store.

Definition GetAEdge (i : nat) : R := nth i GetAEdges 0.
Definition GetBEdge (i : nat) : R := nth i GetBEdges 0.

(** Lines 1027-1049 for one direction: the index of the element of the
    point, bounded to the elements of the patch, then the index of its first
    node. *)
Definition ElementBegin (x x0 dDelta : R) (width : nat) : Z :=
  let iA := double_to_int ((x - x0) / dDelta) in
  let iA := if (iA <? 0)%Z then 0%Z else iA in
  let iA :=
    if (iA >=? Z.of_nat width / Z.of_nat (m_nHorizontalOrder p))%Z
    then (Z.of_nat width / Z.of_nat (m_nHorizontalOrder p) - 1)%Z
    else iA in
  (Z.of_nat GetHaloElements + iA * Z.of_nat (m_nHorizontalOrder p))%Z.

(** [pData[k][i][j]] for component [c], lines 1106-1129.  The topography is
    read through a pointer to the 2D array on its single level. *)
Definition SourceData (eDataType : DataType) (eDataLocation : DataLocation)
    (c k i j : nat) : R :=
  match eDataType with
  | DataType_State =>
      match eDataLocation with
      | DataLocation_Node => st m_datavecStateNode [0; c; k; i; j]%nat
      | DataLocation_REdge => st m_datavecStateREdge [0; c; k; i; j]%nat
      end
  | DataType_Topography => st m_dataTopography [i; j]%nat
  | DataType_Tracers => m_datavecTracers c k i j
  | DataType_Vorticity => m_dataVorticity diagnostics k i j
  | DataType_Divergence => m_dataDivergence diagnostics k i j
  | DataType_Temperature => m_dataTemperature k i j
  | DataType_Other => 0
  end.

(** The body of the loop over levels, lines 1132-1170, for point [i]. *)
Definition InterpolateLevel (eDataType : DataType)
    (eDataLocation : DataLocation) (fIncludeReferenceState : bool)
    (dAInterpCoeffs dBInterpCoeffs : nat -> R) (iA iB : nat)
    (c k i : nat) (dInterpData : DataMatrix3D) : DataMatrix3D :=
  let dInterpData := set3D dInterpData c k i 0.0 in
  let dInterpData :=
    for_loop (m_nHorizontalOrder p) (fun m =>
    for_loop (m_nHorizontalOrder p) (fun n dInterpData =>
      set3D dInterpData c k i
        (dInterpData c k i
         + dAInterpCoeffs m * dBInterpCoeffs n
           * SourceData eDataType eDataLocation c k (iA + m) (iB + n))))
      dInterpData in
  match eDataType, fIncludeReferenceState with
  | DataType_State, false =>
      match eDataLocation with
      | DataLocation_Node =>
          for_loop (m_nHorizontalOrder p) (fun m =>
          for_loop (m_nHorizontalOrder p) (fun n dInterpData =>
            set3D dInterpData c k i
              (dInterpData c k i
               - dAInterpCoeffs m * dBInterpCoeffs n
                 * m_dataRefStateNode c k (iA + m)%nat (iB + n)%nat)))
            dInterpData
      | DataLocation_REdge =>
          for_loop (m_nHorizontalOrder p) (fun m =>
          for_loop (m_nHorizontalOrder p) (fun n dInterpData =>
            set3D dInterpData c k i
              (dInterpData c k i
               - dAInterpCoeffs m * dBInterpCoeffs n
                 * m_dataRefStateREdge c k (iA + m)%nat (iB + n)%nat)))
            dInterpData
      end
  | _, _ => dInterpData
  end.

(** [nComponents] and the number of levels of the loops, lines 1064-1116;
    [None] is the final [else].  For the topography the number of levels is
    set to 1 inside the loop over its single component. *)
Definition DataExtent (eDataType : DataType) (eDataLocation : DataLocation)
    : option (nat * nat) :=
  match eDataType with
  | DataType_State =>
      match eDataLocation with
      | DataLocation_Node => Some (nComponentsNode, GetRElements g)
      | DataLocation_REdge => Some (nComponentsREdge, (GetRElements g + 1)%nat)
      end
  | DataType_Tracers => Some (nComponentsTracers, GetRElements g)
  | DataType_Topography => Some (1%nat, 1%nat)
  | DataType_Vorticity | DataType_Divergence | DataType_Temperature =>
      Some (1%nat, GetRElements g)
  | DataType_Other => None
  end.

(** The point is outside the patch, lines 1018-1025. *)
Definition OutOfRange (dAlpha_i dBeta_i : R) : bool :=
  let Eps := 1.0e-10 in
  (if Rlt_dec dAlpha_i (GetAEdge (GetAInteriorBegin p) - Eps)
   then true else false)
  || (if Rgt_dec dAlpha_i (GetAEdge GetAInteriorEnd + Eps)
      then true else false)
  || (if Rlt_dec dBeta_i (GetBEdge (GetBInteriorBegin p) - Eps)
      then true else false)
  || (if Rgt_dec dBeta_i (GetBEdge GetBInteriorEnd + Eps)
      then true else false).

(** The body of the loop over the points for a point of this patch,
    lines 1017-1171. *)
Definition InterpolatePoint (eDataType : DataType)
    (eDataLocation : DataLocation) (fIncludeReferenceState : bool)
    (dAlpha_i dBeta_i : R) (i : nat) (dInterpData : DataMatrix3D)
    : Result DataMatrix3D :=
  if OutOfRange dAlpha_i dBeta_i then Exception "Point out of range"
  else
    let iA := Z.to_nat (ElementBegin dAlpha_i
                          (GetAEdge (GetAInteriorBegin p))
                          (GetElementDeltaA p) GetAInteriorWidth) in
    let iB := Z.to_nat (ElementBegin dBeta_i
                          (GetBEdge (GetBInteriorBegin p))
                          (GetElementDeltaB p) GetBInteriorWidth) in
    let dAInterpCoeffs :=
      ColumnOperator.LagrangianPolynomialCoeffs (m_nHorizontalOrder p)
        (ColumnOperator.ptr GetAEdges iA) dAlpha_i in
    let dBInterpCoeffs :=
      ColumnOperator.LagrangianPolynomialCoeffs (m_nHorizontalOrder p)
        (ColumnOperator.ptr GetBEdges iB) dBeta_i in
    match DataExtent eDataType eDataLocation with
    | None => Exception "Invalid DataType"
    | Some (nComponents, nRElements) =>
        Ok (for_loop nComponents (fun c =>
            for_loop nRElements (fun k =>
              InterpolateLevel eDataType eDataLocation fIncludeReferenceState
                dAInterpCoeffs dBInterpCoeffs iA iB c k i)) dInterpData)
    end.

(** [InterpolateData], lines 971-1173.  The arguments
    [fInterpAllVariables] and [fConvertToPrimitive] are not read. *)
Definition InterpolateData (dAlpha dBeta : list R) (iPatch : list Z)
    (eDataType : DataType) (eDataLocation : DataLocation)
    (fInterpAllVariables : bool) (dInterpData : DataMatrix3D)
    (fIncludeReferenceState fConvertToPrimitive : bool)
    : Result DataMatrix3D :=
  if negb (Nat.eqb (length dAlpha) (length dBeta)) then
    Exception "Point vectors must have equivalent length."
  else
    for_loopM (length dAlpha) (fun i dInterpData =>
      if negb (Z.eqb (nth i iPatch 0%Z) GetPatchIndex) then Ok dInterpData
      else
        InterpolatePoint eDataType eDataLocation fIncludeReferenceState
          (nth i dAlpha 0) (nth i dBeta 0) i dInterpData) dInterpData.

End InterpolateData.

End PatchInterpolation.

(** ** Footprints

    Vocabulary for the loop nests of the grid patch: which cells a loop body
    writes, and what it leaves in them. *)

Module Footprint.

Import GridPatch.

Definition Cell : Type := (DataArray * list nat)%type.

(** The cells in [cells], as a predicate on member and subscripts. *)
Definition owned (cells : list Cell) (a : DataArray) (ix : list nat) : bool :=
  existsb (fun c => cell_eqb (fst c) (snd c) a ix) cells.

(** [T] maintains [Inv], changes nothing outside [O], and leaves
    [Cached a ix] in every cell of [O] that [interest] selects. *)
Definition Local (interest : DataArray -> list nat -> bool)
    (Cached : DataArray -> list nat -> R)
    (Inv : Store -> Prop) (O : DataArray -> list nat -> bool)
    (T : Store -> Store) : Prop :=
  forall s, Inv s ->
    Inv (T s) /\
    (forall a ix, O a ix = false -> T s a ix = s a ix) /\
    (forall a ix, O a ix = true -> interest a ix = true ->
                  T s a ix = Cached a ix).

(** The cells of some iteration [i < n]. *)
Definition loop_cells (n : nat) (O : nat -> DataArray -> list nat -> bool)
    : DataArray -> list nat -> bool :=
  fun a ix => existsb (fun i => O i a ix) (seq 0 n).

Section GeometricTerms.

Variable g : Grid.
Variable p : Patch.
(** The store [EvaluateGeometricTerms] starts from. *)
Variable st0 : Store.

(** The derivatives of the height at reference coordinate [eta] over the
    node [iA], [iB]: lines 280-282 and 382-384 on the topography of [st0]. *)
Definition DerivZ (eta : R) (iA iB c : nat) : R :=
  let dREtaStretch := fst (EvaluateVerticalStretchF g eta) in
  let dDxREtaStretch := snd (EvaluateVerticalStretchF g eta) in
  match c with
  | O => (1.0 - dREtaStretch) * st0 m_dataTopographyDeriv [0; iA; iB]%nat
  | S O => (1.0 - dREtaStretch) * st0 m_dataTopographyDeriv [1; iA; iB]%nat
  | _ => (GetZtop g - st0 m_dataTopography [iA; iB]%nat) * dDxREtaStretch
  end.

Definition ContraMetric_of_DerivR (dDaZ dDbZ dDxZ : R) (r c : nat) : R :=
  match r, c with
  | O, O => 1.0
  | O, S O => 0.0
  | O, _ => - dDaZ / dDxZ
  | S O, O => 0.0
  | S O, S O => 1.0
  | S O, _ => - dDbZ / dDxZ
  | _, O => - dDaZ / dDxZ
  | _, S O => - dDbZ / dDxZ
  | _, _ => (1.0 + dDaZ * dDaZ + dDbZ * dDbZ) / (dDxZ * dDxZ)
  end.

(** What [EvaluateGeometricTerms] leaves in each cell it writes, element
    areas apart. *)
Definition GeometricCache (a : DataArray) (ix : list nat) : R :=
  match a, ix with
  | m_dataJacobian2D, [iA; iB]%nat => 1.0
  | m_dataContraMetric2DA, [iA; iB; c]%nat | m_dataCovMetric2DA, [iA; iB; c]%nat =>
      match c with O => 1.0 | _ => 0.0 end
  | m_dataContraMetric2DB, [iA; iB; c]%nat | m_dataCovMetric2DB, [iA; iB; c]%nat =>
      match c with O => 0.0 | _ => 1.0 end
  | m_dataJacobian, [k; iA; iB]%nat =>
      DerivZ (GetREtaLevel g k) iA iB 2 * 1.0
  | m_dataJacobianREdge, [k; iA; iB]%nat =>
      DerivZ (GetREtaInterface g k) iA iB 2 * 1.0
  | m_dataContraMetricA, [k; iA; iB; c]%nat =>
      let eta := GetREtaLevel g k in
      ContraMetric_of_DerivR (DerivZ eta iA iB 0) (DerivZ eta iA iB 1)
        (DerivZ eta iA iB 2) 0 c
  | m_dataContraMetricB, [k; iA; iB; c]%nat =>
      let eta := GetREtaLevel g k in
      ContraMetric_of_DerivR (DerivZ eta iA iB 0) (DerivZ eta iA iB 1)
        (DerivZ eta iA iB 2) 1 c
  | m_dataContraMetricXi, [k; iA; iB; c]%nat =>
      let eta := GetREtaLevel g k in
      ContraMetric_of_DerivR (DerivZ eta iA iB 0) (DerivZ eta iA iB 1)
        (DerivZ eta iA iB 2) 2 c
  | m_dataContraMetricAREdge, [k; iA; iB; c]%nat =>
      let eta := GetREtaInterface g k in
      ContraMetric_of_DerivR (DerivZ eta iA iB 0) (DerivZ eta iA iB 1)
        (DerivZ eta iA iB 2) 0 c
  | m_dataContraMetricBREdge, [k; iA; iB; c]%nat =>
      let eta := GetREtaInterface g k in
      ContraMetric_of_DerivR (DerivZ eta iA iB 0) (DerivZ eta iA iB 1)
        (DerivZ eta iA iB 2) 1 c
  | m_dataContraMetricXiREdge, [k; iA; iB; c]%nat =>
      let eta := GetREtaInterface g k in
      ContraMetric_of_DerivR (DerivZ eta iA iB 0) (DerivZ eta iA iB 1)
        (DerivZ eta iA iB 2) 2 c
  | m_dataCovMetricA, [k; iA; iB; c]%nat =>
      let eta := GetREtaLevel g k in
      CovMetric_of_DerivR (DerivZ eta iA iB 0) (DerivZ eta iA iB 1)
        (DerivZ eta iA iB 2) 0 c
  | m_dataCovMetricB, [k; iA; iB; c]%nat =>
      let eta := GetREtaLevel g k in
      CovMetric_of_DerivR (DerivZ eta iA iB 0) (DerivZ eta iA iB 1)
        (DerivZ eta iA iB 2) 1 c
  | m_dataCovMetricXi, [k; iA; iB; c]%nat =>
      let eta := GetREtaLevel g k in
      CovMetric_of_DerivR (DerivZ eta iA iB 0) (DerivZ eta iA iB 1)
        (DerivZ eta iA iB 2) 2 c
  | m_dataDerivRNode, [k; iA; iB; c]%nat => DerivZ (GetREtaLevel g k) iA iB c
  | m_dataDerivRREdge, [k; iA; iB; c]%nat =>
      DerivZ (GetREtaInterface g k) iA iB c
  | _, _ => 0
  end.

Definition geometric_interest (a : DataArray) (ix : list nat) : bool :=
  match a with
  | m_dataElementArea | m_dataElementAreaREdge => false
  | _ => true
  end.

(** The cells written by the three parts of [ElementNodeTerms]. *)
Definition Cells2D (iA iB : nat) : list Cell :=
  [ (m_dataJacobian2D, [iA; iB]%nat);
    (m_dataContraMetric2DA, [iA; iB; 0]%nat);
    (m_dataContraMetric2DA, [iA; iB; 1]%nat);
    (m_dataContraMetric2DB, [iA; iB; 0]%nat);
    (m_dataContraMetric2DB, [iA; iB; 1]%nat);
    (m_dataCovMetric2DA, [iA; iB; 0]%nat);
    (m_dataCovMetric2DA, [iA; iB; 1]%nat);
    (m_dataCovMetric2DB, [iA; iB; 0]%nat);
    (m_dataCovMetric2DB, [iA; iB; 1]%nat) ].

Definition CellsNode (iA iB k : nat) : list Cell :=
  [ (m_dataJacobian, [k; iA; iB]%nat);
    (m_dataElementArea, [k; iA; iB]%nat);
    (m_dataContraMetricA, [k; iA; iB; 0]%nat);
    (m_dataContraMetricA, [k; iA; iB; 1]%nat);
    (m_dataContraMetricA, [k; iA; iB; 2]%nat);
    (m_dataContraMetricB, [k; iA; iB; 0]%nat);
    (m_dataContraMetricB, [k; iA; iB; 1]%nat);
    (m_dataContraMetricB, [k; iA; iB; 2]%nat);
    (m_dataContraMetricXi, [k; iA; iB; 0]%nat);
    (m_dataContraMetricXi, [k; iA; iB; 1]%nat);
    (m_dataContraMetricXi, [k; iA; iB; 2]%nat);
    (m_dataCovMetricA, [k; iA; iB; 0]%nat);
    (m_dataCovMetricA, [k; iA; iB; 1]%nat);
    (m_dataCovMetricA, [k; iA; iB; 2]%nat);
    (m_dataCovMetricB, [k; iA; iB; 0]%nat);
    (m_dataCovMetricB, [k; iA; iB; 1]%nat);
    (m_dataCovMetricB, [k; iA; iB; 2]%nat);
    (m_dataCovMetricXi, [k; iA; iB; 0]%nat);
    (m_dataCovMetricXi, [k; iA; iB; 1]%nat);
    (m_dataCovMetricXi, [k; iA; iB; 2]%nat);
    (m_dataDerivRNode, [k; iA; iB; 0]%nat);
    (m_dataDerivRNode, [k; iA; iB; 1]%nat);
    (m_dataDerivRNode, [k; iA; iB; 2]%nat) ].

Definition CellsREdge (iA iB k : nat) : list Cell :=
  [ (m_dataJacobianREdge, [k; iA; iB]%nat);
    (m_dataElementAreaREdge, [k; iA; iB]%nat);
    (m_dataContraMetricAREdge, [k; iA; iB; 0]%nat);
    (m_dataContraMetricAREdge, [k; iA; iB; 1]%nat);
    (m_dataContraMetricAREdge, [k; iA; iB; 2]%nat);
    (m_dataContraMetricBREdge, [k; iA; iB; 0]%nat);
    (m_dataContraMetricBREdge, [k; iA; iB; 1]%nat);
    (m_dataContraMetricBREdge, [k; iA; iB; 2]%nat);
    (m_dataContraMetricXiREdge, [k; iA; iB; 0]%nat);
    (m_dataContraMetricXiREdge, [k; iA; iB; 1]%nat);
    (m_dataContraMetricXiREdge, [k; iA; iB; 2]%nat);
    (m_dataDerivRREdge, [k; iA; iB; 0]%nat);
    (m_dataDerivRREdge, [k; iA; iB; 1]%nat);
    (m_dataDerivRREdge, [k; iA; iB; 2]%nat) ].

(** The topography is as in [st0]. *)
Definition TopographyKept (s : Store) : Prop :=
  (forall ix, s m_dataTopography ix = st0 m_dataTopography ix) /\
  (forall ix, s m_dataTopographyDeriv ix = st0 m_dataTopographyDeriv ix).

(** The horizontal metric of the node [iA], [iB] is in place. *)
Definition Metric2DReady (iA iB : nat) (s : Store) : Prop :=
  TopographyKept s /\
  (forall a ix, owned (Cells2D iA iB) a ix = true ->
                s a ix = GeometricCache a ix).

(** The cells of the node of element [a], [b] with local indices [i], [j]. *)
Definition CellsElementNode (a b i j : nat) : DataArray -> list nat -> bool :=
  let iA := (GetAInteriorBegin p + a * m_nHorizontalOrder p + i)%nat in
  let iB := (GetBInteriorBegin p + b * m_nHorizontalOrder p + j)%nat in
  fun x ix =>
    owned (Cells2D iA iB) x ix
    || loop_cells (GetRElements g)
         (fun k => owned (CellsNode iA iB k)) x ix
    || loop_cells (GetRElements g + 1)
         (fun k => owned (CellsREdge iA iB k)) x ix.

Definition CellsGeometricTerms : DataArray -> list nat -> bool :=
  loop_cells (GetElementCountA p) (fun a =>
  loop_cells (GetElementCountB p) (fun b =>
  loop_cells (m_nHorizontalOrder p) (fun i =>
  loop_cells (m_nHorizontalOrder p) (fun j =>
    CellsElementNode a b i j)))).

End GeometricTerms.

Section BoundaryConditions.

Variable p : Patch.
Variable USE_COVARIANT_VELOCITIES : bool.
Variable CalculateNoFlowUrNode : Store -> nat -> nat -> nat -> R -> R -> R.
Variable iDataIndex : nat.
(** The store [ApplyBoundaryConditions] starts from, and the state array
    that receives w. *)
Variable st0 : Store.
Variable target : DataArray.

(** The value assigned to w at the bottom of column [i], [j], read off the
    store [st]. *)
Definition NoFlowValue (st : Store) (i j : nat) : R :=
  if USE_COVARIANT_VELOCITIES then
    - (st m_dataContraMetricXi [0; i; j; 0]%nat
         * st m_datavecStateNode [iDataIndex; UIx; 0; i; j]%nat
       + st m_dataContraMetricXi [0; i; j; 1]%nat
         * st m_datavecStateNode [iDataIndex; VIx; 0; i; j]%nat)
    / st m_dataContraMetricXi [0; i; j; 2]%nat
    / st m_dataDerivRNode [0; i; j; 2]%nat
  else
    CalculateNoFlowUrNode st 0 i j
      (st m_datavecStateNode [iDataIndex; UIx; 0; i; j]%nat)
      (st m_datavecStateNode [iDataIndex; VIx; 0; i; j]%nat).

(** The cells w at the bottom (k = 0) of the [target] state array. *)
Definition BottomW (a : DataArray) (ix : list nat) : bool :=
  Nat.eqb (DataArray_tag target) (DataArray_tag a)
  && match ix with
     | [d; c; k; _; _] =>
         Nat.eqb d iDataIndex && Nat.eqb c WIx && Nat.eqb k 0
     | _ => false
     end.

Definition NoFlowCache (a : DataArray) (ix : list nat) : R :=
  match ix with
  | [_; _; _; i; j] => NoFlowValue st0 i j
  | _ => 0
  end.

(** Everything but w at the bottom is as in [st0]. *)
Definition OnlyBottomWChanged (s : Store) : Prop :=
  forall a ix, BottomW a ix = false -> s a ix = st0 a ix.

Definition CellsBoundary : DataArray -> list nat -> bool :=
  loop_cells (GetATotalWidth p) (fun i =>
  loop_cells (GetBTotalWidth p) (fun j =>
    cell_eqb target [iDataIndex; WIx; 0; i; j]%nat)).

End BoundaryConditions.

(** [CalculateNoFlowUrNode] looks at the geometry of the patch only, not at
    the state arrays. *)
Definition ReadsGeometryOnly
    (f : Store -> nat -> nat -> nat -> R -> R -> R) : Prop :=
  forall s s' : Store,
    (forall a ix, a <> m_datavecStateNode -> a <> m_datavecStateREdge ->
                  s a ix = s' a ix) ->
    forall k i j u v, f s k i j u v = f s' k i j u v.

(** The topography cells of all nodes of the box. *)
Definition CellsTopography (p : Patch) : DataArray -> list nat -> bool :=
  loop_cells (GetATotalWidth p) (fun i =>
  loop_cells (GetBTotalWidth p) (fun j =>
    cell_eqb m_dataTopography [i; j]%nat)).

(** The cells of the two topography derivatives at the nodes of the
    elements. *)
Definition CellsTopographyDeriv (p : Patch) : DataArray -> list nat -> bool :=
  loop_cells (GetElementCountA p) (fun a =>
  loop_cells (GetElementCountB p) (fun b =>
  loop_cells (m_nHorizontalOrder p) (fun i =>
  loop_cells (m_nHorizontalOrder p) (fun j =>
    let iA := (GetAInteriorBegin p + a * m_nHorizontalOrder p + i)%nat in
    let iB := (GetBInteriorBegin p + b * m_nHorizontalOrder p + j)%nat in
    owned [ (m_dataTopographyDeriv, [0; iA; iB]%nat);
            (m_dataTopographyDeriv, [1; iA; iB]%nat) ])))).

(** A value per node, as the contents of an array indexed by the node. *)
Definition NodeValues (F : nat -> nat -> R) (a : DataArray) (ix : list nat)
    : R :=
  match ix with
  | [i; j] => F i j
  | _ => 0
  end.

(** The elements of the patch lie inside its box. *)
Definition ElementsInsideBox (p : Patch) : Prop :=
  (GetAInteriorBegin p + GetElementCountA p * m_nHorizontalOrder p
   <= GetATotalWidth p)%nat /\
  (GetBInteriorBegin p + GetElementCountB p * m_nHorizontalOrder p
   <= GetBTotalWidth p)%nat.

(** The coordinates of the nodes of the box, as [InitializeDataLocal]
    stores them, and the cells it stores them in. *)
Definition BoxCoordinates (GetANode GetBNode : nat -> R)
    (a : DataArray) (ix : list nat) : R :=
  match a, ix with
  | m_dataLon, [i; _] => GetANode i
  | m_dataLat, [_; j] => GetBNode j
  | _, _ => 0
  end.

Definition CellsCoordinates (p : Patch) : DataArray -> list nat -> bool :=
  loop_cells (GetATotalWidth p) (fun i =>
  loop_cells (GetBTotalWidth p) (fun j a ix =>
    cell_eqb m_dataLon [i; j]%nat a ix
    || cell_eqb m_dataLat [i; j]%nat a ix)).

(** The heights of a column whose topography is [F i j]: what the loop of
    [EvaluateTestCase] over the nodes leaves in the topography and in the
    two height arrays. *)
Definition HeightsCache (g : Grid) (F : nat -> nat -> R)
    (a : DataArray) (ix : list nat) : R :=
  match a, ix with
  | m_dataTopography, [i; j] => F i j
  | m_dataZLevels, [k; i; j] =>
      F i j + GetREtaLevel g k * (GetZtop g - F i j)
  | m_dataZInterfaces, [k; i; j] =>
      F i j + GetREtaInterface g k * (GetZtop g - F i j)
  | _, _ => 0
  end.

(** The cells of the column of node [i], [j]: its topography and its
    heights on levels and interfaces. *)
Definition CellsColumnHeights (g : Grid) (i j : nat)
    : DataArray -> list nat -> bool :=
  fun a ix =>
    cell_eqb m_dataTopography [i; j]%nat a ix
    || loop_cells (GetRElements g)
         (fun k => cell_eqb m_dataZLevels [k; i; j]%nat) a ix
    || loop_cells (GetRElements g + 1)
         (fun k => cell_eqb m_dataZInterfaces [k; i; j]%nat) a ix.

Definition CellsHeights (g : Grid) (p : Patch)
    : DataArray -> list nat -> bool :=
  loop_cells (GetATotalWidth p) (fun i =>
  loop_cells (GetBTotalWidth p) (fun j => CellsColumnHeights g i j)).

(** The longitude and latitude arrays are as in [st0]. *)
Definition CoordinatesKept (st0 s : Store) : Prop :=
  (forall ix, s m_dataLon ix = st0 m_dataLon ix) /\
  (forall ix, s m_dataLat ix = st0 m_dataLat ix).

(** The arrays that hold the inputs of the patch and its prognostic state,
    as opposed to the metric terms derived from them. *)
Definition InputArray (a : DataArray) : bool :=
  match a with
  | m_dataLon | m_dataLat
  | m_dataTopography | m_dataTopographyDeriv
  | m_dataZLevels | m_dataZInterfaces
  | m_datavecStateNode | m_datavecStateREdge => true
  | _ => false
  end.

End Footprint.

(** ** Sample inputs

    Concrete values on which the properties below are exercised. *)

(** The constants of the dry atmosphere used by the model. *)
Definition EarthAtmosphere : ThermalBubble.PhysicalConstants :=
  {| ThermalBubble.GetG := 9.80616;
     ThermalBubble.GetCv := 717.5;
     ThermalBubble.GetCp := 1004.5;
     ThermalBubble.GetR := 287.0;
     ThermalBubble.GetP0 := 100000.0 |}.


Definition ZeroStore : GridPatch.Store := fun _ _ => 0.

(** A patch of one element with a single node and no halo. *)
Definition OneColumnPatch : GridPatch.Patch :=
  {| GridPatch.m_nHorizontalOrder := 1;
     GridPatch.GetATotalWidth := 1;
     GridPatch.GetBTotalWidth := 1;
     GridPatch.GetAInteriorBegin := 0;
     GridPatch.GetBInteriorBegin := 0;
     GridPatch.GetElementCountA := 1;
     GridPatch.GetElementCountB := 1;
     GridPatch.GetElementDeltaA := 1;
     GridPatch.GetElementDeltaB := 1;
     GridPatch.dWL := fun _ => 1 |}.

(** One model level at REta = 1/2 between the interfaces 0 and 1, model top at
    1000, and the quadratic stretch F(eta) = eta^2 with derivative 2 eta.
    The interface areas are given as a parameter. *)
Definition QuadraticStretchGrid (vs : GridPatch.VerticalStaggering)
    (dWREdge : list R) : GridPatch.Grid :=
  {| GridPatch.GetVerticalStaggering := vs;
     GridPatch.GetRElements := 1;
     GridPatch.GetREtaLevel := fun _ => 0.5;
     GridPatch.GetREtaInterface := fun k => INR k;
     GridPatch.GetZtop := 1000;
     GridPatch.EvaluateVerticalStretchF := fun eta => (eta * eta, 2 * eta);
     GridPatch.GetREtaLevelsNormArea := [1];
     GridPatch.GetREtaInterfacesNormArea := dWREdge |}.

Definition FlatTestCase : GridPatch.TestCase :=
  {| GridPatch.EvaluateTopography_at := fun _ _ => 0 |}.

(** A one-column store with bottom metric g^(xi a) = 1, g^(xi b) = 0,
    g^(xi xi) = 2, d_xi Z = 5 and bottom velocities u = 3, v = 7. *)
Definition BottomFlowStore : GridPatch.Store :=
  let st := ZeroStore in
  let st := GridPatch.upd st GridPatch.m_dataContraMetricXi [0; 0; 0; 0]%nat 1 in
  let st := GridPatch.upd st GridPatch.m_dataContraMetricXi [0; 0; 0; 2]%nat 2 in
  let st := GridPatch.upd st GridPatch.m_dataDerivRNode [0; 0; 0; 2]%nat 5 in
  let st := GridPatch.upd st GridPatch.m_datavecStateNode [0; 0; 0; 0; 0]%nat 3 in
  GridPatch.upd st GridPatch.m_datavecStateNode [0; 1; 0; 0; 0]%nat 7.

(** A stand-in for the helper of the contravariant build. *)
Definition SampleNoFlowUrNode
    : GridPatch.Store -> nat -> nat -> nat -> R -> R -> R :=
  fun st k i j u v =>
    st GridPatch.m_dataDerivRNode [k; i; j; 0]%nat * u
    + st GridPatch.m_dataDerivRNode [k; i; j; 1]%nat * v.

(** A derivative table to instantiate the flux-correction rows with:
    order and type are ignored, the derivative at [x] is [x]. *)
Definition LinearFluxDerivative : nat -> nat -> R -> R := fun _ _ x => x.

(** The Gauss-Lobatto rule with two points on [x0, x1]: the end points,
    each with half the length as weight. *)
Definition TwoPointLobatto : nat -> R -> R -> (nat -> R) * (nat -> R) :=
  fun _ x0 x1 =>
    (fun i => if Nat.eqb i 0 then x0 else x1, fun _ => (x1 - x0) / 2).

(** A column of two first-order elements: levels at 1/4 and 3/4 between the
    interfaces 0, 1/2, 1. *)
Definition TwoLevelNodes : list R := [0.25; 0.75].
Definition TwoLevelEdges : list R := [0; 0.5; 1].

(** The search loop places [dOut] on the interior edge of that column. *)
Definition FindElement_on_edge_sample (dOut : R) : Prop :=
  ColumnOperator.FindElement TwoLevelEdges 1 dOut 1 0 = (0%nat, true).

(** A patch of one element of order two without halo, the edge coordinates
    0 and 1 of its nodes, and a store whose topography at a node is the
    edge coordinate of the node in the first direction. *)
Definition TwoNodePatch : GridPatch.Patch :=
  {| GridPatch.m_nHorizontalOrder := 2;
     GridPatch.GetATotalWidth := 2;
     GridPatch.GetBTotalWidth := 2;
     GridPatch.GetAInteriorBegin := 0;
     GridPatch.GetBInteriorBegin := 0;
     GridPatch.GetElementCountA := 1;
     GridPatch.GetElementCountB := 1;
     GridPatch.GetElementDeltaA := 1;
     GridPatch.GetElementDeltaB := 1;
     GridPatch.dWL := fun _ => 0.5 |}.

Definition UnitEdges : list R := [0; 1].

Definition SlopeStore : GridPatch.Store :=
  fun a ix =>
    match a, ix with
    | GridPatch.m_dataTopography, [i; _] => nth i UnitEdges 0
    | _, _ => 0
    end.

Definition NoDiagnostics : GridPatch.CurlAndDiv :=
  {| GridPatch.m_dataVorticity := fun _ _ _ => 0;
     GridPatch.m_dataDivergence := fun _ _ _ => 0;
     GridPatch.dConUa := fun _ _ => 0;
     GridPatch.dConUb := fun _ _ => 0 |}.
(** * Properties *)

(** ** Buffers *)

Lemma store_length v i x : length (store v i x) = length v.
Proof.
  revert i; induction v as [|h t IH]; intros [|i]; simpl; auto.
Qed.

Lemma nth_store_same v i x :
  (i < length v)%nat -> nth i (store v i x) 0 = x.
Proof.
  revert i; induction v as [|h t IH]; intros [|i] H; simpl in *; try lia; auto.
  apply IH; lia.
Qed.

Lemma nth_store_other v i j x :
  i <> j -> nth j (store v i x) 0 = nth j v 0.
Proof.
  revert i j; induction v as [|h t IH]; intros [|i] [|j] H; simpl; auto;
    try congruence.
Qed.

(** Reading cell [j] of a buffer after a run of [store]s. *)
Ltac read_buffer :=
  repeat first
    [ rewrite nth_store_same by (rewrite ?store_length; lia)
    | rewrite nth_store_other by lia ].

(** ** The thermal bubble test case *)

Section PowFacts.

Lemma c_pow_any_positive x y : 0 < x -> c_pow_any x y = Some (Rpower x y).
Proof.
  intro H. unfold c_pow_any.
  destruct (Rlt_dec 0 x); [reflexivity | contradiction].
Qed.

Lemma c_pow_any_zero y : 0 < y -> c_pow_any 0 y = Some 0.
Proof.
  intro H. unfold c_pow_any.
  destruct (Rlt_dec 0 0) as [H0|_]; [lra|].
  destruct (Rlt_dec 0 y); [reflexivity | contradiction].
Qed.

Lemma c_pow_any_negative x y :
  x < 0 -> y <> IZR (Int_part y) -> c_pow_any x y = None.
Proof.
  intros Hx Hy. unfold c_pow_any.
  destruct (Rlt_dec 0 x) as [H0|_]; [lra|].
  destruct (Rlt_dec x 0); [|contradiction].
  destruct (Req_dec_T y (IZR (Int_part y))); [contradiction | reflexivity].
Qed.

(** A derivative depends on the function near the point only. *)
Lemma derivable_pt_lim_near (f h : R -> R) (x l d : R) :
  0 < d ->
  (forall y, Rabs (y - x) < d -> f y = h y) ->
  derivable_pt_lim f x l -> derivable_pt_lim h x l.
Proof.
  intros Hd E D eps Heps.
  destruct (D eps Heps) as [d1 Hd1].
  assert (Hm : 0 < Rmin d1 d).
  { apply Rmin_pos; [apply cond_pos | exact Hd]. }
  exists (mkposreal _ Hm). intros k Hk Hk'. simpl in Hk'.
  assert (Hk1 : Rabs k < d1).
  { eapply Rlt_le_trans; [exact Hk' | apply Rmin_l]. }
  assert (Hk2 : Rabs k < d).
  { eapply Rlt_le_trans; [exact Hk' | apply Rmin_r]. }
  rewrite <- (E (x + k)), <- (E x).
  - now apply Hd1.
  - replace (x - x) with 0 by ring. now rewrite Rabs_R0.
  - replace (x + k - x) with k by ring. exact Hk2.
Qed.

End PowFacts.

Section ThermalBubbleFacts.

Import ThermalBubble.

Let T := ThermalBubbleCartesianTest.

(** The buffer written at a height where [pow] has the value [w]. *)
Lemma ReferenceState_value phys z x y buf w :
  c_pow_any (- GetG phys / (GetCp phys * 300) * z + 1)
    (GetCv phys / GetR phys) = Some w ->
  EvaluateReferenceState T phys z x y buf
  = Some (store (store (store (store (store buf 0 0) 1 0) 3 0) 2 300) 4
            (GetP0 phys / (GetR phys * 300) * w)).
Proof.
  intro E. unfold EvaluateReferenceState; cbv zeta.
  simpl m_dThetaBar. rewrite E. reflexivity.
Qed.

Lemma ReferenceState_not_a_number phys z x y buf :
  c_pow_any (- GetG phys / (GetCp phys * 300) * z + 1)
    (GetCv phys / GetR phys) = None ->
  EvaluateReferenceState T phys z x y buf = None.
Proof.
  intro E. unfold EvaluateReferenceState; cbv zeta.
  simpl m_dThetaBar. rewrite E. reflexivity.
Qed.

Lemma Exner_forms phys z :
  - GetG phys / (GetCp phys * 300) * z + 1
  = 1 - GetG phys * z / (GetCp phys * 300).
Proof. unfold Rdiv. ring. Qed.

Lemma ReferenceState_components phys z x y buf :
  length buf = 5%nat ->
  0 < 1 - GetG phys * z / (GetCp phys * 300) ->
  exists out,
    EvaluateReferenceState T phys z x y buf = Some out /\
    nth 0 out 0 = 0 /\ nth 1 out 0 = 0 /\ nth 3 out 0 = 0 /\
    nth 2 out 0 = 300 /\
    nth 4 out 0 =
      GetP0 phys / (GetR phys * 300)
      * Rpower (1 - GetG phys * z / (GetCp phys * 300))
               (GetCv phys / GetR phys).
Proof.
  intros Hlen Hpos.
  eexists. split.
  - apply ReferenceState_value. apply c_pow_any_positive.
    rewrite Exner_forms. exact Hpos.
  - rewrite Exner_forms. repeat split; read_buffer; reflexivity.
Qed.

(** The pressure of the reference state is p0 E^(Cp/Rd), E the Exner
    function of the test, where E is positive. *)
Lemma ReferenceState_pressure phys z x y buf out :
  length buf = 5%nat ->
  GetR phys <> 0 -> GetP0 phys <> 0 -> GetCv phys <> 0 ->
  0 < 1 - GetG phys * z / (GetCp phys * 300) ->
  EvaluateReferenceState T phys z x y buf = Some out ->
  Pressure phys out
  = GetP0 phys
    * Rpower (- GetG phys / (GetCp phys * 300) * z + 1)
             (GetCp phys / GetR phys).
Proof.
  intros Hlen HR HP HCv Hpos Hout.
  rewrite (ReferenceState_value phys z x y buf
             (Rpower (- GetG phys / (GetCp phys * 300) * z + 1)
                (GetCv phys / GetR phys))) in Hout
    by (apply c_pow_any_positive; rewrite Exner_forms; exact Hpos).
  injection Hout as <-.
  unfold Pressure. read_buffer.
  f_equal.
  replace (GetR phys *
           (GetP0 phys / (GetR phys * 300) *
            Rpower (- GetG phys / (GetCp phys * 300) * z + 1)
                   (GetCv phys / GetR phys)) * 300 / GetP0 phys)
    with (Rpower (- GetG phys / (GetCp phys * 300) * z + 1)
                 (GetCv phys / GetR phys)) by (field; auto).
  rewrite Rpower_mult. f_equal. field; auto.
Qed.

(** Around a height where the Exner function is positive it stays so. *)
Lemma Exner_positive_near phys z :
  0 < 1 - GetG phys * z / (GetCp phys * 300) ->
  exists d, 0 < d /\
    forall z', Rabs (z' - z) < d ->
      0 < 1 - GetG phys * z' / (GetCp phys * 300).
Proof.
  intro Hpos.
  set (c := GetG phys / (GetCp phys * 300)).
  assert (Hform : forall u, 1 - GetG phys * u / (GetCp phys * 300)
                            = 1 - c * u).
  { intro u. unfold c, Rdiv. ring. }
  rewrite Hform in Hpos.
  pose proof (Rabs_pos c) as Hc.
  exists ((1 - c * z) / (Rabs c + 1)). split.
  - apply Rdiv_lt_0_compat; lra.
  - intros z' Hz'. rewrite Hform.
    assert (Hb : Rabs (c * (z' - z)) < 1 - c * z).
    { rewrite Rabs_mult.
      apply Rle_lt_trans with (Rabs c * ((1 - c * z) / (Rabs c + 1))).
      - apply Rmult_le_compat_l; [exact Hc | lra].
      - apply Rlt_le_trans
          with ((Rabs c + 1) * ((1 - c * z) / (Rabs c + 1))).
        + apply Rmult_lt_compat_r; [apply Rdiv_lt_0_compat; lra | lra].
        + right. field. lra. }
    apply Rabs_def2 in Hb. lra.
Qed.

Lemma ReferenceState_hydrostatic phys z x y buf :
  length buf = 5%nat ->
  GetR phys <> 0 -> GetP0 phys <> 0 -> GetCv phys <> 0 -> GetCp phys <> 0 ->
  GetCp phys = GetCv phys + GetR phys ->
  0 < 1 - GetG phys * z / (GetCp phys * 300) ->
  derivable_pt_lim
    (fun z' => match EvaluateReferenceState T phys z' x y buf with
               | Some s => Pressure phys s
               | None => 0
               end)
    z
    (- (GetP0 phys / (GetR phys * 300)
        * Rpower (1 - GetG phys * z / (GetCp phys * 300))
                 (GetCv phys / GetR phys)) * GetG phys).
Proof.
  intros Hlen HR HP HCv HCp Hgas Hpos.
  destruct (Exner_positive_near phys z Hpos) as (d & Hd & Hnear).
  apply derivable_pt_lim_near with
    (f := fun z' => GetP0 phys
            * Rpower (- GetG phys / (GetCp phys * 300) * z' + 1)
                     (GetCp phys / GetR phys)) (d := d); [exact Hd | |].
  { intros z' Hz'. specialize (Hnear z' Hz').
    destruct (ReferenceState_components phys z' x y buf Hlen Hnear)
      as (out & Eout & _).
    rewrite Eout. symmetry.
    now apply (ReferenceState_pressure phys z' x y buf out). }
  set (E := fun z' : R => - GetG phys / (GetCp phys * 300) * z' + 1).
  assert (HE : 0 < E z).
  { unfold E. rewrite Exner_forms. exact Hpos. }
  assert (DE : derivable_pt_lim E z (- GetG phys / (GetCp phys * 300))).
  { intros eps Heps. exists (mkposreal 1 Rlt_0_1). intros k Hk _.
    replace ((E (z + k) - E z) / k - - GetG phys / (GetCp phys * 300))
      with 0 by (unfold E; field; auto).
    rewrite Rabs_R0. exact Heps. }
  assert (DP := derivable_pt_lim_power (E z) (GetCp phys / GetR phys) HE).
  assert (DC := derivable_pt_lim_comp E
                  (fun u => Rpower u (GetCp phys / GetR phys)) z _ _ DE DP).
  assert (DS := derivable_pt_lim_scal _ (GetP0 phys) z _ DC).
  replace (1 - GetG phys * z / (GetCp phys * 300)) with (E z)
    by (unfold E, Rdiv; ring).
  replace (- (GetP0 phys / (GetR phys * 300)
              * Rpower (E z) (GetCv phys / GetR phys)) * GetG phys)
    with (GetP0 phys
          * (GetCp phys / GetR phys
             * Rpower (E z) (GetCp phys / GetR phys - 1)
             * (- GetG phys / (GetCp phys * 300)))).
  { exact DS. }
  replace (GetCp phys / GetR phys - 1) with (GetCv phys / GetR phys)
    by (rewrite Hgas; field; auto).
  field; auto.
Qed.

(** The exponent Cv / Rd of the dry atmosphere, 2.5, is not an integer. *)
Lemma EarthAtmosphere_exponent :
  GetCv EarthAtmosphere / GetR EarthAtmosphere
  <> IZR (Int_part (GetCv EarthAtmosphere / GetR EarthAtmosphere)).
Proof.
  generalize (Int_part (GetCv EarthAtmosphere / GetR EarthAtmosphere)).
  intros k Hk. simpl in Hk.
  assert (H : IZR 5 = IZR (2 * k)).
  { rewrite mult_IZR. rewrite <- Hk. lra. }
  apply eq_IZR in H. lia.
Qed.

End ThermalBubbleFacts.

(** C8 (as stated, refuted).  At the height z = 40000 the Exner function
    1 - g z / (Cp theta-bar) of the dry atmosphere is negative and the
    exponent Cv / Rd = 2.5 is not an integer, so [pow] returns NaN: the
    density [EvaluateReferenceState] writes is not a number, and the state
    is not the claimed one. *)
Lemma C8_counterexample :
  1 - ThermalBubble.GetG EarthAtmosphere * 40000
      / (ThermalBubble.GetCp EarthAtmosphere * 300) < 0 /\
  ThermalBubble.EvaluateReferenceState
    ThermalBubble.ThermalBubbleCartesianTest EarthAtmosphere
    40000 0 0 [0; 0; 0; 0; 0] = None.
Proof.
  split; [simpl; lra|].
  apply ReferenceState_not_a_number.
  apply c_pow_any_negative; [simpl; lra | exact EarthAtmosphere_exponent].
Qed.

(** C8 (amended).  For physical constants with Cp and Rd not zero
    and a buffer of five cells: at every height z where the Exner function
    E(z) = 1 - g z / (Cp theta-bar) is positive, and at every horizontal
    position, [EvaluateReferenceState] writes zero into the three velocity
    components (cells 0, 1, 3), theta-bar = 300 into cell 2 and the density
    p0 / (Rd theta-bar) E(z)^(Cv/Rd) into cell 4, and for an ideal gas
    (Cp = Cv + Rd, p0 and Cv not zero) that state is in hydrostatic
    balance: with the pressure of the equation of state, dp/dz = - rho g.
    Where E(z) = 0 the density written is 0 (for Cv / Rd positive), and
    where E(z) is negative and Cv / Rd is not an integer the density written
    is not a number. *)
Theorem C8_reference_state_hydrostatic :
  forall (phys : ThermalBubble.PhysicalConstants) (z x y : R) (buf : list R),
    length buf = 5%nat ->
    ThermalBubble.GetCp phys <> 0 -> ThermalBubble.GetR phys <> 0 ->
    let T := ThermalBubble.ThermalBubbleCartesianTest in
    let Exner := fun z' =>
      1 - ThermalBubble.GetG phys * z' / (ThermalBubble.GetCp phys * 300) in
    let exponent := ThermalBubble.GetCv phys / ThermalBubble.GetR phys in
    ThermalBubble.HasReferenceState T = true /\
    (0 < Exner z ->
     exists out,
       ThermalBubble.EvaluateReferenceState T phys z x y buf = Some out /\
       nth 0 out 0 = 0 /\ nth 1 out 0 = 0 /\ nth 3 out 0 = 0 /\
       nth 2 out 0 = 300 /\
       nth 4 out 0 =
         ThermalBubble.GetP0 phys / (ThermalBubble.GetR phys * 300)
         * Rpower (Exner z) exponent /\
       (ThermalBubble.GetP0 phys <> 0 -> ThermalBubble.GetCv phys <> 0 ->
        ThermalBubble.GetCp phys
          = ThermalBubble.GetCv phys + ThermalBubble.GetR phys ->
        derivable_pt_lim
          (fun z' =>
             match ThermalBubble.EvaluateReferenceState T phys z' x y buf
             with
             | Some s => ThermalBubble.Pressure phys s
             | None => 0
             end)
          z (- nth 4 out 0 * ThermalBubble.GetG phys))) /\
    (Exner z = 0 -> 0 < exponent ->
     exists out,
       ThermalBubble.EvaluateReferenceState T phys z x y buf = Some out /\
       nth 4 out 0 = 0) /\
    (Exner z < 0 -> exponent <> IZR (Int_part exponent) ->
     ThermalBubble.EvaluateReferenceState T phys z x y buf = None).
Proof.
  intros phys z x y buf Hlen HCp HR T Exner exponent.
  split; [reflexivity|]. split; [|split].
  - intro Hpos.
    destruct (ReferenceState_components phys z x y buf Hlen Hpos)
      as (out & Eout & H0 & H1 & H3 & H2 & H4).
    exists out. repeat (split; [assumption|]).
    intros HP HCv Hgas. rewrite H4.
    now apply ReferenceState_hydrostatic.
  - intros Hzero Hexp.
    eexists. split.
    + apply ReferenceState_value.
      rewrite Exner_forms. fold (Exner z). rewrite Hzero.
      now apply c_pow_any_zero.
    + read_buffer. ring.
  - intros Hneg Hexp.
    apply ReferenceState_not_a_number.
    apply c_pow_any_negative; [|exact Hexp].
    rewrite Exner_forms. exact Hneg.
Qed.

Lemma C8_reference_state_hydrostatic_witness :
  let T := ThermalBubble.ThermalBubbleCartesianTest in
  exists out,
    ThermalBubble.EvaluateReferenceState T EarthAtmosphere
      500 250 0 [0; 0; 0; 0; 0] = Some out /\
    nth 2 out 0 = 300 /\
    derivable_pt_lim
      (fun z' =>
         match ThermalBubble.EvaluateReferenceState T EarthAtmosphere
                 z' 250 0 [0; 0; 0; 0; 0]
         with
         | Some s => ThermalBubble.Pressure EarthAtmosphere s
         | None => 0
         end)
      500 (- nth 4 out 0 * ThermalBubble.GetG EarthAtmosphere).
Proof.
  intro T.
  assert (HCp : ThermalBubble.GetCp EarthAtmosphere <> 0) by (simpl; lra).
  assert (HR : ThermalBubble.GetR EarthAtmosphere <> 0) by (simpl; lra).
  destruct (C8_reference_state_hydrostatic EarthAtmosphere 500 250 0
              [0; 0; 0; 0; 0] eq_refl HCp HR) as (_ & Hpos & _).
  destruct Hpos as (out & Eout & _ & _ & _ & H2 & _ & Hh); [simpl; lra|].
  exists out. split; [exact Eout|]. split; [exact H2|].
  apply Hh; simpl; lra.
Defined.

(** C9.  The thermal rising bubble program is configured as the scenario
    states: box [0,1000] x [-1000,1000] x [0,1000], default resolution
    36 x 1 with 72 levels, horizontal order 4, vertical order 1, time step
    10000 microseconds, end time 700 seconds, theta-bar = 300,
    theta_c = 0.5, r_c = 250, centre (500, 350), no topography and no
    tracers. *)
Theorem C9_thermal_bubble_configuration :
  let T := ThermalBubble.ThermalBubbleCartesianTest in
  let c := ThermalBubble.main_defaults in
  ThermalBubble.m_dGDim T = [0; 1000; -1000; 1000; 0; 1000] /\
  fst (fst ThermalBubble.main_setup_arguments) = ThermalBubble.m_dGDim T /\
  ThermalBubble.GetZtop T = 1000 /\
  ThermalBubble.ResolutionX c = 36%Z /\
  ThermalBubble.ResolutionY c = 1%Z /\
  ThermalBubble.Levels c = 72%Z /\
  ThermalBubble.HorizontalOrder c = 4%Z /\
  ThermalBubble.VerticalOrder c = 1%Z /\
  ThermalBubble.ParseTimeLiteral (ThermalBubble.DeltaT c)
    = Some (10000%Z, ThermalBubble.Microseconds) /\
  ThermalBubble.ParseTimeLiteral (ThermalBubble.EndTime c)
    = Some (700%Z, ThermalBubble.Seconds) /\
  ThermalBubble.m_dThetaBar T = 300 /\
  ThermalBubble.m_dThetaC T = 0.5 /\
  ThermalBubble.m_drC T = 250 /\
  ThermalBubble.m_dxC T = 500 /\
  ThermalBubble.m_dzC T = 350 /\
  (forall x y, ThermalBubble.EvaluateTopography T x y = 0) /\
  ThermalBubble.GetTracerCount T = 0%nat.
Proof.
  cbv zeta. repeat split.
Qed.

(** *** The potential temperature perturbation *)

Lemma PI_above_m_dpiC : 3.14159265 < PI.
Proof.
  pose proof (PI_2_3_7_ineq 4) as [H _].
  unfold sum_f_R0, tg_alt, PI_2_3_7_tg, Ratan_seq in H.
  simpl in H. lra.
Qed.



Section PerturbationFacts.

Import ThermalBubble.

Let T := ThermalBubbleCartesianTest.

Lemma TPrime_inside phys x z :
  BubbleDistance T x z <= 250 ->
  EvaluateTPrime T phys x z
  = 0.5 * 0.5 * (1 + cos (3.14159265 * BubbleDistance T x z / 250)).
Proof.
  intro H. unfold EvaluateTPrime, BubbleDistance in *; cbv zeta.
  simpl in *.
  destruct (Rle_dec _ 250); [reflexivity | contradiction].
Qed.

Lemma TPrime_outside phys x z :
  BubbleDistance T x z > 250 -> EvaluateTPrime T phys x z = 0.
Proof.
  intro H. unfold EvaluateTPrime, BubbleDistance in *; cbv zeta.
  simpl in *.
  destruct (Rle_dec _ 250); [lra|].
  destruct (Rgt_dec _ 250); [reflexivity | contradiction].
Qed.

Lemma TPrime_range phys x z :
  0 <= EvaluateTPrime T phys x z <= 0.5.
Proof.
  destruct (Rle_dec (BubbleDistance T x z) 250) as [H|H].
  - rewrite TPrime_inside by assumption.
    pose proof (COS_bound (3.14159265 * BubbleDistance T x z / 250)). lra.
  - rewrite TPrime_outside by lra. lra.
Qed.




Lemma BubbleDistance_on_axis x : 500 <= x -> BubbleDistance T x 350 = x - 500.
Proof.
  intro H. unfold BubbleDistance. simpl.
  replace ((x - 500) * (x - 500) + (350 - 350) * (350 - 350))
    with ((x - 500) * (x - 500)) by ring.
  apply sqrt_square; lra.
Qed.


End PerturbationFacts.



(** ** The grid patch *)

Section NormalizedAreas.

Import GridPatch.

Lemma EvaluateGeometricTerms_checks g p st :
  (Rabs (NormAreaSum (GetREtaLevelsNormArea g) - 1) > 1.0e-13 ->
   EvaluateGeometricTerms g p st = Exception "Error in normalized areas") /\
  (GetVerticalStaggering g <> VerticalStaggering_Interfaces ->
   Rabs (NormAreaSum (GetREtaInterfacesNormArea g) - 1) > 1.0e-13 ->
   EvaluateGeometricTerms g p st = Exception "Error in normalized areas") /\
  (Rabs (NormAreaSum (GetREtaLevelsNormArea g) - 1) <= 1.0e-13 ->
   GetVerticalStaggering g = VerticalStaggering_Interfaces \/
   Rabs (NormAreaSum (GetREtaInterfacesNormArea g) - 1) <= 1.0e-13 ->
   exists st', EvaluateGeometricTerms g p st = Ok st').
Proof.
  unfold EvaluateGeometricTerms; cbv zeta.
  replace 1.0 with 1 by lra.
  repeat split.
  - intro H. destruct (Rgt_dec _ _); [reflexivity | contradiction].
  - intros Hvs H.
    destruct (Rgt_dec (Rabs (NormAreaSum (GetREtaLevelsNormArea g) - 1)) _);
      [reflexivity|].
    destruct (Rgt_dec (Rabs (NormAreaSum (GetREtaInterfacesNormArea g) - 1)) _);
      [|contradiction].
    destruct (GetVerticalStaggering g); simpl; try reflexivity.
    now elim Hvs.
  - intros Hn He.
    destruct (Rgt_dec (Rabs (NormAreaSum (GetREtaLevelsNormArea g) - 1)) _);
      [lra|].
    destruct He as [He|He].
    + rewrite He; simpl. eexists; reflexivity.
    + destruct (Rgt_dec (Rabs (NormAreaSum (GetREtaInterfacesNormArea g) - 1))
                  _); [lra|].
      rewrite andb_false_r. eexists; reflexivity.
Qed.

End NormalizedAreas.

(** C5 (as stated, refuted).  With everything on interfaces the interface
    areas are not checked: a grid whose interface areas sum to 5 passes
    [EvaluateGeometricTerms] without an exception. *)
Lemma C5_counterexample :
  let g := QuadraticStretchGrid GridPatch.VerticalStaggering_Interfaces [5] in
  Rabs (GridPatch.NormAreaSum (GridPatch.GetREtaInterfacesNormArea g) - 1)
    > 1.0e-13 /\
  exists st', GridPatch.EvaluateGeometricTerms g OneColumnPatch ZeroStore
              = Ok st'.
Proof.
  intro g. split.
  - unfold g, GridPatch.NormAreaSum; simpl.
    rewrite Rabs_right; lra.
  - apply (EvaluateGeometricTerms_checks g OneColumnPatch ZeroStore).
    + unfold g, GridPatch.NormAreaSum; simpl.
      replace (0.0 + 1 - 1) with 0 by lra. rewrite Rabs_R0. lra.
    + left; reflexivity.
Qed.

(** C5 (amended).  [EvaluateGeometricTerms] raises the normalized-area error
    when the sum of the level areas deviates from one by more than 1e-13, for
    every vertical staggering; it raises it when the sum of the interface
    areas deviates by more than 1e-13 for every staggering except
    INTERFACES, where the interface areas are not examined; and when the
    checks that apply are met it returns normally. *)
Theorem C5_normalized_area_check :
  forall (g : GridPatch.Grid) (p : GridPatch.Patch) (st : GridPatch.Store),
    (Rabs (GridPatch.NormAreaSum (GridPatch.GetREtaLevelsNormArea g) - 1)
       > 1.0e-13 ->
     GridPatch.EvaluateGeometricTerms g p st
       = Exception "Error in normalized areas") /\
    (GridPatch.GetVerticalStaggering g
       <> GridPatch.VerticalStaggering_Interfaces ->
     Rabs (GridPatch.NormAreaSum (GridPatch.GetREtaInterfacesNormArea g) - 1)
       > 1.0e-13 ->
     GridPatch.EvaluateGeometricTerms g p st
       = Exception "Error in normalized areas") /\
    (Rabs (GridPatch.NormAreaSum (GridPatch.GetREtaLevelsNormArea g) - 1)
       <= 1.0e-13 ->
     GridPatch.GetVerticalStaggering g
       = GridPatch.VerticalStaggering_Interfaces \/
     Rabs (GridPatch.NormAreaSum (GridPatch.GetREtaInterfacesNormArea g) - 1)
       <= 1.0e-13 ->
     exists st', GridPatch.EvaluateGeometricTerms g p st = Ok st').
Proof.
  intros g p st. apply EvaluateGeometricTerms_checks.
Qed.

Lemma C5_normalized_area_check_witness :
  GridPatch.EvaluateGeometricTerms
    (QuadraticStretchGrid GridPatch.VerticalStaggering_CharneyPhillips [5])
    OneColumnPatch ZeroStore
  = Exception "Error in normalized areas".
Proof.
  apply (C5_normalized_area_check
           (QuadraticStretchGrid GridPatch.VerticalStaggering_CharneyPhillips
              [5]) OneColumnPatch ZeroStore).
  - discriminate.
  - unfold GridPatch.NormAreaSum; simpl. rewrite Rabs_right; lra.
Defined.

(** C3 (the code at the failing input).  On a flat one-column patch with
    model top 1000, a level at REta = 1/2 and the stretch F(eta) = eta^2,
    [EvaluateTestCase] caches the level height 500 = z_s + REta (z_top - z_s),
    while z_s + (z_top - z_s) F(REta), the height [EvaluateGeometricTerms]
    works with at the same level, is 250. *)
Theorem C3_heights_ignore_stretch :
  let g := QuadraticStretchGrid GridPatch.VerticalStaggering_CharneyPhillips
             [0.5; 0.5] in
  exists st',
    GridPatch.EvaluateTestCase_heights g OneColumnPatch FlatTestCase ZeroStore
      = Ok st' /\
    st' GridPatch.m_dataTopography [0; 0]%nat = 0 /\
    st' GridPatch.m_dataZLevels [0; 0; 0]%nat = 500 /\
    st' GridPatch.m_dataZInterfaces [0; 0; 0]%nat = 0 /\
    st' GridPatch.m_dataZInterfaces [1; 0; 0]%nat = 1000 /\
    GridPatch.NodeTerms_dZ g (st' GridPatch.m_dataTopography [0; 0]%nat) 0
      = 250 /\
    0 + (GridPatch.GetZtop g - 0)
        * fst (GridPatch.EvaluateVerticalStretchF g
                 (GridPatch.GetREtaLevel g 0))
      = 250.
Proof.
  intro g.
  unfold GridPatch.EvaluateTestCase_heights, for_loopM; simpl.
  unfold GridPatch.EvaluateTestCase_column; simpl.
  unfold GridPatch.upd at 1; simpl.
  destruct (Rge_dec 0 1000) as [H|H]; [lra|].
  eexists; split; [reflexivity|].
  unfold for_loop, GridPatch.NodeTerms_dZ, GridPatch.upd; simpl.
  repeat split; lra.
Qed.

(** *** Loops and footprints *)

Lemma for_loop_S {S : Type} n (body : nat -> S -> S) s :
  for_loop (Datatypes.S n) body s = body n (for_loop n body s).
Proof.
  unfold for_loop. rewrite seq_S, fold_left_app. reflexivity.
Qed.

Lemma for_loop_0 {S : Type} (body : nat -> S -> S) s : for_loop 0 body s = s.
Proof. reflexivity. Qed.

Section FootprintFacts.

Import GridPatch Footprint.

Lemma subscripts_eqb_true x y : subscripts_eqb x y = true -> x = y.
Proof.
  revert y; induction x as [|a x IH]; intros [|b y] H; simpl in H;
    try discriminate; auto.
  apply andb_prop in H as [H1 H2].
  apply Nat.eqb_eq in H1. f_equal; auto.
Qed.

Lemma subscripts_eqb_refl x : subscripts_eqb x x = true.
Proof.
  induction x as [|a x IH]; simpl; auto.
  rewrite Nat.eqb_refl; auto.
Qed.

Lemma DataArray_tag_inj a b : DataArray_tag a = DataArray_tag b -> a = b.
Proof. destruct a, b; simpl; intro H; try reflexivity; discriminate. Qed.

Lemma cell_eqb_true a ix a' ix' :
  cell_eqb a ix a' ix' = true -> a = a' /\ ix = ix'.
Proof.
  unfold cell_eqb; intro H. apply andb_prop in H as [H1 H2].
  apply Nat.eqb_eq in H1. split.
  - now apply DataArray_tag_inj.
  - now apply subscripts_eqb_true.
Qed.

Lemma cell_eqb_refl a ix : cell_eqb a ix a ix = true.
Proof.
  unfold cell_eqb. now rewrite Nat.eqb_refl, subscripts_eqb_refl.
Qed.

Lemma upd_same st a ix v : upd st a ix v a ix = v.
Proof. unfold upd. now rewrite cell_eqb_refl. Qed.

Lemma upd_frame st a ix v a' ix' :
  cell_eqb a ix a' ix' = false -> upd st a ix v a' ix' = st a' ix'.
Proof. unfold upd. now intros ->. Qed.

Lemma loop_cells_S n O a ix :
  loop_cells (S n) O a ix = loop_cells n O a ix || O n a ix.
Proof.
  unfold loop_cells. rewrite seq_S, existsb_app. simpl.
  now rewrite orb_false_r.
Qed.

Lemma loop_cells_intro n O a ix i :
  (i < n)%nat -> O i a ix = true -> loop_cells n O a ix = true.
Proof.
  intros Hi HO. unfold loop_cells. apply existsb_exists.
  exists i. split; [apply in_seq; lia | exact HO].
Qed.

Lemma loop_cells_elim n O a ix :
  loop_cells n O a ix = true -> exists i, (i < n)%nat /\ O i a ix = true.
Proof.
  unfold loop_cells. intro H. apply existsb_exists in H as (i & Hi & HO).
  apply in_seq in Hi. exists i; split; [lia | exact HO].
Qed.

Section LocalLoops.

Variable interest : DataArray -> list nat -> bool.
Variable Cached : DataArray -> list nat -> R.
Variable Inv : Store -> Prop.

Lemma Local_for_loop n body O :
  (forall i, (i < n)%nat -> Local interest Cached Inv (O i) (body i)) ->
  Local interest Cached Inv (loop_cells n O) (for_loop n body).
Proof.
  induction n as [|n IH]; intros Hbody s Hs.
  - rewrite for_loop_0. repeat split; auto. intros a ix H; discriminate.
  - rewrite for_loop_S.
    destruct (IH (fun i Hi => Hbody i (Nat.lt_lt_succ_r _ _ Hi)) s Hs)
      as (Hinv & Hframe & Hval).
    destruct (Hbody n (Nat.lt_succ_diag_r n) _ Hinv)
      as (Hinv' & Hframe' & Hval').
    split; [exact Hinv'|]. split.
    + intros a ix H. rewrite loop_cells_S in H.
      apply orb_false_elim in H as [H1 H2].
      rewrite Hframe' by assumption. now apply Hframe.
    + intros a ix H Hi. rewrite loop_cells_S in H.
      destruct (O n a ix) eqn:E.
      * now apply Hval'.
      * rewrite orb_false_r in H. rewrite Hframe' by assumption.
        now apply Hval.
Qed.

End LocalLoops.

Lemma Local_weaken interest Cached (Inv Inv' : Store -> Prop) O T :
  (forall s, Inv' s -> Inv s) ->
  (forall s, Inv' s -> (forall a ix, O a ix = false -> T s a ix = s a ix) ->
             Inv' (T s)) ->
  Local interest Cached Inv O T -> Local interest Cached Inv' O T.
Proof.
  intros Himp Hkeep HL s Hs.
  destruct (HL s (Himp s Hs)) as (_ & Hf & Hv).
  repeat split; auto.
Qed.

End FootprintFacts.

(** *** The loop bodies of [EvaluateGeometricTerms] *)

Section GeometricTermsFacts.

Import GridPatch Footprint.

Variable g : Grid.
Variable p : Patch.
Variable st0 : Store.

(** A hypothesis [owned cells a ix = false] as one fact per cell. *)
Ltac split_not_owned H :=
  unfold owned, Cells2D, CellsNode, CellsREdge in H;
  cbn [existsb fst snd] in H;
  repeat (let H' := fresh "Hcell" in
          apply orb_false_elim in H; destruct H as [H' H]).

(** A hypothesis [owned cells a ix = true] as one case per cell. *)
Ltac cases_owned H :=
  unfold owned, Cells2D, CellsNode, CellsREdge in H;
  cbn [existsb fst snd] in H;
  repeat (apply orb_prop in H; destruct H as [H|H]);
  try discriminate H;
  apply cell_eqb_true in H; destruct H as [<- <-].

(** Two distinct concrete cells. *)
Ltac cells_differ :=
  unfold cell_eqb; simpl; rewrite ?Nat.eqb_refl; reflexivity.

Ltac is_owned :=
  unfold owned, Cells2D, CellsNode, CellsREdge;
  cbn [existsb fst snd]; unfold cell_eqb; simpl;
  rewrite ?Nat.eqb_refl; reflexivity.

(** The [let]s of a loop body, one local definition each. *)
Ltac intro_lets :=
  repeat match goal with
         | |- (let x := ?e in @?B x) ?a ?ix = ?X =>
             change (let x := e in B x a ix = X); cbv beta; intro
         end.

(** Reading a concrete cell through a run of assignments, one assignment
    at a time. *)
Ltac read_cell :=
  repeat match goal with
         | |- context [upd ?st ?a ?ix ?v ?a ?ix] =>
             rewrite (upd_same st a ix v)
         | |- context [upd ?st ?a ?ix ?v ?a' ?ix'] =>
             rewrite (upd_frame st a ix v a' ix') by cells_differ
         | x := upd _ _ _ _ : Store |- context [?y _ _] =>
             constr_eq x y; unfold x; clear x
         end.

Lemma Metric2D_values iA iB s :
  Metric2DReady g st0 iA iB s ->
  s m_dataJacobian2D [iA; iB] = 1.0 /\
  s m_dataContraMetric2DA [iA; iB; 0%nat] = 1.0 /\
  s m_dataContraMetric2DA [iA; iB; 1%nat] = 0.0 /\
  s m_dataContraMetric2DB [iA; iB; 0%nat] = 0.0 /\
  s m_dataContraMetric2DB [iA; iB; 1%nat] = 1.0 /\
  s m_dataCovMetric2DA [iA; iB; 0%nat] = 1.0 /\
  s m_dataCovMetric2DA [iA; iB; 1%nat] = 0.0 /\
  s m_dataCovMetric2DB [iA; iB; 0%nat] = 0.0 /\
  s m_dataCovMetric2DB [iA; iB; 1%nat] = 1.0.
Proof.
  intros [_ H]. repeat split;
    (rewrite H by is_owned; reflexivity).
Qed.

Lemma NodeTerms_frame i j iA iB zs da db k s a ix :
  owned (CellsNode iA iB k) a ix = false ->
  NodeTerms g p i j iA iB zs da db k s a ix = s a ix.
Proof.
  intro HO. split_not_owned HO.
  cbv beta delta [NodeTerms]; intro_lets.
  repeat (first [ rewrite upd_frame by assumption
                | match goal with
                  | x := upd _ _ _ _ : Store |- context [?y _ _] =>
                      constr_eq x y; unfold x; clear x
                  end ]).
  reflexivity.
Qed.

Lemma REdgeTerms_frame i j iA iB zs da db k s a ix :
  owned (CellsREdge iA iB k) a ix = false ->
  REdgeTerms g p i j iA iB zs da db k s a ix = s a ix.
Proof.
  intro HO. split_not_owned HO.
  cbv beta delta [REdgeTerms]; intro_lets.
  repeat (first [ rewrite upd_frame by assumption
                | match goal with
                  | x := upd _ _ _ _ : Store |- context [?y _ _] =>
                      constr_eq x y; unfold x; clear x
                  end ]).
  reflexivity.
Qed.

Lemma NodeTerms_local i j iA iB k :
  Local geometric_interest (GeometricCache g st0)
    (Metric2DReady g st0 iA iB) (owned (CellsNode iA iB k))
    (NodeTerms g p i j iA iB
       (st0 m_dataTopography [iA; iB])
       (st0 m_dataTopographyDeriv [0%nat; iA; iB])
       (st0 m_dataTopographyDeriv [1%nat; iA; iB]) k).
Proof.
  intros s Hs.
  pose proof (Metric2D_values iA iB s Hs)
    as (J2 & A0 & A1 & B0 & B1 & CA0 & CA1 & CB0 & CB1).
  destruct Hs as [[Ht Hd] H2].
  split; [|split].
  - split; [split|].
    + intro ix'. rewrite NodeTerms_frame by reflexivity. apply Ht.
    + intro ix'. rewrite NodeTerms_frame by reflexivity. apply Hd.
    + intros a ix HO. rewrite <- (H2 a ix HO).
      apply NodeTerms_frame. cases_owned HO; reflexivity.
  - intros a ix HO. now apply NodeTerms_frame.
  - intros a ix HO Hint.
    cases_owned HO; try discriminate Hint;
      cbv beta delta [NodeTerms]; intro_lets; read_cell;
      rewrite ?J2, ?A0, ?A1, ?B0, ?B1, ?CA0, ?CA1, ?CB0, ?CB1;
      reflexivity.
Qed.

Lemma REdgeTerms_local i j iA iB k :
  Local geometric_interest (GeometricCache g st0)
    (Metric2DReady g st0 iA iB) (owned (CellsREdge iA iB k))
    (REdgeTerms g p i j iA iB
       (st0 m_dataTopography [iA; iB])
       (st0 m_dataTopographyDeriv [0%nat; iA; iB])
       (st0 m_dataTopographyDeriv [1%nat; iA; iB]) k).
Proof.
  intros s Hs.
  pose proof (Metric2D_values iA iB s Hs)
    as (J2 & A0 & A1 & B0 & B1 & CA0 & CA1 & CB0 & CB1).
  destruct Hs as [[Ht Hd] H2].
  split; [|split].
  - split; [split|].
    + intro ix'. rewrite REdgeTerms_frame by reflexivity. apply Ht.
    + intro ix'. rewrite REdgeTerms_frame by reflexivity. apply Hd.
    + intros a ix HO. rewrite <- (H2 a ix HO).
      apply REdgeTerms_frame. cases_owned HO; reflexivity.
  - intros a ix HO. now apply REdgeTerms_frame.
  - intros a ix HO Hint.
    cases_owned HO; try discriminate Hint;
      cbv beta delta [REdgeTerms]; intro_lets; read_cell;
      rewrite ?J2, ?A0, ?A1, ?B0, ?B1, ?CA0, ?CA1, ?CB0, ?CB1;
      reflexivity.
Qed.

Lemma Metric2DTerms_frame iA iB s a ix :
  owned (Cells2D iA iB) a ix = false ->
  Metric2DTerms iA iB s a ix = s a ix.
Proof.
  intro HO. split_not_owned HO.
  cbv beta delta [Metric2DTerms]; intro_lets.
  repeat (first [ rewrite upd_frame by assumption
                | match goal with
                  | x := upd _ _ _ _ : Store |- context [?y _ _] =>
                      constr_eq x y; unfold x; clear x
                  end ]).
  reflexivity.
Qed.

Lemma Metric2DTerms_values iA iB s a ix :
  owned (Cells2D iA iB) a ix = true ->
  Metric2DTerms iA iB s a ix = GeometricCache g st0 a ix.
Proof.
  intro HO.
  cases_owned HO;
    cbv beta delta [Metric2DTerms]; intro_lets; read_cell; reflexivity.
Qed.

Lemma ElementNodeTerms_local a b i j :
  Local geometric_interest (GeometricCache g st0) (TopographyKept st0)
    (CellsElementNode g p a b i j) (ElementNodeTerms g p a b i j).
Proof.
  intros s Hs. pose proof Hs as [Ht Hd].
  unfold ElementNodeTerms; cbv zeta. rewrite Ht, !Hd.
  set (iA := (GetAInteriorBegin p + a * m_nHorizontalOrder p + i)%nat).
  set (iB := (GetBInteriorBegin p + b * m_nHorizontalOrder p + j)%nat).
  set (s2 := Metric2DTerms iA iB s).
  assert (R2 : Metric2DReady g st0 iA iB s2).
  { split; [split|].
    - intro ix. unfold s2. rewrite Metric2DTerms_frame by reflexivity.
      apply Ht.
    - intro ix. unfold s2. rewrite Metric2DTerms_frame by reflexivity.
      apply Hd.
    - intros x ix HO. now apply Metric2DTerms_values. }
  destruct (Local_for_loop geometric_interest (GeometricCache g st0)
              (Metric2DReady g st0 iA iB) (GetRElements g)
              (NodeTerms g p i j iA iB
                 (st0 m_dataTopography [iA; iB])
                 (st0 m_dataTopographyDeriv [0%nat; iA; iB])
                 (st0 m_dataTopographyDeriv [1%nat; iA; iB]))
              (fun k => owned (CellsNode iA iB k))
              (fun k _ => NodeTerms_local i j iA iB k) s2 R2)
    as (R3 & F3 & V3).
  set (s3 := for_loop (GetRElements g) _ s2) in *.
  destruct (Local_for_loop geometric_interest (GeometricCache g st0)
              (Metric2DReady g st0 iA iB) (GetRElements g + 1)
              (REdgeTerms g p i j iA iB
                 (st0 m_dataTopography [iA; iB])
                 (st0 m_dataTopographyDeriv [0%nat; iA; iB])
                 (st0 m_dataTopographyDeriv [1%nat; iA; iB]))
              (fun k => owned (CellsREdge iA iB k))
              (fun k _ => REdgeTerms_local i j iA iB k) s3 R3)
    as (R4 & F4 & V4).
  set (s4 := for_loop (GetRElements g + 1) _ s3) in *.
  split; [exact (proj1 R4)|]. split.
  - intros x ix HO. unfold CellsElementNode in HO; cbv zeta in HO.
    fold iA iB in HO.
    apply orb_false_elim in HO as [HO HE].
    apply orb_false_elim in HO as [H2 HN].
    rewrite F4 by exact HE. rewrite F3 by exact HN.
    now apply Metric2DTerms_frame.
  - intros x ix HO Hint. unfold CellsElementNode in HO; cbv zeta in HO.
    fold iA iB in HO.
    destruct (loop_cells (GetRElements g + 1)
                (fun k => owned (CellsREdge iA iB k)) x ix) eqn:HE.
    { now apply V4. }
    rewrite F4 by exact HE.
    destruct (loop_cells (GetRElements g)
                (fun k => owned (CellsNode iA iB k)) x ix) eqn:HN.
    { now apply V3. }
    rewrite F3 by exact HN.
    rewrite !orb_false_r in HO.
    now apply Metric2DTerms_values.
Qed.

(** The whole loop nest. *)
Lemma GeometricTerms_local :
  Local geometric_interest (GeometricCache g st0) (TopographyKept st0)
    (CellsGeometricTerms g p)
    (for_loop (GetElementCountA p) (fun a =>
     for_loop (GetElementCountB p) (fun b =>
     for_loop (m_nHorizontalOrder p) (fun i =>
     for_loop (m_nHorizontalOrder p) (fun j =>
       ElementNodeTerms g p a b i j))))).
Proof.
  unfold CellsGeometricTerms.
  apply Local_for_loop; intros a _.
  apply Local_for_loop; intros b _.
  apply Local_for_loop; intros i _.
  apply Local_for_loop; intros j _.
  apply ElementNodeTerms_local.
Qed.

Section VisitedNode.

Variables a b i j : nat.
Hypothesis Ha : (a < GetElementCountA p)%nat.
Hypothesis Hb : (b < GetElementCountB p)%nat.
Hypothesis Hi : (i < m_nHorizontalOrder p)%nat.
Hypothesis Hj : (j < m_nHorizontalOrder p)%nat.

Let iA := (GetAInteriorBegin p + a * m_nHorizontalOrder p + i)%nat.
Let iB := (GetBInteriorBegin p + b * m_nHorizontalOrder p + j)%nat.

Lemma visited_element_node x ix :
  CellsElementNode g p a b i j x ix = true ->
  CellsGeometricTerms g p x ix = true.
Proof.
  intro H. unfold CellsGeometricTerms.
  apply loop_cells_intro with (i := a); [exact Ha|].
  apply loop_cells_intro with (i := b); [exact Hb|].
  apply loop_cells_intro with (i := i); [exact Hi|].
  apply loop_cells_intro with (i := j); [exact Hj|].
  exact H.
Qed.

Lemma visited_2D x ix :
  owned (Cells2D iA iB) x ix = true -> CellsGeometricTerms g p x ix = true.
Proof.
  intro H. apply visited_element_node.
  unfold CellsElementNode; cbv zeta. fold iA iB. now rewrite H.
Qed.

Lemma visited_node k x ix :
  (k < GetRElements g)%nat ->
  owned (CellsNode iA iB k) x ix = true ->
  CellsGeometricTerms g p x ix = true.
Proof.
  intros Hk H. apply visited_element_node.
  unfold CellsElementNode; cbv zeta. fold iA iB.
  rewrite (loop_cells_intro _ _ x ix k Hk H).
  now rewrite orb_true_r.
Qed.

Lemma visited_redge k x ix :
  (k < GetRElements g + 1)%nat ->
  owned (CellsREdge iA iB k) x ix = true ->
  CellsGeometricTerms g p x ix = true.
Proof.
  intros Hk H. apply visited_element_node.
  unfold CellsElementNode; cbv zeta. fold iA iB.
  rewrite (loop_cells_intro _ _ x ix k Hk H).
  now rewrite orb_true_r.
Qed.

End VisitedNode.

(** The store after the loop nest holds [GeometricCache] in every cell the
    nest writes (element areas apart) and the old contents elsewhere. *)
Lemma EvaluateGeometricTerms_cache st' :
  EvaluateGeometricTerms g p st0 = Ok st' ->
  (forall x ix, CellsGeometricTerms g p x ix = true ->
                geometric_interest x ix = true ->
                st' x ix = GeometricCache g st0 x ix) /\
  (forall x ix, CellsGeometricTerms g p x ix = false -> st' x ix = st0 x ix).
Proof.
  unfold EvaluateGeometricTerms; cbv zeta.
  destruct (Rgt_dec _ _); [discriminate|].
  destruct (_ && _); [discriminate|].
  intro H; injection H as <-.
  destruct (GeometricTerms_local st0) as (_ & Hf & Hv).
  { split; reflexivity. }
  split; [exact Hv | exact Hf].
Qed.

End GeometricTermsFacts.

(** *** The cached metric *)

Lemma decimal_one : 1.0 = 1.
Proof. lra. Qed.

Lemma decimal_zero : 0.0 = 0.
Proof. lra. Qed.

Lemma metric_inverse_identity (dDaZ dDbZ dDxZ : R) (r c : nat) :
  dDxZ <> 0 -> (r < 3)%nat -> (c < 3)%nat ->
  Footprint.ContraMetric_of_DerivR dDaZ dDbZ dDxZ r 0
    * GridPatch.CovMetric_of_DerivR dDaZ dDbZ dDxZ 0 c
  + Footprint.ContraMetric_of_DerivR dDaZ dDbZ dDxZ r 1
    * GridPatch.CovMetric_of_DerivR dDaZ dDbZ dDxZ 1 c
  + Footprint.ContraMetric_of_DerivR dDaZ dDbZ dDxZ r 2
    * GridPatch.CovMetric_of_DerivR dDaZ dDbZ dDxZ 2 c
  = GridPatch.delta r c.
Proof.
  intros Hx Hr Hc.
  destruct r as [|[|[|r]]]; try lia;
    destruct c as [|[|[|c]]]; try lia;
    unfold Footprint.ContraMetric_of_DerivR, GridPatch.CovMetric_of_DerivR,
      GridPatch.delta; simpl; rewrite ?decimal_one, ?decimal_zero;
    field; assumption.
Qed.

Section CachedMetric.

Import GridPatch Footprint.

Variable g : Grid.
Variable p : Patch.
Variables st0 st' : Store.
Hypothesis Hrun : EvaluateGeometricTerms g p st0 = Ok st'.

Variables a b i j : nat.
Hypothesis Ha : (a < GetElementCountA p)%nat.
Hypothesis Hb : (b < GetElementCountB p)%nat.
Hypothesis Hi : (i < m_nHorizontalOrder p)%nat.
Hypothesis Hj : (j < m_nHorizontalOrder p)%nat.

Let iA := (GetAInteriorBegin p + a * m_nHorizontalOrder p + i)%nat.
Let iB := (GetBInteriorBegin p + b * m_nHorizontalOrder p + j)%nat.

Ltac is_owned' :=
  unfold owned, Cells2D, CellsNode, CellsREdge;
  cbn [existsb fst snd]; unfold cell_eqb; simpl;
  rewrite ?Nat.eqb_refl; reflexivity.

Lemma cached_Jacobian2D : st' m_dataJacobian2D [iA; iB] = 1.
Proof.
  destruct (EvaluateGeometricTerms_cache g p st0 st' Hrun) as [Hv _].
  rewrite Hv; [simpl; lra | | reflexivity].
  apply (visited_2D g p a b i j Ha Hb Hi Hj). is_owned'.
Qed.

Lemma cached_DerivR loc k c :
  (k < levels_at g loc)%nat -> (c < 3)%nat ->
  DerivR st' loc k iA iB c = DerivZ g st0 (REta_at g loc k) iA iB c.
Proof.
  intros Hk Hc.
  destruct (EvaluateGeometricTerms_cache g p st0 st' Hrun) as [Hv _].
  destruct loc; unfold DerivR, REta_at;
    (rewrite Hv; [reflexivity | | reflexivity]).
  - apply (visited_node g p a b i j Ha Hb Hi Hj k); [exact Hk|].
    destruct c as [|[|[|c]]]; try lia; is_owned'.
  - apply (visited_redge g p a b i j Ha Hb Hi Hj k); [exact Hk|].
    destruct c as [|[|[|c]]]; try lia; is_owned'.
Qed.

Lemma cached_Jacobian loc k :
  (k < levels_at g loc)%nat ->
  Jacobian st' loc k iA iB = DerivZ g st0 (REta_at g loc k) iA iB 2 * 1.
Proof.
  intros Hk.
  destruct (EvaluateGeometricTerms_cache g p st0 st' Hrun) as [Hv _].
  destruct loc; unfold Jacobian, REta_at;
    (rewrite Hv; [simpl; lra | | reflexivity]).
  - apply (visited_node g p a b i j Ha Hb Hi Hj k); [exact Hk|]. is_owned'.
  - apply (visited_redge g p a b i j Ha Hb Hi Hj k); [exact Hk|]. is_owned'.
Qed.

Lemma cached_ContraMetric loc k r c :
  (k < levels_at g loc)%nat -> (r < 3)%nat -> (c < 3)%nat ->
  ContraMetric st' loc k iA iB r c
  = ContraMetric_of_DerivR
      (DerivZ g st0 (REta_at g loc k) iA iB 0)
      (DerivZ g st0 (REta_at g loc k) iA iB 1)
      (DerivZ g st0 (REta_at g loc k) iA iB 2) r c.
Proof.
  intros Hk Hr Hc.
  destruct (EvaluateGeometricTerms_cache g p st0 st' Hrun) as [Hv _].
  destruct loc; unfold ContraMetric, REta_at;
    destruct r as [|[|[|r]]]; try lia;
    (rewrite Hv; [reflexivity | | reflexivity]).
  1-3: apply (visited_node g p a b i j Ha Hb Hi Hj k); [exact Hk|];
       destruct c as [|[|[|c]]]; try lia; is_owned'.
  all: apply (visited_redge g p a b i j Ha Hb Hi Hj k); [exact Hk|];
       destruct c as [|[|[|c]]]; try lia; is_owned'.
Qed.

Lemma cached_CovMetric k r c :
  (k < GetRElements g)%nat -> (r < 3)%nat -> (c < 3)%nat ->
  CovMetric st' DataLocation_Node k iA iB r c
  = Some (CovMetric_of_DerivR
            (DerivZ g st0 (GetREtaLevel g k) iA iB 0)
            (DerivZ g st0 (GetREtaLevel g k) iA iB 1)
            (DerivZ g st0 (GetREtaLevel g k) iA iB 2) r c).
Proof.
  intros Hk Hr Hc.
  destruct (EvaluateGeometricTerms_cache g p st0 st' Hrun) as [Hv _].
  unfold CovMetric;
    destruct r as [|[|[|r]]]; try lia; f_equal;
    (rewrite Hv; [reflexivity | | reflexivity]).
  all: apply (visited_node g p a b i j Ha Hb Hi Hj k); [exact Hk|];
       destruct c as [|[|[|c]]]; try lia; is_owned'.
Qed.

Lemma cached_metric_invariants loc k :
  (k < levels_at g loc)%nat ->
  st0 m_dataTopography [iA; iB] < GetZtop g ->
  0 < snd (EvaluateVerticalStretchF g (REta_at g loc k)) ->
  let dDaZ := DerivR st' loc k iA iB 0 in
  let dDbZ := DerivR st' loc k iA iB 1 in
  let dDxZ := DerivR st' loc k iA iB 2 in
  0 < dDxZ /\
  0 < Jacobian st' loc k iA iB /\
  Jacobian st' loc k iA iB = dDxZ * st' m_dataJacobian2D [iA; iB] /\
  (forall r c, (r < 3)%nat -> (c < 3)%nat ->
     ContraMetric st' loc k iA iB r 0 * CovMetric_of_DerivR dDaZ dDbZ dDxZ 0 c
     + ContraMetric st' loc k iA iB r 1
       * CovMetric_of_DerivR dDaZ dDbZ dDxZ 1 c
     + ContraMetric st' loc k iA iB r 2
       * CovMetric_of_DerivR dDaZ dDbZ dDxZ 2 c
     = delta r c) /\
  (loc = DataLocation_Node ->
   forall r c, (r < 3)%nat -> (c < 3)%nat ->
     CovMetric st' loc k iA iB r c
     = Some (CovMetric_of_DerivR dDaZ dDbZ dDxZ r c)) /\
  (loc = DataLocation_REdge ->
   forall r c, CovMetric st' loc k iA iB r c = None).
Proof.
  intros Hk Htop HdF dDaZ dDbZ dDxZ.
  unfold dDaZ, dDbZ, dDxZ.
  rewrite !cached_DerivR by (auto; lia).
  rewrite cached_Jacobian by auto. rewrite cached_Jacobian2D.
  assert (Hpos : 0 < DerivZ g st0 (REta_at g loc k) iA iB 2).
  { unfold DerivZ; cbv zeta. apply Rmult_lt_0_compat; lra. }
  split; [exact Hpos|]. split; [lra|]. split; [reflexivity|].
  split; [|split].
  - intros r c Hr Hc. rewrite !cached_ContraMetric by (auto; lia).
    apply metric_inverse_identity; auto. lra.
  - intros -> r c Hr Hc. now apply cached_CovMetric.
  - intros -> r c. reflexivity.
Qed.

End CachedMetric.

(** C2 (as stated, refuted).  After [EvaluateGeometricTerms] no covariant
    metric is stored at an interface point, so there are no stored covariant
    components there for the contravariant metric to be inverse to. *)
Lemma C2_counterexample :
  let g := QuadraticStretchGrid GridPatch.VerticalStaggering_CharneyPhillips
             [0.5; 0.5] in
  exists st',
    GridPatch.EvaluateGeometricTerms g OneColumnPatch ZeroStore = Ok st' /\
    ~ (exists cov : nat -> nat -> R,
         forall r c, (r < 3)%nat -> (c < 3)%nat ->
           GridPatch.CovMetric st' GridPatch.DataLocation_REdge 1 0 0 r c
           = Some (cov r c)).
Proof.
  intro g.
  destruct (EvaluateGeometricTerms_checks g OneColumnPatch ZeroStore)
    as (_ & _ & Hok).
  destruct Hok as [st' Hst'].
  - unfold g, GridPatch.NormAreaSum; simpl.
    replace (0.0 + 1 - 1) with 0 by lra. rewrite Rabs_R0. lra.
  - right. unfold g, GridPatch.NormAreaSum; simpl.
    replace (0.0 + 0.5 + 0.5 - 1) with 0 by lra. rewrite Rabs_R0. lra.
  - exists st'. split; [exact Hst'|].
    intros [cov H]. specialize (H 0%nat 0%nat). simpl in H.
    assert (E : None = Some (cov 0%nat 0%nat)) by (apply H; lia).
    discriminate E.
Qed.

(** C2 (amended).  When the area checks pass, [EvaluateGeometricTerms]
    returns, and at every level and every interface of every node visited by
    its element loops, given topography below the model top and a positive
    stretch derivative there: the stored d_xi Z is positive; the stored
    Jacobian is d_xi Z times the 2D Jacobian and is positive; the stored
    contravariant metric is the exact inverse of the covariant metric
    formed from the stored derivatives of Z; on levels that covariant metric
    is the stored one; on interfaces no covariant metric is stored. *)
Theorem C2_metric_invariants :
  forall (g : GridPatch.Grid) (p : GridPatch.Patch) (st0 : GridPatch.Store),
    Rabs (GridPatch.NormAreaSum (GridPatch.GetREtaLevelsNormArea g) - 1)
      <= 1.0e-13 ->
    GridPatch.GetVerticalStaggering g
      = GridPatch.VerticalStaggering_Interfaces \/
    Rabs (GridPatch.NormAreaSum (GridPatch.GetREtaInterfacesNormArea g) - 1)
      <= 1.0e-13 ->
    exists st',
      GridPatch.EvaluateGeometricTerms g p st0 = Ok st' /\
      forall a b i j,
        (a < GridPatch.GetElementCountA p)%nat ->
        (b < GridPatch.GetElementCountB p)%nat ->
        (i < GridPatch.m_nHorizontalOrder p)%nat ->
        (j < GridPatch.m_nHorizontalOrder p)%nat ->
        let iA := GridPatch.NodeIndex (GridPatch.GetAInteriorBegin p)
                    (GridPatch.m_nHorizontalOrder p) a i in
        let iB := GridPatch.NodeIndex (GridPatch.GetBInteriorBegin p)
                    (GridPatch.m_nHorizontalOrder p) b j in
        st0 GridPatch.m_dataTopography [iA; iB] < GridPatch.GetZtop g ->
        forall loc k,
          (k < GridPatch.levels_at g loc)%nat ->
          0 < snd (GridPatch.EvaluateVerticalStretchF g
                     (GridPatch.REta_at g loc k)) ->
          let dDaZ := GridPatch.DerivR st' loc k iA iB 0 in
          let dDbZ := GridPatch.DerivR st' loc k iA iB 1 in
          let dDxZ := GridPatch.DerivR st' loc k iA iB 2 in
          0 < dDxZ /\
          0 < GridPatch.Jacobian st' loc k iA iB /\
          GridPatch.Jacobian st' loc k iA iB
            = dDxZ * st' GridPatch.m_dataJacobian2D [iA; iB] /\
          (forall r c, (r < 3)%nat -> (c < 3)%nat ->
             GridPatch.ContraMetric st' loc k iA iB r 0
               * GridPatch.CovMetric_of_DerivR dDaZ dDbZ dDxZ 0 c
             + GridPatch.ContraMetric st' loc k iA iB r 1
               * GridPatch.CovMetric_of_DerivR dDaZ dDbZ dDxZ 1 c
             + GridPatch.ContraMetric st' loc k iA iB r 2
               * GridPatch.CovMetric_of_DerivR dDaZ dDbZ dDxZ 2 c
             = GridPatch.delta r c) /\
          (loc = GridPatch.DataLocation_Node ->
           forall r c, (r < 3)%nat -> (c < 3)%nat ->
             GridPatch.CovMetric st' loc k iA iB r c
             = Some (GridPatch.CovMetric_of_DerivR dDaZ dDbZ dDxZ r c)) /\
          (loc = GridPatch.DataLocation_REdge ->
           forall r c, GridPatch.CovMetric st' loc k iA iB r c = None).
Proof.
  intros g p st0 Hn He.
  destruct (EvaluateGeometricTerms_checks g p st0) as (_ & _ & Hok).
  destruct (Hok Hn He) as [st' Hst'].
  exists st'. split; [exact Hst'|].
  intros a b i j Ha Hb Hi Hj iA iB Htop loc k Hk HdF.
  exact (cached_metric_invariants g p st0 st' Hst' a b i j Ha Hb Hi Hj
           loc k Hk Htop HdF).
Qed.

Lemma C2_metric_invariants_witness :
  exists st',
    GridPatch.EvaluateGeometricTerms
      (QuadraticStretchGrid GridPatch.VerticalStaggering_CharneyPhillips
         [0.5; 0.5]) OneColumnPatch ZeroStore = Ok st' /\
    0 < GridPatch.Jacobian st' GridPatch.DataLocation_REdge 1 0 0.
Proof.
  destruct (C2_metric_invariants
              (QuadraticStretchGrid GridPatch.VerticalStaggering_CharneyPhillips
                 [0.5; 0.5]) OneColumnPatch ZeroStore) as [st' [Hst' H]].
  - unfold GridPatch.NormAreaSum; simpl.
    replace (0.0 + 1 - 1) with 0 by lra. rewrite Rabs_R0. lra.
  - right. unfold GridPatch.NormAreaSum; simpl.
    replace (0.0 + 0.5 + 0.5 - 1) with 0 by lra. rewrite Rabs_R0. lra.
  - exists st'. split; [exact Hst'|].
    apply (H 0%nat 0%nat 0%nat 0%nat); simpl; try lia; try lra.
    unfold ZeroStore; lra.
Defined.

(** *** The bottom boundary condition *)

Section BoundaryConditionFacts.

Import GridPatch Footprint.

Variable g : Grid.
Variable p : Patch.
Variable cov : bool.
Variable CNF : Store -> nat -> nat -> nat -> R -> R -> R.
Variable d : nat.
Variable st0 : Store.
Variable target : DataArray.

Hypothesis Htarget :
  target = m_datavecStateNode \/ target = m_datavecStateREdge.
Hypothesis Hhelper : cov = true \/ ReadsGeometryOnly CNF.

Ltac not_bottom_w :=
  unfold BottomW, UIx, VIx, WIx; destruct Htarget as [-> | ->]; simpl;
  rewrite ?Nat.eqb_refl; simpl; rewrite ?andb_false_r; reflexivity.

Lemma NoFlowValue_kept s i j :
  OnlyBottomWChanged d st0 target s ->
  NoFlowValue cov CNF d s i j = NoFlowValue cov CNF d st0 i j.
Proof.
  intro Hs. unfold NoFlowValue.
  rewrite (Hs m_datavecStateNode [d; UIx; 0%nat; i; j]) by not_bottom_w.
  rewrite (Hs m_datavecStateNode [d; VIx; 0%nat; i; j]) by not_bottom_w.
  destruct cov.
  - rewrite (Hs m_dataContraMetricXi [0%nat; i; j; 0%nat]) by not_bottom_w.
    rewrite (Hs m_dataContraMetricXi [0%nat; i; j; 1%nat]) by not_bottom_w.
    rewrite (Hs m_dataContraMetricXi [0%nat; i; j; 2%nat]) by not_bottom_w.
    rewrite (Hs m_dataDerivRNode [0%nat; i; j; 2%nat]) by not_bottom_w.
    reflexivity.
  - destruct Hhelper as [Hc | Hg]; [discriminate|].
    apply Hg. intros a ix Ha1 Ha2. apply Hs.
    unfold BottomW.
    destruct Htarget as [-> | ->]; destruct a; simpl; try reflexivity;
      congruence.
Qed.

Lemma bottom_cell_is_BottomW i j a ix :
  cell_eqb target [d; WIx; 0%nat; i; j] a ix = true -> BottomW d target a ix = true.
Proof.
  intro H. apply cell_eqb_true in H as [<- <-].
  unfold BottomW, WIx. simpl. now rewrite !Nat.eqb_refl.
Qed.

Lemma NoFlow_assignment_local i j :
  Local (fun _ _ => true) (NoFlowCache cov CNF d st0)
    (OnlyBottomWChanged d st0 target)
    (cell_eqb target [d; WIx; 0%nat; i; j])
    (fun s => upd s target [d; WIx; 0%nat; i; j]
                (NoFlowValue cov CNF d s i j)).
Proof.
  intros s Hs. split; [|split].
  - intros a ix Hw.
    rewrite upd_frame.
    + now apply Hs.
    + destruct (cell_eqb target [d; WIx; 0%nat; i; j] a ix) eqn:E; auto.
      apply bottom_cell_is_BottomW in E. congruence.
  - intros a ix HO. now apply upd_frame.
  - intros a ix HO _. apply cell_eqb_true in HO as [<- <-].
    rewrite upd_same. simpl. now apply NoFlowValue_kept.
Qed.

Lemma NoFlow_loops_local :
  Local (fun _ _ => true) (NoFlowCache cov CNF d st0)
    (OnlyBottomWChanged d st0 target)
    (CellsBoundary p d target)
    (for_loop (GetATotalWidth p) (fun i =>
     for_loop (GetBTotalWidth p) (fun j s =>
       upd s target [d; WIx; 0%nat; i; j] (NoFlowValue cov CNF d s i j)))).
Proof.
  unfold CellsBoundary.
  apply Local_for_loop; intros i _.
  apply Local_for_loop; intros j _.
  apply NoFlow_assignment_local.
Qed.

(** The post-condition of the two loops: w at the bottom of every column of
    the patch holds the no-flow value, and nothing else has changed. *)
Lemma NoFlow_loops_post :
  let st' :=
    for_loop (GetATotalWidth p) (fun i =>
    for_loop (GetBTotalWidth p) (fun j s =>
      upd s target [d; WIx; 0%nat; i; j] (NoFlowValue cov CNF d s i j))) st0 in
  (forall a ix,
     (forall i j, (i < GetATotalWidth p)%nat -> (j < GetBTotalWidth p)%nat ->
                  ~ (a = target /\ ix = [d; WIx; 0%nat; i; j])) ->
     st' a ix = st0 a ix) /\
  (forall i j, (i < GetATotalWidth p)%nat -> (j < GetBTotalWidth p)%nat ->
     st' target [d; WIx; 0%nat; i; j] = NoFlowValue cov CNF d st' i j).
Proof.
  intro st'.
  destruct (NoFlow_loops_local st0) as (Hinv & Hf & Hv).
  { intros a ix _. reflexivity. }
  fold st' in Hinv, Hf, Hv.
  split.
  - intros a ix Hnot. apply Hf.
    destruct (CellsBoundary p d target a ix) eqn:E; auto.
    unfold CellsBoundary in E.
    apply loop_cells_elim in E as (i & Hi & E).
    apply loop_cells_elim in E as (j & Hj & E).
    apply cell_eqb_true in E as [E1 E2].
    exfalso. apply (Hnot i j Hi Hj). split; congruence.
  - intros i j Hi Hj.
    rewrite (NoFlowValue_kept st' i j Hinv).
    rewrite Hv; [reflexivity | | reflexivity].
    unfold CellsBoundary.
    apply loop_cells_intro with (i := i); [exact Hi|].
    apply loop_cells_intro with (i := j); [exact Hj|].
    apply cell_eqb_refl.
Qed.

End BoundaryConditionFacts.

Lemma no_flow_formula (gxa gxb gxx dxz u v : R) :
  - (gxa * u + gxb * v) / gxx / dxz = - (gxa * u + gxb * v) / (gxx * dxz) /\
  (gxx * dxz <> 0 ->
   gxa * u + gxb * v + gxx * dxz * (- (gxa * u + gxb * v) / gxx / dxz) = 0).
Proof.
  assert (E : - (gxa * u + gxb * v) / gxx / dxz
              = - (gxa * u + gxb * v) / (gxx * dxz)).
  { unfold Rdiv. rewrite Rinv_mult. ring. }
  split; [exact E|]. intro H. rewrite E. field.
  split; intro Hz; apply H; rewrite Hz; ring.
Qed.

(** C1 (as stated, refuted).  With everything on levels
    [ApplyBoundaryConditions] throws and stores nothing, so no w is set. *)
Lemma C1_counterexample :
  GridPatch.ApplyBoundaryConditions
    (QuadraticStretchGrid GridPatch.VerticalStaggering_Levels [0.5; 0.5])
    OneColumnPatch true SampleNoFlowUrNode 0 BottomFlowStore
  = Exception "Not implemented" /\
  ~ (exists st',
       GridPatch.ApplyBoundaryConditions
         (QuadraticStretchGrid GridPatch.VerticalStaggering_Levels [0.5; 0.5])
         OneColumnPatch true SampleNoFlowUrNode 0 BottomFlowStore
       = Ok st').
Proof.
  split; [reflexivity|]. intros [st' H]. discriminate H.
Qed.

(** C1 (amended).  For LEVELS [ApplyBoundaryConditions] raises
    "Not implemented".  For INTERFACES, and for CHARNEY_PHILLIPS when the
    velocities are covariant, it returns, changes nothing but w at k = 0,
    and for every horizontal index (i, j) of the patch leaves there the
    no-flow value computed from the bottom-level arrays: with covariant
    velocities -(g^(xi a) u + g^(xi b) v) / (g^(xi xi) d_xi Z), so that
    g^(xi a) u + g^(xi b) v + g^(xi xi) d_xi Z w = 0 wherever
    g^(xi xi) d_xi Z is not zero; with contravariant velocities whatever
    [CalculateNoFlowUrNode](0, i, j, u, v) returns.  The value is written
    to the node array for INTERFACES and to the edge array for
    CHARNEY_PHILLIPS. *)
Theorem C1_no_flow_bottom :
  forall (g : GridPatch.Grid) (p : GridPatch.Patch) (cov : bool)
         (CNF : GridPatch.Store -> nat -> nat -> nat -> R -> R -> R)
         (d : nat) (st : GridPatch.Store),
    (GridPatch.GetVerticalStaggering g = GridPatch.VerticalStaggering_Levels ->
     GridPatch.ApplyBoundaryConditions g p cov CNF d st
     = Exception "Not implemented") /\
    (forall target,
       (GridPatch.GetVerticalStaggering g
          = GridPatch.VerticalStaggering_Interfaces /\
        target = GridPatch.m_datavecStateNode) \/
       (GridPatch.GetVerticalStaggering g
          = GridPatch.VerticalStaggering_CharneyPhillips /\
        cov = true /\ target = GridPatch.m_datavecStateREdge) ->
       cov = true \/ Footprint.ReadsGeometryOnly CNF ->
       exists st',
         GridPatch.ApplyBoundaryConditions g p cov CNF d st = Ok st' /\
         (forall a ix,
            (forall i j, (i < GridPatch.GetATotalWidth p)%nat ->
                         (j < GridPatch.GetBTotalWidth p)%nat ->
                         ~ (a = target /\
                            ix = [d; GridPatch.WIx; 0%nat; i; j])) ->
            st' a ix = st a ix) /\
         (forall i j, (i < GridPatch.GetATotalWidth p)%nat ->
                      (j < GridPatch.GetBTotalWidth p)%nat ->
            let u := st' GridPatch.m_datavecStateNode
                       [d; GridPatch.UIx; 0%nat; i; j] in
            let v := st' GridPatch.m_datavecStateNode
                       [d; GridPatch.VIx; 0%nat; i; j] in
            let w := st' target [d; GridPatch.WIx; 0%nat; i; j] in
            let gxa := st' GridPatch.m_dataContraMetricXi
                         [0%nat; i; j; 0%nat] in
            let gxb := st' GridPatch.m_dataContraMetricXi
                         [0%nat; i; j; 1%nat] in
            let gxx := st' GridPatch.m_dataContraMetricXi
                         [0%nat; i; j; 2%nat] in
            let dxz := st' GridPatch.m_dataDerivRNode
                         [0%nat; i; j; 2%nat] in
            (cov = true ->
             w = - (gxa * u + gxb * v) / (gxx * dxz) /\
             (gxx * dxz <> 0 -> gxa * u + gxb * v + gxx * dxz * w = 0)) /\
            (cov = false -> w = CNF st' 0%nat i j u v))).
Proof.
  intros g p cov CNF d st. split.
  - intro H. unfold GridPatch.ApplyBoundaryConditions. now rewrite H.
  - intros target Hcase Hhelper.
    assert (Htarget : target = GridPatch.m_datavecStateNode \/
                      target = GridPatch.m_datavecStateREdge)
      by (destruct Hcase as [[_ ->] | (_ & _ & ->)]; auto).
    pose proof (NoFlow_loops_post p cov CNF d st target Htarget Hhelper)
      as Hpost.
    cbv zeta in Hpost.
    assert (Hrun :
      GridPatch.ApplyBoundaryConditions g p cov CNF d st
      = Ok (for_loop (GridPatch.GetATotalWidth p) (fun i =>
            for_loop (GridPatch.GetBTotalWidth p) (fun j s =>
              GridPatch.upd s target [d; GridPatch.WIx; 0%nat; i; j]
                (Footprint.NoFlowValue cov CNF d s i j))) st)).
    { unfold GridPatch.ApplyBoundaryConditions.
      destruct Hcase as [[-> ->] | (-> & -> & ->)].
      - destruct cov; reflexivity.
      - reflexivity. }
    eexists. split; [exact Hrun|].
    destruct Hpost as [Hframe Hval].
    split; [exact Hframe|].
    intros i j Hi Hj. cbv zeta.
    rewrite (Hval i j Hi Hj). unfold Footprint.NoFlowValue.
    split.
    + intros ->. apply no_flow_formula.
    + intros ->. reflexivity.
Qed.

Lemma C1_no_flow_bottom_witness :
  exists st',
    GridPatch.ApplyBoundaryConditions
      (QuadraticStretchGrid GridPatch.VerticalStaggering_Interfaces [0.5; 0.5])
      OneColumnPatch true SampleNoFlowUrNode 0 BottomFlowStore = Ok st' /\
    st' GridPatch.m_datavecStateNode [0; GridPatch.WIx; 0; 0; 0]%nat
    = - (3 / 10).
Proof.
  destruct (C1_no_flow_bottom
              (QuadraticStretchGrid GridPatch.VerticalStaggering_Interfaces
                 [0.5; 0.5])
              OneColumnPatch true SampleNoFlowUrNode 0 BottomFlowStore)
    as [_ H].
  destruct (H GridPatch.m_datavecStateNode) as (st' & Hrun & Hframe & Hval).
  - left. split; reflexivity.
  - left. reflexivity.
  - exists st'. split; [exact Hrun|].
    destruct (Hval 0%nat 0%nat) as [Hc _]; simpl; try lia.
    destruct (Hc eq_refl) as [Hw _].
    rewrite Hw.
    rewrite !Hframe
      by (intros i j _ _ [E1 E2]; first [discriminate E1 | discriminate E2]).
    unfold BottomFlowStore, GridPatch.upd, ZeroStore; simpl. lra.
Defined.

(** ** The column operators *)

(** *** Finite sums *)

Section Sums.

Import ColumnOperator.

Lemma sumR_ext n f h :
  (forall k, (k < n)%nat -> f k = h k) -> sumR n f = sumR n h.
Proof.
  induction n as [|n IH]; intro H; simpl; auto.
  rewrite IH by (intros; apply H; lia). rewrite H by lia. reflexivity.
Qed.

Lemma sumR_zero n : sumR n (fun _ => 0) = 0.
Proof. induction n; simpl; lra. Qed.

Lemma sumR_plus n f h :
  sumR n (fun k => f k + h k) = sumR n f + sumR n h.
Proof. induction n as [|n IH]; simpl; [lra | rewrite IH; lra]. Qed.

Lemma sumR_minus n f h :
  sumR n (fun k => f k - h k) = sumR n f - sumR n h.
Proof. induction n as [|n IH]; simpl; [lra | rewrite IH; lra]. Qed.

Lemma sumR_scal_l n c f : sumR n (fun k => c * f k) = c * sumR n f.
Proof. induction n as [|n IH]; simpl; [lra | rewrite IH; lra]. Qed.

Lemma sumR_scal_r n c f : sumR n (fun k => f k * c) = sumR n f * c.
Proof. induction n as [|n IH]; simpl; [lra | rewrite IH; lra]. Qed.

Lemma sumR_div n c f : sumR n (fun k => f k / c) = sumR n f / c.
Proof. unfold Rdiv. apply sumR_scal_r. Qed.

Lemma sumR_swap n m (f : nat -> nat -> R) :
  sumR n (fun i => sumR m (fun k => f i k))
  = sumR m (fun k => sumR n (fun i => f i k)).
Proof.
  induction n as [|n IH]; simpl.
  - now rewrite sumR_zero.
  - rewrite IH, <- sumR_plus. reflexivity.
Qed.

Lemma sumR_split n m f :
  sumR (n + m) f = sumR n f + sumR m (fun k => f (n + k)%nat).
Proof.
  induction m as [|m IH].
  - rewrite Nat.add_0_r. simpl. lra.
  - rewrite Nat.add_succ_r. simpl. rewrite IH. lra.
Qed.

Lemma window_in off n v m :
  (off <= m < off + n)%nat -> window off n v m = v (m - off)%nat.
Proof.
  intro H. unfold window.
  destruct (Nat.leb_spec off m); [|lia].
  destruct (Nat.ltb_spec m (off + n)); [|lia]. reflexivity.
Qed.

Lemma window_out off n v m :
  ~ (off <= m < off + n)%nat -> window off n v m = 0.
Proof.
  intro H. unfold window.
  destruct (Nat.leb_spec off m); simpl; auto.
  destruct (Nat.ltb_spec m (off + n)); simpl; auto. lia.
Qed.

Lemma sumR_window N off n v :
  (off + n <= N)%nat -> sumR N (window off n v) = sumR n v.
Proof.
  intro H.
  replace N with (off + (n + (N - off - n)))%nat by lia.
  rewrite sumR_split, sumR_split.
  rewrite (sumR_ext off _ (fun _ => 0))
    by (intros; apply window_out; lia).
  rewrite (sumR_ext n (fun k => window off n v (off + k)%nat) v).
  2:{ intros k Hk. rewrite window_in by lia. f_equal. lia. }
  rewrite (sumR_ext _ (fun k => window off n v (off + (n + k))%nat)
             (fun _ => 0))
    by (intros; apply window_out; lia).
  rewrite !sumR_zero. lra.
Qed.

End Sums.

(** *** The loops over one row *)

Section RowLoops.

Import ColumnOperator.

Lemma set_same r k v : set r k v k = v.
Proof. unfold set. now rewrite Nat.eqb_refl. Qed.

Lemma set_other r k v m : m <> k -> set r k v m = r m.
Proof.
  intro H. unfold set. destruct (Nat.eqb_spec m k); [contradiction | auto].
Qed.

(** A loop that rewrites cell [off + k] from its own old value. *)
Lemma for_loop_cellwise off n (F : nat -> R -> R) r m :
  for_loop n (fun k r => set r (off + k) (F k (r (off + k)%nat))) r m
  = if Nat.leb off m && Nat.ltb m (off + n) then F (m - off)%nat (r m)
    else r m.
Proof.
  induction n as [|n IH].
  - rewrite for_loop_0.
    destruct (Nat.leb_spec off m); simpl; auto.
    destruct (Nat.ltb_spec m (off + 0)); auto. lia.
  - rewrite for_loop_S.
    destruct (Nat.eq_dec m (off + n)) as [->|Hne].
    + rewrite set_same.
      replace (Nat.leb off (off + n)) with true
        by (symmetry; apply Nat.leb_le; lia).
      replace (Nat.ltb (off + n) (off + S n)) with true
        by (symmetry; apply Nat.ltb_lt; lia).
      simpl. replace (off + n - off)%nat with n by lia.
      f_equal. rewrite IH.
      replace (Nat.ltb (off + n) (off + n)) with false
        by (symmetry; apply Nat.ltb_ge; lia).
      now rewrite andb_false_r.
    + rewrite set_other by exact Hne. rewrite IH.
      destruct (Nat.leb_spec off m); simpl; auto.
      destruct (Nat.ltb_spec m (off + n)), (Nat.ltb_spec m (off + S n));
        auto; lia.
Qed.

Lemma write_coeffs_spec off n v r m :
  write_coeffs off n v r m
  = if Nat.leb off m && Nat.ltb m (off + n) then v (m - off)%nat else r m.
Proof.
  unfold write_coeffs.
  apply (for_loop_cellwise off n (fun k _ => v k)).
Qed.

Lemma scale_coeffs_spec lo n c r m :
  scale_coeffs lo n c r m
  = if Nat.leb lo m && Nat.ltb m (lo + n) then r m * c else r m.
Proof.
  unfold scale_coeffs.
  apply (for_loop_cellwise lo n (fun _ x => x * c)).
Qed.

Lemma divide_coeffs_spec lo n c r m :
  divide_coeffs lo n c r m
  = if Nat.leb lo m && Nat.ltb m (lo + n) then r m / c else r m.
Proof.
  unfold divide_coeffs.
  apply (for_loop_cellwise lo n (fun _ x => x / c)).
Qed.

Lemma add_coeffs_spec off n c v r m :
  add_coeffs off n c v r m = r m + c * window off n v m.
Proof.
  unfold add_coeffs.
  rewrite (for_loop_cellwise off n (fun k x => x + c * v k)).
  unfold window. destruct (_ && _); lra.
Qed.

Lemma sub_coeffs_spec off n c v r m :
  sub_coeffs off n c v r m = r m - c * window off n v m.
Proof.
  unfold sub_coeffs.
  rewrite (for_loop_cellwise off n (fun k x => x - c * v k)).
  unfold window. destruct (_ && _); lra.
Qed.

Lemma add_sub_coeffs_spec o1 o2 n c v1 v2 r m :
  (o1 + n <= o2 \/ o2 + n <= o1)%nat ->
  add_sub_coeffs o1 o2 n c v1 v2 r m
  = r m + c * window o1 n v1 m - c * window o2 n v2 m.
Proof.
  intro Hd. unfold add_sub_coeffs. cbv zeta.
  revert m. induction n as [|n IH]; intro m.
  - rewrite for_loop_0. rewrite !window_out by lia. lra.
  - rewrite for_loop_S.
    assert (Hd' : (o1 + n <= o2 \/ o2 + n <= o1)%nat) by lia.
    specialize (IH Hd').
    set (r' := for_loop n _ r) in *.
    assert (IH1 : r' (o1 + n)%nat = r (o1 + n)%nat).
    { rewrite IH. rewrite !window_out by lia. lra. }
    assert (IH2 : r' (o2 + n)%nat = r (o2 + n)%nat).
    { rewrite IH. rewrite !window_out by lia. lra. }
    destruct (Nat.eq_dec m (o2 + n)) as [->|H2].
    + rewrite set_same.
      rewrite set_other by lia. rewrite IH2.
      rewrite (window_out o1) by lia.
      rewrite window_in by lia.
      replace (o2 + n - o2)%nat with n by lia. lra.
    + rewrite set_other by exact H2.
      destruct (Nat.eq_dec m (o1 + n)) as [->|H1].
      * rewrite set_same. rewrite IH1.
        rewrite window_in by lia. rewrite (window_out o2) by lia.
        replace (o1 + n - o1)%nat with n by lia. lra.
      * rewrite set_other by exact H1. rewrite IH.
        unfold window.
        destruct (Nat.leb_spec o1 m), (Nat.ltb_spec m (o1 + n)),
          (Nat.ltb_spec m (o1 + S n)),
          (Nat.leb_spec o2 m), (Nat.ltb_spec m (o2 + n)),
          (Nat.ltb_spec m (o2 + S n)); simpl; try lia; lra.
Qed.

Lemma write_on_zero off n v : forall m,
  write_coeffs off n v (coeff ZeroRow) m = window off n v m.
Proof.
  intro m. rewrite write_coeffs_spec. reflexivity.
Qed.

End RowLoops.

(** *** The polynomial kernels *)

Section Kernels.

Import ColumnOperator.

Lemma prodR_ext n f h :
  (forall k, (k < n)%nat -> f k = h k) -> prodR n f = prodR n h.
Proof.
  induction n as [|n IH]; intro H; simpl; auto.
  rewrite IH by (intros; apply H; lia). rewrite H by lia. reflexivity.
Qed.

Lemma prodR_shift n f :
  prodR (S n) f = f 0%nat * prodR n (fun j => f (S j)).
Proof.
  induction n as [|n IH].
  - simpl. ring.
  - change (prodR (S (S n)) f) with (prodR (S n) f * f (S n)).
    rewrite IH. simpl. ring.
Qed.

Lemma sumR_shift n f :
  sumR (S n) f = f 0%nat + sumR n (fun j => f (S j)).
Proof.
  induction n as [|n IH].
  - simpl. ring.
  - change (sumR (S (S n)) f) with (sumR (S n) f + f (S n)).
    rewrite IH. simpl. ring.
Qed.

(** Dropping the last node. *)
Lemma Lagrange_drop_last n X x i :
  (i < n)%nat ->
  LagrangianPolynomialCoeffs (S n) X x i
  = LagrangianPolynomialCoeffs n X x i * ((x - X n) / (X i - X n)).
Proof.
  intro Hi. unfold LagrangianPolynomialCoeffs. simpl.
  destruct (Nat.eqb_spec n i); [lia | reflexivity].
Qed.

(** Dropping the first node. *)
Lemma Lagrange_drop_first n X x i :
  LagrangianPolynomialCoeffs (S n) X x (S i)
  = (x - X 0%nat) / (X (S i) - X 0%nat)
    * LagrangianPolynomialCoeffs n (fun j => X (S j)) x i.
Proof.
  unfold LagrangianPolynomialCoeffs. rewrite prodR_shift.
  reflexivity.
Qed.

Lemma Lagrange_partition_of_unity n : forall X x,
  distinct_nodes (S n) X ->
  sumR (S n) (LagrangianPolynomialCoeffs (S n) X x) = 1.
Proof.
  induction n as [|n IH]; intros X x HX.
  - unfold LagrangianPolynomialCoeffs. simpl. ring.
  - set (a := X 0%nat). set (b := X (S n)).
    assert (Hab : b - a <> 0).
    { assert (X (S n) <> X 0%nat) by (apply HX; lia). unfold a, b. lra. }
    pose (A := fun i => match i with
                        | O => 0
                        | S k => LagrangianPolynomialCoeffs (S n)
                                   (fun j => X (S j)) x k
                        end).
    pose (B := fun i => if Nat.eqb i (S n) then 0
                        else LagrangianPolynomialCoeffs (S n) X x i).
    assert (Hrec : forall i, (i < S (S n))%nat ->
              (b - a) * LagrangianPolynomialCoeffs (S (S n)) X x i
              = (x - a) * A i - (x - b) * B i).
    { intros i Hi. unfold A, B.
      destruct i as [|k].
      - simpl (Nat.eqb 0 (S n)). cbv iota.
        rewrite Lagrange_drop_last by lia.
        fold a b. field. unfold a, b.
        assert (X 0%nat <> X (S n)) by (apply HX; lia). lra.
      - destruct (Nat.eqb_spec (S k) (S n)) as [E|E].
        + rewrite Lagrange_drop_first. injection E as ->.
          fold a b. field. exact Hab.
        + assert (Hk : (S k < S n)%nat) by lia.
          pose proof (Lagrange_drop_first (S n) X x k) as E1.
          pose proof (Lagrange_drop_last (S n) X x (S k) Hk) as E2.
          fold a in E1. fold b in E2.
          assert (Ha : X (S k) - a <> 0).
          { assert (X (S k) <> X 0%nat) by (apply HX; lia). unfold a. lra. }
          assert (Hb : X (S k) - b <> 0).
          { assert (X (S k) <> X (S n)) by (apply HX; lia). unfold b. lra. }
          set (Lf := LagrangianPolynomialCoeffs (S (S n)) X x (S k)) in *.
          set (L1 := LagrangianPolynomialCoeffs (S n) (fun j => X (S j)) x k)
            in *.
          set (L2 := LagrangianPolynomialCoeffs (S n) X x (S k)) in *.
          assert (F1 : (x - a) * L1 = (X (S k) - a) * Lf)
            by (rewrite E1; field; exact Ha).
          assert (F2 : (x - b) * L2 = (X (S k) - b) * Lf)
            by (rewrite E2; field; exact Hb).
          rewrite F1, F2. ring. }
    assert (HA : sumR (S (S n)) A = 1).
    { rewrite sumR_shift. unfold A at 1.
      rewrite (sumR_ext _ _ (LagrangianPolynomialCoeffs (S n)
                               (fun j => X (S j)) x))
        by (intros; reflexivity).
      rewrite IH; [ring|].
      intros i j Hi Hj Hij. apply HX; lia. }
    assert (HB : sumR (S (S n)) B = 1).
    { change (sumR (S (S n)) B) with (sumR (S n) B + B (S n)).
      unfold B at 2. rewrite Nat.eqb_refl.
      rewrite (sumR_ext _ _ (LagrangianPolynomialCoeffs (S n) X x)).
      - rewrite IH; [ring|].
        intros i j Hi Hj Hij. apply HX; lia.
      - intros k Hk. unfold B.
        destruct (Nat.eqb_spec k (S n)); [lia | reflexivity]. }
    assert (Hsum : (b - a) * sumR (S (S n))
                               (LagrangianPolynomialCoeffs (S (S n)) X x)
                   = b - a).
    { rewrite <- sumR_scal_l.
      rewrite (sumR_ext _ _ (fun i => (x - a) * A i - (x - b) * B i))
        by exact Hrec.
      rewrite sumR_minus, !sumR_scal_l, HA, HB. ring. }
    apply Rmult_eq_reg_l with (r := b - a); [|exact Hab].
    rewrite Hsum. ring.
Qed.

Lemma Lagrange_sum n X x :
  (0 < n)%nat -> distinct_nodes n X ->
  sumR n (LagrangianPolynomialCoeffs n X x) = 1.
Proof.
  destruct n as [|n]; [lia|]. intros _. apply Lagrange_partition_of_unity.
Qed.

(** The derivative coefficients are the derivatives of the interpolation
    coefficients. *)
Lemma derivable_pt_lim_prodR n (f f' : R -> nat -> R) x :
  (forall j, (j < n)%nat ->
             derivable_pt_lim (fun y => f y j) x (f' x j)) ->
  derivable_pt_lim (fun y => prodR n (f y)) x (dprodR n (f x) (f' x)).
Proof.
  induction n as [|n IH]; intro H; simpl.
  - apply derivable_pt_lim_const.
  - apply (derivable_pt_lim_mult (fun y => prodR n (f y)) (fun y => f y n)).
    + apply IH. intros; apply H; lia.
    + apply H; lia.
Qed.

Lemma derivable_pt_lim_sumR n (f f' : R -> nat -> R) x :
  (forall j, (j < n)%nat ->
             derivable_pt_lim (fun y => f y j) x (f' x j)) ->
  derivable_pt_lim (fun y => sumR n (f y)) x (sumR n (f' x)).
Proof.
  induction n as [|n IH]; intro H; simpl.
  - apply derivable_pt_lim_const.
  - apply (derivable_pt_lim_plus (fun y => sumR n (f y)) (fun y => f y n)).
    + apply IH. intros; apply H; lia.
    + apply H; lia.
Qed.

Lemma derivable_pt_lim_affine_quotient (c d x : R) :
  derivable_pt_lim (fun y => (y - c) / d) x (1 / d).
Proof.
  intros eps Heps. exists (mkposreal 1 Rlt_0_1). intros k Hk _.
  replace ((x + k - c) / d - (x - c) / d) with (k * / d)
    by (unfold Rdiv; ring).
  replace (k * / d / k - 1 / d) with ((k * / k - 1) * / d)
    by (unfold Rdiv; ring).
  rewrite Rinv_r by exact Hk.
  replace ((1 - 1) * / d) with 0 by ring.
  rewrite Rabs_R0. exact Heps.
Qed.

Lemma DiffLagrange_is_derivative n X x i :
  derivable_pt_lim (fun y => LagrangianPolynomialCoeffs n X y i) x
    (DiffLagrangianPolynomialCoeffs n X x i).
Proof.
  unfold LagrangianPolynomialCoeffs, DiffLagrangianPolynomialCoeffs.
  apply (derivable_pt_lim_prodR n
           (fun y j => if Nat.eqb j i then 1
                       else (y - X j) / (X i - X j))
           (fun _ j => if Nat.eqb j i then 0 else 1 / (X i - X j))).
  intros j _. destruct (Nat.eqb j i).
  - apply derivable_pt_lim_const.
  - apply derivable_pt_lim_affine_quotient.
Qed.

Lemma DiffLagrange_sum n X x :
  (0 < n)%nat -> distinct_nodes n X ->
  sumR n (DiffLagrangianPolynomialCoeffs n X x) = 0.
Proof.
  intros Hn HX.
  assert (D1 : derivable_pt_lim
                 (fun y => sumR n (LagrangianPolynomialCoeffs n X y)) x
                 (sumR n (DiffLagrangianPolynomialCoeffs n X x))).
  { apply (derivable_pt_lim_sumR n
             (fun y j => LagrangianPolynomialCoeffs n X y j)
             (fun y j => DiffLagrangianPolynomialCoeffs n X y j)).
    intros j _. apply DiffLagrange_is_derivative. }
  assert (D2 : derivable_pt_lim
                 (fun y => sumR n (LagrangianPolynomialCoeffs n X y)) x 0).
  { apply derivable_pt_lim_ext with (f := fun _ : R => 1).
    - intro y. symmetry. now apply Lagrange_sum.
    - apply derivable_pt_lim_const. }
  exact (uniqueness_limite _ _ _ _ D1 D2).
Qed.

End Kernels.

(** *** Columns, the element search and the assembled rows *)

Section ColumnFacts.

Import ColumnOperator.

Lemma ptr_distinct v off n :
  StrictlyIncreasing v -> (off + n <= length v)%nat ->
  distinct_nodes n (ptr v off).
Proof.
  intros Hv Hlen i j Hi Hj Hij. unfold ptr.
  destruct (Nat.lt_total i j) as [H|[H|H]]; [|contradiction|].
  - assert (nth (off + i) v 0 < nth (off + j) v 0) by (apply Hv; lia). lra.
  - assert (nth (off + j) v 0 < nth (off + i) v 0) by (apply Hv; lia). lra.
Qed.

Lemma FindElement_bounds dREtaREdge stride dOut fuel a0 :
  let r := FindElement dREtaREdge stride dOut fuel a0 in
  (a0 <= fst r <= a0 + fuel)%nat /\
  (snd r = true ->
   (fst r < a0 + fuel)%nat /\
   nth ((fst r + 1) * stride) dREtaREdge 0 - ParamEpsilon <= dOut /\
   dOut < nth ((fst r + 1) * stride) dREtaREdge 0 - ParamEpsilon
          + 2.0 * ParamEpsilon).
Proof.
  revert a0. induction fuel as [|fuel IH]; intro a0; simpl.
  - split; [lia | discriminate].
  - destruct (Rlt_dec _ _) as [H1|H1]; simpl.
    + split; [lia | discriminate].
    + destruct (Rlt_dec _ _) as [H2|H2]; simpl.
      * split; [lia|]. intros _. repeat split; [lia | lra | exact H2].
      * destruct (IH (S a0)) as [Hb Hon]. split; [lia|].
        intro E. destruct (Hon E) as (Hlt & Hrest). split; [lia | exact Hrest].
Qed.

Lemma VerifyInput_spec {A : Type} p (dREtaNode dREtaREdge : list R)
    (k : Result A) :
  (ValidColumn p dREtaNode dREtaREdge ->
   VerifyInput p dREtaNode dREtaREdge k = k) /\
  (forall x, VerifyInput p dREtaNode dREtaREdge k = Ok x ->
             ValidColumn p dREtaNode dREtaREdge).
Proof.
  unfold VerifyInput, ValidColumn; cbv zeta.
  destruct (Nat.eqb_spec (length dREtaNode) 0);
    destruct (Nat.eqb_spec (length dREtaREdge) (length dREtaNode + 1));
    destruct (Nat.eqb_spec (length dREtaNode mod p) 0); simpl;
    split; try (intros (? & ? & ?); congruence); try discriminate; auto.
Qed.

Lemma ValidColumn_elements p dREtaNode dREtaREdge :
  ValidColumn p dREtaNode dREtaREdge ->
  (0 < p)%nat /\
  (0 < length dREtaNode / p)%nat /\
  length dREtaNode = (length dREtaNode / p * p)%nat.
Proof.
  intros (Hne & _ & Hmod).
  assert (Hp : (0 < p)%nat).
  { destruct p; [|lia]. simpl in Hmod. contradiction. }
  assert (E : length dREtaNode = (length dREtaNode / p * p)%nat).
  { rewrite Nat.mul_comm. apply Nat.Div0.div_exact. exact Hmod. }
  repeat split; auto.
  destruct (length dREtaNode / p)%nat; [simpl in E; contradiction | lia].
Qed.

Lemma rows_for_loop n (F : nat -> Row) op l :
  rows (for_loop n (fun l op => set_row op l (F l)) op) l
  = if Nat.ltb l n then F l else rows op l.
Proof.
  induction n as [|n IH].
  - reflexivity.
  - rewrite for_loop_S. simpl. rewrite IH.
    destruct (Nat.eqb_spec l n) as [->|H].
    + destruct (Nat.ltb_spec n (S n)); [reflexivity | lia].
    + destruct (Nat.ltb_spec l n), (Nat.ltb_spec l (S n)); auto; lia.
Qed.

Lemma nRowsIn_for_loop n (F : nat -> Row) op :
  nRowsIn (for_loop n (fun l op => set_row op l (F l)) op) = nRowsIn op.
Proof.
  induction n as [|n IH]; [reflexivity|].
  rewrite for_loop_S. simpl. exact IH.
Qed.

End ColumnFacts.

(** *** Rows at an interior element edge *)

Section EdgeRows.

Import ColumnOperator.

Lemma error_weights (dL dR : R) (n : nat) :
  0 < dL -> 0 < dR ->
  dWeightL dL dR n = dR ^ n / (dL ^ n + dR ^ n) /\
  dWeightR dL dR n = dL ^ n / (dL ^ n + dR ^ n) /\
  dWeightL dL dR n + dWeightR dL dR n = 1.
Proof.
  intros HL HR. unfold dWeightL, dWeightR, c_pow; cbv zeta.
  rewrite !Rpower_pow by assumption.
  assert (0 < dL ^ n) by (apply pow_lt; assumption).
  assert (0 < dR ^ n) by (apply pow_lt; assumption).
  repeat split; try reflexivity. field. lra.
Qed.

Variable nVerticalOrder : nat.
Variables dREtaNode dREtaREdge dREtaOut : list R.
Variable fZeroBoundaries : bool.
Variable l : nat.

Let dOut := nth l dREtaOut 0.
Let found (nElements : nat) :=
  FindElement dREtaREdge nVerticalOrder dOut (nElements - 1) 0.

Lemma scaled_window off n v c m :
  (if Nat.leb off m && Nat.ltb m (off + n)
   then window off n v m * c else window off n v m)
  = c * window off n v m.
Proof.
  unfold window. destruct (_ && _); ring.
Qed.

(** The interface-method derivative row, in closed form. *)
Lemma InterfaceMethodRow_coeff m :
  let a := fst (found (length dREtaNode / nVerticalOrder)) in
  coeff (InterfaceMethodRow nVerticalOrder dREtaNode dREtaREdge dREtaOut l) m
  = if snd (found (length dREtaNode / nVerticalOrder)) then
      WeightedEdgeRow DiffLagrangianPolynomialCoeffs (nVerticalOrder + 1)
        dREtaREdge dREtaREdge nVerticalOrder a dOut m
    else
      window (a * nVerticalOrder) (nVerticalOrder + 1)
        (DiffLagrangianPolynomialCoeffs (nVerticalOrder + 1)
           (ptr dREtaREdge (a * nVerticalOrder)) dOut) m.
Proof.
  intro a. unfold InterfaceMethodRow; cbv zeta.
  fold dOut. fold (found (length dREtaNode / nVerticalOrder)). fold a.
  destruct (snd (found (length dREtaNode / nVerticalOrder))); simpl coeff.
  - rewrite add_coeffs_spec, scale_coeffs_spec, write_on_zero.
    rewrite scaled_window. unfold WeightedEdgeRow. reflexivity.
  - apply write_on_zero.
Qed.

(** The interpolation row from interfaces at an edge: the unit row of the
    shared interface. *)
Lemma InterpRow_Interfaces_edge m :
  let a := fst (found (length dREtaNode / nVerticalOrder)) in
  snd (found (length dREtaNode / nVerticalOrder)) = true ->
  coeff (InterpRow InterpSource_Interfaces nVerticalOrder dREtaNode
           dREtaREdge dREtaOut l) m
  = if Nat.eqb m ((a + 1) * nVerticalOrder) then 1 else 0.
Proof.
  intros a Hon. unfold InterpRow; cbv zeta.
  fold dOut. fold (found (length dREtaNode / nVerticalOrder)). fold a.
  rewrite Hon. simpl. unfold set.
  destruct (Nat.eqb m ((a + 1) * nVerticalOrder)); lra.
Qed.

(** The interpolation row from levels at an edge, outside the two
    first-order overrides (order 1 with l = 0 or l = last). *)
Lemma InterpRow_Levels_edge m :
  let a := fst (found (length dREtaNode / nVerticalOrder)) in
  snd (found (length dREtaNode / nVerticalOrder)) = true ->
  nVerticalOrder <> 1%nat \/ (l <> 0%nat /\ l <> (length dREtaOut - 1)%nat) ->
  coeff (InterpRow InterpSource_Levels nVerticalOrder dREtaNode
           dREtaREdge dREtaOut l) m
  = WeightedEdgeRow LagrangianPolynomialCoeffs nVerticalOrder
      dREtaNode dREtaREdge nVerticalOrder a dOut m.
Proof.
  intros a Hon Hgen. unfold InterpRow; cbv zeta.
  fold dOut. fold (found (length dREtaNode / nVerticalOrder)). fold a.
  rewrite Hon.
  assert (E1 : Nat.eqb nVerticalOrder 1 && Nat.eqb l 0 = false).
  { destruct (Nat.eqb_spec nVerticalOrder 1), (Nat.eqb_spec l 0);
      simpl; auto; lia. }
  assert (E2 : Nat.eqb nVerticalOrder 1
               && Nat.eqb l (length dREtaOut - 1) = false).
  { destruct (Nat.eqb_spec nVerticalOrder 1),
      (Nat.eqb_spec l (length dREtaOut - 1)); simpl; auto; lia. }
  rewrite E1, E2. simpl coeff. simpl iBegin. simpl iEnd.
  rewrite !scale_coeffs_spec, write_coeffs_spec, write_on_zero.
  unfold WeightedEdgeRow, window.
  set (p := nVerticalOrder).
  replace ((a + 1) * p + p - (a + 1) * p)%nat with p by lia.
  replace ((a + 1) * p - a * p)%nat with p by lia.
  destruct (Nat.leb_spec (a * p) m), (Nat.ltb_spec m (a * p + p)),
    (Nat.leb_spec ((a + 1) * p) m), (Nat.ltb_spec m ((a + 1) * p + p));
    simpl; try lia; ring.
Qed.

End EdgeRows.

(** C7 (as stated, refuted).  Interpolating from interfaces to the point
    1/2 + 0.5e-12, which the search places on the interior edge 1/2 of the
    two-element column, the code stores the unit row of the shared interface
    (coefficient 0 on interface 0), whereas the weighted average of the two
    one-sided interpolants at that point has coefficient -0.5e-12 there. *)
Lemma C7_counterexample :
  let dOut := 0.5 + 0.5e-12 in
  FindElement_on_edge_sample dOut /\
  ColumnOperator.coeff
    (ColumnOperator.InterpRow ColumnOperator.InterpSource_Interfaces 1
       TwoLevelNodes TwoLevelEdges [dOut] 0) 0%nat = 0 /\
  ColumnOperator.WeightedEdgeRow ColumnOperator.LagrangianPolynomialCoeffs
    (1 + 1) TwoLevelEdges TwoLevelEdges 1 0 dOut 0%nat = - 0.5e-12.
Proof.
  intro dOut.
  assert (Hfind : ColumnOperator.FindElement TwoLevelEdges 1 dOut 1 0
                  = (0%nat, true)).
  { unfold dOut, TwoLevelEdges. simpl. unfold ColumnOperator.ParamEpsilon.
    destruct (Rlt_dec _ _) as [H|H]; [lra|].
    destruct (Rlt_dec _ _) as [H'|H']; [reflexivity | lra]. }
  split; [exact Hfind|]. split.
  - unfold ColumnOperator.InterpRow; cbv zeta.
    change (length TwoLevelNodes / 1 - 1)%nat with 1%nat.
    change (nth 0 [dOut] 0) with dOut.
    rewrite Hfind. reflexivity.
  - unfold ColumnOperator.WeightedEdgeRow; cbv zeta.
    destruct (error_weights (nth ((0 + 1) * 1) TwoLevelEdges 0
                             - nth (0 * 1) TwoLevelEdges 0)
                (nth ((0 + 2) * 1) TwoLevelEdges 0
                 - nth ((0 + 1) * 1) TwoLevelEdges 0) 1) as (EL & ER & _);
      [simpl; lra | simpl; lra |].
    rewrite EL, ER.
    unfold ColumnOperator.window, ColumnOperator.LagrangianPolynomialCoeffs,
      ColumnOperator.ptr, TwoLevelEdges, dOut.
    simpl. lra.
Qed.

(** C7 (amended).  When the search loop flags an output point as lying on an
    interior element edge, that is when it finds an element a below the top
    one with edge - eps <= point < edge + eps for the upper edge of a
    (eps = 1e-12), then: the interpolation row from levels, outside the
    first-order overrides for the first and last output row, and the
    interface-method derivative row are the averages of the two one-sided
    interpolants (derivatives) with weights w_L = dR^p / (dL^p + dR^p) and
    w_R = dL^p / (dL^p + dR^p), dL and dR the widths of the elements below
    and above the edge and p the vertical order; the interpolation row from
    interfaces is the unit row of the shared interface, not an average. *)
Theorem C7_edge_rows :
  forall (nVerticalOrder : nat) (dREtaNode dREtaREdge dREtaOut : list R)
         (l : nat),
    let dOut := nth l dREtaOut 0 in
    let nFiniteElements := (length dREtaNode / nVerticalOrder)%nat in
    let found := ColumnOperator.FindElement dREtaREdge nVerticalOrder dOut
                   (nFiniteElements - 1) 0 in
    let a := fst found in
    snd found = true ->
    ((a < nFiniteElements - 1)%nat /\
     nth ((a + 1) * nVerticalOrder) dREtaREdge 0 - 1.0e-12 <= dOut /\
     dOut < nth ((a + 1) * nVerticalOrder) dREtaREdge 0 + 1.0e-12) /\
    (nVerticalOrder <> 1%nat \/
     (l <> 0%nat /\ l <> (length dREtaOut - 1)%nat) ->
     forall m,
       ColumnOperator.coeff
         (ColumnOperator.InterpRow ColumnOperator.InterpSource_Levels
            nVerticalOrder dREtaNode dREtaREdge dREtaOut l) m
       = ColumnOperator.WeightedEdgeRow
           ColumnOperator.LagrangianPolynomialCoeffs nVerticalOrder
           dREtaNode dREtaREdge nVerticalOrder a dOut m) /\
    (forall m,
       ColumnOperator.coeff
         (ColumnOperator.InterpRow ColumnOperator.InterpSource_Interfaces
            nVerticalOrder dREtaNode dREtaREdge dREtaOut l) m
       = if Nat.eqb m ((a + 1) * nVerticalOrder) then 1 else 0) /\
    (forall m,
       ColumnOperator.coeff
         (ColumnOperator.InterfaceMethodRow nVerticalOrder dREtaNode
            dREtaREdge dREtaOut l) m
       = ColumnOperator.WeightedEdgeRow
           ColumnOperator.DiffLagrangianPolynomialCoeffs (nVerticalOrder + 1)
           dREtaREdge dREtaREdge nVerticalOrder a dOut m) /\
    (forall dL dR, 0 < dL -> 0 < dR ->
       ColumnOperator.dWeightL dL dR nVerticalOrder
         = dR ^ nVerticalOrder / (dL ^ nVerticalOrder + dR ^ nVerticalOrder) /\
       ColumnOperator.dWeightR dL dR nVerticalOrder
         = dL ^ nVerticalOrder / (dL ^ nVerticalOrder + dR ^ nVerticalOrder)).
Proof.
  intros p Node REdge Out l dOut nFE found a Hon.
  split; [|split; [|split; [|split]]].
  - destruct (FindElement_bounds REdge p dOut (nFE - 1) 0) as [_ H].
    destruct (H Hon) as (H1 & H2 & H3).
    fold found in H1, H2, H3. fold a in H1, H2, H3.
    unfold ColumnOperator.ParamEpsilon in *.
    repeat split; [lia | lra | lra].
  - intros Hgen m.
    exact (InterpRow_Levels_edge p Node REdge Out l m Hon Hgen).
  - intro m. exact (InterpRow_Interfaces_edge p Node REdge Out l m Hon).
  - intro m.
    pose proof (InterfaceMethodRow_coeff p Node REdge Out l m) as E.
    cbv beta zeta in E. unfold found, nFE, dOut in Hon. rewrite Hon in E.
    exact E.
  - intros dL dR HL HR.
    destruct (error_weights dL dR p HL HR) as (E1 & E2 & _). now split.
Qed.

Lemma C7_edge_rows_witness :
  ColumnOperator.coeff
    (ColumnOperator.InterpRow ColumnOperator.InterpSource_Levels 1
       TwoLevelNodes TwoLevelEdges TwoLevelEdges 1) 0%nat = 0.5.
Proof.
  assert (Hfind : ColumnOperator.FindElement TwoLevelEdges 1
                    (nth 1 TwoLevelEdges 0) 1 0 = (0%nat, true)).
  { unfold TwoLevelEdges. simpl. unfold ColumnOperator.ParamEpsilon.
    destruct (Rlt_dec _ _) as [H|H]; [lra|].
    destruct (Rlt_dec _ _) as [H'|H']; [reflexivity | lra]. }
  destruct (C7_edge_rows 1 TwoLevelNodes TwoLevelEdges TwoLevelEdges 1)
    as (_ & HL & _).
  - change (length TwoLevelNodes / 1 - 1)%nat with 1%nat.
    rewrite Hfind. reflexivity.
  - rewrite HL by (right; simpl; lia).
    change (length TwoLevelNodes / 1 - 1)%nat with 1%nat.
    rewrite Hfind. simpl fst.
    unfold ColumnOperator.WeightedEdgeRow; cbv zeta.
    destruct (error_weights (nth ((0 + 1) * 1) TwoLevelEdges 0
                             - nth (0 * 1) TwoLevelEdges 0)
                (nth ((0 + 2) * 1) TwoLevelEdges 0
                 - nth ((0 + 1) * 1) TwoLevelEdges 0) 1) as (EL & ER & _);
      [simpl; lra | simpl; lra |].
    rewrite EL, ER.
    unfold ColumnOperator.window, ColumnOperator.LagrangianPolynomialCoeffs,
      ColumnOperator.ptr, TwoLevelEdges, TwoLevelNodes.
    simpl. lra.
Defined.

(** *** The flux-correction rows *)

Section FluxCorrectionFacts.

Import ColumnOperator.

Variable G : nat -> nat -> R -> R.
Variable p : nat.
Variables Node REdge : list R.
Variable fZero : bool.
Variable dOut : R.

Let nIn := length Node.
Let nFE := (nIn / p)%nat.

(** Row sums.  The column is valid, its levels increase strictly, and the
    element [a] is one the search can return. *)
Hypothesis Hp : (0 < p)%nat.
Hypothesis HnIn : nIn = (nFE * p)%nat.
Hypothesis HNode : StrictlyIncreasing Node.

Lemma element_window_distinct e :
  (e < nFE)%nat -> distinct_nodes p (ptr Node (e * p)).
Proof.
  intro He. apply ptr_distinct; [exact HNode|].
  fold nIn. rewrite HnIn. nia.
Qed.

Lemma element_window_inside e : (e < nFE)%nat -> (e * p + p <= nIn)%nat.
Proof. intro He. rewrite HnIn. nia. Qed.

Lemma Flux_LocalDerivative_sum a on :
  (a < nFE)%nat -> (on = true -> (a + 1 < nFE)%nat) ->
  sumR nIn (Flux_LocalDerivative p Node REdge dOut a on) = 0.
Proof.
  intros Ha Hon.
  unfold Flux_LocalDerivative. fold nIn.
  assert (D0 : sumR p (DiffLagrangianPolynomialCoeffs p
                         (ptr Node (a * p)) dOut) = 0).
  { apply DiffLagrange_sum; [exact Hp|]. now apply element_window_distinct. }
  destruct on eqn:Eon.
  - assert (Ha1 : (a + 1 < nFE)%nat) by (apply Hon; reflexivity).
    assert (D1 : sumR p (DiffLagrangianPolynomialCoeffs p
                           (ptr Node ((a + 1) * p)) dOut) = 0).
    { apply DiffLagrange_sum; [exact Hp|].
      now apply element_window_distinct. }
    rewrite (sumR_ext _ _
      (fun m => (window (a * p) p (DiffLagrangianPolynomialCoeffs p
                                     (ptr Node (a * p)) dOut) m
                 + window ((a + 1) * p) p
                     (DiffLagrangianPolynomialCoeffs p
                        (ptr Node ((a + 1) * p)) dOut) m)
                * (0.5 * dDeltaREta p REdge a))).
    + rewrite sumR_scal_r, sumR_plus.
      rewrite !sumR_window by (apply element_window_inside; lia).
      rewrite D0, D1. ring.
    + intros m Hm. rewrite scale_coeffs_spec.
      replace (Nat.leb 0 m && Nat.ltb m (0 + nIn)) with true
        by (symmetry; apply andb_true_intro; split;
            [apply Nat.leb_le | apply Nat.ltb_lt]; lia).
      rewrite write_coeffs_spec, write_on_zero. unfold window.
      destruct (Nat.leb_spec (a * p) m), (Nat.ltb_spec m (a * p + p)),
        (Nat.leb_spec ((a + 1) * p) m),
        (Nat.ltb_spec m ((a + 1) * p + p)); simpl; try lia; ring.
  - rewrite (sumR_ext _ _
      (fun m => window (a * p) p (DiffLagrangianPolynomialCoeffs p
                                    (ptr Node (a * p)) dOut) m
                * dDeltaREta p REdge a)).
    + rewrite sumR_scal_r.
      rewrite sumR_window by (apply element_window_inside; lia).
      rewrite D0. ring.
    + intros m Hm. rewrite scale_coeffs_spec.
      replace (Nat.leb 0 m && Nat.ltb m (0 + nIn)) with true
        by (symmetry; apply andb_true_intro; split;
            [apply Nat.leb_le | apply Nat.ltb_lt]; lia).
      now rewrite write_on_zero.
Qed.

Lemma Lagrange_window_sum e x :
  (e < nFE)%nat ->
  sumR nIn (window (e * p) p
              (LagrangianPolynomialCoeffs p (ptr Node (e * p)) x)) = 1.
Proof.
  intro He. rewrite sumR_window by (now apply element_window_inside).
  apply Lagrange_sum; [exact Hp | now apply element_window_distinct].
Qed.

Lemma Flux_LeftEdge_sum a on r :
  (a < nFE)%nat ->
  sumR nIn (Flux_LeftEdge G p Node REdge fZero dOut a on r)
  = sumR nIn r
    - (if negb (Nat.eqb a 0) && on
       then 0.5 * dDerivL G p REdge dOut a else 0).
Proof.
  intros Ha.
  unfold Flux_LeftEdge. fold nIn. fold nFE.
  destruct (Nat.eqb_spec a 0) as [Ea|Ea]; cbn [negb andb].
  - cbn [negb andb].
    destruct (BoundaryCorrectionApplies p Node fZero) eqn:E; [|ring].
    assert (HFE2 : (a + 1 < nFE)%nat).
    { unfold BoundaryCorrectionApplies in E. fold nIn nFE in E.
      apply andb_prop in E as [_ E].
      destruct (Nat.eqb_spec nFE 1); [discriminate | lia]. }
    rewrite (sumR_ext _ _ (fun m =>
      r m + 0.5 * dDerivL G p REdge dOut a
            * window (a * p) p (dTempCoeffRL p Node REdge a) m
      - 0.5 * dDerivL G p REdge dOut a
        * window ((a + 1) * p) p (dTempCoeffRR p Node REdge a) m))
      by (intros; apply add_sub_coeffs_spec; lia).
    rewrite sumR_minus, sumR_plus, !sumR_scal_l.
    unfold dTempCoeffRL, dTempCoeffRR. fold nIn. fold nFE.
    destruct (Nat.eqb_spec a (nFE - 1)); [lia|]. cbn [negb andb].
    rewrite !Lagrange_window_sum by lia. ring.
  - assert (Ha' : (a - 1 < nFE)%nat) by lia.
    assert (SLR : sumR nIn (window (a * p) p (dTempCoeffLR p Node REdge a))
                  = 1).
    { unfold dTempCoeffLR. now apply Lagrange_window_sum. }
    assert (SLL : sumR nIn (window ((a - 1) * p) p
                              (dTempCoeffLL p Node REdge a)) = 1).
    { unfold dTempCoeffLL.
      destruct (Nat.eqb_spec a 0); [contradiction|]. cbn [negb andb].
      now apply Lagrange_window_sum. }
    destruct on; cbn [negb andb].
    + rewrite (sumR_ext _ _ (fun m =>
        r m - 0.5 * dDerivL G p REdge dOut a
              * window (a * p) p (dTempCoeffLR p Node REdge a) m))
        by (intros; apply sub_coeffs_spec).
      rewrite sumR_minus, sumR_scal_l, SLR. ring.
    + rewrite (sumR_ext _ _ (fun m =>
        r m + 0.5 * dDerivL G p REdge dOut a
              * window ((a - 1) * p) p (dTempCoeffLL p Node REdge a) m
        - 0.5 * dDerivL G p REdge dOut a
          * window (a * p) p (dTempCoeffLR p Node REdge a) m)).
      * rewrite sumR_minus, sumR_plus, !sumR_scal_l, SLR, SLL. ring.
      * intros m _. rewrite sub_coeffs_spec, add_coeffs_spec. reflexivity.
Qed.

Lemma Flux_RightEdge_sum a r :
  (a < nFE)%nat ->
  sumR nIn (Flux_RightEdge G p Node REdge fZero dOut a r) = sumR nIn r.
Proof.
  intros Ha.
  unfold Flux_RightEdge. fold nIn. fold nFE.
  destruct (Nat.eqb_spec a (nFE - 1)) as [Ea|Ea]; cbn [negb andb].
  - destruct (BoundaryCorrectionApplies p Node fZero) eqn:E; [|reflexivity].
    assert (HFE2 : (1 <= a)%nat).
    { unfold BoundaryCorrectionApplies in E. fold nIn nFE in E.
      apply andb_prop in E as [_ E].
      destruct (Nat.eqb_spec nFE 1); [discriminate | lia]. }
    rewrite (sumR_ext _ _ (fun m =>
      r m + 0.5 * dDerivR G p REdge dOut a
            * window (a * p) p (dTempCoeffLR p Node REdge a) m
      - 0.5 * dDerivR G p REdge dOut a
        * window ((a - 1) * p) p (dTempCoeffLL p Node REdge a) m)).
    + rewrite sumR_minus, sumR_plus, !sumR_scal_l.
      unfold dTempCoeffLR, dTempCoeffLL.
      destruct (Nat.eqb_spec a 0); [lia|]. cbn [negb andb].
      rewrite !Lagrange_window_sum by lia. ring.
    + intros m _. apply add_sub_coeffs_spec. right.
      replace a with (S (a - 1)) at 2 by lia. simpl. lia.
  - assert (Ha1 : (a + 1 < nFE)%nat) by lia.
    rewrite (sumR_ext _ _ (fun m =>
      r m + 0.5 * dDerivR G p REdge dOut a
            * window ((a + 1) * p) p (dTempCoeffRR p Node REdge a) m
      - 0.5 * dDerivR G p REdge dOut a
        * window (a * p) p (dTempCoeffRL p Node REdge a) m)).
    + rewrite sumR_minus, sumR_plus, !sumR_scal_l.
      unfold dTempCoeffRR, dTempCoeffRL. fold nIn. fold nFE.
      destruct (Nat.eqb_spec a (nFE - 1)); [lia|]. cbn [negb andb].
      rewrite !Lagrange_window_sum by lia. ring.
    + intros m _. rewrite sub_coeffs_spec, add_coeffs_spec. reflexivity.
Qed.

(** The sum of the coefficients of a flux-correction row. *)
Lemma Flux_Coefficients_sum a on :
  (a < nFE)%nat -> (on = true -> (a + 1 < nFE)%nat) ->
  sumR nIn (Flux_Coefficients G p Node REdge fZero dOut a on)
  = - (if negb (Nat.eqb a 0) && on
       then 0.5 * dDerivL G p REdge dOut a else 0)
    / dDeltaREta p REdge a.
Proof.
  intros Ha Hon.
  unfold Flux_Coefficients. fold nIn.
  rewrite (sumR_ext _ _ (fun m =>
    Flux_RightEdge G p Node REdge fZero dOut a
      (Flux_LeftEdge G p Node REdge fZero dOut a on
         (Flux_LocalDerivative p Node REdge dOut a on)) m
    / dDeltaREta p REdge a)).
  - rewrite sumR_div, Flux_RightEdge_sum, Flux_LeftEdge_sum,
      Flux_LocalDerivative_sum by assumption.
    unfold Rdiv. ring.
  - intros m Hm. rewrite divide_coeffs_spec.
    replace (Nat.leb 0 m && Nat.ltb m (0 + nIn)) with true
      by (symmetry; apply andb_true_intro; split;
          [apply Nat.leb_le | apply Nat.ltb_lt]; lia).
    reflexivity.
Qed.

(** No coefficient is stored past the last level. *)
Lemma Flux_Coefficients_beyond a on m :
  (a < nFE)%nat -> (on = true -> (a + 1 < nFE)%nat) ->
  (nIn <= m)%nat ->
  Flux_Coefficients G p Node REdge fZero dOut a on m = 0.
Proof.
  intros Ha Hon Hm.
  assert (W : forall e v, (e < nFE)%nat -> window (e * p) p v m = 0).
  { intros e v He. apply window_out.
    pose proof (element_window_inside e He). lia. }
  assert (HL : Flux_LocalDerivative p Node REdge dOut a on m = 0).
  { unfold Flux_LocalDerivative. fold nIn.
    destruct on eqn:Eon; rewrite scale_coeffs_spec;
      replace (Nat.ltb m (0 + nIn)) with false
        by (symmetry; apply Nat.ltb_ge; lia);
      rewrite andb_false_r.
    - rewrite write_coeffs_spec, write_on_zero.
      assert (Ha1 : (a + 1 < nFE)%nat) by (apply Hon; reflexivity).
      pose proof (element_window_inside (a + 1) Ha1).
      replace (Nat.ltb m ((a + 1) * p + p)) with false
        by (symmetry; apply Nat.ltb_ge; lia).
      rewrite andb_false_r. now apply W.
    - rewrite write_on_zero. now apply W. }
  assert (HLe : Flux_LeftEdge G p Node REdge fZero dOut a on
                  (Flux_LocalDerivative p Node REdge dOut a on) m = 0).
  { unfold Flux_LeftEdge. fold nIn. fold nFE.
    destruct (Nat.eqb_spec a 0) as [Ea|Ea]; cbn [negb andb].
    - destruct (BoundaryCorrectionApplies p Node fZero) eqn:E; [|exact HL].
      assert (HFE2 : (a + 1 < nFE)%nat).
      { unfold BoundaryCorrectionApplies in E. fold nIn nFE in E.
        apply andb_prop in E as [_ E].
        destruct (Nat.eqb_spec nFE 1); [discriminate | lia]. }
      rewrite add_sub_coeffs_spec by lia.
      rewrite !W by lia. rewrite HL. ring.
    - destruct on; cbn [negb andb].
      + rewrite sub_coeffs_spec, W by lia. rewrite HL. ring.
      + rewrite sub_coeffs_spec, add_coeffs_spec, !W by lia.
        rewrite HL. ring. }
  unfold Flux_Coefficients. fold nIn.
  rewrite divide_coeffs_spec.
  replace (Nat.ltb m (0 + nIn)) with false
    by (symmetry; apply Nat.ltb_ge; lia).
  rewrite andb_false_r.
  unfold Flux_RightEdge. fold nIn. fold nFE.
  destruct (Nat.eqb_spec a (nFE - 1)) as [Ea|Ea]; cbn [negb andb].
  - destruct (BoundaryCorrectionApplies p Node fZero) eqn:E; [|exact HLe].
    assert (HFE2 : (1 <= a)%nat).
    { unfold BoundaryCorrectionApplies in E. fold nIn nFE in E.
      apply andb_prop in E as [_ E].
      destruct (Nat.eqb_spec nFE 1); [discriminate | lia]. }
    rewrite add_sub_coeffs_spec.
    + rewrite !W by lia. rewrite HLe. ring.
    + right. replace a with (S (a - 1)) at 2 by lia. simpl. lia.
  - rewrite sub_coeffs_spec, add_coeffs_spec, !W by lia.
    rewrite HLe. ring.
Qed.

(** The row in closed form: the local derivative, the term of the left
    edge and the term of the right edge of element [a], over the width of
    the element. *)
Lemma Flux_LocalDerivative_closed a on m :
  (a < nFE)%nat -> (on = true -> (a + 1 < nFE)%nat) ->
  let diff := fun e =>
    window (e * p) p
      (DiffLagrangianPolynomialCoeffs p (ptr Node (e * p)) dOut) in
  Flux_LocalDerivative p Node REdge dOut a on m
  = if on
    then 0.5 * dDeltaREta p REdge a * (diff a m + diff (a + 1)%nat m)
    else dDeltaREta p REdge a * diff a m.
Proof.
  intros Ha Hon diff.
  assert (W : forall e v, (e < nFE)%nat -> (nIn <= m)%nat ->
                window (e * p) p v m = 0).
  { intros e v He Hm. apply window_out.
    pose proof (element_window_inside e He). lia. }
  unfold Flux_LocalDerivative. fold nIn.
  destruct on eqn:Eon; rewrite scale_coeffs_spec.
  - assert (Ha1 : (a + 1 < nFE)%nat) by (apply Hon; reflexivity).
    rewrite write_coeffs_spec, write_on_zero.
    destruct (Nat.ltb_spec m (0 + nIn)) as [Hm|Hm]; cbn [Nat.leb andb].
    + unfold diff, window.
      destruct (Nat.leb_spec (a * p) m), (Nat.ltb_spec m (a * p + p)),
        (Nat.leb_spec ((a + 1) * p) m),
        (Nat.ltb_spec m ((a + 1) * p + p)); cbn [andb]; try lia; ring.
    + unfold diff. rewrite !W by lia.
      replace (Nat.ltb m ((a + 1) * p + p)) with false.
      * rewrite andb_false_r. ring.
      * symmetry. apply Nat.ltb_ge.
        pose proof (element_window_inside (a + 1) Ha1). lia.
  - rewrite write_on_zero. fold (diff a m).
    destruct (Nat.ltb_spec m (0 + nIn)) as [Hm|Hm]; cbn [Nat.leb andb].
    + ring.
    + unfold diff. rewrite W by lia. ring.
Qed.

Lemma Flux_Coefficients_closed a on m :
  (a < nFE)%nat -> (on = true -> (a + 1 < nFE)%nat) ->
  let interp := fun e x =>
    window (e * p) p (LagrangianPolynomialCoeffs p (ptr Node (e * p)) x) in
  let diff := fun e =>
    window (e * p) p
      (DiffLagrangianPolynomialCoeffs p (ptr Node (e * p)) dOut) in
  let edge := fun e => nth (e * p) REdge 0 in
  Flux_Coefficients G p Node REdge fZero dOut a on m
  = ((if on
      then 0.5 * dDeltaREta p REdge a * (diff a m + diff (a + 1)%nat m)
      else dDeltaREta p REdge a * diff a m)
     + (if Nat.eqb a 0 then
          if negb fZero && negb (Nat.eqb nFE 1) then
            0.5 * dDerivL G p REdge dOut a
            * (interp a (edge (a + 1)%nat) m
               - interp (a + 1)%nat (edge (a + 1)%nat) m)
          else 0
        else
          0.5 * dDerivL G p REdge dOut a
          * ((if on then 0 else interp (a - 1)%nat (edge a) m)
             - interp a (edge a) m))
     + (if Nat.eqb a (nFE - 1) then
          if negb fZero && negb (Nat.eqb nFE 1) then
            0.5 * dDerivR G p REdge dOut a
            * (interp a (edge a) m - interp (a - 1)%nat (edge a) m)
          else 0
        else
          0.5 * dDerivR G p REdge dOut a
          * (interp (a + 1)%nat (edge (a + 1)%nat) m
             - interp a (edge (a + 1)%nat) m)))
    / dDeltaREta p REdge a.
Proof.
  intros Ha Hon interp diff edge.
  destruct (Nat.ltb_spec m nIn) as [Hm|Hm].
  - unfold Flux_Coefficients. fold nIn. rewrite divide_coeffs_spec.
    replace (Nat.leb 0 m && Nat.ltb m (0 + nIn)) with true
      by (symmetry; apply andb_true_intro; split;
          [apply Nat.leb_le | apply Nat.ltb_lt]; lia).
    f_equal.
    unfold Flux_RightEdge, Flux_LeftEdge, BoundaryCorrectionApplies.
    fold nIn. fold nFE.
    unfold dTempCoeffLR, dTempCoeffRL, dTempCoeffLL, dTempCoeffRR.
    fold nIn. fold nFE.
    destruct (Nat.eqb_spec a 0) as [E0|E0],
             (Nat.eqb_spec a (nFE - 1)) as [E1|E1];
      destruct fZero, (Nat.eqb_spec nFE 1) as [E2|E2];
      cbn [negb andb]; try lia;
      destruct on; cbn [negb andb];
      rewrite ?sub_coeffs_spec, ?add_coeffs_spec;
      rewrite ?add_sub_coeffs_spec
        by (try (left; lia);
            right; replace a with (S (a - 1)) at 2 by lia; simpl; lia);
      rewrite ?sub_coeffs_spec, ?add_coeffs_spec;
      rewrite Flux_LocalDerivative_closed by assumption;
      unfold interp, diff, edge; cbv beta; ring.
  - rewrite Flux_Coefficients_beyond by assumption.
    assert (W : forall e v, (e < nFE)%nat -> window (e * p) p v m = 0).
    { intros e v He. apply window_out.
      pose proof (element_window_inside e He). lia. }
    unfold interp, diff.
    destruct (Nat.eqb_spec a 0) as [E0|E0],
             (Nat.eqb_spec a (nFE - 1)) as [E1|E1];
      destruct fZero, (Nat.eqb_spec nFE 1) as [E2|E2];
      cbn [negb andb]; try lia;
      destruct on eqn:Eon;
      try (assert (a + 1 < nFE)%nat by (apply Hon; reflexivity));
      repeat rewrite W by lia;
      unfold Rdiv; ring.
Qed.

End FluxCorrectionFacts.


(** *** Interpolation rows sum to one *)

Section InterpSums.

Import ColumnOperator.

Variable p : nat.
Variables Node REdge Out : list R.

Let nIn := length Node.
Let nFE := (nIn / p)%nat.

Hypothesis Hp : (0 < p)%nat.
Hypothesis HnIn : nIn = (nFE * p)%nat.
Hypothesis HFE : (0 < nFE)%nat.
Hypothesis HNode : StrictlyIncreasing Node.
Hypothesis HREdge : StrictlyIncreasing REdge.
Hypothesis HlenE : length REdge = (nIn + 1)%nat.

Lemma edge_weights_sum a :
  (a + 1 < nFE)%nat ->
  dWeightL (nth ((a + 1) * p) REdge 0 - nth (a * p) REdge 0)
           (nth ((a + 2) * p) REdge 0 - nth ((a + 1) * p) REdge 0) p
  + dWeightR (nth ((a + 1) * p) REdge 0 - nth (a * p) REdge 0)
             (nth ((a + 2) * p) REdge 0 - nth ((a + 1) * p) REdge 0) p
  = 1.
Proof.
  intro Ha.
  assert (H1 : nth (a * p) REdge 0 < nth ((a + 1) * p) REdge 0).
  { apply HREdge; [nia|]. rewrite HlenE, HnIn. nia. }
  assert (H2 : nth ((a + 1) * p) REdge 0 < nth ((a + 2) * p) REdge 0).
  { apply HREdge; [nia|]. rewrite HlenE, HnIn. nia. }
  apply error_weights; lra.
Qed.

Lemma Lagrange_nodes_sum off n x :
  (0 < n)%nat -> (off + n <= nIn)%nat ->
  sumR nIn (window off n (LagrangianPolynomialCoeffs n (ptr Node off) x)) = 1.
Proof.
  intros Hn Hoff. rewrite sumR_window by exact Hoff.
  apply Lagrange_sum; [exact Hn|]. now apply ptr_distinct.
Qed.

Lemma InterpRow_Levels_sum l :
  let found := FindElement REdge p (nth l Out 0) (nFE - 1) 0 in
  (p = 1%nat -> l = 0%nat ->
   snd found = false /\ (fst found + 2 <= nIn)%nat) ->
  (p = 1%nat -> l <> 0%nat -> l = (length Out - 1)%nat ->
   snd found = false /\ (1 <= fst found)%nat) ->
  sumR nIn (coeff (InterpRow InterpSource_Levels p Node REdge Out l)) = 1.
Proof.
  intros found Hfirst Hlast.
  destruct (FindElement_bounds REdge p (nth l Out 0) (nFE - 1) 0)
    as [Hb Hon]. fold found in Hb, Hon.
  unfold InterpRow; cbv zeta. fold nIn. fold nFE. fold found.
  set (a := fst found) in *.
  assert (Ha : (a < nFE)%nat) by lia.
  destruct (Nat.eqb_spec p 1) as [Ep|Ep];
    [destruct (Nat.eqb_spec l 0) as [El|El];
       [|destruct (Nat.eqb_spec l (length Out - 1)) as [El'|El']]|];
    cbn [andb].
  - (* first row, order 1 *)
    destruct (Hfirst Ep El) as [Hoff Hin]. rewrite Hoff.
    cbn [coeff].
    rewrite (sumR_ext _ _ (window (a * p) (p + 1)
               (LagrangianPolynomialCoeffs (p + 1) (ptr Node (a * p))
                  (nth l Out 0)))) by (intros; apply write_on_zero).
    apply Lagrange_nodes_sum; [lia|]. subst p. lia.
  - (* last row, order 1 *)
    destruct (Hlast Ep El El') as [Hoff Hin]. rewrite Hoff.
    cbn [coeff].
    rewrite (sumR_ext _ _ (window ((a - 1) * p) (p + 1)
               (LagrangianPolynomialCoeffs (p + 1) (ptr Node ((a - 1) * p))
                  (nth l Out 0)))) by (intros; apply write_on_zero).
    apply Lagrange_nodes_sum; [lia|]. subst p.
    rewrite HnIn. lia.
  - (* interior row, order 1 *)
    destruct (snd found) eqn:Eon; cbn [coeff iBegin iEnd].
    + destruct (Hon eq_refl) as (Ha1 & _).
      rewrite (sumR_ext _ _ (WeightedEdgeRow LagrangianPolynomialCoeffs p
                               Node REdge p a (nth l Out 0))).
      * unfold WeightedEdgeRow.
        rewrite sumR_plus, !sumR_scal_l.
        rewrite !Lagrange_nodes_sum by (try lia; rewrite HnIn; nia).
        rewrite !Rmult_1_r. apply edge_weights_sum. lia.
      * intros m _.
        pose proof (InterpRow_Levels_edge p Node REdge Out l m) as E.
        cbv beta zeta in E. fold nIn nFE found a in E.
        unfold InterpRow in E; cbv zeta in E.
        fold nIn nFE found a in E. rewrite Eon in E.
        destruct (Nat.eqb_spec p 1); [|contradiction].
        destruct (Nat.eqb_spec l 0); [contradiction|].
        destruct (Nat.eqb_spec l (length Out - 1)); [contradiction|].
        cbn [andb coeff iBegin iEnd] in E.
        apply E; [reflexivity | right; split; assumption].
    + rewrite (sumR_ext _ _ (window (a * p) p
                 (LagrangianPolynomialCoeffs p (ptr Node (a * p))
                    (nth l Out 0)))) by (intros; apply write_on_zero).
      apply Lagrange_nodes_sum; [lia|]. rewrite HnIn. nia.
  - (* higher order *)
    destruct (snd found) eqn:Eon; cbn [coeff iBegin iEnd].
    + destruct (Hon eq_refl) as (Ha1 & _).
      rewrite (sumR_ext _ _ (WeightedEdgeRow LagrangianPolynomialCoeffs p
                               Node REdge p a (nth l Out 0))).
      * unfold WeightedEdgeRow.
        rewrite sumR_plus, !sumR_scal_l.
        rewrite !Lagrange_nodes_sum by (try lia; rewrite HnIn; nia).
        rewrite !Rmult_1_r. apply edge_weights_sum. lia.
      * intros m _.
        pose proof (InterpRow_Levels_edge p Node REdge Out l m) as E.
        cbv beta zeta in E. fold nIn nFE found a in E.
        unfold InterpRow in E; cbv zeta in E.
        fold nIn nFE found a in E. rewrite Eon in E.
        destruct (Nat.eqb_spec p 1); [contradiction|].
        cbn [andb coeff iBegin iEnd] in E.
        apply E; [reflexivity | left; assumption].
    + rewrite (sumR_ext _ _ (window (a * p) p
                 (LagrangianPolynomialCoeffs p (ptr Node (a * p))
                    (nth l Out 0)))) by (intros; apply write_on_zero).
      apply Lagrange_nodes_sum; [lia|]. rewrite HnIn. nia.
Qed.

End InterpSums.

(** *** The element search on separated edges *)

Section SearchFacts.

Import ColumnOperator.

Lemma ParamEpsilon_pos : 0 < ParamEpsilon.
Proof. unfold ParamEpsilon. lra. Qed.

Lemma SeparatedEdges_increasing v :
  SeparatedEdges v -> StrictlyIncreasing v.
Proof.
  intros H i j Hij Hj. pose proof (H i j Hij Hj). pose proof ParamEpsilon_pos.
  lra.
Qed.

(** Above every edge it tests, the loop runs to its end. *)
Lemma FindElement_above dREtaREdge stride dOut fuel a0 :
  (forall e, (a0 < e <= a0 + fuel)%nat ->
     nth (e * stride) dREtaREdge 0 + ParamEpsilon <= dOut) ->
  FindElement dREtaREdge stride dOut fuel a0 = ((a0 + fuel)%nat, false).
Proof.
  revert a0. induction fuel as [|fuel IH]; intros a0 H; simpl.
  - now rewrite Nat.add_0_r.
  - pose proof ParamEpsilon_pos as He.
    pose proof (H (a0 + 1)%nat ltac:(lia)) as H1.
    destruct (Rlt_dec _ _) as [L|_]; [lra|].
    destruct (Rlt_dec _ _) as [L|_]; [lra|].
    rewrite IH; [f_equal; lia|].
    intros e He'. apply H. lia.
Qed.

(** Below the first edge it tests, the loop stops at once. *)
Lemma FindElement_below dREtaREdge stride dOut fuel a0 :
  dOut < nth ((a0 + 1) * stride) dREtaREdge 0 - ParamEpsilon ->
  FindElement dREtaREdge stride dOut fuel a0 = (a0, false).
Proof.
  intro H. destruct fuel as [|fuel]; simpl; [reflexivity|].
  destruct (Rlt_dec _ _) as [_|N]; [reflexivity | lra].
Qed.

End SearchFacts.

(** *** Row sums of the interface method *)

Section InterfaceMethodFacts.

Import ColumnOperator.

Variable p : nat.
Variables Node REdge : list R.

Hypothesis HValid : ValidColumn p Node REdge.

Lemma InterfaceMethodRow_sum Out l :
  StrictlyIncreasing REdge ->
  sumR (length Node + 1) (coeff (InterfaceMethodRow p Node REdge Out l)) = 0.
Proof.
  intro HREdge.
  destruct (ValidColumn_elements _ _ _ HValid) as (Hp & HFE & HnIn).
  destruct HValid as (_ & HlenE & _).
  destruct (FindElement_bounds REdge p (nth l Out 0) (length Node / p - 1) 0)
    as [Hb Hon].
  rewrite (sumR_ext _ _ _ (fun m _ => InterfaceMethodRow_coeff p Node REdge Out l m)).
  cbv zeta.
  set (found := FindElement REdge p (nth l Out 0) (length Node / p - 1) 0) in *.
  set (a := fst found) in *.
  assert (Hwin : forall b, (b < length Node / p)%nat ->
            sumR (length Node + 1)
              (window (b * p) (p + 1)
                 (DiffLagrangianPolynomialCoeffs (p + 1) (ptr REdge (b * p))
                    (nth l Out 0))) = 0).
  { intros b Hb'.
    assert (Hin : (b * p + (p + 1) <= length Node + 1)%nat).
    { revert Hb' HnIn. generalize (length Node / p)%nat. intros; nia. }
    rewrite sumR_window by exact Hin.
    apply DiffLagrange_sum; [lia|].
    apply ptr_distinct; [exact HREdge|]. now rewrite HlenE. }
  destruct (snd found) eqn:Eon.
  - destruct (Hon eq_refl) as (Ha1 & _).
    unfold WeightedEdgeRow. rewrite sumR_plus, !sumR_scal_l.
    rewrite !Hwin by lia. ring.
  - apply Hwin. lia.
Qed.

Lemma RowSum_ComposeWith (D I : LinearColumnOperator) l :
  RowSum (ComposeWith D I) l
  = sumR (nRowsIn D) (fun m => m_dCoeff D l m * RowSum I m).
Proof.
  unfold RowSum, ComposeWith, m_dCoeff; cbn [nRowsIn rows coeff].
  rewrite sumR_swap. apply sumR_ext. intros m _.
  now rewrite sumR_scal_l.
Qed.

Lemma rows_for_loop_from lo n (F : nat -> Row) op l :
  rows (for_loop n (fun d op => set_row op (lo + d) (F (lo + d)%nat)) op) l
  = if Nat.leb lo l && Nat.ltb l (lo + n) then F l else rows op l.
Proof.
  induction n as [|n IH].
  - rewrite for_loop_0.
    destruct (Nat.leb_spec lo l), (Nat.ltb_spec l (lo + 0)); simpl; auto; lia.
  - rewrite for_loop_S. cbn [set_row rows]. rewrite IH.
    destruct (Nat.eqb_spec l (lo + n)) as [->|H].
    + destruct (Nat.leb_spec lo (lo + n)),
        (Nat.ltb_spec (lo + n) (lo + S n)); simpl; auto; lia.
    + destruct (Nat.leb_spec lo l), (Nat.ltb_spec l (lo + n)),
        (Nat.ltb_spec l (lo + S n)); simpl; auto; lia.
Qed.

Lemma nRowsIn_for_loop_from lo n (F : nat -> Row) op :
  nRowsIn (for_loop n (fun d op => set_row op (lo + d) (F (lo + d)%nat)) op)
  = nRowsIn op.
Proof.
  induction n as [|n IH]; [now rewrite for_loop_0|].
  rewrite for_loop_S. cbn [set_row nRowsIn]. exact IH.
Qed.

(** Interpolation from levels to the interfaces, order by order. *)
Lemma InterpRow_edges_sum m :
  StrictlyIncreasing Node -> SeparatedEdges REdge ->
  (p = 1%nat -> (2 <= length Node)%nat) ->
  (m < length Node + 1)%nat ->
  sumR (length Node)
    (coeff (InterpRow InterpSource_Levels p Node REdge REdge m)) = 1.
Proof.
  intros HNode HSep Hp1 Hm.
  destruct (ValidColumn_elements _ _ _ HValid) as (Hp & HFE & HnIn).
  destruct HValid as (_ & HlenE & _).
  apply InterpRow_Levels_sum; auto using SeparatedEdges_increasing.
  - intros Ep El. subst p m. rewrite FindElement_below.
    + cbn [fst snd]. split; [reflexivity | auto].
    + pose proof (HSep 0%nat 1%nat ltac:(lia) ltac:(lia)).
      simpl. lra.
  - intros Ep _ El. specialize (Hp1 Ep). subst p.
    rewrite Nat.div_1_r in *.
    rewrite FindElement_above.
    + cbn [fst snd]. split; [reflexivity | lia].
    + intros e He. rewrite Nat.mul_1_r. rewrite El, HlenE.
      replace (length Node + 1 - 1)%nat with (length Node) by lia.
      pose proof (HSep e (length Node) ltac:(lia) ltac:(lia)). lra.
Qed.

End InterfaceMethodFacts.

(** *** Row sums of the second derivative on the nodes of the elements *)

Section DiffDiffFacts.

Import ColumnOperator.

Lemma sumR_all_zero n f :
  (forall k, (k < n)%nat -> f k = 0) -> sumR n f = 0.
Proof.
  intro H. rewrite (sumR_ext n f (fun _ => 0)) by exact H. apply sumR_zero.
Qed.

Lemma rowsum_set2 n (M : nat -> nat -> R) r c v r' :
  (c < n)%nat ->
  sumR n (set2 M r c v r')
  = sumR n (M r') + (if Nat.eqb r' r then v - M r c else 0).
Proof.
  intro Hc. unfold set2.
  destruct (Nat.eqb_spec r' r) as [->|Hr]; cbn [andb].
  - induction n as [|n IH]; [lia|].
    simpl. destruct (Nat.eqb_spec n c) as [->|Hn].
    + rewrite (sumR_ext c (fun c' => if Nat.eqb c' c then v else M r c')
                 (M r)).
      * lra.
      * intros k Hk. destruct (Nat.eqb_spec k c); [lia | reflexivity].
    + rewrite IH by lia. lra.
  - rewrite Rplus_0_r. apply sumR_ext. reflexivity.
Qed.

(** A loop whose body shifts each row sum by a known amount shifts it by
    the sum of these amounts. *)
Lemma rowsum_for_loop n k
    (body : nat -> (nat -> nat -> R) -> nat -> nat -> R)
    (shift : nat -> nat -> R) :
  (forall i M r', (i < k)%nat ->
     sumR n (body i M r') = sumR n (M r') + shift i r') ->
  forall M r',
    sumR n (for_loop k body M r')
    = sumR n (M r') + sumR k (fun i => shift i r').
Proof.
  intros Hbody M r'. induction k as [|k IH].
  - rewrite for_loop_0. simpl. lra.
  - rewrite for_loop_S, Hbody by lia.
    rewrite IH by (intros; apply Hbody; lia). simpl. lra.
Qed.

Variable GL : nat -> R -> R -> (nat -> R) * (nat -> R).
Variable p : nat.
Variable Node : list R.

Let nIn := length Node.
Let nFE := ((nIn - 1) / (p - 1))%nat.

Hypothesis Hp : (2 <= p)%nat.
Hypothesis HnIn : (nIn - 1 = nFE * (p - 1))%nat.
Hypothesis Hne : (0 < nIn)%nat.
Hypothesis HNode : StrictlyIncreasing Node.

Lemma DiffDiff_window a : (a < nFE)%nat -> (a * (p - 1) + p <= nIn)%nat.
Proof. intro Ha. nia. Qed.

Lemma DiffDiff_local_sum a x :
  (a < nFE)%nat ->
  sumR p (DiffLagrangianPolynomialCoeffs p (ptr Node (a * (p - 1))) x) = 0.
Proof.
  intro Ha. apply DiffLagrange_sum; [lia|].
  apply ptr_distinct; [exact HNode|]. now apply DiffDiff_window.
Qed.

Lemma DiffDiff_Element_sum a M r :
  (a < nFE)%nat ->
  sumR nIn (DiffDiff_Element GL p Node a M r) = sumR nIn (M r).
Proof.
  intro Ha. pose proof (DiffDiff_window a Ha) as Hw.
  unfold DiffDiff_Element; cbv zeta. fold nIn. fold nFE.
  set (off := (a * (p - 1))%nat) in *.
  set (GW := GL p (nth off Node 0) (nth ((a + 1) * (p - 1)) Node 0)).
  set (D := fun i => DiffLagrangianPolynomialCoeffs p (ptr Node off)
                       (fst GW i)).
  assert (HD : forall s, sumR p (D s) = 0).
  { intro s. unfold D, off. now apply DiffDiff_local_sum. }
  set (Wl := fun j : nat =>
         let w := snd GW j in
         let w := if Nat.eqb j 0 && negb (Nat.eqb a 0) then w * 2.0 else w in
         if Nat.eqb j (p - 1) && negb (Nat.eqb a (nFE - 1))
         then w * 2.0 else w).
  (* the three nested loops *)
  assert (Hmain : forall M0 r0,
    sumR nIn
      (for_loop p (fun j M1 =>
         for_loop p (fun i M2 =>
           for_loop p (fun s M3 =>
             set2 M3 (j + off) (i + off)
               (M3 (j + off)%nat (i + off)%nat
                - D s j * D s i * snd GW s / Wl j)) M2) M1) M0 r0)
    = sumR nIn (M0 r0)).
  { intros M0 r0.
    rewrite (rowsum_for_loop nIn p _ (fun _ _ => 0)).
    - rewrite sumR_zero. lra.
    - intros j M1 r1 Hj.
      rewrite (rowsum_for_loop nIn p _
                 (fun i r' => sumR p (fun s =>
                    if Nat.eqb r' (j + off)
                    then - (D s j * D s i * snd GW s / Wl j) else 0))).
      + f_equal. rewrite sumR_swap.
        apply sumR_all_zero. intros s _.
        destruct (Nat.eqb r1 (j + off)).
        * rewrite (sumR_ext _ _ (fun i =>
                     (- (D s j * snd GW s / Wl j)) * D s i)).
          -- rewrite sumR_scal_l, HD. ring.
          -- intros i _. unfold Rdiv. ring.
        * apply sumR_zero.
      + intros i M2 r2 Hi.
        apply (rowsum_for_loop nIn p _
                 (fun s r' => if Nat.eqb r' (j + off)
                              then - (D s j * D s i * snd GW s / Wl j)
                              else 0)).
        intros s M3 r3 Hs. rewrite rowsum_set2 by lia.
        destruct (Nat.eqb r3 (j + off)); [f_equal; ring | reflexivity]. }
  assert (Hbottom : forall M0 r0,
    sumR nIn
      (for_loop p (fun i M1 =>
         set2 M1 0 i (M1 0%nat i - D 0%nat i / snd GW 0%nat)) M0 r0)
    = sumR nIn (M0 r0)).
  { intros M0 r0.
    rewrite (rowsum_for_loop nIn p _
               (fun i r' => if Nat.eqb r' 0
                            then (- / snd GW 0%nat) * D 0%nat i else 0)).
    - destruct (Nat.eqb r0 0).
      + rewrite sumR_scal_l, HD. ring.
      + rewrite sumR_zero. ring.
    - intros i M1 r1 Hi. rewrite rowsum_set2 by lia.
      destruct (Nat.eqb r1 0); [f_equal; unfold Rdiv; ring | reflexivity]. }
  assert (Htop : forall M0 r0,
    sumR nIn
      (for_loop p (fun i M1 =>
         set2 M1 (nIn - 1) (off + i)
           (M1 (nIn - 1)%nat (off + i)%nat
            + D (p - 1)%nat i / snd GW (p - 1)%nat)) M0 r0)
    = sumR nIn (M0 r0)).
  { intros M0 r0.
    rewrite (rowsum_for_loop nIn p _
               (fun i r' => if Nat.eqb r' (nIn - 1)
                            then (/ snd GW (p - 1)%nat) * D (p - 1)%nat i
                            else 0)).
    - destruct (Nat.eqb r0 (nIn - 1)).
      + rewrite sumR_scal_l, HD. ring.
      + rewrite sumR_zero. ring.
    - intros i M1 r1 Hi. rewrite rowsum_set2 by lia.
      destruct (Nat.eqb r1 (nIn - 1));
        [f_equal; unfold Rdiv; ring | reflexivity]. }
  destruct (Nat.eqb a (nFE - 1)), (Nat.eqb a 0);
    rewrite ?Htop, ?Hbottom; apply Hmain.
Qed.

Lemma DiffDiff_InitializeGLLNodes_sums :
  exists M, DiffDiff_InitializeGLLNodes GL p Node = Ok M /\
            forall r, sumR nIn (M r) = 0.
Proof.
  unfold DiffDiff_InitializeGLLNodes. fold nIn. fold nFE.
  destruct (Nat.eqb_spec nIn 0) as [E|_]; [lia|].
  assert (Hmod : ((nIn - 1) mod (p - 1) = 0)%nat).
  { rewrite HnIn. apply Nat.Div0.mod_mul. }
  rewrite Hmod. cbn [Nat.eqb negb].
  eexists. split; [reflexivity|].
  intro r.
  assert (H : forall k, (k <= nFE)%nat ->
            sumR nIn (for_loop k (DiffDiff_Element GL p Node)
                        (fun _ _ => 0) r) = 0).
  { induction k as [|k IH]; intro Hk.
    - rewrite for_loop_0. apply sumR_zero.
    - rewrite for_loop_S, DiffDiff_Element_sum by lia. apply IH. lia. }
  apply H. lia.
Qed.

End DiffDiffFacts.

(** *** The assembled first-derivative operators *)

Section AssembledOperators.

Import ColumnOperator.

Variable p : nat.
Variables Node REdge Out : list R.

Hypothesis HValid : ValidColumn p Node REdge.

Lemma InterfaceMethod_rows l :
  let op := for_loop (length Out) (fun l op =>
              set_row op l (InterfaceMethodRow p Node REdge Out l))
              (Initialize_LinearColumnOperator (length Node + 1)
                 (length Out)) in
  StrictlyIncreasing REdge -> (l < length Out)%nat ->
  nRowsIn op = (length Node + 1)%nat /\ RowSum op l = 0.
Proof.
  intros op HREdge Hl.
  assert (Hn : nRowsIn op = (length Node + 1)%nat).
  { unfold op. now rewrite nRowsIn_for_loop. }
  split; [exact Hn|].
  unfold RowSum, m_dCoeff. rewrite Hn. unfold op.
  rewrite rows_for_loop.
  destruct (Nat.ltb_spec l (length Out)); [|lia].
  now apply InterfaceMethodRow_sum.
Qed.

Lemma InterfaceMethod_Interfaces_sums fZero :
  StrictlyIncreasing REdge ->
  exists op,
    InitializeInterfaceMethod InterpSource_Interfaces p Node REdge Out fZero
    = Ok op /\
    forall l, (l < length Out)%nat -> RowSum op l = 0.
Proof.
  intro HREdge. unfold InitializeInterfaceMethod.
  rewrite (proj1 (VerifyInput_spec p Node REdge _) HValid). cbv zeta.
  eexists. split; [reflexivity|].
  intros l Hl. now apply InterfaceMethod_rows.
Qed.

Lemma InterfaceMethod_Levels_sums :
  StrictlyIncreasing Node -> SeparatedEdges REdge ->
  (p = 1%nat -> (2 <= length Node)%nat) ->
  exists op,
    InitializeInterfaceMethod InterpSource_Levels p Node REdge Out false
    = Ok op /\
    forall l, (l < length Out)%nat -> RowSum op l = 0.
Proof.
  intros HNode HSep Hp1.
  pose proof (SeparatedEdges_increasing _ HSep) as HREdge.
  unfold InitializeInterfaceMethod, Interp_Initialize.
  rewrite !(proj1 (VerifyInput_spec p Node REdge _) HValid). cbv zeta.
  unfold Interp_lBegin, Interp_lEnd. cbn [andb bind].
  eexists. split; [reflexivity|].
  intros l Hl. rewrite RowSum_ComposeWith.
  destruct (InterfaceMethod_rows l HREdge Hl) as [Hn Hsum].
  cbv zeta in Hn, Hsum. rewrite Hn.
  eapply eq_trans; [|exact Hsum].
  unfold RowSum at 2. rewrite Hn.
  apply sumR_ext. intros m Hm.
  replace (RowSum _ m) with 1; [ring|].
  unfold RowSum, m_dCoeff.
  rewrite nRowsIn_for_loop_from, rows_for_loop_from.
  cbn [nRowsIn Initialize_LinearColumnOperator].
  destruct HValid as (_ & HlenE & _).
  rewrite Nat.sub_0_r.
  destruct (Nat.leb_spec 0 m); [|lia].
  destruct (Nat.ltb_spec m (0 + length REdge)); [|lia].
  cbn [andb]. symmetry. now apply InterpRow_edges_sum.
Qed.

End AssembledOperators.

(** *** The assembled flux-correction operator *)

Section AssembledFluxCorrection.

Import ColumnOperator.

Lemma for_loopM_S {S : Type} n (body : nat -> S -> Result S) s :
  for_loopM (Datatypes.S n) body s = bind (for_loopM n body s) (body n).
Proof.
  unfold for_loopM. rewrite seq_S, fold_left_app. reflexivity.
Qed.

Lemma for_loopM_rows n (F : nat -> Result Row) op0 :
  (forall l, (l < n)%nat -> exists r, F l = Ok r) ->
  exists op,
    for_loopM n (fun l op => bind (F l) (fun r => Ok (set_row op l r))) op0
    = Ok op /\
    nRowsIn op = nRowsIn op0 /\
    forall l, (l < n)%nat -> F l = Ok (rows op l).
Proof.
  induction n as [|n IH]; intro HF.
  - exists op0. repeat split. intros l Hl. lia.
  - destruct IH as (op & E & Hn & Hrows); [intros; apply HF; lia|].
    destruct (HF n ltac:(lia)) as [r Er].
    exists (set_row op n r). rewrite for_loopM_S, E. cbn [bind].
    rewrite Er. cbn [bind]. repeat split; [exact Hn|].
    intros l Hl. cbn [set_row rows].
    destruct (Nat.eqb_spec l n) as [->|Hne]; [exact Er|].
    apply Hrows. lia.
Qed.

Variable G : nat -> nat -> R -> R.
Variable eInterpSource : InterpSource.
Variable p : nat.
Variables Node REdge Out : list R.
Variable fZero : bool.

Hypothesis HValid : ValidColumn p Node REdge.
Hypothesis HNode : StrictlyIncreasing Node.
Hypothesis HRange : forall l, (l < length Out)%nat ->
  nth 0 REdge 0 <= nth l Out 0 <= nth (length Node) REdge 0.

Lemma FluxCorrectionRow_returns l :
  (l < length Out)%nat ->
  let found := FindElement REdge p (nth l Out 0) (length Node / p - 1) 0 in
  FluxCorrectionRow G p Node REdge Out fZero l
  = Ok {| coeff := Flux_Coefficients G p Node REdge fZero (nth l Out 0)
                     (fst found) (snd found);
          iBegin := Flux_iBegin p (fst found);
          iEnd := Flux_iEnd p Node (fst found) |}.
Proof.
  intros Hl found. unfold FluxCorrectionRow; cbv zeta. fold found.
  destruct (HRange l Hl) as [Hlo Hhi].
  destruct (Rlt_dec _ _) as [H|_]; [lra|].
  destruct (Rgt_dec _ _) as [H|_]; [lra|].
  reflexivity.
Qed.

Lemma FluxCorrection_sums :
  exists op,
    InitializeFluxCorrectionMethod G eInterpSource p Node REdge Out fZero
    = Ok op /\
    forall l, (l < length Out)%nat ->
      let found := FindElement REdge p (nth l Out 0) (length Node / p - 1) 0 in
      RowSum op l
      = - (if negb (Nat.eqb (fst found) 0) && snd found
           then 0.5 * dDerivL G p REdge (nth l Out 0) (fst found) else 0)
        / dDeltaREta p REdge (fst found).
Proof.
  destruct (ValidColumn_elements _ _ _ HValid) as (Hp & HFE & HnIn).
  unfold InitializeFluxCorrectionMethod.
  rewrite (proj1 (VerifyInput_spec p Node REdge _) HValid). cbv zeta.
  match goal with
  | |- context [for_loopM _ _ ?o] =>
      destruct (for_loopM_rows (length Out)
                  (FluxCorrectionRow G p Node REdge Out fZero) o)
        as (op & E & Hn & Hrows)
  end.
  { intros l Hl. eexists. now apply FluxCorrectionRow_returns. }
  exists op. split; [exact E|].
  intros l Hl.
  set (found := FindElement REdge p (nth l Out 0) (length Node / p - 1) 0).
  pose proof (Hrows l Hl) as Er.
  rewrite FluxCorrectionRow_returns in Er by exact Hl.
  fold found in Er. injection Er as Er.
  destruct (FindElement_bounds REdge p (nth l Out 0) (length Node / p - 1) 0)
    as [Hb Hon]. fold found in Hb, Hon.
  assert (Ha : (fst found < length Node / p)%nat) by lia.
  assert (Hon' : snd found = true -> (fst found + 1 < length Node / p)%nat).
  { intro H. destruct (Hon H) as (H1 & _). lia. }
  unfold RowSum, m_dCoeff. rewrite <- Er. cbn [coeff]. rewrite Hn.
  destruct eInterpSource; cbn [nRowsIn Initialize_LinearColumnOperator].
  - now apply Flux_Coefficients_sum.
  - rewrite Nat.add_1_r. cbn [sumR].
    rewrite Flux_Coefficients_beyond by (auto; lia).
    rewrite Rplus_0_r. now apply Flux_Coefficients_sum.
Qed.

(** On a valid column with every output point in range the operator is
    assembled, and its rows are those of [FluxCorrectionRow]. *)
Lemma FluxCorrection_rows :
  exists op,
    InitializeFluxCorrectionMethod G eInterpSource p Node REdge Out fZero
    = Ok op /\
    forall l, (l < length Out)%nat ->
      let found := FindElement REdge p (nth l Out 0) (length Node / p - 1) 0 in
      rows op l
      = {| coeff := Flux_Coefficients G p Node REdge fZero (nth l Out 0)
                      (fst found) (snd found);
           iBegin := Flux_iBegin p (fst found);
           iEnd := Flux_iEnd p Node (fst found) |}.
Proof.
  unfold InitializeFluxCorrectionMethod.
  rewrite (proj1 (VerifyInput_spec p Node REdge _) HValid). cbv zeta.
  match goal with
  | |- context [for_loopM _ _ ?o] =>
      destruct (for_loopM_rows (length Out)
                  (FluxCorrectionRow G p Node REdge Out fZero) o)
        as (op & E & Hn & Hrows)
  end.
  { intros l Hl. eexists. now apply FluxCorrectionRow_returns. }
  exists op. split; [exact E|].
  intros l Hl.
  pose proof (Hrows l Hl) as Er.
  rewrite FluxCorrectionRow_returns in Er by exact Hl.
  injection Er as Er. symmetry. exact Er.
Qed.

End AssembledFluxCorrection.


(** *** The sample column *)

Section SampleColumn.

Import ColumnOperator.

Lemma TwoLevel_valid : ValidColumn 1 TwoLevelNodes TwoLevelEdges.
Proof. repeat split. simpl. discriminate. Qed.

Lemma TwoLevelNodes_increasing : StrictlyIncreasing TwoLevelNodes.
Proof.
  intros i j Hij Hj. simpl in Hj.
  destruct j as [|[|j]]; [lia| |lia].
  destruct i as [|i]; [|lia]. simpl. lra.
Qed.

Lemma TwoLevelEdges_separated : SeparatedEdges TwoLevelEdges.
Proof.
  intros i j Hij Hj. simpl in Hj. unfold ParamEpsilon.
  destruct j as [|[|[|j]]]; [lia| | |lia].
  - destruct i as [|i]; [|lia]. simpl. lra.
  - destruct i as [|[|i]]; [| |lia]; simpl; lra.
Qed.

Lemma TwoLevelEdges_increasing : StrictlyIncreasing TwoLevelEdges.
Proof. apply SeparatedEdges_increasing, TwoLevelEdges_separated. Qed.

Lemma FindElement_TwoLevel_quarter :
  FindElement TwoLevelEdges 1 0.25 1 0 = (0%nat, false).
Proof.
  apply FindElement_below. unfold ParamEpsilon. simpl. lra.
Qed.

Lemma FindElement_TwoLevel_half :
  FindElement TwoLevelEdges 1 0.5 1 0 = (0%nat, true).
Proof.
  simpl. unfold ParamEpsilon.
  destruct (Rlt_dec _ _) as [H|_]; [lra|].
  destruct (Rlt_dec _ _) as [_|H]; [reflexivity | lra].
Qed.

End SampleColumn.

(** C4 (as stated, refuted).  With fZeroBoundaries set and two elements of
    order 1, the condition of the claim asks for the boundary correction,
    while the guard of the code is false and both boundary rows are left as
    they are, whatever the flux correction function. *)
Lemma C4_counterexample :
  ColumnOperator.Claimed_BoundaryCorrectionApplies true
    (length TwoLevelNodes / 1) = true /\
  ColumnOperator.BoundaryCorrectionApplies 1 TwoLevelNodes true = false /\
  (forall G dOut on r,
     ColumnOperator.Flux_LeftEdge G 1 TwoLevelNodes TwoLevelEdges true
       dOut 0 on r = r) /\
  (forall G dOut r,
     ColumnOperator.Flux_RightEdge G 1 TwoLevelNodes TwoLevelEdges true
       dOut 1 r = r).
Proof.
  repeat split; reflexivity.
Qed.

(** C4 (amended).  On a valid column with strictly increasing levels and
    interfaces and every output point inside the column,
    [InitializeFluxCorrectionMethod] returns, and every row l of the
    operator, a the element the search finds for the point, is the sum of
    three terms over the width of element a: the local derivative, the term
    of the left edge and the term of the right edge.  On an interior edge
    the term is 1/2 dDeriv times the difference of the interpolants of the
    two elements that share the edge (on the left edge, the interpolant of
    the element below is left out when the point lies on an element edge).
    On the domain boundary, for the bottom element (a = 0) the left term is
    the one-sided correction 1/2 dDerivL times the difference of the
    element's own and its upper neighbour's interpolants to the edge between
    them, and for the top element (a = nFiniteElements - 1) the right term
    is 1/2 dDerivR times the difference of the element's own and its lower
    neighbour's interpolants to the edge between them, when fZeroBoundaries
    is not set and nFiniteElements is not 1; when fZeroBoundaries is set, or
    when nFiniteElements = 1, the term on the boundary side is zero: no
    boundary correction is added. *)
Theorem C4_boundary_correction
    (G : nat -> nat -> R -> R) (src : ColumnOperator.InterpSource)
    (p : nat) (Node REdge Out : list R) (fZero : bool) :
  ColumnOperator.ValidColumn p Node REdge ->
  ColumnOperator.StrictlyIncreasing Node ->
  ColumnOperator.StrictlyIncreasing REdge ->
  (forall l, (l < length Out)%nat ->
     nth 0 REdge 0 <= nth l Out 0 <= nth (length Node) REdge 0) ->
  exists op,
    ColumnOperator.InitializeFluxCorrectionMethod G src p Node REdge Out
      fZero = Ok op /\
    forall l, (l < length Out)%nat ->
      let dOut := nth l Out 0 in
      let nFiniteElements := (length Node / p)%nat in
      let found := ColumnOperator.FindElement REdge p dOut
                     (nFiniteElements - 1) 0 in
      let a := fst found in
      let fOnREdge := snd found in
      let dDeltaREta := ColumnOperator.dDeltaREta p REdge a in
      let dDerivL := ColumnOperator.dDerivL G p REdge dOut a in
      let dDerivR := ColumnOperator.dDerivR G p REdge dOut a in
      let edge := fun e => nth (e * p) REdge 0 in
      let interp := fun e x =>
        ColumnOperator.window (e * p) p
          (ColumnOperator.LagrangianPolynomialCoeffs p
             (ColumnOperator.ptr Node (e * p)) x) in
      let diff := fun e =>
        ColumnOperator.window (e * p) p
          (ColumnOperator.DiffLagrangianPolynomialCoeffs p
             (ColumnOperator.ptr Node (e * p)) dOut) in
      let local := fun m =>
        if fOnREdge
        then 0.5 * dDeltaREta * (diff a m + diff (a + 1)%nat m)
        else dDeltaREta * diff a m in
      let left := fun m =>
        if Nat.eqb a 0 then
          if negb fZero && negb (Nat.eqb nFiniteElements 1) then
            0.5 * dDerivL
            * (interp a (edge (a + 1)%nat) m
               - interp (a + 1)%nat (edge (a + 1)%nat) m)
          else 0
        else
          0.5 * dDerivL
          * ((if fOnREdge then 0 else interp (a - 1)%nat (edge a) m)
             - interp a (edge a) m) in
      let right := fun m =>
        if Nat.eqb a (nFiniteElements - 1) then
          if negb fZero && negb (Nat.eqb nFiniteElements 1) then
            0.5 * dDerivR
            * (interp a (edge a) m - interp (a - 1)%nat (edge a) m)
          else 0
        else
          0.5 * dDerivR
          * (interp (a + 1)%nat (edge (a + 1)%nat) m
             - interp a (edge (a + 1)%nat) m) in
      forall m,
        ColumnOperator.m_dCoeff op l m
        = (local m + left m + right m) / dDeltaREta.
Proof.
  intros HValid _ _ HRange.
  destruct (ValidColumn_elements _ _ _ HValid) as (Hp & HFE & HnIn).
  destruct (FluxCorrection_rows G src p Node REdge Out fZero HValid HRange)
    as (op & E & Hrows).
  exists op. split; [exact E|].
  intros l Hl dOut nFE found a on dDelta dL dR edge interp diff
    local left right m.
  unfold ColumnOperator.m_dCoeff.
  specialize (Hrows l Hl). cbv zeta in Hrows. rewrite Hrows.
  cbn [ColumnOperator.coeff].
  destruct (FindElement_bounds REdge p dOut (nFE - 1) 0) as [Hb Hon].
  fold found in Hb, Hon. fold a in Hb, Hon. fold on in Hon.
  assert (Ha : (a < nFE)%nat) by (unfold nFE in *; lia).
  assert (Hon' : on = true -> (a + 1 < nFE)%nat).
  { intro H. destruct (Hon H) as (H1 & _). unfold nFE in *. lia. }
  exact (Flux_Coefficients_closed G p Node REdge fZero dOut Hp HnIn
           a on m Ha Hon').
Qed.

Lemma C4_boundary_correction_witness :
  exists op,
    ColumnOperator.InitializeFluxCorrectionMethod LinearFluxDerivative
      ColumnOperator.InterpSource_Levels 1 TwoLevelNodes TwoLevelEdges
      [0.25] false = Ok op /\
    ColumnOperator.m_dCoeff op 0 0 = -1 /\
    ColumnOperator.m_dCoeff op 0 1 = 1.
Proof.
  assert (HRange : forall l, (l < length [0.25%R])%nat ->
            nth 0 TwoLevelEdges 0 <= nth l [0.25] 0
            <= nth (length TwoLevelNodes) TwoLevelEdges 0).
  { intros l Hl. simpl in Hl. assert (l = 0%nat) by lia. subst l.
    simpl. lra. }
  destruct (C4_boundary_correction LinearFluxDerivative
              ColumnOperator.InterpSource_Levels 1 TwoLevelNodes
              TwoLevelEdges [0.25] false TwoLevel_valid
              TwoLevelNodes_increasing TwoLevelEdges_increasing HRange)
    as (op & E & H).
  exists op. split; [exact E|].
  assert (Hl : (0 < length [0.25%R])%nat) by (simpl; lia).
  specialize (H 0%nat Hl). cbv zeta in H.
  change (nth 0 [0.25] 0) with 0.25 in H.
  change (length TwoLevelNodes / 1 - 1)%nat with 1%nat in H.
  rewrite FindElement_TwoLevel_quarter in H.
  split; rewrite H;
    unfold ColumnOperator.window, ColumnOperator.LagrangianPolynomialCoeffs,
      ColumnOperator.DiffLagrangianPolynomialCoeffs,
      ColumnOperator.dDerivL, ColumnOperator.dDerivR,
      ColumnOperator.dNodesL, ColumnOperator.dNodesR,
      ColumnOperator.dDeltaREta, LinearFluxDerivative, TwoLevelEdges,
      TwoLevelNodes, ColumnOperator.ptr;
    simpl; lra.
Defined.

(** C6 (as stated, refuted).  The interface-method derivative operator
    from levels with fZeroBoundaries set, on the column of two first-order
    elements: the interpolation to the interfaces has its two boundary rows
    zeroed, and the composed row of the output point 1/4 is (1, 1): it sums
    to 2, and the operator maps the constant column 1 to 2 there. *)
Lemma C6_counterexample :
  exists op,
    ColumnOperator.InitializeInterfaceMethod
      ColumnOperator.InterpSource_Levels 1 TwoLevelNodes TwoLevelEdges
      TwoLevelNodes true = Ok op /\
    ColumnOperator.RowSum op 0 = 2.
Proof.
  unfold ColumnOperator.InitializeInterfaceMethod,
    ColumnOperator.Interp_Initialize.
  rewrite !(proj1 (VerifyInput_spec 1 TwoLevelNodes TwoLevelEdges _)
              TwoLevel_valid).
  cbv zeta. cbn [bind].
  eexists. split; [reflexivity|].
  rewrite RowSum_ComposeWith.
  rewrite nRowsIn_for_loop.
  cbn [ColumnOperator.nRowsIn ColumnOperator.Initialize_LinearColumnOperator].
  assert (HB : ColumnOperator.Interp_lBegin TwoLevelEdges true = 1%nat).
  { unfold ColumnOperator.Interp_lBegin, ColumnOperator.ParamEpsilon.
    cbn [andb]. destruct (Rlt_dec _ _) as [_|H]; [reflexivity|].
    exfalso. apply H. simpl. rewrite Rabs_R0. lra. }
  assert (HE : ColumnOperator.Interp_lEnd TwoLevelEdges true = 2%nat).
  { unfold ColumnOperator.Interp_lEnd, ColumnOperator.ParamEpsilon.
    cbn [andb]. destruct (Rlt_dec _ _) as [_|H]; [reflexivity|].
    exfalso. apply H. simpl.
    replace (1 - 1.0) with 0 by lra. rewrite Rabs_R0. lra. }
  rewrite HB, HE.
  change (length TwoLevelNodes + 1)%nat with 3%nat.
  change (length TwoLevelNodes) with 2%nat.
  change (2 - 1)%nat with 1%nat.
  (* the rows of the interpolation *)
  set (I := for_loop 1 _ _).
  assert (I0 : ColumnOperator.RowSum I 0 = 0).
  { unfold ColumnOperator.RowSum, ColumnOperator.m_dCoeff, I.
    rewrite nRowsIn_for_loop_from, rows_for_loop_from. simpl. lra. }
  assert (I2 : ColumnOperator.RowSum I 2 = 0).
  { unfold ColumnOperator.RowSum, ColumnOperator.m_dCoeff, I.
    rewrite nRowsIn_for_loop_from, rows_for_loop_from. simpl. lra. }
  assert (I1 : ColumnOperator.RowSum I 1 = 1).
  { unfold ColumnOperator.RowSum, ColumnOperator.m_dCoeff, I.
    rewrite nRowsIn_for_loop_from, rows_for_loop_from.
    cbn [Nat.leb Nat.ltb Nat.add andb ColumnOperator.nRowsIn
         ColumnOperator.Initialize_LinearColumnOperator].
    apply (InterpRow_Levels_sum 1 TwoLevelNodes TwoLevelEdges TwoLevelEdges);
      try (simpl; lia);
      auto using TwoLevelNodes_increasing, TwoLevelEdges_increasing. }
  cbn [ColumnOperator.sumR]. rewrite I0, I1, I2.
  unfold ColumnOperator.m_dCoeff. rewrite !rows_for_loop.
  cbn [Nat.ltb Nat.leb length TwoLevelNodes].
  rewrite !InterfaceMethodRow_coeff.
  change (nth 0 TwoLevelNodes 0) with 0.25.
  change (length TwoLevelNodes / 1 - 1)%nat with 1%nat.
  rewrite FindElement_TwoLevel_quarter. cbn [fst snd].
  unfold ColumnOperator.window,
    ColumnOperator.DiffLagrangianPolynomialCoeffs, ColumnOperator.ptr,
    TwoLevelEdges.
  simpl. lra.
Qed.

(** C6 (amended).  In exact arithmetic, on a valid column whose levels
    increase strictly and whose interfaces are more than ParamEpsilon apart:
    - the interface-method operator from interfaces is assembled, and each of
      its rows sums to zero;
    - the interface-method operator from levels is assembled when
      fZeroBoundaries is not set (a first-order column having at least two
      levels), and each of its rows sums to zero;
    - the flux-correction operator is assembled when every output point lies
      between the first and the last interface; the row of an output point
      sums to zero when its element is the bottom one or the point is not on
      an interior element edge, and to -(1/2) dDerivL / dDeltaREta otherwise;
    - the second-derivative operator on the nodes of elements of order at
      least two, with strictly increasing nodes, is assembled, and each of
      its rows sums to zero. *)
Theorem C6_derivative_row_sums
    (G : nat -> nat -> R -> R)
    (GL : nat -> R -> R -> (nat -> R) * (nat -> R))
    (eInterpSource : ColumnOperator.InterpSource)
    (p : nat) (Node REdge Out : list R) (fZero : bool)
    (q : nat) (GLLNode : list R) :
  ColumnOperator.ValidColumn p Node REdge ->
  ColumnOperator.StrictlyIncreasing Node ->
  ColumnOperator.SeparatedEdges REdge ->
  (exists op,
     ColumnOperator.InitializeInterfaceMethod
       ColumnOperator.InterpSource_Interfaces p Node REdge Out fZero = Ok op /\
     forall l, (l < length Out)%nat -> ColumnOperator.RowSum op l = 0)
  /\
  ((p = 1%nat -> (2 <= length Node)%nat) ->
   exists op,
     ColumnOperator.InitializeInterfaceMethod
       ColumnOperator.InterpSource_Levels p Node REdge Out false = Ok op /\
     forall l, (l < length Out)%nat -> ColumnOperator.RowSum op l = 0)
  /\
  ((forall l, (l < length Out)%nat ->
      nth 0 REdge 0 <= nth l Out 0 <= nth (length Node) REdge 0) ->
   exists op,
     ColumnOperator.InitializeFluxCorrectionMethod G eInterpSource p Node
       REdge Out fZero = Ok op /\
     forall l, (l < length Out)%nat ->
       let found := ColumnOperator.FindElement REdge p (nth l Out 0)
                      (length Node / p - 1) 0 in
       ColumnOperator.RowSum op l
       = if negb (Nat.eqb (fst found) 0) && snd found
         then - (0.5 * ColumnOperator.dDerivL G p REdge (nth l Out 0)
                         (fst found))
              / ColumnOperator.dDeltaREta p REdge (fst found)
         else 0)
  /\
  ((2 <= q)%nat -> (0 < length GLLNode)%nat ->
   ((length GLLNode - 1) mod (q - 1) = 0)%nat ->
   ColumnOperator.StrictlyIncreasing GLLNode ->
   exists M,
     ColumnOperator.DiffDiff_InitializeGLLNodes GL q GLLNode = Ok M /\
     forall r, ColumnOperator.sumR (length GLLNode) (M r) = 0).
Proof.
  intros HValid HNode HSep.
  pose proof (SeparatedEdges_increasing _ HSep) as HREdge.
  split; [|split; [|split]].
  - now apply InterfaceMethod_Interfaces_sums.
  - intro Hp1. now apply InterfaceMethod_Levels_sums.
  - intro HRange.
    destruct (FluxCorrection_sums G eInterpSource p Node REdge Out fZero
                HValid HNode HRange) as (op & E & Hsum).
    exists op. split; [exact E|].
    intros l Hl found. rewrite (Hsum l Hl). fold found.
    destruct (negb (Nat.eqb (fst found) 0) && snd found);
      [reflexivity | unfold Rdiv; ring].
  - intros Hq Hne Hmod HG.
    apply DiffDiff_InitializeGLLNodes_sums; auto.
    rewrite Nat.mul_comm. apply Nat.Div0.div_exact. exact Hmod.
Qed.

Lemma C6_derivative_row_sums_witness :
  ColumnOperator.ValidColumn 1 TwoLevelNodes TwoLevelEdges /\
  ColumnOperator.StrictlyIncreasing TwoLevelNodes /\
  ColumnOperator.SeparatedEdges TwoLevelEdges /\
  (exists op,
     ColumnOperator.InitializeInterfaceMethod
       ColumnOperator.InterpSource_Levels 1 TwoLevelNodes TwoLevelEdges
       TwoLevelNodes false = Ok op /\
     forall l, (l < length TwoLevelNodes)%nat ->
       ColumnOperator.RowSum op l = 0) /\
  (exists M,
     ColumnOperator.DiffDiff_InitializeGLLNodes TwoPointLobatto 2
       TwoLevelEdges = Ok M /\
     forall r, ColumnOperator.sumR (length TwoLevelEdges) (M r) = 0).
Proof.
  destruct (C6_derivative_row_sums LinearFluxDerivative TwoPointLobatto
              ColumnOperator.InterpSource_Levels 1 TwoLevelNodes
              TwoLevelEdges TwoLevelNodes false 2 TwoLevelEdges
              TwoLevel_valid TwoLevelNodes_increasing
              TwoLevelEdges_separated) as (_ & HLevels & _ & HGLL).
  split; [exact TwoLevel_valid|].
  split; [exact TwoLevelNodes_increasing|].
  split; [exact TwoLevelEdges_separated|].
  split.
  - apply HLevels. intros _. simpl. lia.
  - apply HGLL.
    + lia.
    + simpl. lia.
    + reflexivity.
    + exact TwoLevelEdges_increasing.
Defined.

(** * Further properties of the code *)

(** ** The thermal bubble test case *)

Section BubbleProfile.

Import ThermalBubble.

Let T := ThermalBubbleCartesianTest.

Lemma BubbleDistance_nonneg x z : 0 <= BubbleDistance T x z.
Proof. unfold BubbleDistance. apply sqrt_pos. Qed.

Lemma bubble_angle_range d :
  0 <= d <= 250 -> 0 <= 3.14159265 * d / 250 <= PI.
Proof. intro H. pose proof PI_above_m_dpiC. split; lra. Qed.

Lemma Rpower_one y : Rpower 1 y = 1.
Proof. unfold Rpower. rewrite ln_1, Rmult_0_r. apply exp_0. Qed.

End BubbleProfile.

(** X1.  The potential temperature perturbation of the thermal bubble does
    not increase with the distance from the bubble centre: of two points, the
    one at least as far from (500, 350) has a perturbation at most that of
    the other; in particular points at the same distance have the same
    perturbation. *)
Theorem X1_perturbation_decreases_with_distance
    (phys : ThermalBubble.PhysicalConstants) (x1 z1 x2 z2 : R) :
  ThermalBubble.BubbleDistance ThermalBubble.ThermalBubbleCartesianTest x1 z1
  <= ThermalBubble.BubbleDistance ThermalBubble.ThermalBubbleCartesianTest
       x2 z2 ->
  ThermalBubble.EvaluateTPrime ThermalBubble.ThermalBubbleCartesianTest
    phys x2 z2
  <= ThermalBubble.EvaluateTPrime ThermalBubble.ThermalBubbleCartesianTest
       phys x1 z1.
Proof.
  intro Hd.
  set (T := ThermalBubble.ThermalBubbleCartesianTest) in *.
  destruct (Rle_dec (ThermalBubble.BubbleDistance T x2 z2) 250) as [H2|H2].
  - rewrite !TPrime_inside by (fold T; lra). fold T.
    pose proof (BubbleDistance_nonneg x1 z1) as P1. fold T in P1.
    assert (cos (3.14159265 * ThermalBubble.BubbleDistance T x2 z2 / 250)
            <= cos (3.14159265 * ThermalBubble.BubbleDistance T x1 z1 / 250)).
    { destruct (bubble_angle_range (ThermalBubble.BubbleDistance T x1 z1))
        as [A1 B1]; [lra|].
      destruct (bubble_angle_range (ThermalBubble.BubbleDistance T x2 z2))
        as [A2 B2]; [lra|].
      apply cos_decr_1; lra. }
    lra.
  - rewrite TPrime_outside by (fold T; lra).
    apply TPrime_range.
Qed.

Lemma X1_perturbation_decreases_with_distance_witness :
  ThermalBubble.EvaluateTPrime ThermalBubble.ThermalBubbleCartesianTest
    EarthAtmosphere 600 350
  <= ThermalBubble.EvaluateTPrime ThermalBubble.ThermalBubbleCartesianTest
       EarthAtmosphere 500 350.
Proof.
  apply X1_perturbation_decreases_with_distance.
  rewrite !BubbleDistance_on_axis by lra. lra.
Defined.

(** X2.  The reference state of the thermal bubble on the ground and above
    it.  For positive physical constants: at z = 0 the density is
    p0 / (Rd theta-bar) and the pressure of the equation of state is p0; and
    as long as the Exner function 1 - g z / (Cp theta-bar) is positive, the
    state written is a state of numbers, the density is positive and it
    strictly decreases with height. *)
Theorem X2_reference_density_profile
    (phys : ThermalBubble.PhysicalConstants) (z1 z2 x y : R)
    (buf : list R) :
  let state := fun z =>
    ThermalBubble.EvaluateReferenceState
      ThermalBubble.ThermalBubbleCartesianTest phys z x y buf in
  length buf = 5%nat ->
  0 < ThermalBubble.GetG phys -> 0 < ThermalBubble.GetCp phys ->
  0 < ThermalBubble.GetCv phys -> 0 < ThermalBubble.GetR phys ->
  0 < ThermalBubble.GetP0 phys ->
  z1 < z2 ->
  0 < 1 - ThermalBubble.GetG phys * z2 / (ThermalBubble.GetCp phys * 300) ->
  exists s0 s1 s2,
    state 0 = Some s0 /\ state z1 = Some s1 /\ state z2 = Some s2 /\
    nth 4 s0 0 = ThermalBubble.GetP0 phys / (ThermalBubble.GetR phys * 300) /\
    ThermalBubble.Pressure phys s0 = ThermalBubble.GetP0 phys /\
    0 < nth 4 s2 0 < nth 4 s1 0.
Proof.
  intros state Hlen Hg HCp HCv HR HP Hz HE.
  set (g := ThermalBubble.GetG phys) in *.
  set (Cp := ThermalBubble.GetCp phys) in *.
  set (Cv := ThermalBubble.GetCv phys) in *.
  set (Rd := ThermalBubble.GetR phys) in *.
  set (P0 := ThermalBubble.GetP0 phys) in *.
  assert (Hc : 0 < P0 / (Rd * 300)).
  { apply Rdiv_lt_0_compat; lra. }
  assert (Hexp : 0 < Cv / Rd) by (apply Rdiv_lt_0_compat; lra).
  assert (Hk : 0 < g / (Cp * 300)) by (apply Rdiv_lt_0_compat; lra).
  assert (HE2 : 1 - g * z2 / (Cp * 300) = 1 - g / (Cp * 300) * z2)
    by (unfold Rdiv; ring).
  assert (HE1 : 1 - g * z1 / (Cp * 300) = 1 - g / (Cp * 300) * z1)
    by (unfold Rdiv; ring).
  assert (HE0 : 1 - g * 0 / (Cp * 300) = 1) by (unfold Rdiv; ring).
  assert (P2 : 0 < 1 - g * z2 / (Cp * 300)) by exact HE.
  assert (P1 : 0 < 1 - g * z1 / (Cp * 300)) by (rewrite HE1, HE2 in *; nra).
  assert (P0' : 0 < 1 - g * 0 / (Cp * 300)) by (rewrite HE0; lra).
  destruct (ReferenceState_components phys 0 x y buf Hlen P0')
    as (s0 & E0 & _ & _ & _ & _ & R0).
  destruct (ReferenceState_components phys z1 x y buf Hlen P1)
    as (s1 & E1 & _ & _ & _ & _ & R1).
  destruct (ReferenceState_components phys z2 x y buf Hlen P2)
    as (s2 & E2 & _ & _ & _ & _ & R2).
  fold g Cp Cv Rd P0 in R0, R1, R2.
  exists s0, s1, s2.
  split; [exact E0|]. split; [exact E1|]. split; [exact E2|].
  split; [|split].
  - rewrite R0, HE0, Rpower_one. ring.
  - rewrite (ReferenceState_pressure phys 0 x y buf s0 Hlen)
      by (auto; fold g Cp Rd P0 Cv; lra).
    fold g Cp Rd P0.
    replace (- g / (Cp * 300) * 0 + 1) with 1 by (unfold Rdiv; ring).
    rewrite Rpower_one. ring.
  - rewrite R1, R2. split.
    + apply Rmult_lt_0_compat; [exact Hc|].
      unfold Rpower. apply exp_pos.
    + apply Rmult_lt_compat_l; [exact Hc|].
      apply Rlt_Rpower_l; [exact Hexp|].
      rewrite HE1, HE2 in *. nra.
Qed.

Lemma X2_reference_density_profile_witness :
  let state := fun z =>
    ThermalBubble.EvaluateReferenceState
      ThermalBubble.ThermalBubbleCartesianTest EarthAtmosphere z 0 0
      [0; 0; 0; 0; 0] in
  exists s0 s1,
    state 0 = Some s0 /\ state 1000 = Some s1 /\
    0 < nth 4 s1 0 < nth 4 s0 0.
Proof.
  intro state.
  destruct (X2_reference_density_profile EarthAtmosphere 0 1000 0 0
              [0; 0; 0; 0; 0]) as (s0 & s1 & s2 & E0 & E1 & E2 & _ & _ & H);
    try (simpl; lra); try reflexivity.
  exists s1, s2. split; [exact E1|]. split; [exact E2 | exact H].
Defined.

(** ** The column operators *)

Section SearchLoop.

Import ColumnOperator.

(** What the search loop has established when it stops, for a start at
    element [a0]. *)
Lemma FindElement_from dREtaREdge stride dOut fuel a0 :
  let r := FindElement dREtaREdge stride dOut fuel a0 in
  (a0 <= fst r <= a0 + fuel)%nat /\
  ((a0 < fst r)%nat ->
   nth (fst r * stride) dREtaREdge 0 + ParamEpsilon <= dOut) /\
  (snd r = false -> (fst r < a0 + fuel)%nat ->
   dOut < nth ((fst r + 1) * stride) dREtaREdge 0 - ParamEpsilon).
Proof.
  revert a0. induction fuel as [|fuel IH]; intro a0; simpl.
  - repeat split; try lia.
  - destruct (Rlt_dec _ _) as [H1|H1]; simpl.
    + repeat split; try lia. intros _ _. exact H1.
    + destruct (Rlt_dec _ _) as [H2|H2]; simpl.
      * repeat split; try lia; discriminate.
      * destruct (IH (S a0)) as (Hb & Hlow & Hup).
        split; [lia|]. split.
        -- intros _.
           destruct (Nat.eq_dec (fst (FindElement dREtaREdge stride dOut
                                        fuel (S a0))) (S a0)) as [E|E].
           ++ rewrite E. replace (S a0) with (a0 + 1)%nat by lia. lra.
           ++ apply Hlow. lia.
        -- intros Hoff Hlt. apply Hup; [exact Hoff | lia].
Qed.

End SearchLoop.

(** X3.  The element search shared by the [Initialize] functions.  For a
    column of nFE elements it returns an element index a < nFE (for nFE >= 1)
    such that the output point is at least eps above the lower edge of a
    unless a = 0, and: if the point is flagged as on an edge then a is not
    the top element and the point is within eps of the upper edge of a
    (edge - eps <= point < edge + eps); if it is not flagged and a is not
    the top element, the point is more than eps below the upper edge of a
    (eps = 1e-12). *)
Theorem X3_search_finds_containing_element
    (dREtaREdge : list R) (stride : nat) (dOut : R) (nFE : nat) :
  let r := ColumnOperator.FindElement dREtaREdge stride dOut (nFE - 1) 0 in
  let a := fst r in
  let edge := fun e => nth (e * stride) dREtaREdge 0 in
  (a <= nFE - 1)%nat /\
  ((0 < a)%nat -> edge a + ColumnOperator.ParamEpsilon <= dOut) /\
  (snd r = true ->
   (a + 1 < nFE)%nat /\
   edge (a + 1)%nat - ColumnOperator.ParamEpsilon <= dOut
     < edge (a + 1)%nat + ColumnOperator.ParamEpsilon) /\
  (snd r = false -> (a + 1 < nFE)%nat ->
   dOut < edge (a + 1)%nat - ColumnOperator.ParamEpsilon).
Proof.
  intros r a edge.
  destruct (FindElement_from dREtaREdge stride dOut (nFE - 1) 0)
    as (Hb & Hlow & Hup). fold r in Hb, Hlow, Hup. fold a in Hb, Hlow, Hup.
  destruct (FindElement_bounds dREtaREdge stride dOut (nFE - 1) 0)
    as [_ Hon]. fold r in Hon. fold a in Hon.
  split; [lia|]. split; [exact Hlow|]. split.
  - intro E. destruct (Hon E) as (H1 & H2 & H3).
    split; [lia|]. unfold edge. split; [exact H2|].
    unfold ColumnOperator.ParamEpsilon in *. lra.
  - intros E Ha. apply Hup; [exact E | lia].
Qed.

Lemma X3_search_finds_containing_element_witness :
  let r := ColumnOperator.FindElement TwoLevelEdges 1 0.75 (2 - 1) 0 in
  nth (fst r * 1) TwoLevelEdges 0 + ColumnOperator.ParamEpsilon <= 0.75.
Proof.
  intro r.
  destruct (X3_search_finds_containing_element TwoLevelEdges 1 0.75 2)
    as (_ & Hlow & _).
  apply Hlow.
  unfold r. rewrite FindElement_above; [simpl; lia|].
  intros e He. assert (e = 1%nat) by lia. subst e.
  unfold ColumnOperator.ParamEpsilon. simpl. lra.
Defined.

(** X4.  The argument checks at the top of [LinearColumnInterpFEM::Initialize],
    [InitializeInterfaceMethod] and [InitializeFluxCorrectionMethod], for a
    positive vertical order and in the order the code makes them: an empty
    level vector raises "At least one row required for dREtaNode"; otherwise
    an interface vector that does not have one entry more than the level
    vector raises "REtaNode / REtaREdge mismatch"; otherwise a level count
    that is not a multiple of the vertical order raises "Column RElements /
    VerticalOrder mismatch".  Nothing is assembled in these cases.  (With an
    order of zero the code divides by zero before the first check.) *)
Theorem X4_initialize_rejects_invalid_columns
    (G : nat -> nat -> R -> R) (src : ColumnOperator.InterpSource)
    (p : nat) (Node REdge Out : list R) (fZero : bool) :
  (0 < p)%nat ->
  let results :=
    [ColumnOperator.Interp_Initialize src p Node REdge Out fZero;
     ColumnOperator.InitializeInterfaceMethod src p Node REdge Out fZero;
     ColumnOperator.InitializeFluxCorrectionMethod G src p Node REdge Out
       fZero] in
  (length Node = 0%nat ->
   forall r, In r results ->
     r = Exception "At least one row required for dREtaNode") /\
  (length Node <> 0%nat -> length REdge <> (length Node + 1)%nat ->
   forall r, In r results -> r = Exception "REtaNode / REtaREdge mismatch") /\
  (length Node <> 0%nat -> length REdge = (length Node + 1)%nat ->
   (length Node mod p <> 0)%nat ->
   forall r, In r results ->
     r = Exception "Column RElements / VerticalOrder mismatch").
Proof.
  intros Hp results.
  assert (H : forall msg,
            (forall A (k : Result A),
               ColumnOperator.VerifyInput p Node REdge k = Exception msg) ->
            forall r, In r results -> r = Exception msg).
  { intros msg Hv r Hr. unfold results in Hr. simpl in Hr.
    destruct Hr as [<-|[<-|[<-|[]]]];
      [unfold ColumnOperator.Interp_Initialize
      |unfold ColumnOperator.InitializeInterfaceMethod
      |unfold ColumnOperator.InitializeFluxCorrectionMethod]; apply Hv. }
  split; [|split].
  - intros E. apply H. intros A k.
    unfold ColumnOperator.VerifyInput; cbv zeta. rewrite E. reflexivity.
  - intros E1 E2. apply H. intros A k.
    unfold ColumnOperator.VerifyInput; cbv zeta.
    destruct (Nat.eqb_spec (length Node) 0); [contradiction|].
    destruct (Nat.eqb_spec (length REdge) (length Node + 1));
      [contradiction | reflexivity].
  - intros E1 E2 E3. apply H. intros A k.
    unfold ColumnOperator.VerifyInput; cbv zeta.
    destruct (Nat.eqb_spec (length Node) 0); [contradiction|].
    destruct (Nat.eqb_spec (length REdge) (length Node + 1));
      [|contradiction].
    destruct (Nat.eqb_spec (length Node mod p) 0);
      [contradiction | reflexivity].
Qed.

Lemma X4_initialize_rejects_invalid_columns_witness :
  ColumnOperator.InitializeInterfaceMethod
    ColumnOperator.InterpSource_Levels 2 [0.5] [0; 1] [0.5] false
  = Exception "Column RElements / VerticalOrder mismatch".
Proof.
  assert (Hp : (0 < 2)%nat) by lia.
  destruct (X4_initialize_rejects_invalid_columns LinearFluxDerivative
              ColumnOperator.InterpSource_Levels 2 [0.5] [0; 1] [0.5] false
              Hp)
    as (_ & _ & H).
  apply H; simpl; try lia; try discriminate; auto.
Defined.

Section LoopExceptions.

Import ColumnOperator.

(** A loop whose rows either are computed or raise [msg] either completes
    or raises [msg]. *)
Lemma for_loopM_rows_cases n (F : nat -> Result Row) op0 msg :
  (forall l, (l < n)%nat -> F l = Exception msg \/ exists r, F l = Ok r) ->
  for_loopM n (fun l op => bind (F l) (fun r => Ok (set_row op l r))) op0
  = Exception msg
  \/ exists op,
       for_loopM n (fun l op => bind (F l) (fun r => Ok (set_row op l r))) op0
       = Ok op.
Proof.
  induction n as [|n IH]; intro HF.
  - right. exists op0. reflexivity.
  - rewrite for_loopM_S.
    destruct IH as [E|[op E]]; [intros; apply HF; lia | |]; rewrite E.
    + left. reflexivity.
    + cbn [bind]. destruct (HF n ltac:(lia)) as [En|[r En]]; rewrite En.
      * left. reflexivity.
      * right. eexists. reflexivity.
Qed.

Lemma for_loopM_rows_raise n (F : nat -> Result Row) op0 msg l0 :
  (forall l, (l < n)%nat -> F l = Exception msg \/ exists r, F l = Ok r) ->
  (l0 < n)%nat -> F l0 = Exception msg ->
  for_loopM n (fun l op => bind (F l) (fun r => Ok (set_row op l r))) op0
  = Exception msg.
Proof.
  induction n as [|n IH]; intros HF Hl E0; [lia|].
  rewrite for_loopM_S.
  destruct (Nat.eq_dec l0 n) as [->|Hne].
  - destruct (for_loopM_rows_cases n F op0 msg) as [E|[op E]];
      [intros; apply HF; lia | |]; rewrite E; [reflexivity|].
    cbn [bind]. rewrite E0. reflexivity.
  - rewrite IH; [reflexivity | intros; apply HF; lia | lia | exact E0].
Qed.

(** A decidable property of the indices below [n] holds for one of them or
    fails for all. *)
Lemma bounded_search (P : nat -> Prop) n :
  (forall l, (l < n)%nat -> P l \/ ~ P l) ->
  (exists l, (l < n)%nat /\ P l) \/ (forall l, (l < n)%nat -> ~ P l).
Proof.
  induction n as [|n IH]; intro Hdec.
  - right. intros l Hl. lia.
  - destruct IH as [(l & Hl & HP)|Hnone]; [intros; apply Hdec; lia | |].
    + left. exists l. split; [lia | exact HP].
    + destruct (Hdec n ltac:(lia)) as [HP|HP].
      * left. exists n. split; [lia | exact HP].
      * right. intros l Hl. destruct (Nat.eq_dec l n) as [->|Hne];
          [exact HP | apply Hnone; lia].
Qed.

Lemma FluxCorrectionRow_cases G p Node REdge Out fZero l :
  let dOut := nth l Out 0 in
  (dOut < nth 0 REdge 0 \/ nth (length Node) REdge 0 < dOut ->
   FluxCorrectionRow G p Node REdge Out fZero l
   = Exception "REta out of range") /\
  (nth 0 REdge 0 <= dOut <= nth (length Node) REdge 0 ->
   exists r, FluxCorrectionRow G p Node REdge Out fZero l = Ok r).
Proof.
  intro dOut. unfold FluxCorrectionRow; cbv zeta. fold dOut.
  destruct (Rlt_dec dOut (nth 0 REdge 0)) as [H1|H1];
    destruct (Rgt_dec dOut (nth (length Node) REdge 0)) as [H2|H2];
    cbn [orb]; split; intro H; try reflexivity; try lra;
    try (eexists; reflexivity).

Qed.

End LoopExceptions.

(** X5.  On a valid column [InitializeFluxCorrectionMethod] raises
    "REta out of range" exactly when some output point lies below the first
    interface or above the last one, and assembles an operator otherwise. *)
Theorem X5_flux_correction_range_check
    (G : nat -> nat -> R -> R) (src : ColumnOperator.InterpSource)
    (p : nat) (Node REdge Out : list R) (fZero : bool) :
  ColumnOperator.ValidColumn p Node REdge ->
  let outside := fun l =>
    nth l Out 0 < nth 0 REdge 0 \/ nth (length Node) REdge 0 < nth l Out 0 in
  ((exists l, (l < length Out)%nat /\ outside l) ->
   ColumnOperator.InitializeFluxCorrectionMethod G src p Node REdge Out fZero
   = Exception "REta out of range") /\
  ((forall l, (l < length Out)%nat -> ~ outside l) ->
   exists op,
     ColumnOperator.InitializeFluxCorrectionMethod G src p Node REdge Out
       fZero = Ok op) /\
  ((exists l, (l < length Out)%nat /\ outside l) \/
   (forall l, (l < length Out)%nat -> ~ outside l)).
Proof.
  intros HValid outside.
  assert (Hrow : forall l,
            ColumnOperator.FluxCorrectionRow G p Node REdge Out fZero l
            = Exception "REta out of range" \/
            exists r, ColumnOperator.FluxCorrectionRow G p Node REdge Out
                        fZero l = Ok r).
  { intro l.
    destruct (FluxCorrectionRow_cases G p Node REdge Out fZero l)
      as [Hout Hin].
    destruct (Rlt_dec (nth l Out 0) (nth 0 REdge 0)) as [H1|H1];
      [left; apply Hout; left; exact H1|].
    destruct (Rlt_dec (nth (length Node) REdge 0) (nth l Out 0)) as [H2|H2];
      [left; apply Hout; right; exact H2|].
    right. apply Hin. lra. }
  unfold ColumnOperator.InitializeFluxCorrectionMethod.
  rewrite (proj1 (VerifyInput_spec p Node REdge _) HValid). cbv zeta.
  split; [|split].
  - intros (l & Hl & Hout).
    apply for_loopM_rows_raise with (l0 := l); auto.
    apply (FluxCorrectionRow_cases G p Node REdge Out fZero l). exact Hout.
  - intro Hin.
    match goal with
    | |- context [for_loopM _ _ ?o] =>
        destruct (for_loopM_rows (length Out)
                    (ColumnOperator.FluxCorrectionRow G p Node REdge Out
                       fZero) o) as (op & E & _)
    end.
    + intros l Hl.
      apply (FluxCorrectionRow_cases G p Node REdge Out fZero l).
      specialize (Hin l Hl). unfold outside in Hin. lra.
    + exists op. exact E.
  - apply bounded_search. intros l _. unfold outside.
    destruct (Rlt_dec (nth l Out 0) (nth 0 REdge 0)) as [H1|H1];
      [left; left; exact H1|].
    destruct (Rlt_dec (nth (length Node) REdge 0) (nth l Out 0)) as [H2|H2];
      [left; right; exact H2|].
    right. lra.
Qed.

Lemma X5_flux_correction_range_check_witness :
  ColumnOperator.InitializeFluxCorrectionMethod LinearFluxDerivative
    ColumnOperator.InterpSource_Levels 1 TwoLevelNodes TwoLevelEdges
    [0.25; 1.5] false
  = Exception "REta out of range".
Proof.
  destruct (X5_flux_correction_range_check LinearFluxDerivative
              ColumnOperator.InterpSource_Levels 1 TwoLevelNodes
              TwoLevelEdges [0.25; 1.5] false TwoLevel_valid) as (H & _).
  apply H. exists 1%nat. split; [simpl; lia|]. right. simpl. lra.
Defined.

Section RowSupport.

Import ColumnOperator.

Variable p : nat.
Variables Node REdge Out : list R.

Lemma InterfaceMethodRow_bounds l :
  let found := FindElement REdge p (nth l Out 0) (length Node / p - 1) 0 in
  iBegin (InterfaceMethodRow p Node REdge Out l) = (fst found * p)%nat /\
  iEnd (InterfaceMethodRow p Node REdge Out l)
  = if snd found then ((fst found + 2) * p + 1)%nat
    else ((fst found + 1) * p + 1)%nat.
Proof.
  intro found. unfold InterfaceMethodRow; cbv zeta. fold found.
  destruct (snd found); split; reflexivity.
Qed.

Lemma InterfaceMethodRow_supported l :
  Supported (InterfaceMethodRow p Node REdge Out l).
Proof.
  intros m Hm.
  destruct (InterfaceMethodRow_bounds l) as [EB EE]. cbv zeta in EB, EE.
  rewrite EB, EE in Hm.
  rewrite InterfaceMethodRow_coeff. cbv zeta.
  destruct (snd _).
  - unfold WeightedEdgeRow. rewrite !window_out by lia. ring.
  - apply window_out. lia.
Qed.

End RowSupport.

(** X6.  The interface-method derivative operator from interfaces.  On a
    valid column [InitializeInterfaceMethod] with source
    [InterpSource_Interfaces] returns an operator on nIn + 1 interface
    columns, and every row of it lies inside its bounds: the coefficients
    outside [iBegin, iEnd) are zero, the band is at most 2p + 1 wide, and it
    ends within the nIn + 1 columns. *)
Theorem X6_interface_method_band
    (p : nat) (Node REdge Out : list R) (fZero : bool) :
  ColumnOperator.ValidColumn p Node REdge ->
  exists op,
    ColumnOperator.InitializeInterfaceMethod
      ColumnOperator.InterpSource_Interfaces p Node REdge Out fZero
    = Ok op /\
    ColumnOperator.nRowsIn op = (length Node + 1)%nat /\
    forall l, (l < length Out)%nat ->
      let r := ColumnOperator.rows op l in
      ColumnOperator.Supported r /\
      (ColumnOperator.Bandwidth r <= 2 * p + 1)%nat /\
      (ColumnOperator.iBegin r <= ColumnOperator.iEnd r
         <= ColumnOperator.nRowsIn op)%nat.
Proof.
  intro HValid.
  unfold ColumnOperator.InitializeInterfaceMethod.
  rewrite (proj1 (VerifyInput_spec p Node REdge _) HValid). cbv zeta.
  eexists. split; [reflexivity|].
  rewrite nRowsIn_for_loop.
  cbn [ColumnOperator.nRowsIn ColumnOperator.Initialize_LinearColumnOperator].
  split; [reflexivity|].
  intros l Hl.
  rewrite rows_for_loop.
  destruct (Nat.ltb_spec l (length Out)); [|lia].
  split; [apply InterfaceMethodRow_supported|].
  destruct (InterfaceMethodRow_bounds p Node REdge Out l) as [EB EE].
  cbv zeta in EB, EE.
  destruct (FindElement_bounds REdge p (nth l Out 0) (length Node / p - 1) 0)
    as [Hb Hon].
  set (found := ColumnOperator.FindElement REdge p (nth l Out 0)
                  (length Node / p - 1) 0) in *.
  set (a := fst found) in *.
  unfold ColumnOperator.Bandwidth. rewrite EB, EE.
  assert (Hon' : snd found = true -> (a + 1 < length Node / p)%nat).
  { intro E. destruct (Hon E) as (H1 & _). lia. }
  clear Hon EB EE. clearbody a.
  destruct (ValidColumn_elements _ _ _ HValid) as (Hp & HFE & HnIn).
  split.
  - destruct (snd found); lia.
  - revert Hb Hon' HFE HnIn. generalize (length Node / p)%nat.
    intros nFE Hb Hon' HFE HnIn.
    destruct (snd found).
    + specialize (Hon' eq_refl). rewrite HnIn. nia.
    + rewrite HnIn. nia.
Qed.

Lemma X6_interface_method_band_witness :
  exists op,
    ColumnOperator.InitializeInterfaceMethod
      ColumnOperator.InterpSource_Interfaces 1 TwoLevelNodes TwoLevelEdges
      TwoLevelNodes false = Ok op /\
    (ColumnOperator.iBegin (ColumnOperator.rows op 0)
     <= ColumnOperator.iEnd (ColumnOperator.rows op 0)
     <= ColumnOperator.nRowsIn op)%nat.
Proof.
  destruct (X6_interface_method_band 1 TwoLevelNodes TwoLevelEdges
              TwoLevelNodes false TwoLevel_valid) as (op & E & _ & H).
  exists op. split; [exact E|].
  apply (H 0%nat). simpl. lia.
Defined.

Section InterpSupport.

Import ColumnOperator.

Lemma InterpRow_Levels_supported p (Node REdge Out : list R) l :
  (p = 1%nat -> l <> 0%nat -> l = (length Out - 1)%nat ->
   (1 <= fst (FindElement REdge p (nth l Out 0%R)
                (length Node / p - 1) 0))%nat) ->
  Supported (InterpRow InterpSource_Levels p Node REdge Out l).
Proof.
  intros Hlast m Hm. revert Hm.
  unfold InterpRow; cbv zeta.
  set (found := FindElement REdge p (nth l Out 0) (length Node / p - 1) 0)
    in *.
  set (a := fst found) in *.
  destruct (Nat.eqb_spec p 1) as [Ep|Ep]; cbn [andb];
    [destruct (Nat.eqb_spec l 0);
       [|destruct (Nat.eqb_spec l (length Out - 1));
           [specialize (Hlast Ep ltac:(assumption) ltac:(assumption))|]]|];
    destruct (snd found); cbn [coeff iBegin iEnd]; intro Hm;
    rewrite ?scale_coeffs_spec, ?write_coeffs_spec, ?write_on_zero;
    repeat match goal with
    | |- context [Nat.leb ?x ?y] => destruct (Nat.leb_spec x y)
    | |- context [Nat.ltb ?x ?y] => destruct (Nat.ltb_spec x y)
    end; cbn [andb]; try lia; try ring;
    rewrite ?window_out by lia; try ring; try reflexivity.
Qed.

(** Outside the first-order branches the band of a row is the element
    found, and the next one as well at an element edge. *)
Lemma InterpRow_Levels_bounds p (Node REdge Out : list R) l :
  p <> 1%nat \/ (l <> 0%nat /\ l <> (length Out - 1)%nat) ->
  let found := FindElement REdge p (nth l Out 0) (length Node / p - 1) 0 in
  iBegin (InterpRow InterpSource_Levels p Node REdge Out l)
  = (fst found * p)%nat /\
  iEnd (InterpRow InterpSource_Levels p Node REdge Out l)
  = if snd found then ((fst found + 2) * p)%nat
    else ((fst found + 1) * p)%nat.
Proof.
  intros Hgen found. unfold InterpRow; cbv zeta. fold found.
  destruct (Nat.eqb_spec p 1), (Nat.eqb_spec l 0),
    (Nat.eqb_spec l (length Out - 1)); cbn [andb]; try (exfalso; lia);
    destruct (snd found); cbn [iBegin iEnd]; split; lia.
Qed.

End InterpSupport.

Section FluxSupport.

Import ColumnOperator.

Variable G : nat -> nat -> R -> R.
Variable p : nat.
Variables Node REdge : list R.
Variable fZero : bool.
Variable dOut : R.

Let nFE := (length Node / p)%nat.

Lemma BoundaryCorrectionApplies_elements :
  BoundaryCorrectionApplies p Node fZero = true -> nFE <> 1%nat.
Proof.
  unfold BoundaryCorrectionApplies. fold nFE. intro E.
  apply andb_prop in E as [_ E].
  destruct (Nat.eqb_spec nFE 1); [discriminate | assumption].
Qed.

Lemma Flux_Coefficients_supported a on m :
  (a < nFE)%nat -> (on = true -> (a + 1 < nFE)%nat) ->
  (m < Flux_iBegin p a)%nat \/ (Flux_iEnd p Node a <= m)%nat ->
  Flux_Coefficients G p Node REdge fZero dOut a on m = 0.
Proof.
  intros Ha Hon Hm. unfold Flux_iBegin, Flux_iEnd in Hm. fold nFE in Hm.
  assert (Hmid : ~ (a * p <= m < a * p + p)%nat).
  { destruct (Nat.eqb_spec a 0), (Nat.eqb_spec a (nFE - 1));
      cbn [negb] in Hm; nia. }
  assert (Hup : a <> (nFE - 1)%nat ->
                ~ ((a + 1) * p <= m < (a + 1) * p + p)%nat).
  { intro Hne. destruct (Nat.eqb_spec a 0), (Nat.eqb_spec a (nFE - 1));
      cbn [negb] in Hm; try contradiction; nia. }
  assert (Hdown : a <> 0%nat ->
                  ~ ((a - 1) * p <= m < (a - 1) * p + p)%nat).
  { intro Hne. destruct (Nat.eqb_spec a 0), (Nat.eqb_spec a (nFE - 1));
      cbn [negb] in Hm; try contradiction; nia. }
  assert (HL : Flux_LocalDerivative p Node REdge dOut a on m = 0).
  { unfold Flux_LocalDerivative.
    destruct on eqn:Eon; rewrite scale_coeffs_spec.
    - assert (Hne : a <> (nFE - 1)%nat) by (specialize (Hon eq_refl); lia).
      rewrite write_coeffs_spec, write_on_zero.
      destruct (Nat.leb_spec ((a + 1) * p) m),
        (Nat.ltb_spec m ((a + 1) * p + p)); cbn [andb];
        try (exfalso; apply (Hup Hne); lia);
        rewrite window_out by exact Hmid; destruct (_ && _); ring.
    - rewrite write_on_zero, window_out by exact Hmid.
      destruct (_ && _); ring. }
  assert (HLe : Flux_LeftEdge G p Node REdge fZero dOut a on
                  (Flux_LocalDerivative p Node REdge dOut a on) m = 0).
  { unfold Flux_LeftEdge. fold nFE.
    destruct (Nat.eqb_spec a 0) as [Ea|Ea]; cbn [negb andb].
    - destruct (BoundaryCorrectionApplies p Node fZero) eqn:E; [|exact HL].
      apply BoundaryCorrectionApplies_elements in E.
      rewrite add_sub_coeffs_spec by lia.
      rewrite !window_out by (try exact Hmid; apply Hup; lia).
      rewrite HL. ring.
    - destruct on; cbn [negb andb].
      + rewrite sub_coeffs_spec, window_out by exact Hmid. rewrite HL. ring.
      + rewrite sub_coeffs_spec, add_coeffs_spec.
        rewrite !window_out by (try exact Hmid; apply Hdown; exact Ea).
        rewrite HL. ring. }
  unfold Flux_Coefficients. rewrite divide_coeffs_spec.
  assert (HR : Flux_RightEdge G p Node REdge fZero dOut a
                 (Flux_LeftEdge G p Node REdge fZero dOut a on
                    (Flux_LocalDerivative p Node REdge dOut a on)) m = 0).
  { unfold Flux_RightEdge. fold nFE.
    destruct (Nat.eqb_spec a (nFE - 1)) as [Ea|Ea]; cbn [negb andb].
    - destruct (BoundaryCorrectionApplies p Node fZero) eqn:E; [|exact HLe].
      apply BoundaryCorrectionApplies_elements in E.
      assert (Ha1 : (1 <= a)%nat) by lia.
      rewrite add_sub_coeffs_spec.
      + rewrite !window_out by (try exact Hmid; apply Hdown; lia).
        rewrite HLe. ring.
      + right. replace a with (S (a - 1)) at 2 by lia. simpl. lia.
    - rewrite sub_coeffs_spec, add_coeffs_spec.
      rewrite !window_out by (try exact Hmid; apply Hup; exact Ea).
      rewrite HLe. ring. }
  rewrite HR. destruct (_ && _); unfold Rdiv; ring.
Qed.

Lemma Flux_band a :
  (0 < p)%nat -> length Node = (nFE * p)%nat -> (a < nFE)%nat ->
  (Flux_iBegin p a <= Flux_iEnd p Node a <= length Node)%nat /\
  (Flux_iEnd p Node a - Flux_iBegin p a <= 3 * p)%nat.
Proof.
  intros Hp HnIn Ha. unfold Flux_iBegin, Flux_iEnd. fold nFE.
  destruct (Nat.eqb_spec a 0), (Nat.eqb_spec a (nFE - 1)); cbn [negb];
    rewrite HnIn; nia.
Qed.

End FluxSupport.

(** X7.  The interpolation operator from levels.  On a valid column
    [LinearColumnInterpFEM::Initialize] with source [InterpSource_Levels]
    returns an operator on nIn level columns, and every row of it that is
    not built by the branches for vertical order 1 (the first and the last
    output row when the order is 1) lies inside its bounds: the coefficients
    outside [iBegin, iEnd) are zero, the band is at most 2p wide, and it
    ends within the nIn columns. *)
Theorem X7_interpolation_band
    (p : nat) (Node REdge Out : list R) (fZero : bool) :
  ColumnOperator.ValidColumn p Node REdge ->
  exists op,
    ColumnOperator.Interp_Initialize ColumnOperator.InterpSource_Levels
      p Node REdge Out fZero = Ok op /\
    ColumnOperator.nRowsIn op = length Node /\
    forall l, (l < length Out)%nat ->
      p <> 1%nat \/ (l <> 0%nat /\ l <> (length Out - 1)%nat) ->
      let r := ColumnOperator.rows op l in
      ColumnOperator.Supported r /\
      (ColumnOperator.Bandwidth r <= 2 * p)%nat /\
      (ColumnOperator.iBegin r <= ColumnOperator.iEnd r
         <= ColumnOperator.nRowsIn op)%nat.
Proof.
  intro HValid.
  unfold ColumnOperator.Interp_Initialize.
  rewrite (proj1 (VerifyInput_spec p Node REdge _) HValid). cbv zeta.
  eexists. split; [reflexivity|].
  rewrite nRowsIn_for_loop_from.
  cbn [ColumnOperator.nRowsIn ColumnOperator.Initialize_LinearColumnOperator].
  split; [reflexivity|].
  intros l Hl Hgen.
  rewrite rows_for_loop_from.
  destruct (_ && _).
  - split.
    { apply InterpRow_Levels_supported. intros; lia. }
    destruct (InterpRow_Levels_bounds p Node REdge Out l Hgen) as [EB EE].
    cbv zeta in EB, EE.
    destruct (FindElement_bounds REdge p (nth l Out 0)
                (length Node / p - 1) 0) as [Hb Hon].
    set (found := ColumnOperator.FindElement REdge p (nth l Out 0)
                    (length Node / p - 1) 0) in *.
    set (a := fst found) in *.
    unfold ColumnOperator.Bandwidth. rewrite EB, EE.
    assert (Hon' : snd found = true -> (a + 1 < length Node / p)%nat).
    { intro E. destruct (Hon E) as (H1 & _). lia. }
    clear Hon EB EE. clearbody a.
    destruct (ValidColumn_elements _ _ _ HValid) as (Hp & HFE & HnIn).
    split.
    + destruct (snd found); lia.
    + revert Hb Hon' HFE HnIn. generalize (length Node / p)%nat.
      intros nFE Hb Hon' HFE HnIn.
      destruct (snd found).
      * specialize (Hon' eq_refl). rewrite HnIn. nia.
      * rewrite HnIn. nia.
  - cbn [ColumnOperator.rows ColumnOperator.Initialize_LinearColumnOperator].
    split; [intros m _; reflexivity|].
    unfold ColumnOperator.Bandwidth. simpl. lia.
Qed.

Lemma X7_interpolation_band_witness :
  exists op,
    ColumnOperator.Interp_Initialize ColumnOperator.InterpSource_Levels 1
      TwoLevelNodes TwoLevelEdges TwoLevelEdges false = Ok op /\
    ColumnOperator.Supported (ColumnOperator.rows op 1) /\
    (ColumnOperator.iEnd (ColumnOperator.rows op 1)
     <= ColumnOperator.nRowsIn op)%nat.
Proof.
  destruct (X7_interpolation_band 1 TwoLevelNodes TwoLevelEdges
              TwoLevelEdges false TwoLevel_valid) as (op & E & _ & H).
  exists op. split; [exact E|].
  destruct (H 1%nat) as (HS & _ & HB); [simpl; lia | right; simpl; lia |].
  split; [exact HS | apply HB].
Defined.

Section FluxOperatorRows.

Import ColumnOperator.

Lemma FluxCorrection_Ok_rows G src p Node REdge Out fZero op :
  ValidColumn p Node REdge ->
  InitializeFluxCorrectionMethod G src p Node REdge Out fZero = Ok op ->
  forall l, (l < length Out)%nat ->
    let found := FindElement REdge p (nth l Out 0) (length Node / p - 1) 0 in
    rows op l
    = {| coeff := Flux_Coefficients G p Node REdge fZero (nth l Out 0)
                    (fst found) (snd found);
         iBegin := Flux_iBegin p (fst found);
         iEnd := Flux_iEnd p Node (fst found) |}.
Proof.
  intros HValid E.
  assert (Hin : forall l, (l < length Out)%nat ->
            nth 0 REdge 0 <= nth l Out 0 <= nth (length Node) REdge 0).
  { intros l Hl.
    destruct (Rlt_dec (nth l Out 0) (nth 0 REdge 0)) as [H1|H1];
      [|destruct (Rlt_dec (nth (length Node) REdge 0) (nth l Out 0))
          as [H2|H2]; [|lra]];
      exfalso; revert E;
      unfold InitializeFluxCorrectionMethod;
      rewrite (proj1 (VerifyInput_spec p Node REdge _) HValid); cbv zeta;
      rewrite (for_loopM_rows_raise (length Out) _ _ "REta out of range" l);
      try discriminate; auto;
      try (intro k; intros _;
           destruct (FluxCorrectionRow_cases G p Node REdge Out fZero k)
             as [Hout Hins];
           destruct (Rlt_dec (nth k Out 0) (nth 0 REdge 0));
           [left; apply Hout; left; assumption|];
           destruct (Rlt_dec (nth (length Node) REdge 0) (nth k Out 0));
           [left; apply Hout; right; assumption|];
           right; apply Hins; lra);
      apply (FluxCorrectionRow_cases G p Node REdge Out fZero l);
      [left | right]; assumption. }
  revert E. unfold InitializeFluxCorrectionMethod.
  rewrite (proj1 (VerifyInput_spec p Node REdge _) HValid). cbv zeta.
  match goal with
  | |- context [for_loopM _ _ ?o] =>
      destruct (for_loopM_rows (length Out)
                  (FluxCorrectionRow G p Node REdge Out fZero) o)
        as (op' & E' & _ & Hrows)
  end.
  { intros l Hl. eexists. now apply FluxCorrectionRow_returns. }
  rewrite E'. intro E. injection E as <-.
  intros l Hl. specialize (Hrows l Hl).
  rewrite FluxCorrectionRow_returns in Hrows by assumption.
  injection Hrows as Hrows. symmetry. exact Hrows.
Qed.

End FluxOperatorRows.

(** X8.  When [InitializeFluxCorrectionMethod] returns on a valid column
    with increasing interfaces, every row of the operator lies inside its
    bounds: coefficients outside [iBegin, iEnd) are zero, the band ends
    within the nIn level columns, and it is at most 3p wide. *)
Theorem X8_flux_correction_band
    (G : nat -> nat -> R -> R) (src : ColumnOperator.InterpSource)
    (p : nat) (Node REdge Out : list R) (fZero : bool)
    (op : ColumnOperator.LinearColumnOperator) (l : nat) :
  ColumnOperator.ValidColumn p Node REdge ->
  ColumnOperator.StrictlyIncreasing REdge ->
  ColumnOperator.InitializeFluxCorrectionMethod G src p Node REdge Out fZero
  = Ok op ->
  (l < length Out)%nat ->
  let r := ColumnOperator.rows op l in
  ColumnOperator.Supported r /\
  (ColumnOperator.iBegin r <= ColumnOperator.iEnd r <= length Node)%nat /\
  (ColumnOperator.Bandwidth r <= 3 * p)%nat.
Proof.
  intros HValid _ E Hl r.
  pose proof (FluxCorrection_Ok_rows G src p Node REdge Out fZero op
                HValid E l Hl) as Er.
  cbv zeta in Er. unfold r. rewrite Er.
  destruct (ValidColumn_elements _ _ _ HValid) as (Hp & HFE & HnIn).
  destruct (FindElement_bounds REdge p (nth l Out 0) (length Node / p - 1) 0)
    as [Hb Hon].
  set (found := ColumnOperator.FindElement REdge p (nth l Out 0)
                  (length Node / p - 1) 0) in *.
  assert (Ha : (fst found < length Node / p)%nat) by lia.
  split; [|unfold ColumnOperator.Bandwidth; cbn [ColumnOperator.iBegin
             ColumnOperator.iEnd]; now apply Flux_band].
  intros m Hm. cbn [ColumnOperator.coeff ColumnOperator.iBegin
                    ColumnOperator.iEnd] in *.
  apply Flux_Coefficients_supported; auto.
  intro Eon. destruct (Hon Eon) as (H1 & _). lia.
Qed.

Lemma X8_flux_correction_band_witness :
  exists op,
    ColumnOperator.InitializeFluxCorrectionMethod LinearFluxDerivative
      ColumnOperator.InterpSource_Levels 1 TwoLevelNodes TwoLevelEdges
      TwoLevelNodes false = Ok op /\
    ColumnOperator.Supported (ColumnOperator.rows op 0).
Proof.
  destruct (FluxCorrection_sums LinearFluxDerivative
              ColumnOperator.InterpSource_Levels 1 TwoLevelNodes
              TwoLevelEdges TwoLevelNodes false TwoLevel_valid
              TwoLevelNodes_increasing) as (op & E & _).
  { intros l Hl. simpl in Hl.
    destruct l as [|[|l]]; simpl; try lia; lra. }
  exists op. split; [exact E|].
  apply (X8_flux_correction_band LinearFluxDerivative
           ColumnOperator.InterpSource_Levels 1 TwoLevelNodes TwoLevelEdges
           TwoLevelNodes false op 0 TwoLevel_valid TwoLevelEdges_increasing E).
  simpl. lia.
Defined.

(** *** Interpolation of the coordinate itself *)

Section LinearReproduction.

Import ColumnOperator.

(** Neville's recurrence on the interpolant of the values [F] at the nodes
    [X 0 .. X (n+1)]. *)
Lemma Lagrange_Neville n X x (F : nat -> R) :
  distinct_nodes (S (S n)) X ->
  (X (S n) - X 0%nat)
  * sumR (S (S n)) (fun i => F i * LagrangianPolynomialCoeffs (S (S n)) X x i)
  = (x - X 0%nat)
    * sumR (S n) (fun k => F (S k)
                    * LagrangianPolynomialCoeffs (S n) (fun j => X (S j)) x k)
    - (x - X (S n))
      * sumR (S n) (fun i => F i * LagrangianPolynomialCoeffs (S n) X x i).
Proof.
  intro HX.
  set (a := X 0%nat). set (b := X (S n)).
  assert (Hab : b - a <> 0).
  { assert (X (S n) <> X 0%nat) by (apply HX; lia). unfold a, b. lra. }
  (* the two end nodes *)
  assert (E0 : (b - a) * LagrangianPolynomialCoeffs (S (S n)) X x 0%nat
               = - (x - b) * LagrangianPolynomialCoeffs (S n) X x 0%nat).
  { rewrite Lagrange_drop_last by lia. fold a b. field.
    assert (X 0%nat <> X (S n)) by (apply HX; lia). unfold a, b. lra. }
  assert (En : (b - a) * LagrangianPolynomialCoeffs (S (S n)) X x (S n)
               = (x - a) * LagrangianPolynomialCoeffs (S n)
                             (fun j => X (S j)) x n).
  { rewrite Lagrange_drop_first. fold a b. field. exact Hab. }
  (* the nodes in between *)
  assert (Emid : forall k, (k < n)%nat ->
            (b - a) * LagrangianPolynomialCoeffs (S (S n)) X x (S k)
            = (x - a) * LagrangianPolynomialCoeffs (S n)
                          (fun j => X (S j)) x k
              - (x - b) * LagrangianPolynomialCoeffs (S n) X x (S k)).
  { intros k Hk.
    pose proof (Lagrange_drop_first (S n) X x k) as E1.
    pose proof (Lagrange_drop_last (S n) X x (S k) ltac:(lia)) as E2.
    fold a in E1. fold b in E2.
    assert (Ha : X (S k) - a <> 0).
    { assert (X (S k) <> X 0%nat) by (apply HX; lia). unfold a. lra. }
    assert (Hb : X (S k) - b <> 0).
    { assert (X (S k) <> X (S n)) by (apply HX; lia). unfold b. lra. }
    set (Lf := LagrangianPolynomialCoeffs (S (S n)) X x (S k)) in *.
    set (L1 := LagrangianPolynomialCoeffs (S n) (fun j => X (S j)) x k) in *.
    set (L2 := LagrangianPolynomialCoeffs (S n) X x (S k)) in *.
    assert (F1 : (x - a) * L1 = (X (S k) - a) * Lf)
      by (rewrite E1; field; exact Ha).
    assert (F2 : (x - b) * L2 = (X (S k) - b) * Lf)
      by (rewrite E2; field; exact Hb).
    rewrite F1, F2. ring. }
  assert (Hsum : (b - a) * sumR n (fun j =>
                    F (S j) * LagrangianPolynomialCoeffs (S (S n)) X x (S j))
                 = (x - a) * sumR n (fun k => F (S k)
                     * LagrangianPolynomialCoeffs (S n) (fun j => X (S j)) x k)
                   - (x - b) * sumR n (fun j => F (S j)
                       * LagrangianPolynomialCoeffs (S n) X x (S j))).
  { rewrite <- !sumR_scal_l, <- sumR_minus. apply sumR_ext.
    intros k Hk.
    replace ((b - a) * (F (S k)
               * LagrangianPolynomialCoeffs (S (S n)) X x (S k)))
      with (F (S k) * ((b - a)
               * LagrangianPolynomialCoeffs (S (S n)) X x (S k))) by ring.
    rewrite Emid by exact Hk. ring. }
  assert (Tfull : sumR (S (S n)) (fun i =>
                    F i * LagrangianPolynomialCoeffs (S (S n)) X x i)
                  = F 0%nat * LagrangianPolynomialCoeffs (S (S n)) X x 0%nat
                    + sumR n (fun j => F (S j)
                        * LagrangianPolynomialCoeffs (S (S n)) X x (S j))
                    + F (S n)
                      * LagrangianPolynomialCoeffs (S (S n)) X x (S n)).
  { rewrite sumR_shift. cbn [sumR]. ring. }
  assert (Tup : sumR (S n) (fun k => F (S k)
                  * LagrangianPolynomialCoeffs (S n) (fun j => X (S j)) x k)
                = sumR n (fun k => F (S k)
                    * LagrangianPolynomialCoeffs (S n) (fun j => X (S j)) x k)
                  + F (S n) * LagrangianPolynomialCoeffs (S n)
                                (fun j => X (S j)) x n).
  { reflexivity. }
  assert (Tlow : sumR (S n) (fun i =>
                   F i * LagrangianPolynomialCoeffs (S n) X x i)
                 = F 0%nat * LagrangianPolynomialCoeffs (S n) X x 0%nat
                   + sumR n (fun j => F (S j)
                       * LagrangianPolynomialCoeffs (S n) X x (S j))).
  { apply sumR_shift. }
  rewrite Tfull, Tup, Tlow.
  replace ((b - a) *
           (F 0%nat * LagrangianPolynomialCoeffs (S (S n)) X x 0%nat +
            sumR n (fun j => F (S j)
                      * LagrangianPolynomialCoeffs (S (S n)) X x (S j)) +
            F (S n) * LagrangianPolynomialCoeffs (S (S n)) X x (S n)))
    with (F 0%nat * ((b - a) * LagrangianPolynomialCoeffs (S (S n)) X x 0%nat)
          + (b - a) * sumR n (fun j => F (S j)
                      * LagrangianPolynomialCoeffs (S (S n)) X x (S j))
          + F (S n) * ((b - a)
                       * LagrangianPolynomialCoeffs (S (S n)) X x (S n)))
    by ring.
  rewrite E0, En, Hsum. ring.
Qed.

(** With two nodes or more the interpolant of the coordinate is the
    coordinate. *)
Lemma Lagrange_reproduces_coordinate n : forall X x,
  distinct_nodes (S (S n)) X ->
  sumR (S (S n)) (fun i => X i * LagrangianPolynomialCoeffs (S (S n)) X x i)
  = x.
Proof.
  induction n as [|n IH]; intros X x HX.
  - unfold LagrangianPolynomialCoeffs. simpl.
    assert (X 0%nat <> X 1%nat) by (apply HX; lia). field. lra.
  - assert (Hab : X (S (S n)) - X 0%nat <> 0).
    { assert (X (S (S n)) <> X 0%nat) by (apply HX; lia). lra. }
    apply Rmult_eq_reg_l with (r := X (S (S n)) - X 0%nat); [|exact Hab].
    rewrite (Lagrange_Neville (S n) X x X HX).
    rewrite (IH (fun j => X (S j)))
      by (intros i j Hi Hj Hij; apply HX; lia).
    rewrite IH by (intros i j Hi Hj Hij; apply HX; lia).
    ring.
Qed.

Lemma Lagrange_coordinate n X x :
  (2 <= n)%nat -> distinct_nodes n X ->
  sumR n (fun i => X i * LagrangianPolynomialCoeffs n X x i) = x.
Proof.
  destruct n as [|[|n]]; try lia. intros _.
  apply Lagrange_reproduces_coordinate.
Qed.

Lemma derivable_pt_lim_scal_l (f : R -> R) c x l :
  derivable_pt_lim f x l -> derivable_pt_lim (fun y => c * f y) x (c * l).
Proof.
  intro H. apply (derivable_pt_lim_scal f c x l H).
Qed.

(** With two nodes or more the derivative coefficients return the slope 1
    on the coordinate. *)
Lemma DiffLagrange_coordinate n X x :
  (2 <= n)%nat -> distinct_nodes n X ->
  sumR n (fun i => X i * DiffLagrangianPolynomialCoeffs n X x i) = 1.
Proof.
  intros Hn HX.
  assert (D1 : derivable_pt_lim
                 (fun y => sumR n (fun i =>
                    X i * LagrangianPolynomialCoeffs n X y i)) x
                 (sumR n (fun i =>
                    X i * DiffLagrangianPolynomialCoeffs n X x i))).
  { apply (derivable_pt_lim_sumR n
             (fun y j => X j * LagrangianPolynomialCoeffs n X y j)
             (fun y j => X j * DiffLagrangianPolynomialCoeffs n X y j)).
    intros j _.
    apply (derivable_pt_lim_scal_l
             (fun y => LagrangianPolynomialCoeffs n X y j)).
    apply DiffLagrange_is_derivative. }
  assert (D2 : derivable_pt_lim
                 (fun y => sumR n (fun i =>
                    X i * LagrangianPolynomialCoeffs n X y i)) x 1).
  { apply derivable_pt_lim_ext with (f := fun y : R => y).
    - intro y. symmetry. now apply Lagrange_coordinate.
    - apply derivable_pt_lim_id. }
  exact (uniqueness_limite _ _ _ _ D1 D2).
Qed.

(** A window of coefficients applied to a column. *)
Lemma sumR_window_apply N off n v (w : nat -> R) :
  (off + n <= N)%nat ->
  sumR N (fun m => window off n v m * w m)
  = sumR n (fun k => v k * w (off + k)%nat).
Proof.
  intro H.
  rewrite (sumR_ext N _ (window off n (fun k => v k * w (off + k)%nat))).
  - now apply sumR_window.
  - intros m _. unfold window.
    destruct (Nat.leb_spec off m), (Nat.ltb_spec m (off + n)); cbn [andb];
      try ring.
    replace (off + (m - off))%nat with m by lia. reflexivity.
Qed.

End LinearReproduction.

Section CoordinateRows.

Import ColumnOperator.

Lemma sumR_indicator N k (w : nat -> R) :
  (k < N)%nat ->
  sumR N (fun m => (if Nat.eqb m k then 1 else 0) * w m) = w k.
Proof.
  intro Hk. induction N as [|N IH]; [lia|].
  cbn [sumR]. destruct (Nat.eqb_spec N k) as [->|Hne].
  - rewrite sumR_all_zero; [ring|].
    intros m Hm. destruct (Nat.eqb_spec m k); [lia | ring].
  - rewrite IH by lia. ring.
Qed.

Variable p : nat.
Variables Node REdge Out : list R.

Hypothesis HValid : ValidColumn p Node REdge.

(** Rows of the interpolation operator when no boundary row is skipped. *)
Lemma Interp_rows src :
  exists op,
    Interp_Initialize src p Node REdge Out false = Ok op /\
    nRowsIn op = match src with
                 | InterpSource_Interfaces => (length Node + 1)%nat
                 | InterpSource_Levels => length Node
                 end /\
    forall l, (l < length Out)%nat ->
      rows op l = InterpRow src p Node REdge Out l.
Proof.
  unfold Interp_Initialize.
  rewrite (proj1 (VerifyInput_spec p Node REdge _) HValid). cbv zeta.
  unfold Interp_lBegin, Interp_lEnd. cbn [andb].
  eexists. split; [reflexivity|]. split.
  - rewrite nRowsIn_for_loop_from. destruct src; reflexivity.
  - intros l Hl. rewrite rows_for_loop_from. rewrite Nat.sub_0_r.
    destruct (Nat.leb_spec 0 l); [|lia].
    destruct (Nat.ltb_spec l (0 + length Out)); [reflexivity | lia].
Qed.

Lemma InterpRow_Interfaces_values l (w : nat -> R) :
  StrictlyIncreasing REdge ->
  let found := FindElement REdge p (nth l Out 0) (length Node / p - 1) 0 in
  sumR (length Node + 1)
    (fun m => coeff (InterpRow InterpSource_Interfaces p Node REdge Out l) m
              * w m)
  = if snd found then w ((fst found + 1) * p)%nat
    else sumR (p + 1) (fun k =>
           LagrangianPolynomialCoeffs (p + 1) (ptr REdge (fst found * p))
             (nth l Out 0) k * w (fst found * p + k)%nat).
Proof.
  intros HREdge found.
  destruct (ValidColumn_elements _ _ _ HValid) as (Hp & HFE & HnIn).
  destruct (FindElement_bounds REdge p (nth l Out 0) (length Node / p - 1) 0)
    as [Hb Hon]. fold found in Hb, Hon.
  assert (Hin : forall e, (e < length Node / p)%nat ->
                  (e * p + (p + 1) <= length Node + 1)%nat).
  { intros e He. revert He HnIn. generalize (length Node / p)%nat.
    intros; nia. }
  destruct (snd found) eqn:Eon.
  - rewrite (sumR_ext _ _ (fun m =>
               (if Nat.eqb m ((fst found + 1) * p) then 1 else 0) * w m)).
    + apply sumR_indicator. destruct (Hon eq_refl) as (H1 & _).
      specialize (Hin (fst found + 1)%nat ltac:(lia)). lia.
    + intros m _. f_equal.
      apply (InterpRow_Interfaces_edge p Node REdge Out l m). exact Eon.
  - rewrite (sumR_ext _ _ (fun m =>
               window (fst found * p) (p + 1)
                 (LagrangianPolynomialCoeffs (p + 1)
                    (ptr REdge (fst found * p)) (nth l Out 0)) m * w m)).
    + apply sumR_window_apply. apply Hin. lia.
    + intros m _. f_equal. unfold InterpRow; cbv zeta. fold found.
      rewrite Eon. cbn [coeff]. apply write_on_zero.
Qed.

End CoordinateRows.

(** X9.  The interpolation operator from interfaces, assembled without
    fZeroBoundaries on a valid column with increasing interfaces.  A row
    whose point the search does not place on an interior element edge lies
    inside its bounds, which end within the nIn + 1 interface columns, its
    coefficients sum to one, so a constant column is reproduced, and applied
    to the column of interface coordinates it returns the output
    coordinate.  A row whose point is placed on an interior element edge
    holds the coefficient 1 at the shared interface, whose coordinate is
    within eps = 1e-12 of the point, and zero elsewhere; the bounds of that
    row are not set, they are as [LinearColumnOperator::Initialize] left
    them. *)
Theorem X9_interpolation_from_interfaces
    (p : nat) (Node REdge Out : list R) :
  ColumnOperator.ValidColumn p Node REdge ->
  ColumnOperator.StrictlyIncreasing REdge ->
  exists op,
    ColumnOperator.Interp_Initialize ColumnOperator.InterpSource_Interfaces
      p Node REdge Out false = Ok op /\
    ColumnOperator.nRowsIn op = (length Node + 1)%nat /\
    forall l, (l < length Out)%nat ->
      let found := ColumnOperator.FindElement REdge p (nth l Out 0)
                     (length Node / p - 1) 0 in
      let r := ColumnOperator.rows op l in
      (snd found = false ->
       ColumnOperator.Supported r /\
       (ColumnOperator.iBegin r <= ColumnOperator.iEnd r
          <= ColumnOperator.nRowsIn op)%nat /\
       ColumnOperator.RowSum op l = 1 /\
       ColumnOperator.RowValue op (fun m => nth m REdge 0) l = nth l Out 0) /\
      (snd found = true ->
       (forall m,
          ColumnOperator.coeff r m
          = if Nat.eqb m ((fst found + 1) * p) then 1 else 0) /\
       ((fst found + 1) * p < ColumnOperator.nRowsIn op)%nat /\
       ColumnOperator.iBegin r
         = ColumnOperator.iBegin ColumnOperator.ZeroRow /\
       ColumnOperator.iEnd r = ColumnOperator.iEnd ColumnOperator.ZeroRow /\
       Rabs (nth ((fst found + 1) * p) REdge 0 - nth l Out 0)
       <= ColumnOperator.ParamEpsilon).
Proof.
  intros HValid HREdge.
  destruct (Interp_rows p Node REdge Out HValid
              ColumnOperator.InterpSource_Interfaces) as (op & E & Hn & Hrows).
  exists op. split; [exact E|]. split; [exact Hn|]. intros l Hl found r.
  destruct (ValidColumn_elements _ _ _ HValid) as (Hp & HFE & HnIn).
  destruct HValid as (Hne & HlenE & Hmod).
  assert (HValid : ColumnOperator.ValidColumn p Node REdge)
    by (repeat split; assumption).
  destruct (FindElement_bounds REdge p (nth l Out 0) (length Node / p - 1) 0)
    as [Hb Hon]. fold found in Hb, Hon.
  assert (Hin : forall e, (e < length Node / p)%nat ->
                  (e * p + (p + 1) <= length Node + 1)%nat).
  { intros e He. revert He HnIn. generalize (length Node / p)%nat.
    intros; nia. }
  assert (Er : r = ColumnOperator.InterpRow
                     ColumnOperator.InterpSource_Interfaces p Node REdge
                     Out l).
  { unfold r. now apply Hrows. }
  split.
  - intro Eoff.
    assert (Hdist : ColumnOperator.distinct_nodes (p + 1)
                      (ColumnOperator.ptr REdge (fst found * p))).
    { apply ptr_distinct; [exact HREdge|]. rewrite HlenE.
      specialize (Hin (fst found) ltac:(lia)). lia. }
    assert (Ebounds : ColumnOperator.iBegin r = (fst found * p)%nat /\
                      ColumnOperator.iEnd r = ((fst found + 1) * p + 1)%nat /\
                      forall m, ColumnOperator.coeff r m
                        = ColumnOperator.window (fst found * p) (p + 1)
                            (ColumnOperator.LagrangianPolynomialCoeffs
                               (p + 1)
                               (ColumnOperator.ptr REdge (fst found * p))
                               (nth l Out 0)) m).
    { rewrite Er. unfold ColumnOperator.InterpRow; cbv zeta. fold found.
      rewrite Eoff. cbn [ColumnOperator.iBegin ColumnOperator.iEnd
                         ColumnOperator.coeff].
      repeat split. intro m. apply write_on_zero. }
    destruct Ebounds as (EB & EE & EC).
    split; [|split; [|split]].
    + intros m Hm. rewrite EB, EE in Hm. rewrite EC.
      apply window_out. lia.
    + rewrite EB, EE, Hn. specialize (Hin (fst found) ltac:(lia)). lia.
    + unfold ColumnOperator.RowSum, ColumnOperator.m_dCoeff.
      rewrite Hn, Hrows by exact Hl.
      rewrite (sumR_ext _ _ (fun m =>
                 ColumnOperator.coeff
                   (ColumnOperator.InterpRow
                      ColumnOperator.InterpSource_Interfaces p Node REdge
                      Out l) m * (fun _ => 1) m)) by (intros; ring).
      rewrite (InterpRow_Interfaces_values p Node REdge Out HValid l
                 (fun _ => 1) HREdge). fold found. rewrite Eoff.
      rewrite (sumR_ext _ _ (ColumnOperator.LagrangianPolynomialCoeffs (p + 1)
                 (ColumnOperator.ptr REdge (fst found * p)) (nth l Out 0)))
        by (intros; ring).
      apply Lagrange_sum; [lia | exact Hdist].
    + unfold ColumnOperator.RowValue, ColumnOperator.m_dCoeff.
      rewrite Hn, Hrows by exact Hl.
      rewrite (InterpRow_Interfaces_values p Node REdge Out HValid l
                 (fun m => nth m REdge 0) HREdge). fold found. rewrite Eoff.
      rewrite (sumR_ext _ _ (fun k =>
                 ColumnOperator.ptr REdge (fst found * p) k
                 * ColumnOperator.LagrangianPolynomialCoeffs (p + 1)
                     (ColumnOperator.ptr REdge (fst found * p))
                     (nth l Out 0) k))
        by (intros; unfold ColumnOperator.ptr; ring).
      apply Lagrange_coordinate; [lia | exact Hdist].
  - intro Eon.
    destruct (Hon Eon) as (H1 & H2 & H3).
    split; [|split; [|split; [|split]]].
    + intro m. rewrite Er.
      apply (InterpRow_Interfaces_edge p Node REdge Out l m). exact Eon.
    + rewrite Hn. specialize (Hin (fst found + 1)%nat ltac:(lia)). lia.
    + rewrite Er. unfold ColumnOperator.InterpRow; cbv zeta. fold found.
      rewrite Eon. reflexivity.
    + rewrite Er. unfold ColumnOperator.InterpRow; cbv zeta. fold found.
      rewrite Eon. reflexivity.
    + unfold ColumnOperator.ParamEpsilon in *. apply Rabs_le. lra.
Qed.

Lemma X9_interpolation_from_interfaces_witness :
  exists op,
    ColumnOperator.Interp_Initialize ColumnOperator.InterpSource_Interfaces
      1 TwoLevelNodes TwoLevelEdges [0.25; 0.5] false = Ok op /\
    ColumnOperator.RowSum op 0 = 1 /\
    ColumnOperator.m_dCoeff op 1 1 = 1 /\
    ColumnOperator.iEnd (ColumnOperator.rows op 1) = 0%nat.
Proof.
  destruct (X9_interpolation_from_interfaces 1 TwoLevelNodes TwoLevelEdges
              [0.25; 0.5] TwoLevel_valid TwoLevelEdges_increasing)
    as (op & E & _ & H).
  exists op. split; [exact E|].
  assert (H0 : (0 < length [0.25%R; 0.5%R])%nat) by (simpl; lia).
  assert (H1 : (1 < length [0.25%R; 0.5%R])%nat) by (simpl; lia).
  pose proof (H 0%nat H0) as [Hoff _].
  pose proof (H 1%nat H1) as [_ Hedge].
  cbv zeta in Hoff, Hedge.
  change (nth 0 [0.25; 0.5] 0) with 0.25 in Hoff.
  change (nth 1 [0.25; 0.5] 0) with 0.5 in Hedge.
  change (length TwoLevelNodes / 1 - 1)%nat with 1%nat in Hoff, Hedge.
  rewrite FindElement_TwoLevel_quarter in Hoff.
  rewrite FindElement_TwoLevel_half in Hedge.
  destruct (Hoff eq_refl) as (_ & _ & Hsum & _).
  destruct (Hedge eq_refl) as (Hc & _ & _ & HE & _).
  split; [exact Hsum|]. split.
  - unfold ColumnOperator.m_dCoeff. rewrite Hc. reflexivity.
  - exact HE.
Defined.

Section LevelRows.

Import ColumnOperator.

Variable p : nat.
Variables Node REdge Out : list R.

Hypothesis HValid : ValidColumn p Node REdge.
Hypothesis Hp2 : (2 <= p)%nat.
Hypothesis HNode : StrictlyIncreasing Node.
Hypothesis HREdge : StrictlyIncreasing REdge.

Lemma InterpRow_Levels_values l (w : nat -> R) :
  let found := FindElement REdge p (nth l Out 0) (length Node / p - 1) 0 in
  let one_sided := fun e =>
    sumR p (fun k =>
      LagrangianPolynomialCoeffs p (ptr Node (e * p)) (nth l Out 0) k
      * w (e * p + k)%nat) in
  sumR (length Node)
    (fun m => coeff (InterpRow InterpSource_Levels p Node REdge Out l) m
              * w m)
  = if snd found then
      dWeightL (nth ((fst found + 1) * p) REdge 0
                - nth (fst found * p) REdge 0)
               (nth ((fst found + 2) * p) REdge 0
                - nth ((fst found + 1) * p) REdge 0) p
      * one_sided (fst found)
      + dWeightR (nth ((fst found + 1) * p) REdge 0
                  - nth (fst found * p) REdge 0)
                 (nth ((fst found + 2) * p) REdge 0
                  - nth ((fst found + 1) * p) REdge 0) p
        * one_sided (fst found + 1)%nat
    else one_sided (fst found).
Proof.
  intros found one_sided.
  destruct (ValidColumn_elements _ _ _ HValid) as (Hp & HFE & HnIn).
  destruct (FindElement_bounds REdge p (nth l Out 0) (length Node / p - 1) 0)
    as [Hb Hon]. fold found in Hb, Hon.
  assert (Hin : forall e, (e < length Node / p)%nat ->
                  (e * p + p <= length Node)%nat).
  { intros e He. revert He HnIn. generalize (length Node / p)%nat.
    intros; nia. }
  destruct (snd found) eqn:Eon.
  - destruct (Hon eq_refl) as (H1 & _).
    rewrite (sumR_ext _ _ (fun m =>
               WeightedEdgeRow LagrangianPolynomialCoeffs p Node REdge p
                 (fst found) (nth l Out 0) m * w m)).
    + unfold WeightedEdgeRow.
      rewrite (sumR_ext _ _ (fun m =>
        dWeightL (nth ((fst found + 1) * p) REdge 0
                  - nth (fst found * p) REdge 0)
                 (nth ((fst found + 2) * p) REdge 0
                  - nth ((fst found + 1) * p) REdge 0) p
        * (window (fst found * p) p
             (LagrangianPolynomialCoeffs p (ptr Node (fst found * p))
                (nth l Out 0)) m * w m)
        + dWeightR (nth ((fst found + 1) * p) REdge 0
                    - nth (fst found * p) REdge 0)
                   (nth ((fst found + 2) * p) REdge 0
                    - nth ((fst found + 1) * p) REdge 0) p
          * (window ((fst found + 1) * p) p
               (LagrangianPolynomialCoeffs p
                  (ptr Node ((fst found + 1) * p)) (nth l Out 0)) m * w m)))
        by (intros; ring).
      rewrite sumR_plus, !sumR_scal_l.
      rewrite !sumR_window_apply by (apply Hin; lia).
      reflexivity.
    + intros m _. f_equal.
      apply (InterpRow_Levels_edge p Node REdge Out l m);
        [exact Eon | left; lia].
  - rewrite (sumR_ext _ _ (fun m =>
               window (fst found * p) p
                 (LagrangianPolynomialCoeffs p (ptr Node (fst found * p))
                    (nth l Out 0)) m * w m)).
    + apply sumR_window_apply. apply Hin. lia.
    + intros m _. f_equal. unfold InterpRow; cbv zeta. fold found.
      rewrite Eon.
      destruct (Nat.eqb_spec p 1); [lia|]. cbn [andb coeff].
      apply write_on_zero.
Qed.

Lemma one_sided_coordinate e x :
  (e < length Node / p)%nat ->
  sumR p (fun k =>
    LagrangianPolynomialCoeffs p (ptr Node (e * p)) x k
    * nth (e * p + k) Node 0) = x.
Proof.
  intro He.
  destruct (ValidColumn_elements _ _ _ HValid) as (Hp & HFE & HnIn).
  rewrite (sumR_ext _ _ (fun k =>
             ptr Node (e * p) k
             * LagrangianPolynomialCoeffs p (ptr Node (e * p)) x k))
    by (intros; unfold ptr; ring).
  apply Lagrange_coordinate; [exact Hp2|].
  apply ptr_distinct; [exact HNode|].
  revert He HnIn. generalize (length Node / p)%nat. intros; nia.
Qed.

End LevelRows.

Lemma Interp_Levels_reproduces (p : nat) (Node REdge Out : list R) :
  ColumnOperator.ValidColumn p Node REdge ->
  (2 <= p)%nat ->
  ColumnOperator.StrictlyIncreasing Node ->
  ColumnOperator.StrictlyIncreasing REdge ->
  exists op,
    ColumnOperator.Interp_Initialize ColumnOperator.InterpSource_Levels
      p Node REdge Out false = Ok op /\
    ColumnOperator.nRowsIn op = length Node /\
    forall l, (l < length Out)%nat ->
      ColumnOperator.RowSum op l = 1 /\
      ColumnOperator.RowValue op (fun m => nth m Node 0) l = nth l Out 0.
Proof.
  intros HValid Hp2 HNode HREdge.
  destruct (Interp_rows p Node REdge Out HValid
              ColumnOperator.InterpSource_Levels) as (op & E & Hn & Hrows).
  exists op. split; [exact E|]. split; [exact Hn|]. intros l Hl.
  destruct (ValidColumn_elements _ _ _ HValid) as (Hp & HFE & HnIn).
  pose proof HValid as (Hne & HlenE & Hmod).
  split.
  - unfold ColumnOperator.RowSum, ColumnOperator.m_dCoeff.
    rewrite Hn, Hrows by exact Hl.
    apply InterpRow_Levels_sum; auto; intros; lia.
  - unfold ColumnOperator.RowValue, ColumnOperator.m_dCoeff.
    rewrite Hn, Hrows by exact Hl.
    rewrite (InterpRow_Levels_values p Node REdge Out HValid Hp2 l
               (fun m => nth m Node 0)). cbv zeta.
    destruct (FindElement_bounds REdge p (nth l Out 0)
                (length Node / p - 1) 0) as [Hb Hon].
    set (found := ColumnOperator.FindElement REdge p (nth l Out 0)
                    (length Node / p - 1) 0) in *.
    destruct (snd found) eqn:Eon.
    + destruct (Hon eq_refl) as (H1 & _).
      rewrite !(one_sided_coordinate p Node REdge HValid Hp2 HNode) by lia.
      rewrite <- Rmult_plus_distr_r.
      rewrite (edge_weights_sum p Node REdge Hp HnIn HFE HREdge HlenE) by lia.
      ring.
    + apply (one_sided_coordinate p Node REdge HValid Hp2 HNode). lia.
Qed.


(** X10.  The interpolation operator from levels of order two or more,
    assembled without fZeroBoundaries on a valid column with increasing
    levels and interfaces: every row sums to one, and every row applied to
    the column of level coordinates returns the output coordinate, also on
    an interior element edge, where the two one-sided interpolants are
    averaged. *)
Theorem X10_interpolation_from_levels
    (p : nat) (Node REdge Out : list R) :
  ColumnOperator.ValidColumn p Node REdge ->
  (2 <= p)%nat ->
  ColumnOperator.StrictlyIncreasing Node ->
  ColumnOperator.StrictlyIncreasing REdge ->
  exists op,
    ColumnOperator.Interp_Initialize ColumnOperator.InterpSource_Levels
      p Node REdge Out false = Ok op /\
    forall l, (l < length Out)%nat ->
      ColumnOperator.RowSum op l = 1 /\
      ColumnOperator.RowValue op (fun m => nth m Node 0) l = nth l Out 0.
Proof.
  intros HValid Hp2 HNode HREdge.
  destruct (Interp_Levels_reproduces p Node REdge Out HValid Hp2 HNode HREdge)
    as (op & E & _ & H).
  exists op. split; assumption.
Qed.

Lemma X10_interpolation_from_levels_witness :
  exists op,
    ColumnOperator.Interp_Initialize ColumnOperator.InterpSource_Levels
      2 TwoLevelNodes TwoLevelEdges [0.5] false = Ok op /\
    ColumnOperator.RowValue op (fun m => nth m TwoLevelNodes 0) 0 = 0.5.
Proof.
  assert (HV : ColumnOperator.ValidColumn 2 TwoLevelNodes TwoLevelEdges).
  { repeat split. simpl. discriminate. }
  destruct (X10_interpolation_from_levels 2 TwoLevelNodes TwoLevelEdges
              [0.5] HV (le_n 2) TwoLevelNodes_increasing
              TwoLevelEdges_increasing) as (op & E & H).
  exists op. split; [exact E|].
  apply (H 0%nat). simpl. lia.
Defined.

Section SlopeRows.

Import ColumnOperator.

Lemma RowValue_ComposeWith (D I : LinearColumnOperator) (w : nat -> R) l :
  RowValue (ComposeWith D I) w l
  = sumR (nRowsIn D) (fun m => m_dCoeff D l m * RowValue I w m).
Proof.
  unfold RowValue, ComposeWith, m_dCoeff; cbn [nRowsIn rows coeff].
  rewrite (sumR_ext _ _ (fun k =>
             sumR (nRowsIn D) (fun m =>
               coeff (rows D l) m * (coeff (rows I m) k * w k)))).
  - rewrite sumR_swap. apply sumR_ext. intros m _.
    now rewrite sumR_scal_l.
  - intros k _. rewrite <- sumR_scal_r. apply sumR_ext. intros; ring.
Qed.

Variable p : nat.
Variables Node REdge Out : list R.

Hypothesis HValid : ValidColumn p Node REdge.
Hypothesis HREdge : StrictlyIncreasing REdge.

Lemma InterfaceMethodRow_slope l :
  sumR (length Node + 1)
    (fun m => coeff (InterfaceMethodRow p Node REdge Out l) m
              * nth m REdge 0) = 1.
Proof.
  destruct (ValidColumn_elements _ _ _ HValid) as (Hp & HFE & HnIn).
  pose proof HValid as (_ & HlenE & _).
  destruct (FindElement_bounds REdge p (nth l Out 0) (length Node / p - 1) 0)
    as [Hb Hon].
  rewrite (sumR_ext _ _ _ (fun m _ =>
             f_equal (fun c => c * nth m REdge 0)
               (InterfaceMethodRow_coeff p Node REdge Out l m))).
  cbv zeta.
  set (found := FindElement REdge p (nth l Out 0) (length Node / p - 1) 0)
    in *.
  set (a := fst found) in *.
  assert (Hin : forall e, (e < length Node / p)%nat ->
                  (e * p + (p + 1) <= length Node + 1)%nat).
  { intros e He. revert He HnIn. generalize (length Node / p)%nat.
    intros; nia. }
  assert (Hwin : forall e, (e < length Node / p)%nat ->
            sumR (length Node + 1) (fun m =>
              window (e * p) (p + 1)
                (DiffLagrangianPolynomialCoeffs (p + 1) (ptr REdge (e * p))
                   (nth l Out 0)) m * nth m REdge 0) = 1).
  { intros e He. rewrite sumR_window_apply by (now apply Hin).
    rewrite (sumR_ext _ _ (fun k =>
               ptr REdge (e * p) k
               * DiffLagrangianPolynomialCoeffs (p + 1) (ptr REdge (e * p))
                   (nth l Out 0) k))
      by (intros; unfold ptr; ring).
    apply DiffLagrange_coordinate; [lia|].
    apply ptr_distinct; [exact HREdge|]. rewrite HlenE. now apply Hin. }
  destruct (snd found) eqn:Eon.
  - destruct (Hon eq_refl) as (H1 & _).
    unfold WeightedEdgeRow.
    rewrite (sumR_ext _ _ (fun m =>
      dWeightL (nth ((a + 1) * p) REdge 0 - nth (a * p) REdge 0)
               (nth ((a + 2) * p) REdge 0 - nth ((a + 1) * p) REdge 0) p
      * (window (a * p) (p + 1)
           (DiffLagrangianPolynomialCoeffs (p + 1) (ptr REdge (a * p))
              (nth l Out 0)) m * nth m REdge 0)
      + dWeightR (nth ((a + 1) * p) REdge 0 - nth (a * p) REdge 0)
                 (nth ((a + 2) * p) REdge 0 - nth ((a + 1) * p) REdge 0) p
        * (window ((a + 1) * p) (p + 1)
             (DiffLagrangianPolynomialCoeffs (p + 1)
                (ptr REdge ((a + 1) * p)) (nth l Out 0)) m
           * nth m REdge 0)))
      by (intros; ring).
    rewrite sumR_plus, !sumR_scal_l, !Hwin by lia.
    rewrite !Rmult_1_r.
    apply (edge_weights_sum p Node REdge Hp HnIn HFE HREdge HlenE). lia.
  - apply Hwin. lia.
Qed.

End SlopeRows.

(** X11.  The interface-method derivative operator returns the slope 1 on
    the coordinate itself.  On a valid column with increasing interfaces the
    operator from interfaces, applied to the column of interface
    coordinates, gives 1 in every row; and for order two or more with
    increasing levels, the operator from levels assembled without
    fZeroBoundaries, applied to the column of level coordinates, gives 1 in
    every row. *)
Theorem X11_interface_method_slope
    (p : nat) (Node REdge Out : list R) (fZero : bool) :
  ColumnOperator.ValidColumn p Node REdge ->
  ColumnOperator.StrictlyIncreasing REdge ->
  (exists op,
     ColumnOperator.InitializeInterfaceMethod
       ColumnOperator.InterpSource_Interfaces p Node REdge Out fZero = Ok op /\
     forall l, (l < length Out)%nat ->
       ColumnOperator.RowValue op (fun m => nth m REdge 0) l = 1)
  /\
  ((2 <= p)%nat -> ColumnOperator.StrictlyIncreasing Node ->
   exists op,
     ColumnOperator.InitializeInterfaceMethod
       ColumnOperator.InterpSource_Levels p Node REdge Out false = Ok op /\
     forall l, (l < length Out)%nat ->
       ColumnOperator.RowValue op (fun m => nth m Node 0) l = 1).
Proof.
  intros HValid HREdge.
  assert (HD : forall l, (l < length Out)%nat ->
    let D := for_loop (length Out) (fun l op =>
               ColumnOperator.set_row op l
                 (ColumnOperator.InterfaceMethodRow p Node REdge Out l))
               (ColumnOperator.Initialize_LinearColumnOperator
                  (length Node + 1) (length Out)) in
    ColumnOperator.nRowsIn D = (length Node + 1)%nat /\
    ColumnOperator.RowValue D (fun m => nth m REdge 0) l = 1).
  { intros l Hl D.
    assert (Hn : ColumnOperator.nRowsIn D = (length Node + 1)%nat).
    { unfold D. now rewrite nRowsIn_for_loop. }
    split; [exact Hn|].
    unfold ColumnOperator.RowValue, ColumnOperator.m_dCoeff.
    rewrite Hn. unfold D. rewrite rows_for_loop.
    destruct (Nat.ltb_spec l (length Out)); [|lia].
    now apply InterfaceMethodRow_slope. }
  split.
  - unfold ColumnOperator.InitializeInterfaceMethod.
    rewrite (proj1 (VerifyInput_spec p Node REdge _) HValid). cbv zeta.
    eexists. split; [reflexivity|].
    intros l Hl. apply (HD l Hl).
  - intros Hp2 HNode.
    destruct (Interp_Levels_reproduces p Node REdge REdge HValid Hp2 HNode
                HREdge) as (opI & EI & HnI & HI).
    unfold ColumnOperator.InitializeInterfaceMethod.
    rewrite (proj1 (VerifyInput_spec p Node REdge _) HValid). cbv zeta.
    rewrite EI. cbn [bind].
    eexists. split; [reflexivity|].
    intros l Hl. rewrite RowValue_ComposeWith.
    destruct (HD l Hl) as [Hn Hval]. cbv zeta in Hn, Hval.
    rewrite Hn. eapply eq_trans; [|exact Hval].
    unfold ColumnOperator.RowValue at 2. rewrite Hn.
    apply sumR_ext. intros m Hm. f_equal.
    apply HI. pose proof HValid as (_ & HlenE & _). lia.
Qed.

Lemma X11_interface_method_slope_witness :
  exists op,
    ColumnOperator.InitializeInterfaceMethod
      ColumnOperator.InterpSource_Interfaces 1 TwoLevelNodes TwoLevelEdges
      TwoLevelNodes true = Ok op /\
    ColumnOperator.RowValue op (fun m => nth m TwoLevelEdges 0) 0 = 1.
Proof.
  destruct (X11_interface_method_slope 1 TwoLevelNodes TwoLevelEdges
              TwoLevelNodes true TwoLevel_valid TwoLevelEdges_increasing)
    as ((op & E & H) & _).
  exists op. split; [exact E|]. apply H. simpl. lia.
Defined.

(** X12.  fZeroBoundaries in [LinearColumnInterpFEM::Initialize].  On a
    valid column and a non-empty output vector, with the flag set: if the
    first output coordinate is within eps of 0 its row is left zero; if the
    last output coordinate is within eps of 1 its row is left zero; every
    row strictly between the first and the last is the row computed without
    the flag (eps = 1e-12). *)
Theorem X12_zero_boundaries
    (src : ColumnOperator.InterpSource) (p : nat)
    (Node REdge Out : list R) :
  ColumnOperator.ValidColumn p Node REdge ->
  (0 < length Out)%nat ->
  exists op,
    ColumnOperator.Interp_Initialize src p Node REdge Out true = Ok op /\
    (Rabs (nth 0 Out 0) < ColumnOperator.ParamEpsilon ->
     forall m, ColumnOperator.m_dCoeff op 0 m = 0) /\
    (Rabs (nth (length Out - 1) Out 0 - 1) < ColumnOperator.ParamEpsilon ->
     forall m, ColumnOperator.m_dCoeff op (length Out - 1) m = 0) /\
    (forall l, (0 < l < length Out - 1)%nat ->
       ColumnOperator.rows op l
       = ColumnOperator.InterpRow src p Node REdge Out l).
Proof.
  intros HValid Hout.
  unfold ColumnOperator.Interp_Initialize.
  rewrite (proj1 (VerifyInput_spec p Node REdge _) HValid). cbv zeta.
  eexists. split; [reflexivity|].
  unfold ColumnOperator.Interp_lBegin, ColumnOperator.Interp_lEnd.
  cbn [andb].
  replace (nth (length Out - 1) Out 0 - 1.0)
    with (nth (length Out - 1) Out 0 - 1) by lra.
  split; [|split].
  - intros H0 m. unfold ColumnOperator.m_dCoeff.
    rewrite rows_for_loop_from.
    destruct (Rlt_dec (Rabs (nth 0 Out 0)) ColumnOperator.ParamEpsilon);
      [|contradiction].
    cbn [Nat.leb andb]. destruct src; reflexivity.
  - intros H1 m. unfold ColumnOperator.m_dCoeff.
    rewrite rows_for_loop_from.
    destruct (Rlt_dec (Rabs (nth (length Out - 1) Out 0 - 1))
                ColumnOperator.ParamEpsilon); [|contradiction].
    destruct (Rlt_dec (Rabs (nth 0 Out 0)) ColumnOperator.ParamEpsilon);
      destruct (Nat.leb_spec 1 (length Out - 1)),
        (Nat.leb_spec 0 (length Out - 1));
      try lia;
      match goal with
      | |- context [Nat.ltb ?x ?y] => destruct (Nat.ltb_spec x y)
      end; cbn [andb]; try lia; destruct src; reflexivity.
  - intros l Hl. rewrite rows_for_loop_from.
    destruct (Rlt_dec (Rabs (nth 0 Out 0)) ColumnOperator.ParamEpsilon);
      destruct (Rlt_dec (Rabs (nth (length Out - 1) Out 0 - 1))
                  ColumnOperator.ParamEpsilon);
      match goal with
      | |- context [Nat.leb ?x ?y] => destruct (Nat.leb_spec x y)
      end;
      match goal with
      | |- context [Nat.ltb ?x ?y] => destruct (Nat.ltb_spec x y)
      end; cbn [andb]; try lia; reflexivity.
Qed.

Lemma X12_zero_boundaries_witness :
  exists op,
    ColumnOperator.Interp_Initialize ColumnOperator.InterpSource_Levels 1
      TwoLevelNodes TwoLevelEdges TwoLevelEdges true = Ok op /\
    forall m, ColumnOperator.m_dCoeff op 0 m = 0.
Proof.
  destruct (X12_zero_boundaries ColumnOperator.InterpSource_Levels 1
              TwoLevelNodes TwoLevelEdges TwoLevelEdges TwoLevel_valid)
    as (op & E & H0 & _).
  { simpl. lia. }
  exists op. split; [exact E|]. apply H0.
  simpl. rewrite Rabs_R0. unfold ColumnOperator.ParamEpsilon. lra.
Defined.

(** *** The first derivative on the nodes of the elements *)

Section DiffGLLFacts.

Import ColumnOperator.

Variable p : nat.
Variables Node Out : list R.

Let nFE := ((length Node - 1) / (p - 1))%nat.

Lemma Diff_GLLNodesRow_coeff l m :
  let found := FindElement Node (p - 1) (nth l Out 0) (nFE - 1) 0 in
  coeff (Diff_GLLNodesRow p Node Out l) m
  = if snd found then
      WeightedEdgeRow DiffLagrangianPolynomialCoeffs p Node Node (p - 1)
        (fst found) (nth l Out 0) m
    else
      window (fst found * (p - 1)) p
        (DiffLagrangianPolynomialCoeffs p
           (ptr Node (fst found * (p - 1))) (nth l Out 0)) m.
Proof.
  intro found. unfold Diff_GLLNodesRow; cbv zeta. fold nFE. fold found.
  destruct (snd found); cbn [coeff].
  - rewrite add_coeffs_spec, scale_coeffs_spec, write_on_zero.
    rewrite scaled_window. unfold WeightedEdgeRow. reflexivity.
  - apply write_on_zero.
Qed.

Lemma Diff_GLLNodesRow_bounds l :
  let found := FindElement Node (p - 1) (nth l Out 0) (nFE - 1) 0 in
  iBegin (Diff_GLLNodesRow p Node Out l) = (fst found * (p - 1))%nat /\
  iEnd (Diff_GLLNodesRow p Node Out l)
  = if snd found then ((fst found + 2) * (p - 1) + 1)%nat
    else ((fst found + 1) * (p - 1) + 1)%nat.
Proof.
  intro found. unfold Diff_GLLNodesRow; cbv zeta. fold nFE. fold found.
  destruct (snd found); split; reflexivity.
Qed.

Hypothesis HValid : ValidGLLColumn p Node.
Hypothesis HNode : StrictlyIncreasing Node.

Lemma ValidGLLColumn_elements :
  (0 < nFE)%nat /\ (length Node - 1 = nFE * (p - 1))%nat.
Proof.
  destruct HValid as (Hp & Hlen & Hmod).
  assert (E : (length Node - 1 = nFE * (p - 1))%nat).
  { unfold nFE. rewrite Nat.mul_comm. apply Nat.Div0.div_exact. exact Hmod. }
  split; [|exact E].
  destruct nFE; [|lia]. simpl in E. lia.
Qed.

Lemma GLL_window_inside e :
  (e < nFE)%nat -> (e * (p - 1) + p <= length Node)%nat.
Proof.
  intro He. destruct ValidGLLColumn_elements as [_ E].
  destruct HValid as (Hp & Hlen & _).
  revert He E. generalize nFE. intros n He E. nia.
Qed.

Lemma GLL_window_distinct e :
  (e < nFE)%nat -> distinct_nodes p (ptr Node (e * (p - 1))).
Proof.
  intro He. apply ptr_distinct; [exact HNode | now apply GLL_window_inside].
Qed.

Lemma GLL_weights_sum a :
  (a + 1 < nFE)%nat ->
  dWeightL (nth ((a + 1) * (p - 1)) Node 0 - nth (a * (p - 1)) Node 0)
           (nth ((a + 2) * (p - 1)) Node 0 - nth ((a + 1) * (p - 1)) Node 0)
           (p - 1)
  + dWeightR (nth ((a + 1) * (p - 1)) Node 0 - nth (a * (p - 1)) Node 0)
             (nth ((a + 2) * (p - 1)) Node 0
              - nth ((a + 1) * (p - 1)) Node 0) (p - 1)
  = 1.
Proof.
  intro Ha. destruct HValid as (Hp & Hlen & _).
  pose proof (GLL_window_inside (a + 1)%nat Ha) as Hin.
  assert (H1 : nth (a * (p - 1)) Node 0 < nth ((a + 1) * (p - 1)) Node 0)
    by (apply HNode; nia).
  assert (H2 : nth ((a + 1) * (p - 1)) Node 0
               < nth ((a + 2) * (p - 1)) Node 0)
    by (apply HNode; nia).
  apply error_weights; lra.
Qed.

(** A row of the operator applied to a column [w]. *)
Lemma Diff_GLLNodesRow_values l (w : nat -> R) :
  let found := FindElement Node (p - 1) (nth l Out 0) (nFE - 1) 0 in
  let one_sided := fun e =>
    sumR p (fun k =>
      DiffLagrangianPolynomialCoeffs p (ptr Node (e * (p - 1)))
        (nth l Out 0) k * w (e * (p - 1) + k)%nat) in
  sumR (length Node)
    (fun m => coeff (Diff_GLLNodesRow p Node Out l) m * w m)
  = if snd found then
      dWeightL (nth ((fst found + 1) * (p - 1)) Node 0
                - nth (fst found * (p - 1)) Node 0)
               (nth ((fst found + 2) * (p - 1)) Node 0
                - nth ((fst found + 1) * (p - 1)) Node 0) (p - 1)
      * one_sided (fst found)
      + dWeightR (nth ((fst found + 1) * (p - 1)) Node 0
                  - nth (fst found * (p - 1)) Node 0)
                 (nth ((fst found + 2) * (p - 1)) Node 0
                  - nth ((fst found + 1) * (p - 1)) Node 0) (p - 1)
        * one_sided (fst found + 1)%nat
    else one_sided (fst found).
Proof.
  intros found one_sided.
  destruct (FindElement_bounds Node (p - 1) (nth l Out 0) (nFE - 1) 0)
    as [Hb Hon]. fold found in Hb, Hon.
  destruct ValidGLLColumn_elements as [HFE _].
  rewrite (sumR_ext _ _ _ (fun m _ =>
             f_equal (fun c => c * w m) (Diff_GLLNodesRow_coeff l m))).
  cbv zeta. fold found.
  destruct (snd found) eqn:Eon.
  - destruct (Hon eq_refl) as (H1 & _).
    unfold WeightedEdgeRow.
    rewrite (sumR_ext _ _ (fun m =>
      dWeightL (nth ((fst found + 1) * (p - 1)) Node 0
                - nth (fst found * (p - 1)) Node 0)
               (nth ((fst found + 2) * (p - 1)) Node 0
                - nth ((fst found + 1) * (p - 1)) Node 0) (p - 1)
      * (window (fst found * (p - 1)) p
           (DiffLagrangianPolynomialCoeffs p
              (ptr Node (fst found * (p - 1))) (nth l Out 0)) m * w m)
      + dWeightR (nth ((fst found + 1) * (p - 1)) Node 0
                  - nth (fst found * (p - 1)) Node 0)
                 (nth ((fst found + 2) * (p - 1)) Node 0
                  - nth ((fst found + 1) * (p - 1)) Node 0) (p - 1)
        * (window ((fst found + 1) * (p - 1)) p
             (DiffLagrangianPolynomialCoeffs p
                (ptr Node ((fst found + 1) * (p - 1))) (nth l Out 0)) m
           * w m)))
      by (intros; ring).
    rewrite sumR_plus, !sumR_scal_l.
    rewrite !sumR_window_apply by (apply GLL_window_inside; lia).
    reflexivity.
  - apply sumR_window_apply. apply GLL_window_inside. lia.
Qed.

Lemma Diff_GLLNodesRow_sum l :
  sumR (length Node) (coeff (Diff_GLLNodesRow p Node Out l)) = 0.
Proof.
  destruct (FindElement_bounds Node (p - 1) (nth l Out 0) (nFE - 1) 0)
    as [Hb Hon].
  destruct ValidGLLColumn_elements as [HFE _].
  destruct HValid as (Hp & _).
  rewrite (sumR_ext _ _ (fun m =>
             coeff (Diff_GLLNodesRow p Node Out l) m * (fun _ => 1) m))
    by (intros; ring).
  rewrite Diff_GLLNodesRow_values. cbv zeta.
  assert (Hone : forall e, (e < nFE)%nat ->
            sumR p (fun k =>
              DiffLagrangianPolynomialCoeffs p (ptr Node (e * (p - 1)))
                (nth l Out 0) k * 1) = 0).
  { intros e He.
    rewrite (sumR_ext _ _ (DiffLagrangianPolynomialCoeffs p
               (ptr Node (e * (p - 1))) (nth l Out 0))) by (intros; ring).
    apply DiffLagrange_sum; [lia | now apply GLL_window_distinct]. }
  destruct (snd _) eqn:Eon.
  - destruct (Hon eq_refl) as (H1 & _). rewrite !Hone by lia. ring.
  - apply Hone. lia.
Qed.

Lemma Diff_GLLNodesRow_slope l :
  sumR (length Node)
    (fun m => coeff (Diff_GLLNodesRow p Node Out l) m * nth m Node 0) = 1.
Proof.
  destruct (FindElement_bounds Node (p - 1) (nth l Out 0) (nFE - 1) 0)
    as [Hb Hon].
  destruct ValidGLLColumn_elements as [HFE _].
  destruct HValid as (Hp & _).
  rewrite (Diff_GLLNodesRow_values l (fun m => nth m Node 0)). cbv zeta.
  assert (Hone : forall e, (e < nFE)%nat ->
            sumR p (fun k =>
              DiffLagrangianPolynomialCoeffs p (ptr Node (e * (p - 1)))
                (nth l Out 0) k * nth (e * (p - 1) + k) Node 0) = 1).
  { intros e He.
    rewrite (sumR_ext _ _ (fun k =>
               ptr Node (e * (p - 1)) k
               * DiffLagrangianPolynomialCoeffs p
                   (ptr Node (e * (p - 1))) (nth l Out 0) k))
      by (intros; unfold ptr; ring).
    apply DiffLagrange_coordinate; [lia | now apply GLL_window_distinct]. }
  destruct (snd _) eqn:Eon.
  - destruct (Hon eq_refl) as (H1 & _). rewrite !Hone by lia.
    rewrite !Rmult_1_r. apply GLL_weights_sum. lia.
  - apply Hone. lia.
Qed.

Lemma Diff_GLLNodesRow_supported l :
  Supported (Diff_GLLNodesRow p Node Out l) /\
  (iBegin (Diff_GLLNodesRow p Node Out l)
   <= iEnd (Diff_GLLNodesRow p Node Out l) <= length Node)%nat.
Proof.
  destruct (Diff_GLLNodesRow_bounds l) as [EB EE]. cbv zeta in EB, EE.
  destruct (FindElement_bounds Node (p - 1) (nth l Out 0) (nFE - 1) 0)
    as [Hb Hon].
  destruct ValidGLLColumn_elements as [HFE _].
  destruct HValid as (Hp & _).
  split.
  - intros m Hm. rewrite EB, EE in Hm.
    rewrite Diff_GLLNodesRow_coeff. cbv zeta.
    destruct (snd _).
    + unfold WeightedEdgeRow. rewrite !window_out by lia. ring.
    + apply window_out. lia.
  - rewrite EB, EE.
    set (found := FindElement Node (p - 1) (nth l Out 0) (nFE - 1) 0) in *.
    destruct (snd found) eqn:Eon.
    + destruct (Hon eq_refl) as (H1 & _).
      pose proof (GLL_window_inside (fst found + 1)%nat ltac:(lia)). nia.
    + pose proof (GLL_window_inside (fst found) ltac:(lia)). nia.
Qed.

End DiffGLLFacts.

(** X13.  [LinearColumnDiffFEM::InitializeGLLNodes] on a column of elements
    that share their end nodes (order at least two, strictly increasing
    nodes): the operator is assembled; every row sums to zero, so constant
    columns have derivative zero; every row applied to the column of node
    coordinates gives the slope 1, also on an interior element edge; and
    every row lies inside its bounds, which end within the nIn columns. *)
Theorem X13_gll_first_derivative (p : nat) (Node Out : list R) :
  ColumnOperator.ValidGLLColumn p Node ->
  ColumnOperator.StrictlyIncreasing Node ->
  exists op,
    ColumnOperator.Diff_InitializeGLLNodes p Node Out = Ok op /\
    forall l, (l < length Out)%nat ->
      ColumnOperator.RowSum op l = 0 /\
      ColumnOperator.RowValue op (fun m => nth m Node 0) l = 1 /\
      ColumnOperator.Supported (ColumnOperator.rows op l) /\
      (ColumnOperator.iBegin (ColumnOperator.rows op l)
       <= ColumnOperator.iEnd (ColumnOperator.rows op l) <= length Node)%nat.
Proof.
  intros HValid HNode.
  unfold ColumnOperator.Diff_InitializeGLLNodes.
  pose proof HValid as (Hp & Hlen & Hmod).
  destruct (Nat.eqb_spec (length Node) 0) as [E|_]; [lia|].
  rewrite Hmod. cbn [Nat.eqb negb].
  eexists. split; [reflexivity|].
  intros l Hl.
  unfold ColumnOperator.RowSum, ColumnOperator.RowValue,
    ColumnOperator.m_dCoeff.
  rewrite nRowsIn_for_loop, rows_for_loop.
  cbn [ColumnOperator.nRowsIn ColumnOperator.Initialize_LinearColumnOperator].
  destruct (Nat.ltb_spec l (length Out)); [|lia].
  split; [now apply Diff_GLLNodesRow_sum|].
  split; [now apply Diff_GLLNodesRow_slope|].
  now apply Diff_GLLNodesRow_supported.
Qed.

Lemma X13_gll_first_derivative_witness :
  exists op,
    ColumnOperator.Diff_InitializeGLLNodes 2 TwoLevelEdges [0.25] = Ok op /\
    ColumnOperator.RowValue op (fun m => nth m TwoLevelEdges 0) 0 = 1.
Proof.
  assert (HV : ColumnOperator.ValidGLLColumn 2 TwoLevelEdges).
  { repeat split; simpl; lia. }
  destruct (X13_gll_first_derivative 2 TwoLevelEdges [0.25] HV
              TwoLevelEdges_increasing) as (op & E & H).
  exists op. split; [exact E|]. apply (H 0%nat). simpl. lia.
Defined.

(** X14.  The argument checks of the two [InitializeGLLNodes] functions
    (first and second derivative), for an order of at least two: an empty
    node vector raises "At least one row required for dREtaNode"; a node
    count that is not one more than a multiple of the order minus one raises
    "Column (RElements-1) / (VerticalOrder-1) mismatch". *)
Theorem X14_gll_rejects_invalid_columns
    (GL : nat -> R -> R -> (nat -> R) * (nat -> R))
    (p : nat) (Node Out : list R) :
  (2 <= p)%nat ->
  (length Node = 0%nat ->
   ColumnOperator.Diff_InitializeGLLNodes p Node Out
   = Exception "At least one row required for dREtaNode" /\
   ColumnOperator.DiffDiff_InitializeGLLNodes GL p Node
   = Exception "At least one row required for dREtaNode") /\
  (length Node <> 0%nat ->
   ((length Node - 1) mod (p - 1) <> 0)%nat ->
   ColumnOperator.Diff_InitializeGLLNodes p Node Out
   = Exception "Column (RElements-1) / (VerticalOrder-1) mismatch" /\
   ColumnOperator.DiffDiff_InitializeGLLNodes GL p Node
   = Exception "Column (RElements-1) / (VerticalOrder-1) mismatch").
Proof.
  intro Hp.
  unfold ColumnOperator.Diff_InitializeGLLNodes,
    ColumnOperator.DiffDiff_InitializeGLLNodes.
  split.
  - intro E. rewrite E. split; reflexivity.
  - intros E1 E2.
    destruct (Nat.eqb_spec (length Node) 0); [contradiction|].
    destruct (Nat.eqb_spec ((length Node - 1) mod (p - 1)) 0);
      [contradiction|]. split; reflexivity.
Qed.

Lemma X14_gll_rejects_invalid_columns_witness :
  ColumnOperator.Diff_InitializeGLLNodes 3 TwoLevelNodes [0.5]
  = Exception "Column (RElements-1) / (VerticalOrder-1) mismatch".
Proof.
  destruct (X14_gll_rejects_invalid_columns TwoPointLobatto 3 TwoLevelNodes
              [0.5]) as (_ & H); [lia|].
  apply H; simpl; lia.
Defined.

(** ** The grid patch *)

Section GeometricFootprint.

Import GridPatch Footprint.

Lemma owned_tag cells a ix :
  owned cells a ix = true ->
  exists c, In c cells /\ DataArray_tag (fst c) = DataArray_tag a.
Proof.
  unfold owned. intro H. apply existsb_exists in H as (c & Hc & E).
  exists c. split; [exact Hc|].
  unfold cell_eqb in E. apply andb_prop in E as [E _].
  now apply Nat.eqb_eq in E.
Qed.

Lemma CellsGeometricTerms_not_input g p a ix :
  InputArray a = true -> CellsGeometricTerms g p a ix = false.
Proof.
  intro Ha.
  destruct (CellsGeometricTerms g p a ix) eqn:E; [|reflexivity].
  exfalso. unfold CellsGeometricTerms in E.
  apply loop_cells_elim in E as (ea & _ & E).
  apply loop_cells_elim in E as (eb & _ & E).
  apply loop_cells_elim in E as (i & _ & E).
  apply loop_cells_elim in E as (j & _ & E).
  unfold CellsElementNode in E.
  apply orb_prop in E as [E|E]; [apply orb_prop in E as [E|E]|].
  - apply owned_tag in E as (c & Hc & Et).
    unfold Cells2D in Hc. simpl in Hc.
    repeat (destruct Hc as [<-|Hc];
            [destruct a; simpl in Et, Ha; discriminate|]).
    contradiction.
  - apply loop_cells_elim in E as (k & _ & E).
    apply owned_tag in E as (c & Hc & Et).
    unfold CellsNode in Hc. simpl in Hc.
    repeat (destruct Hc as [<-|Hc];
            [destruct a; simpl in Et, Ha; discriminate|]).
    contradiction.
  - apply loop_cells_elim in E as (k & _ & E).
    apply owned_tag in E as (c & Hc & Et).
    unfold CellsREdge in Hc. simpl in Hc.
    repeat (destruct Hc as [<-|Hc];
            [destruct a; simpl in Et, Ha; discriminate|]).
    contradiction.
Qed.

End GeometricFootprint.

(** X15.  [EvaluateGeometricTerms] never writes an input of the patch: when
    it returns, the longitude and latitude arrays, the topography and its
    derivatives, the cached heights and both state arrays hold what they
    held before, in every cell. *)
Theorem X15_geometric_terms_keep_inputs
    (g : GridPatch.Grid) (p : GridPatch.Patch) (st st' : GridPatch.Store)
    (a : GridPatch.DataArray) (ix : list nat) :
  GridPatch.EvaluateGeometricTerms g p st = Ok st' ->
  Footprint.InputArray a = true ->
  st' a ix = st a ix.
Proof.
  intros E Ha.
  destruct (EvaluateGeometricTerms_cache g p st st' E) as [_ Hframe].
  apply Hframe. now apply CellsGeometricTerms_not_input.
Qed.

Lemma X15_geometric_terms_keep_inputs_witness :
  exists st',
    GridPatch.EvaluateGeometricTerms
      (QuadraticStretchGrid GridPatch.VerticalStaggering_CharneyPhillips
         [0.5; 0.5]) OneColumnPatch BottomFlowStore = Ok st' /\
    st' GridPatch.m_datavecStateNode [0; 1; 0; 0; 0]%nat
    = BottomFlowStore GridPatch.m_datavecStateNode [0; 1; 0; 0; 0]%nat.
Proof.
  destruct (EvaluateGeometricTerms_checks
              (QuadraticStretchGrid GridPatch.VerticalStaggering_CharneyPhillips
                 [0.5; 0.5]) OneColumnPatch BottomFlowStore)
    as (_ & _ & Hok).
  destruct Hok as [st' E].
  - unfold GridPatch.NormAreaSum; simpl.
    replace (0.0 + 1 - 1) with 0 by lra. rewrite Rabs_R0. lra.
  - right. unfold GridPatch.NormAreaSum; simpl.
    replace (0.0 + 0.5 + 0.5 - 1) with 0 by lra. rewrite Rabs_R0. lra.
  - exists st'. split; [exact E|].
    apply (X15_geometric_terms_keep_inputs _ _ _ _ _ _ E). reflexivity.
Defined.

Section BoundaryIdempotence.

Import GridPatch Footprint.

Lemma NoFlow_loops_idempotent p cov CNF d st target :
  target = m_datavecStateNode \/ target = m_datavecStateREdge ->
  cov = true \/ ReadsGeometryOnly CNF ->
  let T := for_loop (GetATotalWidth p) (fun i =>
           for_loop (GetBTotalWidth p) (fun j s =>
             upd s target [d; WIx; 0%nat; i; j] (NoFlowValue cov CNF d s i j))) in
  forall a ix, T (T st) a ix = T st a ix.
Proof.
  intros Htarget Hhelper T a ix.
  destruct (NoFlow_loops_local p cov CNF d st target Htarget Hhelper st)
    as (Hinv1 & Hf1 & Hv1).
  { intros x jx _. reflexivity. }
  fold T in Hinv1, Hf1, Hv1.
  destruct (NoFlow_loops_local p cov CNF d (T st) target Htarget Hhelper
              (T st)) as (_ & Hf2 & Hv2).
  { intros x jx _. reflexivity. }
  fold T in Hf2, Hv2.
  destruct (CellsBoundary p d target a ix) eqn:E.
  - rewrite Hv2, Hv1 by auto.
    unfold NoFlowCache. destruct ix as [|? [|? [|? [|i [|j [|]]]]]]; auto.
    now apply NoFlowValue_kept with (target := target).
  - now apply Hf2.
Qed.

End BoundaryIdempotence.

(** X16.  Applying the boundary conditions twice is the same as applying
    them once: for INTERFACES, and for CHARNEY_PHILLIPS with covariant
    velocities, a second call of [ApplyBoundaryConditions] on the result of
    the first returns a store equal to it in every cell.  (With
    contravariant velocities this needs [CalculateNoFlowUrNode] to read the
    geometry only.) *)
Theorem X16_boundary_conditions_idempotent
    (g : GridPatch.Grid) (p : GridPatch.Patch) (cov : bool)
    (CNF : GridPatch.Store -> nat -> nat -> nat -> R -> R -> R)
    (d : nat) (st : GridPatch.Store) :
  GridPatch.GetVerticalStaggering g = GridPatch.VerticalStaggering_Interfaces
  \/ (GridPatch.GetVerticalStaggering g
        = GridPatch.VerticalStaggering_CharneyPhillips /\ cov = true) ->
  cov = true \/ Footprint.ReadsGeometryOnly CNF ->
  exists st1 st2,
    GridPatch.ApplyBoundaryConditions g p cov CNF d st = Ok st1 /\
    GridPatch.ApplyBoundaryConditions g p cov CNF d st1 = Ok st2 /\
    forall a ix, st2 a ix = st1 a ix.
Proof.
  intros Hcase Hhelper.
  set (target := match GridPatch.GetVerticalStaggering g with
                 | GridPatch.VerticalStaggering_CharneyPhillips =>
                     GridPatch.m_datavecStateREdge
                 | _ => GridPatch.m_datavecStateNode
                 end).
  assert (Htarget : target = GridPatch.m_datavecStateNode \/
                    target = GridPatch.m_datavecStateREdge).
  { unfold target. destruct (GridPatch.GetVerticalStaggering g); auto. }
  assert (Hrun : forall s,
    GridPatch.ApplyBoundaryConditions g p cov CNF d s
    = Ok (for_loop (GridPatch.GetATotalWidth p) (fun i =>
          for_loop (GridPatch.GetBTotalWidth p) (fun j s =>
            GridPatch.upd s target [d; GridPatch.WIx; 0%nat; i; j]
              (Footprint.NoFlowValue cov CNF d s i j))) s)).
  { intro s. unfold GridPatch.ApplyBoundaryConditions, target.
    destruct Hcase as [-> | [-> ->]].
    - destruct cov; reflexivity.
    - reflexivity. }
  eexists. eexists. split; [apply Hrun|]. split; [apply Hrun|].
  intros a ix.
  now apply (NoFlow_loops_idempotent p cov CNF d st target).
Qed.

Lemma X16_boundary_conditions_idempotent_witness :
  exists st1 st2,
    GridPatch.ApplyBoundaryConditions
      (QuadraticStretchGrid GridPatch.VerticalStaggering_Interfaces [0.5; 0.5])
      OneColumnPatch true SampleNoFlowUrNode 0 BottomFlowStore = Ok st1 /\
    GridPatch.ApplyBoundaryConditions
      (QuadraticStretchGrid GridPatch.VerticalStaggering_Interfaces [0.5; 0.5])
      OneColumnPatch true SampleNoFlowUrNode 0 st1 = Ok st2 /\
    forall a ix, st2 a ix = st1 a ix.
Proof.
  apply X16_boundary_conditions_idempotent.
  - left. reflexivity.
  - left. reflexivity.
Defined.

(** *** Loops that may throw *)

Section DecidedLoops.

Context {S : Type}.

Variable body : nat -> S -> Result S.
Variable bodyP : nat -> S -> S.
Variable bad : nat -> Prop.
Variable Inv : S -> Prop.
Variable msg : string.

Lemma for_loopM_decided_cases n s :
  Inv s -> DecidedBody body bodyP bad Inv msg n ->
  ((forall i, (i < n)%nat -> ~ bad i) /\
   for_loopM n body s = Ok (for_loop n bodyP s) /\
   Inv (for_loop n bodyP s))
  \/ ((exists i, (i < n)%nat /\ bad i) /\
      for_loopM n body s = Exception msg).
Proof.
  intros Hs [Hinv Hdec]. induction n as [|n IH].
  - left. split; [intros; lia|]. split; [reflexivity | exact Hs].
  - rewrite for_loopM_S, for_loop_S.
    destruct IH as [(Hgood & E & Hi)|((i & Hi & Hb) & E)];
      try (intros; apply Hinv; auto; lia);
      try (intros; apply Hdec; auto; lia).
    + rewrite E. cbn [bind].
      destruct (Hdec n (for_loop n bodyP s) ltac:(lia) Hi)
        as [[Hn En]|[Hn En]]; rewrite En.
      * left. split; [|split; [reflexivity | apply Hinv; auto]].
        intros i Hlt. destruct (Nat.eq_dec i n) as [->|Hne];
          [exact Hn | apply Hgood; lia].
      * right. split; [exists n; split; [lia | exact Hn] | reflexivity].
    + right. rewrite E. split; [exists i; split; [lia | exact Hb]|].
      reflexivity.
Qed.

Lemma for_loopM_decided n s :
  Inv s -> DecidedBody body bodyP bad Inv msg n ->
  ((forall i, (i < n)%nat -> ~ bad i) ->
   for_loopM n body s = Ok (for_loop n bodyP s)) /\
  ((exists i, (i < n)%nat /\ bad i) ->
   for_loopM n body s = Exception msg).
Proof.
  intros Hs Hd.
  destruct (for_loopM_decided_cases n s Hs Hd)
    as [(Hgood & E & _)|((i & Hi & Hb) & E)]; split; intro H; auto.
  - destruct H as (i & Hi & Hb). exfalso. exact (Hgood i Hi Hb).
  - exfalso. exact (H i Hi Hb).
Qed.

End DecidedLoops.

(** *** The topography of the patch *)

Section TopographyFacts.

Import GridPatch Footprint.

Variable g : Grid.
Variable p : Patch.
Variables GetANode GetBNode : nat -> R.
Variable test : TestCase.

Let F := fun i j => EvaluateTopography_at test (GetANode i) (GetBNode j).

(** The loop nest over the nodes without its check. *)
Let WriteTopography : Store -> Store :=
  for_loop (GetATotalWidth p) (fun i =>
  for_loop (GetBTotalWidth p) (fun j st =>
    upd st m_dataTopography [i; j]%nat (F i j))).

Lemma TopographyRow_decided i :
  DecidedBody
    (fun j st =>
       let dX := GetANode i in
       let dY := GetBNode j in
       let st := upd st m_dataTopography [i; j]%nat
                   (EvaluateTopography_at test dX dY) in
       if Rge_dec (st m_dataTopography [i; j]%nat) (GetZtop g) then
         Exception "TestCase topography exceeds model top."
       else Ok st)
    (fun j st => upd st m_dataTopography [i; j]%nat (F i j))
    (fun j => F i j >= GetZtop g) (fun _ => True)
    "TestCase topography exceeds model top." (GetBTotalWidth p).
Proof.
  split; [auto|]. intros j t _ _. cbv zeta. rewrite upd_same.
  fold (F i j). destruct (Rge_dec (F i j) (GetZtop g)) as [H|H].
  - right. split; [exact H | reflexivity].
  - left. split; [exact H | reflexivity].
Qed.

Lemma EvaluateTopography_values_decided st :
  ((forall i j, (i < GetATotalWidth p)%nat -> (j < GetBTotalWidth p)%nat ->
      F i j < GetZtop g) ->
   EvaluateTopography_values g p test GetANode GetBNode st
   = Ok (WriteTopography st)) /\
  ((exists i j, (i < GetATotalWidth p)%nat /\ (j < GetBTotalWidth p)%nat /\
      F i j >= GetZtop g) ->
   EvaluateTopography_values g p test GetANode GetBNode st
   = Exception "TestCase topography exceeds model top.").
Proof.
  unfold EvaluateTopography_values, WriteTopography.
  assert (Hd : DecidedBody
            (fun i => for_loopM (GetBTotalWidth p) (fun j st =>
               let dX := GetANode i in
               let dY := GetBNode j in
               let st := upd st m_dataTopography [i; j]%nat
                           (EvaluateTopography_at test dX dY) in
               if Rge_dec (st m_dataTopography [i; j]%nat) (GetZtop g) then
                 Exception "TestCase topography exceeds model top."
               else Ok st))
            (fun i => for_loop (GetBTotalWidth p) (fun j st =>
               upd st m_dataTopography [i; j]%nat (F i j)))
            (fun i => exists j, (j < GetBTotalWidth p)%nat /\
                                F i j >= GetZtop g)
            (fun _ => True)
            "TestCase topography exceeds model top." (GetATotalWidth p)).
  { split; [auto|]. intros i t _ _.
    destruct (for_loopM_decided_cases _ _ _ _ _ (GetBTotalWidth p) t I
                (TopographyRow_decided i))
      as [(Hgood & E & _)|(Hbad & E)].
    - left. split; [|exact E].
      intros (j & Hj & Hb). exact (Hgood j Hj Hb).
    - right. split; [exact Hbad | exact E]. }
  destruct (for_loopM_decided _ _ _ _ _ (GetATotalWidth p) st I Hd)
    as [Hok Hexc].
  split.
  - intro Hall. apply Hok. intros i Hi (j & Hj & Hb).
    specialize (Hall i j Hi Hj). lra.
  - intros (i & j & Hi & Hj & Hb). apply Hexc.
    exists i. split; [exact Hi|]. exists j. split; assumption.
Qed.

Lemma WriteTopography_local :
  Local (fun _ _ => true) (NodeValues F) (fun _ => True) (CellsTopography p)
    WriteTopography.
Proof.
  unfold CellsTopography, WriteTopography.
  apply Local_for_loop; intros i _.
  apply Local_for_loop; intros j _.
  intros s _. split; [exact I|]. split.
  - intros a ix H. now apply upd_frame.
  - intros a ix H _. apply cell_eqb_true in H as [<- <-].
    rewrite upd_same. reflexivity.
Qed.

Lemma WriteTopography_values st :
  (forall i j, (i < GetATotalWidth p)%nat -> (j < GetBTotalWidth p)%nat ->
     WriteTopography st m_dataTopography [i; j]%nat = F i j) /\
  (forall a ix, CellsTopography p a ix = false ->
     WriteTopography st a ix = st a ix).
Proof.
  destruct (WriteTopography_local st I) as (_ & Hf & Hv).
  split; [|exact Hf].
  intros i j Hi Hj.
  rewrite Hv; [reflexivity | | reflexivity].
  unfold CellsTopography.
  apply loop_cells_intro with (i := i); [exact Hi|].
  apply loop_cells_intro with (i := j); [exact Hj|].
  apply cell_eqb_refl.
Qed.

Lemma CellsTopography_array a ix :
  CellsTopography p a ix = true ->
  a = m_dataTopography /\
  exists i j, (i < GetATotalWidth p)%nat /\ (j < GetBTotalWidth p)%nat /\
              ix = [i; j]%nat.
Proof.
  unfold CellsTopography. intro H.
  apply loop_cells_elim in H as (i & Hi & H).
  apply loop_cells_elim in H as (j & Hj & H).
  apply cell_eqb_true in H as [<- <-].
  split; [reflexivity|]. exists i, j. auto.
Qed.

End TopographyFacts.

Section TopographyDerivFacts.

Import GridPatch Footprint.

Variable g : Grid.
Variable p : Patch.
Variable dDxBasis1D : nat -> nat -> R.

Let DerivNest : Store -> Store :=
  for_loop (GetElementCountA p) (fun a =>
  for_loop (GetElementCountB p) (fun b =>
  for_loop (m_nHorizontalOrder p) (fun i =>
  for_loop (m_nHorizontalOrder p) (fun j =>
    TopographyDerivTerms p dDxBasis1D a b i j)))).

Lemma TopographyDerivTerms_frame a b i j st x ix :
  owned [ (m_dataTopographyDeriv,
           [0; GetAInteriorBegin p + a * m_nHorizontalOrder p + i;
            GetBInteriorBegin p + b * m_nHorizontalOrder p + j]%nat);
          (m_dataTopographyDeriv,
           [1; GetAInteriorBegin p + a * m_nHorizontalOrder p + i;
            GetBInteriorBegin p + b * m_nHorizontalOrder p + j]%nat) ] x ix
  = false ->
  TopographyDerivTerms p dDxBasis1D a b i j st x ix = st x ix.
Proof.
  intro H. unfold owned in H. cbn [existsb fst snd] in H.
  apply orb_false_elim in H as [H1 H].
  apply orb_false_elim in H as [H2 _].
  unfold TopographyDerivTerms; cbv zeta.
  rewrite !upd_frame by assumption. reflexivity.
Qed.

Lemma DerivNest_local (Inv : Store -> Prop) (values : bool) :
  (forall a b i j, (a < GetElementCountA p)%nat ->
     (b < GetElementCountB p)%nat ->
     (i < m_nHorizontalOrder p)%nat -> (j < m_nHorizontalOrder p)%nat ->
     forall s, Inv s ->
       Inv (TopographyDerivTerms p dDxBasis1D a b i j s) /\
       (values = true ->
        TopographyDerivTerms p dDxBasis1D a b i j s m_dataTopographyDeriv
          [0; GetAInteriorBegin p + a * m_nHorizontalOrder p + i;
           GetBInteriorBegin p + b * m_nHorizontalOrder p + j]%nat = 0 /\
        TopographyDerivTerms p dDxBasis1D a b i j s m_dataTopographyDeriv
          [1; GetAInteriorBegin p + a * m_nHorizontalOrder p + i;
           GetBInteriorBegin p + b * m_nHorizontalOrder p + j]%nat = 0)) ->
  Local (fun _ _ => values) (fun _ _ => 0)
    Inv (CellsTopographyDeriv p) DerivNest.
Proof.
  intro Hbody. unfold CellsTopographyDeriv, DerivNest.
  apply Local_for_loop; intros a Ha.
  apply Local_for_loop; intros b Hb.
  apply Local_for_loop; intros i Hi.
  apply Local_for_loop; intros j Hj.
  intros s Hs. destruct (Hbody a b i j Ha Hb Hi Hj s Hs) as [Hinv Hval].
  split; [exact Hinv|]. split.
  - intros x ix H. now apply TopographyDerivTerms_frame.
  - intros x ix H Hint. destruct (Hval Hint) as [V0 V1].
    unfold owned in H. cbn [existsb fst snd] in H.
    apply orb_prop in H as [H|H];
      [|apply orb_prop in H as [H|H]; [|discriminate]];
      apply cell_eqb_true in H as [<- <-]; assumption.
Qed.

Lemma CellsTopographyDeriv_array x ix :
  CellsTopographyDeriv p x ix = true -> x = m_dataTopographyDeriv.
Proof.
  unfold CellsTopographyDeriv. intro H.
  apply loop_cells_elim in H as (a & _ & H).
  apply loop_cells_elim in H as (b & _ & H).
  apply loop_cells_elim in H as (i & _ & H).
  apply loop_cells_elim in H as (j & _ & H).
  cbv zeta in H. unfold owned in H. cbn [existsb fst snd] in H.
  apply orb_prop in H as [H|H];
    [|apply orb_prop in H as [H|H]; [|discriminate]];
    apply cell_eqb_true in H as [<- _]; reflexivity.
Qed.

(** The derivative nest changes the derivative cells only. *)
Lemma DerivNest_frame st x ix :
  x <> m_dataTopographyDeriv -> DerivNest st x ix = st x ix.
Proof.
  intro Hx.
  destruct (DerivNest_local (fun _ => True) false) with (s := st)
    as (_ & Hf & _); auto.
  { intros. split; [exact I | discriminate]. }
  apply Hf. destruct (CellsTopographyDeriv p x ix) eqn:E; [|reflexivity].
  apply CellsTopographyDeriv_array in E. contradiction.
Qed.

(** The two sums of an element node over a flat topography. *)
Lemma flat_sums n (c : R) i j :
  for_loop n (fun s (d : R * R) =>
    (fst d + dDxBasis1D s i * c, snd d + dDxBasis1D s j * c)) (0.0, 0.0)
  = (c * ColumnOperator.sumR n (fun s => dDxBasis1D s i),
     c * ColumnOperator.sumR n (fun s => dDxBasis1D s j)).
Proof.
  induction n as [|n IH].
  - rewrite for_loop_0. simpl. f_equal; lra.
  - rewrite for_loop_S, IH. cbn [fst snd ColumnOperator.sumR].
    f_equal; ring.
Qed.

End TopographyDerivFacts.

Lemma for_loop_ext {S : Type} n (body body' : nat -> S -> S) s :
  (forall i t, (i < n)%nat -> body i t = body' i t) ->
  for_loop n body s = for_loop n body' s.
Proof.
  intro H. induction n as [|n IH]; [reflexivity|].
  rewrite !for_loop_S, IH by (intros; apply H; lia).
  apply H. lia.
Qed.

(** X17.  [EvaluateTopography] on the nodes of the box.  If the test case
    puts the topography of some node at or above the model top, the function
    raises "TestCase topography exceeds model top."; if the topography of
    every node is below the model top, it returns, the topography array
    holds the value of the test case at the coordinates of each node of the
    box, and no array other than the topography and its derivatives has
    changed. *)
Theorem X17_topography_check
    (g : GridPatch.Grid) (p : GridPatch.Patch) (GetANode GetBNode : nat -> R)
    (test : GridPatch.TestCase) (dDxBasis1D : nat -> nat -> R)
    (st : GridPatch.Store) :
  let F := fun i j =>
    GridPatch.EvaluateTopography_at test (GetANode i) (GetBNode j) in
  ((exists i j, (i < GridPatch.GetATotalWidth p)%nat /\
                (j < GridPatch.GetBTotalWidth p)%nat /\
                F i j >= GridPatch.GetZtop g) ->
   GridPatch.EvaluateTopography g p GetANode GetBNode test dDxBasis1D st
   = Exception "TestCase topography exceeds model top.") /\
  ((forall i j, (i < GridPatch.GetATotalWidth p)%nat ->
                (j < GridPatch.GetBTotalWidth p)%nat ->
                F i j < GridPatch.GetZtop g) ->
   exists st',
     GridPatch.EvaluateTopography g p GetANode GetBNode test dDxBasis1D st
     = Ok st' /\
     (forall i j, (i < GridPatch.GetATotalWidth p)%nat ->
                  (j < GridPatch.GetBTotalWidth p)%nat ->
        st' GridPatch.m_dataTopography [i; j]%nat = F i j) /\
     (forall a ix, a <> GridPatch.m_dataTopography ->
                   a <> GridPatch.m_dataTopographyDeriv ->
        st' a ix = st a ix)).
Proof.
  intro F.
  destruct (EvaluateTopography_values_decided g p GetANode GetBNode test st)
    as [Hok Hexc].
  unfold GridPatch.EvaluateTopography. split.
  - intro Hbad. rewrite (Hexc Hbad). reflexivity.
  - intro Hgood. rewrite (Hok Hgood). cbn [bind].
    eexists. split; [reflexivity|].
    destruct (WriteTopography_values p GetANode GetBNode test st)
      as [Hval Hframe].
    split.
    + intros i j Hi Hj. rewrite DerivNest_frame by discriminate.
      now apply Hval.
    + intros a ix Ha Hd. rewrite DerivNest_frame by exact Hd.
      apply Hframe.
      destruct (Footprint.CellsTopography p a ix) eqn:E; [|reflexivity].
      apply CellsTopography_array in E as [-> _]. contradiction.
Qed.

Lemma X17_topography_check_witness :
  exists st',
    GridPatch.EvaluateTopography
      (QuadraticStretchGrid GridPatch.VerticalStaggering_CharneyPhillips
         [0.5; 0.5]) OneColumnPatch INR INR FlatTestCase (fun _ _ => 0)
      BottomFlowStore = Ok st' /\
    st' GridPatch.m_dataTopography [0; 0]%nat = 0.
Proof.
  destruct (X17_topography_check
              (QuadraticStretchGrid GridPatch.VerticalStaggering_CharneyPhillips
                 [0.5; 0.5]) OneColumnPatch INR INR FlatTestCase
              (fun _ _ => 0) BottomFlowStore) as [_ Hok].
  destruct Hok as (st' & E & Hval & _).
  - intros i j _ _. simpl. lra.
  - exists st'. split; [exact E|].
    apply (Hval 0%nat 0%nat); simpl; lia.
Defined.

Section FlatTopography.

Import GridPatch Footprint.

Variable p : Patch.
Variable dDxBasis1D : nat -> nat -> R.
Variable c : R.

Hypothesis Hinside : ElementsInsideBox p.
Hypothesis Hsum : forall i, (i < m_nHorizontalOrder p)%nat ->
  ColumnOperator.sumR (m_nHorizontalOrder p) (fun s => dDxBasis1D s i) = 0.

(** The topography of every node of the box is [c]. *)
Let Flat (s : Store) : Prop :=
  forall x y, (x < GetATotalWidth p)%nat -> (y < GetBTotalWidth p)%nat ->
    s m_dataTopography [x; y]%nat = c.

Lemma TopographyDerivTerms_flat a b i j s :
  (a < GetElementCountA p)%nat -> (b < GetElementCountB p)%nat ->
  (i < m_nHorizontalOrder p)%nat -> (j < m_nHorizontalOrder p)%nat ->
  Flat s ->
  Flat (TopographyDerivTerms p dDxBasis1D a b i j s) /\
  TopographyDerivTerms p dDxBasis1D a b i j s m_dataTopographyDeriv
    [0; GetAInteriorBegin p + a * m_nHorizontalOrder p + i;
     GetBInteriorBegin p + b * m_nHorizontalOrder p + j]%nat = 0 /\
  TopographyDerivTerms p dDxBasis1D a b i j s m_dataTopographyDeriv
    [1; GetAInteriorBegin p + a * m_nHorizontalOrder p + i;
     GetBInteriorBegin p + b * m_nHorizontalOrder p + j]%nat = 0.
Proof.
  intros Ha Hb Hi Hj Hs. destruct Hinside as [HA HB].
  split.
  - intros x y Hx Hy.
    rewrite TopographyDerivTerms_frame by reflexivity. now apply Hs.
  - unfold TopographyDerivTerms; cbv zeta.
    rewrite (for_loop_ext (m_nHorizontalOrder p) _
               (fun s0 (d : R * R) =>
                  (fst d + dDxBasis1D s0 i * c,
                   snd d + dDxBasis1D s0 j * c))).
    + rewrite flat_sums. cbn [fst snd]. rewrite !Hsum by assumption.
      split.
      * rewrite upd_frame by reflexivity. rewrite upd_same.
        unfold Rdiv. ring.
      * rewrite upd_same. unfold Rdiv. ring.
    + intros s0 d Hs0. rewrite !Hs by nia. reflexivity.
Qed.

End FlatTopography.

(** X18.  Over a flat topography the stored derivatives vanish.  When the
    test case gives the same height below the model top at every node of
    the box, the elements lie inside the box, the element widths are not
    zero, and the derivatives of the basis functions sum to zero at every
    node (as they do for a basis that sums to one), [EvaluateTopography]
    returns and stores 0 in both topography derivatives at every node of
    every element. *)
Theorem X18_flat_topography_derivatives
    (g : GridPatch.Grid) (p : GridPatch.Patch) (GetANode GetBNode : nat -> R)
    (test : GridPatch.TestCase) (dDxBasis1D : nat -> nat -> R)
    (c : R) (st : GridPatch.Store) :
  Footprint.ElementsInsideBox p ->
  GridPatch.GetElementDeltaA p <> 0 -> GridPatch.GetElementDeltaB p <> 0 ->
  (forall i, (i < GridPatch.m_nHorizontalOrder p)%nat ->
     ColumnOperator.sumR (GridPatch.m_nHorizontalOrder p)
       (fun s => dDxBasis1D s i) = 0) ->
  (forall i j, (i < GridPatch.GetATotalWidth p)%nat ->
               (j < GridPatch.GetBTotalWidth p)%nat ->
     GridPatch.EvaluateTopography_at test (GetANode i) (GetBNode j) = c) ->
  c < GridPatch.GetZtop g ->
  exists st',
    GridPatch.EvaluateTopography g p GetANode GetBNode test dDxBasis1D st
    = Ok st' /\
    forall a b i j,
      (a < GridPatch.GetElementCountA p)%nat ->
      (b < GridPatch.GetElementCountB p)%nat ->
      (i < GridPatch.m_nHorizontalOrder p)%nat ->
      (j < GridPatch.m_nHorizontalOrder p)%nat ->
      let iA := GridPatch.NodeIndex (GridPatch.GetAInteriorBegin p)
                  (GridPatch.m_nHorizontalOrder p) a i in
      let iB := GridPatch.NodeIndex (GridPatch.GetBInteriorBegin p)
                  (GridPatch.m_nHorizontalOrder p) b j in
      st' GridPatch.m_dataTopographyDeriv [0; iA; iB]%nat = 0 /\
      st' GridPatch.m_dataTopographyDeriv [1; iA; iB]%nat = 0.
Proof.
  intros Hinside _ _ Hsum Hflat Hc.
  destruct (EvaluateTopography_values_decided g p GetANode GetBNode test st)
    as [Hok _].
  unfold GridPatch.EvaluateTopography.
  rewrite Hok by (intros i j Hi Hj; rewrite Hflat by assumption; exact Hc).
  cbn [bind]. eexists. split; [reflexivity|].
  destruct (WriteTopography_values p GetANode GetBNode test st) as [Hval _].
  destruct (DerivNest_local p dDxBasis1D
              (fun s => forall x y, (x < GridPatch.GetATotalWidth p)%nat ->
                                    (y < GridPatch.GetBTotalWidth p)%nat ->
                 s GridPatch.m_dataTopography [x; y]%nat = c) true)
    with (s := for_loop (GridPatch.GetATotalWidth p) (fun i =>
               for_loop (GridPatch.GetBTotalWidth p) (fun j st0 =>
                 GridPatch.upd st0 GridPatch.m_dataTopography [i; j]%nat
                   (GridPatch.EvaluateTopography_at test (GetANode i)
                      (GetBNode j)))) st)
    as (_ & _ & Hv).
  - intros a b i j Ha Hb Hi Hj s Hs.
    destruct (TopographyDerivTerms_flat p dDxBasis1D c Hinside Hsum a b i j s
                Ha Hb Hi Hj Hs) as (H1 & H2 & H3).
    split; [exact H1|]. intros _. split; assumption.
  - intros x y Hx Hy. rewrite Hval by assumption. now apply Hflat.
  - intros a b i j Ha Hb Hi Hj.
    set (iA := GridPatch.NodeIndex (GridPatch.GetAInteriorBegin p)
                 (GridPatch.m_nHorizontalOrder p) a i).
    set (iB := GridPatch.NodeIndex (GridPatch.GetBInteriorBegin p)
                 (GridPatch.m_nHorizontalOrder p) b j).
    assert (HO : forall c0,
              (c0 < 2)%nat ->
              Footprint.CellsTopographyDeriv p GridPatch.m_dataTopographyDeriv
                [c0; iA; iB]%nat = true).
    { intros c0 Hc0. unfold Footprint.CellsTopographyDeriv.
      apply loop_cells_intro with (i := a); [exact Ha|].
      apply loop_cells_intro with (i := b); [exact Hb|].
      apply loop_cells_intro with (i := i); [exact Hi|].
      apply loop_cells_intro with (i := j); [exact Hj|].
      cbv zeta. unfold Footprint.owned. cbn [existsb fst snd].
      unfold iA, iB, GridPatch.NodeIndex.
      destruct c0 as [|[|c0]]; [| |lia].
      - rewrite cell_eqb_refl. reflexivity.
      - rewrite cell_eqb_refl. now rewrite orb_true_r. }
    split; apply Hv; auto.
Qed.

Lemma X18_flat_topography_derivatives_witness :
  exists st',
    GridPatch.EvaluateTopography
      (QuadraticStretchGrid GridPatch.VerticalStaggering_CharneyPhillips
         [0.5; 0.5]) OneColumnPatch INR INR FlatTestCase (fun _ _ => 0)
      BottomFlowStore = Ok st' /\
    st' GridPatch.m_dataTopographyDeriv [0; 0; 0]%nat = 0.
Proof.
  destruct (X18_flat_topography_derivatives
              (QuadraticStretchGrid GridPatch.VerticalStaggering_CharneyPhillips
                 [0.5; 0.5]) OneColumnPatch INR INR FlatTestCase
              (fun _ _ => 0) 0 BottomFlowStore) as (st' & E & H).
  - split; simpl; lia.
  - simpl. lra.
  - simpl. lra.
  - intros i Hi. simpl in *. assert (i = 0%nat) by lia. subst. simpl. lra.
  - intros i j _ _. reflexivity.
  - simpl. lra.
  - exists st'. split; [exact E|].
    apply (H 0%nat 0%nat 0%nat 0%nat); simpl; lia.
Defined.

(** *** The cached heights *)

Section HeightsFacts.

Import GridPatch Footprint.

Variable g : Grid.
Variable p : Patch.
Variable test : TestCase.
Variable st0 : Store.

Let F := fun i j =>
  EvaluateTopography_at test (st0 m_dataLon [i; j]%nat)
    (st0 m_dataLat [i; j]%nat).

Lemma EvaluateTestCase_column_cases i j s :
  CoordinatesKept st0 s ->
  (~ F i j >= GetZtop g /\
   EvaluateTestCase_column g test i j s
   = Ok (EvaluateTestCase_column_stores g test i j s))
  \/ (F i j >= GetZtop g /\
      EvaluateTestCase_column g test i j s
      = Exception "TestCase topography exceeds model top.").
Proof.
  intros [HLon HLat].
  unfold EvaluateTestCase_column, EvaluateTestCase_column_stores; cbv zeta.
  rewrite upd_same, HLon, HLat. fold (F i j).
  destruct (Rge_dec (F i j) (GetZtop g)) as [H|H].
  - right. split; [exact H | reflexivity].
  - left. split; [exact H | reflexivity].
Qed.

(** The topography of the column is set and the coordinates are kept. *)
Let ColumnReady (i j : nat) (s : Store) : Prop :=
  CoordinatesKept st0 s /\ s m_dataTopography [i; j]%nat = F i j.

Lemma height_assignment_local (arr : DataArray) (eta : nat -> R) i j k :
  arr = m_dataZLevels \/ arr = m_dataZInterfaces ->
  Local (fun _ _ => true)
    (fun a ix => match ix with
                 | [k'; _; _] => F i j + eta k' * (GetZtop g - F i j)
                 | _ => 0
                 end)
    (ColumnReady i j) (cell_eqb arr [k; i; j]%nat)
    (fun s => upd s arr [k; i; j]%nat
                (s m_dataTopography [i; j]%nat
                 + eta k * (GetZtop g - s m_dataTopography [i; j]%nat))).
Proof.
  intros Harr s [[HLon HLat] Ht]. split; [|split].
  - split; [split|]; intros; rewrite upd_frame; auto;
      destruct Harr as [-> | ->]; reflexivity.
  - intros a ix H. now apply upd_frame.
  - intros a ix H _. apply cell_eqb_true in H as [<- <-].
    rewrite upd_same, Ht. reflexivity.
Qed.

Lemma EvaluateTestCase_column_local i j :
  Local (fun _ _ => true) (HeightsCache g F) (CoordinatesKept st0)
    (CellsColumnHeights g i j) (EvaluateTestCase_column_stores g test i j).
Proof.
  intros s Hs. pose proof Hs as [HLon HLat].
  unfold EvaluateTestCase_column_stores; cbv zeta.
  rewrite HLon, HLat. fold (F i j).
  set (s1 := upd s m_dataTopography [i; j]%nat (F i j)).
  assert (R1 : ColumnReady i j s1).
  { split; [split|]; unfold s1.
    - intro ix. rewrite upd_frame by reflexivity. apply HLon.
    - intro ix. rewrite upd_frame by reflexivity. apply HLat.
    - apply upd_same. }
  destruct (Local_for_loop _ _ (ColumnReady i j) (GetRElements g) _
              (fun k => cell_eqb m_dataZLevels [k; i; j]%nat)
              (fun k _ => height_assignment_local m_dataZLevels
                            (GetREtaLevel g) i j k (or_introl eq_refl))
              s1 R1) as (R2 & F2 & V2).
  set (s2 := for_loop (GetRElements g) _ s1) in *.
  destruct (Local_for_loop _ _ (ColumnReady i j) (GetRElements g + 1) _
              (fun k => cell_eqb m_dataZInterfaces [k; i; j]%nat)
              (fun k _ => height_assignment_local m_dataZInterfaces
                            (GetREtaInterface g) i j k (or_intror eq_refl))
              s2 R2) as (R3 & F3 & V3).
  set (s3 := for_loop (GetRElements g + 1) _ s2) in *.
  split; [exact (proj1 R3)|]. split.
  - intros a ix HO. unfold CellsColumnHeights in HO.
    apply orb_false_elim in HO as [HO HE].
    apply orb_false_elim in HO as [HT HN].
    rewrite F3 by exact HE. rewrite F2 by exact HN.
    unfold s1. now apply upd_frame.
  - intros a ix HO _. unfold CellsColumnHeights in HO.
    destruct (loop_cells (GetRElements g + 1)
                (fun k => cell_eqb m_dataZInterfaces [k; i; j]%nat) a ix)
      eqn:HE.
    { rewrite V3 by auto.
      apply loop_cells_elim in HE as (k & _ & HE).
      apply cell_eqb_true in HE as [<- <-]. reflexivity. }
    rewrite F3 by exact HE.
    destruct (loop_cells (GetRElements g)
                (fun k => cell_eqb m_dataZLevels [k; i; j]%nat) a ix) eqn:HN.
    { rewrite V2 by auto.
      apply loop_cells_elim in HN as (k & _ & HN).
      apply cell_eqb_true in HN as [<- <-]. reflexivity. }
    rewrite F2 by exact HN.
    rewrite !orb_false_r in HO.
    apply cell_eqb_true in HO as [<- <-].
    unfold s1. rewrite upd_same. reflexivity.
Qed.

(** The loop nest without its checks. *)
Let WriteHeights : Store -> Store :=
  for_loop (GetATotalWidth p) (fun i =>
  for_loop (GetBTotalWidth p) (fun j =>
    EvaluateTestCase_column_stores g test i j)).

Lemma WriteHeights_local :
  Local (fun _ _ => true) (HeightsCache g F) (CoordinatesKept st0)
    (CellsHeights g p) WriteHeights.
Proof.
  unfold CellsHeights, WriteHeights.
  apply Local_for_loop; intros i _.
  apply Local_for_loop; intros j _.
  apply EvaluateTestCase_column_local.
Qed.

Lemma EvaluateTestCase_heights_decided :
  ((forall i j, (i < GetATotalWidth p)%nat -> (j < GetBTotalWidth p)%nat ->
      F i j < GetZtop g) ->
   EvaluateTestCase_heights g p test st0 = Ok (WriteHeights st0)) /\
  ((exists i j, (i < GetATotalWidth p)%nat /\ (j < GetBTotalWidth p)%nat /\
      F i j >= GetZtop g) ->
   EvaluateTestCase_heights g p test st0
   = Exception "TestCase topography exceeds model top.").
Proof.
  unfold EvaluateTestCase_heights, WriteHeights.
  assert (Hrow : forall i,
            DecidedBody (EvaluateTestCase_column g test i)
              (EvaluateTestCase_column_stores g test i)
              (fun j => F i j >= GetZtop g) (CoordinatesKept st0)
              "TestCase topography exceeds model top." (GetBTotalWidth p)).
  { intro i. split.
    - intros j t _ Ht.
      now destruct (EvaluateTestCase_column_local i j t Ht) as [H _].
    - intros j t _ Ht. now apply EvaluateTestCase_column_cases. }
  assert (Hd : DecidedBody
            (fun i => for_loopM (GetBTotalWidth p)
                        (EvaluateTestCase_column g test i))
            (fun i => for_loop (GetBTotalWidth p)
                        (EvaluateTestCase_column_stores g test i))
            (fun i => exists j, (j < GetBTotalWidth p)%nat /\
                                F i j >= GetZtop g)
            (CoordinatesKept st0)
            "TestCase topography exceeds model top." (GetATotalWidth p)).
  { split.
    - intros i t _ Ht.
      destruct (Local_for_loop (fun _ _ => true) (HeightsCache g F)
                  (CoordinatesKept st0) (GetBTotalWidth p)
                  (EvaluateTestCase_column_stores g test i)
                  (fun j => CellsColumnHeights g i j)
                  (fun j _ => EvaluateTestCase_column_local i j) t Ht)
        as [H _]. exact H.
    - intros i t _ Ht.
      destruct (for_loopM_decided_cases _ _ _ _ _ (GetBTotalWidth p) t Ht
                  (Hrow i)) as [(Hgood & E & _)|(Hbad & E)].
      + left. split; [|exact E].
        intros (j & Hj & Hb). exact (Hgood j Hj Hb).
      + right. split; [exact Hbad | exact E]. }
  assert (H0 : CoordinatesKept st0 st0) by (split; reflexivity).
  destruct (for_loopM_decided _ _ _ _ _ (GetATotalWidth p) st0 H0 Hd)
    as [Hok Hexc].
  split.
  - intro Hall. apply Hok. intros i Hi (j & Hj & Hb).
    specialize (Hall i j Hi Hj). lra.
  - intros (i & j & Hi & Hj & Hb). apply Hexc.
    exists i. split; [exact Hi|]. exists j. split; assumption.
Qed.

Lemma WriteHeights_values i j :
  (i < GetATotalWidth p)%nat -> (j < GetBTotalWidth p)%nat ->
  WriteHeights st0 m_dataTopography [i; j]%nat = F i j /\
  (forall k, (k < GetRElements g)%nat ->
     WriteHeights st0 m_dataZLevels [k; i; j]%nat
     = F i j + GetREtaLevel g k * (GetZtop g - F i j)) /\
  (forall k, (k <= GetRElements g)%nat ->
     WriteHeights st0 m_dataZInterfaces [k; i; j]%nat
     = F i j + GetREtaInterface g k * (GetZtop g - F i j)).
Proof.
  intros Hi Hj.
  destruct (WriteHeights_local st0) as (_ & _ & Hv);
    [split; reflexivity|].
  assert (HO : forall a ix, CellsColumnHeights g i j a ix = true ->
                            CellsHeights g p a ix = true).
  { intros a ix H. unfold CellsHeights.
    apply loop_cells_intro with (i := i); [exact Hi|].
    now apply loop_cells_intro with (i := j). }
  split; [|split].
  - rewrite Hv; [reflexivity | | reflexivity].
    apply HO. unfold CellsColumnHeights. now rewrite cell_eqb_refl.
  - intros k Hk. rewrite Hv; [reflexivity | | reflexivity].
    apply HO. unfold CellsColumnHeights.
    rewrite (loop_cells_intro (GetRElements g) _ _ _ k Hk)
      by apply cell_eqb_refl.
    now rewrite orb_true_r.
  - intros k Hk. rewrite Hv; [reflexivity | | reflexivity].
    apply HO. unfold CellsColumnHeights.
    rewrite (loop_cells_intro (GetRElements g + 1) _ m_dataZInterfaces
               [k; i; j]%nat k ltac:(lia)) by apply cell_eqb_refl.
    now rewrite orb_true_r.
Qed.

End HeightsFacts.

Lemma CellsHeights_array g p a ix :
  Footprint.CellsHeights g p a ix = true ->
  a = GridPatch.m_dataTopography \/ a = GridPatch.m_dataZLevels
  \/ a = GridPatch.m_dataZInterfaces.
Proof.
  intro H. unfold Footprint.CellsHeights in H.
  apply loop_cells_elim in H as (i & _ & H).
  apply loop_cells_elim in H as (j & _ & H).
  unfold Footprint.CellsColumnHeights in H.
  apply orb_true_iff in H as [H|H]; [apply orb_true_iff in H as [H|H]|].
  - apply cell_eqb_true in H as [<- _]. now left.
  - apply loop_cells_elim in H as (k & _ & H).
    apply cell_eqb_true in H as [<- _]. right; now left.
  - apply loop_cells_elim in H as (k & _ & H).
    apply cell_eqb_true in H as [<- _]. right; now right.
Qed.

Lemma box_search (A B : nat) (F : nat -> nat -> R) (top : R) :
  (exists i j, (i < A)%nat /\ (j < B)%nat /\ F i j >= top)
  \/ (forall i j, (i < A)%nat -> (j < B)%nat -> F i j < top).
Proof.
  destruct (bounded_search
              (fun i => exists j, (j < B)%nat /\ F i j >= top) A)
    as [(i & Hi & j & Hj & H)|Hnone].
  - intros i _.
    destruct (bounded_search (fun j => F i j >= top) B) as [(j & Hj & H)|H].
    + intros j _. destruct (Rge_dec (F i j) top); [now left | now right].
    + left. now exists j.
    + right. intros (j & Hj & Hb). exact (H j Hj Hb).
  - left. now exists i, j.
  - right. intros i j Hi Hj.
    destruct (Rlt_dec (F i j) top) as [Hlt|Hge]; [exact Hlt|].
    exfalso. apply (Hnone i Hi). exists j. split; [exact Hj | lra].
Qed.

(** X19.  The heights cached by [EvaluateTestCase].  If the test case puts
    the topography at some node of the box, evaluated at the stored
    coordinates, at or above the model top, the loop raises "TestCase
    topography exceeds model top.".  Otherwise it returns and, in every
    column of the box: the topography is the value of the test case; a level
    whose reference coordinate is in [0, 1] lies between the topography and
    the model top; an interface with reference coordinate 0 is at the
    topography and one with reference coordinate 1 at the model top;
    interfaces are ordered as their reference coordinates are; and no array
    other than the topography and the two height arrays has changed. *)
Theorem X19_cached_heights
    (g : GridPatch.Grid) (p : GridPatch.Patch) (test : GridPatch.TestCase)
    (st : GridPatch.Store) :
  let F := fun i j =>
    GridPatch.EvaluateTopography_at test
      (st GridPatch.m_dataLon [i; j]%nat) (st GridPatch.m_dataLat [i; j]%nat) in
  ((exists i j, (i < GridPatch.GetATotalWidth p)%nat /\
                (j < GridPatch.GetBTotalWidth p)%nat /\
                F i j >= GridPatch.GetZtop g) ->
   GridPatch.EvaluateTestCase_heights g p test st
   = Exception "TestCase topography exceeds model top.") /\
  ((forall i j, (i < GridPatch.GetATotalWidth p)%nat ->
                (j < GridPatch.GetBTotalWidth p)%nat ->
                F i j < GridPatch.GetZtop g) ->
   exists st',
     GridPatch.EvaluateTestCase_heights g p test st = Ok st' /\
     (forall i j, (i < GridPatch.GetATotalWidth p)%nat ->
                  (j < GridPatch.GetBTotalWidth p)%nat ->
        st' GridPatch.m_dataTopography [i; j]%nat = F i j /\
        (forall k, (k < GridPatch.GetRElements g)%nat ->
           0 <= GridPatch.GetREtaLevel g k <= 1 ->
           F i j <= st' GridPatch.m_dataZLevels [k; i; j]%nat
                 <= GridPatch.GetZtop g) /\
        (forall k, (k <= GridPatch.GetRElements g)%nat ->
           GridPatch.GetREtaInterface g k = 0 ->
           st' GridPatch.m_dataZInterfaces [k; i; j]%nat = F i j) /\
        (forall k, (k <= GridPatch.GetRElements g)%nat ->
           GridPatch.GetREtaInterface g k = 1 ->
           st' GridPatch.m_dataZInterfaces [k; i; j]%nat
           = GridPatch.GetZtop g) /\
        (forall k k', (k <= GridPatch.GetRElements g)%nat ->
           (k' <= GridPatch.GetRElements g)%nat ->
           GridPatch.GetREtaInterface g k < GridPatch.GetREtaInterface g k' ->
           st' GridPatch.m_dataZInterfaces [k; i; j]%nat
           < st' GridPatch.m_dataZInterfaces [k'; i; j]%nat)) /\
     (forall a ix, a <> GridPatch.m_dataTopography ->
                   a <> GridPatch.m_dataZLevels ->
                   a <> GridPatch.m_dataZInterfaces ->
        st' a ix = st a ix)).
Proof.
  intro F.
  destruct (EvaluateTestCase_heights_decided g p test st) as [Hok Hexc].
  split; [exact Hexc|].
  intro Hall. eexists. split; [exact (Hok Hall)|]. split.
  - intros i j Hi Hj.
    destruct (WriteHeights_values g p test st i j Hi Hj) as (Ht & Hn & He).
    fold (F i j) in Ht, Hn, He. specialize (Hall i j Hi Hj).
    split; [exact Ht|]. split; [|split; [|split]].
    + intros k Hk [H0 H1]. rewrite (Hn k Hk). split; nra.
    + intros k Hk E. rewrite (He k Hk), E. lra.
    + intros k Hk E. rewrite (He k Hk), E. lra.
    + intros k k' Hk Hk' Hlt. rewrite (He k Hk), (He k' Hk'). nra.
  - intros a ix H1 H2 H3.
    destruct (WriteHeights_local g p test st st) as (_ & Hf & _);
      [split; reflexivity|].
    apply Hf.
    destruct (Footprint.CellsHeights g p a ix) eqn:E; [|reflexivity].
    apply CellsHeights_array in E. destruct E as [E|[E|E]]; contradiction.
Qed.

Lemma X19_cached_heights_witness :
  exists st',
    GridPatch.EvaluateTestCase_heights
      (QuadraticStretchGrid GridPatch.VerticalStaggering_CharneyPhillips
         [0.5; 0.5]) OneColumnPatch FlatTestCase ZeroStore = Ok st' /\
    st' GridPatch.m_dataZInterfaces [0; 0; 0]%nat
    < st' GridPatch.m_dataZInterfaces [1; 0; 0]%nat.
Proof.
  destruct (X19_cached_heights
              (QuadraticStretchGrid GridPatch.VerticalStaggering_CharneyPhillips
                 [0.5; 0.5]) OneColumnPatch FlatTestCase ZeroStore)
    as [_ H].
  destruct H as (st' & E & Hv & _).
  - intros i j _ _. simpl. lra.
  - exists st'. split; [exact E|].
    destruct (Hv 0%nat 0%nat) as (_ & _ & _ & _ & Hord);
      [simpl; lia | simpl; lia |].
    apply Hord; simpl; try lia; lra.
Defined.

(** *** From the coordinates of the box to the heights *)

Section PatchSetup.

Import GridPatch Footprint.

Variable g : Grid.
Variable p : Patch.
Variables GetANode GetBNode : nat -> R.

Let WriteCoordinates : Store -> Store :=
  for_loop (GetATotalWidth p) (fun i =>
  for_loop (GetBTotalWidth p) (fun j st =>
    let st := upd st m_dataLon [i; j]%nat (GetANode i) in
    upd st m_dataLat [i; j]%nat (GetBNode j))).

Lemma WriteCoordinates_local :
  Local (fun _ _ => true) (BoxCoordinates GetANode GetBNode)
    (fun _ => True) (CellsCoordinates p) WriteCoordinates.
Proof.
  unfold CellsCoordinates, WriteCoordinates.
  apply Local_for_loop; intros i _.
  apply Local_for_loop; intros j _.
  intros s _. split; [exact I|]. cbv zeta. split.
  - intros a ix H. apply orb_false_elim in H as [H1 H2].
    rewrite upd_frame by exact H2. now apply upd_frame.
  - intros a ix H _.
    destruct (cell_eqb m_dataLat [i; j]%nat a ix) eqn:E.
    + apply cell_eqb_true in E as [<- <-]. now rewrite upd_same.
    + rewrite upd_frame by exact E. rewrite orb_false_r in H.
      apply cell_eqb_true in H as [<- <-]. now rewrite upd_same.
Qed.

Lemma InitializeDataLocal_cases dTopoHeight st :
  (10 * dTopoHeight >= GetZtop g /\
   InitializeDataLocal g p GetANode GetBNode dTopoHeight st
   = Exception "Coordinate scale height exceeds model top.")
  \/ (10 * dTopoHeight < GetZtop g /\
      InitializeDataLocal g p GetANode GetBNode dTopoHeight st
      = Ok (WriteCoordinates st, 10 * dTopoHeight)).
Proof.
  unfold InitializeDataLocal; cbv zeta.
  destruct (Rge_dec (10.0 * dTopoHeight) (GetZtop g)) as [H|H].
  - left. split; [lra | reflexivity].
  - right. split; [lra|]. unfold WriteCoordinates.
    replace (10.0 * dTopoHeight) with (10 * dTopoHeight) by lra.
    reflexivity.
Qed.

Lemma WriteCoordinates_values st i j :
  (i < GetATotalWidth p)%nat -> (j < GetBTotalWidth p)%nat ->
  WriteCoordinates st m_dataLon [i; j]%nat = GetANode i /\
  WriteCoordinates st m_dataLat [i; j]%nat = GetBNode j.
Proof.
  intros Hi Hj. destruct (WriteCoordinates_local st I) as (_ & _ & Hv).
  assert (HO : forall a, a = m_dataLon \/ a = m_dataLat ->
                         CellsCoordinates p a [i; j]%nat = true).
  { intros a Ha. unfold CellsCoordinates.
    apply loop_cells_intro with (i := i); [exact Hi|].
    apply loop_cells_intro with (i := j); [exact Hj|].
    destruct Ha as [-> | ->]; rewrite cell_eqb_refl;
      [reflexivity | apply orb_true_r]. }
  split; (rewrite Hv; [reflexivity | apply HO; auto | reflexivity]).
Qed.

Lemma CellsCoordinates_array a ix :
  CellsCoordinates p a ix = true -> a = m_dataLon \/ a = m_dataLat.
Proof.
  intro H. unfold CellsCoordinates in H.
  apply loop_cells_elim in H as (i & _ & H).
  apply loop_cells_elim in H as (j & _ & H).
  apply orb_true_iff in H as [H|H];
    apply cell_eqb_true in H as [<- _]; [now left | now right].
Qed.

Lemma CellsHeights_topography ix :
  CellsHeights g p m_dataTopography ix = true ->
  exists i j, (i < GetATotalWidth p)%nat /\ (j < GetBTotalWidth p)%nat /\
              ix = [i; j]%nat.
Proof.
  intro H. unfold CellsHeights in H.
  apply loop_cells_elim in H as (i & Hi & H).
  apply loop_cells_elim in H as (j & Hj & H).
  unfold CellsColumnHeights in H.
  apply orb_true_iff in H as [H|H]; [apply orb_true_iff in H as [H|H]|].
  - apply cell_eqb_true in H as [_ <-]. now exists i, j.
  - apply loop_cells_elim in H as (k & _ & H).
    apply cell_eqb_true in H as [H _]. discriminate.
  - apply loop_cells_elim in H as (k & _ & H).
    apply cell_eqb_true in H as [H _]. discriminate.
Qed.

End PatchSetup.

(** X20.  Setting up a patch.  [InitializeDataLocal] raises "Coordinate
    scale height exceeds model top." when ten times the topography height
    reaches the model top.  When it returns and [EvaluateTopography] returns
    on its result, the scale height is ten times the topography height and
    below the model top, the coordinate arrays hold the coordinates of the
    nodes of the box, and the loop of [EvaluateTestCase] over the nodes
    returns as well: its check of the topography cannot fail any more, and
    it changes no array other than the two height arrays, the topography it
    stores again being the one already there. *)
Theorem X20_patch_setup
    (g : GridPatch.Grid) (p : GridPatch.Patch) (GetANode GetBNode : nat -> R)
    (dTopoHeight : R) (test : GridPatch.TestCase)
    (dDxBasis1D : nat -> nat -> R) (st : GridPatch.Store) :
  (10 * dTopoHeight >= GridPatch.GetZtop g ->
   GridPatch.InitializeDataLocal g p GetANode GetBNode dTopoHeight st
   = Exception "Coordinate scale height exceeds model top.") /\
  (forall st1 dSL st2,
     GridPatch.InitializeDataLocal g p GetANode GetBNode dTopoHeight st
     = Ok (st1, dSL) ->
     GridPatch.EvaluateTopography g p GetANode GetBNode test dDxBasis1D st1
     = Ok st2 ->
     dSL = 10 * dTopoHeight /\ dSL < GridPatch.GetZtop g /\
     (forall i j, (i < GridPatch.GetATotalWidth p)%nat ->
                  (j < GridPatch.GetBTotalWidth p)%nat ->
        st2 GridPatch.m_dataLon [i; j]%nat = GetANode i /\
        st2 GridPatch.m_dataLat [i; j]%nat = GetBNode j) /\
     exists st3,
       GridPatch.EvaluateTestCase_heights g p test st2 = Ok st3 /\
       forall a ix, a <> GridPatch.m_dataZLevels ->
                    a <> GridPatch.m_dataZInterfaces ->
         st3 a ix = st2 a ix).
Proof.
  split.
  - intro Hge.
    destruct (InitializeDataLocal_cases g p GetANode GetBNode dTopoHeight st)
      as [[_ E]|[Hlt _]]; [exact E | lra].
  - intros st1 dSL st2 E1 E2.
    destruct (InitializeDataLocal_cases g p GetANode GetBNode dTopoHeight st)
      as [[_ E]|[Hlt E]]; rewrite E in E1; [discriminate|].
    injection E1 as <- <-.
    set (st1 := for_loop _ _ st) in *.
    assert (Hc1 : forall i j, (i < GridPatch.GetATotalWidth p)%nat ->
                    (j < GridPatch.GetBTotalWidth p)%nat ->
              st1 GridPatch.m_dataLon [i; j]%nat = GetANode i /\
              st1 GridPatch.m_dataLat [i; j]%nat = GetBNode j).
    { intros i j Hi Hj.
      exact (WriteCoordinates_values p GetANode GetBNode st i j Hi Hj). }
    unfold GridPatch.EvaluateTopography in E2.
    destruct (EvaluateTopography_values_decided g p GetANode GetBNode test st1)
      as [Hok Hexc].
    destruct (box_search (GridPatch.GetATotalWidth p)
                (GridPatch.GetBTotalWidth p)
                (fun i j => GridPatch.EvaluateTopography_at test
                              (GetANode i) (GetBNode j))
                (GridPatch.GetZtop g)) as [Hbad|Hgood].
    { rewrite (Hexc Hbad) in E2. discriminate. }
    rewrite (Hok Hgood) in E2. cbn [bind] in E2. injection E2 as <-.
    destruct (WriteTopography_values p GetANode GetBNode test st1)
      as [Hv Hf].
    set (s2 := for_loop (GridPatch.GetATotalWidth p) _ st1) in *.
    set (st2 := for_loop (GridPatch.GetElementCountA p) _ s2).
    assert (Hkeep : forall a ix, a <> GridPatch.m_dataTopography ->
                      a <> GridPatch.m_dataTopographyDeriv ->
                      st2 a ix = st1 a ix).
    { intros a ix Ha Hd. unfold st2.
      rewrite DerivNest_frame by exact Hd. apply Hf.
      destruct (Footprint.CellsTopography p a ix) eqn:C; [|reflexivity].
      apply CellsTopography_array in C as [C _]. contradiction. }
    assert (Ht2 : forall i j, (i < GridPatch.GetATotalWidth p)%nat ->
                    (j < GridPatch.GetBTotalWidth p)%nat ->
              st2 GridPatch.m_dataTopography [i; j]%nat
              = GridPatch.EvaluateTopography_at test
                  (GetANode i) (GetBNode j)).
    { intros i j Hi Hj. unfold st2.
      rewrite DerivNest_frame by discriminate. now apply Hv. }
    assert (Hc2 : forall i j, (i < GridPatch.GetATotalWidth p)%nat ->
                    (j < GridPatch.GetBTotalWidth p)%nat ->
              st2 GridPatch.m_dataLon [i; j]%nat = GetANode i /\
              st2 GridPatch.m_dataLat [i; j]%nat = GetBNode j).
    { intros i j Hi Hj. rewrite !Hkeep by discriminate. now apply Hc1. }
    split; [reflexivity|]. split; [exact Hlt|]. split; [exact Hc2|].
    destruct (EvaluateTestCase_heights_decided g p test st2) as [Hok2 _].
    eexists. split.
    { apply Hok2. intros i j Hi Hj.
      destruct (Hc2 i j Hi Hj) as [-> ->]. now apply Hgood. }
    intros a ix HnL HnE.
    destruct (WriteHeights_local g p test st2 st2) as (_ & Hfr & _);
      [split; reflexivity|].
    destruct (Footprint.CellsHeights g p a ix) eqn:C;
      [|now apply Hfr].
    destruct (CellsHeights_array _ _ _ _ C) as [->|[->| ->]];
      [|contradiction|contradiction].
    apply CellsHeights_topography in C as (i & j & Hi & Hj & ->).
    destruct (WriteHeights_values g p test st2 i j Hi Hj) as (Ht & _).
    rewrite Ht. destruct (Hc2 i j Hi Hj) as [-> ->].
    symmetry. now apply Ht2.
Qed.

Lemma X20_patch_setup_witness :
  exists st1 st2 st3,
    GridPatch.InitializeDataLocal
      (QuadraticStretchGrid GridPatch.VerticalStaggering_CharneyPhillips
         [0.5; 0.5]) OneColumnPatch INR INR 0 ZeroStore = Ok (st1, 10 * 0) /\
    GridPatch.EvaluateTopography
      (QuadraticStretchGrid GridPatch.VerticalStaggering_CharneyPhillips
         [0.5; 0.5]) OneColumnPatch INR INR FlatTestCase (fun _ _ => 0) st1
    = Ok st2 /\
    GridPatch.EvaluateTestCase_heights
      (QuadraticStretchGrid GridPatch.VerticalStaggering_CharneyPhillips
         [0.5; 0.5]) OneColumnPatch FlatTestCase st2 = Ok st3 /\
    st3 GridPatch.m_dataTopography [0; 0]%nat
    = st2 GridPatch.m_dataTopography [0; 0]%nat.
Proof.
  set (g := QuadraticStretchGrid GridPatch.VerticalStaggering_CharneyPhillips
              [0.5; 0.5]).
  destruct (InitializeDataLocal_cases g OneColumnPatch INR INR 0 ZeroStore)
    as [[H _]|[_ E1]]; [simpl in H; lra|].
  set (st1 := for_loop _ _ ZeroStore) in E1.
  destruct (EvaluateTopography_values_decided g OneColumnPatch INR INR
              FlatTestCase st1) as [Hok _].
  eassert (E2 : GridPatch.EvaluateTopography g OneColumnPatch INR INR
                  FlatTestCase (fun _ _ => 0) st1 = Ok _).
  { unfold GridPatch.EvaluateTopography.
    rewrite Hok by (intros; simpl; lra). reflexivity. }
  destruct (proj2 (X20_patch_setup g OneColumnPatch INR INR 0 FlatTestCase
                     (fun _ _ => 0) ZeroStore) st1 _ _ E1 E2)
    as (_ & _ & _ & st3 & E3 & Hsame).
  exists st1. eexists. exists st3.
  split; [exact E1|]. split; [exact E2|]. split; [exact E3|].
  apply Hsame; discriminate.
Defined.

(** *** Vorticity and divergence *)

Lemma for_loop_preserve {S : Type} (Q : S -> Prop) n
    (body : nat -> S -> S) s :
  (forall m t, (m < n)%nat -> Q t -> Q (body m t)) ->
  Q s -> Q (for_loop n body s).
Proof.
  intros Hstep H0. induction n as [|n IH]; [exact H0|].
  rewrite for_loop_S. apply Hstep; [lia|]. apply IH.
  intros m t Hm. apply Hstep. lia.
Qed.

Lemma for_loop_establish {S : Type} (Inv Q : S -> Prop) n
    (body : nat -> S -> S) i s :
  (i < n)%nat -> Inv s ->
  (forall m t, (m < n)%nat -> Inv t -> Inv (body m t)) ->
  (forall m t, (m < n)%nat -> Inv t -> Q t -> Q (body m t)) ->
  (forall t, Inv t -> Q (body i t)) ->
  Q (for_loop n body s).
Proof.
  intros Hi H0 HInv Hkeep Hset.
  assert (HI : forall m, (m <= n)%nat -> Inv (for_loop m body s)).
  { intros m Hm. apply for_loop_preserve; [|exact H0].
    intros k t Hk. apply HInv. lia. }
  induction n as [|n IH]; [lia|].
  rewrite for_loop_S.
  destruct (Nat.eq_dec i n) as [->|Hne].
  - apply Hset. apply HI. lia.
  - apply Hkeep; [lia | apply HI; lia |].
    apply IH; try lia.
    + intros m t Hm. apply HInv. lia.
    + intros m t Hm. apply Hkeep. lia.
    + intros m Hm. apply HI. lia.
Qed.

Lemma element_node_unique (n h a i a' i' : nat) :
  (i < n)%nat -> (i' < n)%nat ->
  (a * n + h + i = a' * n + h + i')%nat -> a = a' /\ i = i'.
Proof.
  intros Hi Hi' E.
  assert (a = a').
  { destruct (Nat.lt_trichotomy a a') as [H|[H|H]]; [|exact H|].
    - assert ((a + 1) * n <= a' * n)%nat
        by (apply Nat.mul_le_mono_r; lia). lia.
    - assert ((a' + 1) * n <= a * n)%nat
        by (apply Nat.mul_le_mono_r; lia). lia. }
  subst. split; [reflexivity | lia].
Qed.

Section CurlAndDivFacts.

Import GridPatch.

Variable g : Grid.
Variable p : Patch.
Variable dDxBasis1D : nat -> nat -> R.
Variables GetAInteriorWidth GetBInteriorWidth GetHaloElements : nat.
Variable st : Store.
Variables dataUa dataUb : GridData3D.

Let n := m_nHorizontalOrder p.

(** The contravariant velocities at a node. *)
Let conUa (k I J : nat) : R :=
  st m_dataContraMetric2DA [I; J; 0]%nat * dataUa k I J
  + st m_dataContraMetric2DA [I; J; 1]%nat * dataUb k I J.

Let conUb (k I J : nat) : R :=
  st m_dataContraMetric2DB [I; J; 0]%nat * dataUa k I J
  + st m_dataContraMetric2DB [I; J; 1]%nat * dataUb k I J.

(** The work matrices hold the contravariant velocities of the element. *)
Let Filled (k iA iB : nat) (d : CurlAndDiv) : Prop :=
  forall i j, (i < n)%nat -> (j < n)%nat ->
    dConUa d i j = conUa k (iA + i) (iB + j) /\
    dConUb d i j = conUb k (iA + i) (iB + j).

(** The values stored at node [i], [j] of the element at [iA], [iB]. *)
Let Vort (k iA iB i j : nat) : R :=
  (ColumnOperator.sumR n (fun s =>
     dDxBasis1D s i * dataUb k (iA + s)%nat (iB + j)%nat)
   / GetElementDeltaA p
   - ColumnOperator.sumR n (fun s =>
       dDxBasis1D s j * dataUa k (iA + i)%nat (iB + s)%nat)
     / GetElementDeltaB p)
  / st m_dataJacobian2D [iA + i; iB + j]%nat.

Let Div (k iA iB i j : nat) : R :=
  (ColumnOperator.sumR n (fun s =>
     dDxBasis1D s i * st m_dataJacobian2D [iA + s; iB + j]%nat
     * conUa k (iA + s) (iB + j))
   / GetElementDeltaA p
   + ColumnOperator.sumR n (fun s =>
       dDxBasis1D s j * st m_dataJacobian2D [iA + i; iB + s]%nat
       * conUb k (iA + i) (iB + s))
     / GetElementDeltaB p)
  / st m_dataJacobian2D [iA + i; iB + j]%nat.

Lemma setMatrix_same M i j v : setMatrix M i j v i j = v.
Proof. unfold setMatrix. now rewrite !Nat.eqb_refl. Qed.

Lemma setMatrix_other M i j v i' j' :
  (i', j') <> (i, j) -> setMatrix M i j v i' j' = M i' j'.
Proof.
  intro H. unfold setMatrix.
  destruct (Nat.eqb_spec i' i); [|reflexivity].
  destruct (Nat.eqb_spec j' j); [|reflexivity].
  subst. contradiction.
Qed.

Lemma set3D_same f k i j v : set3D f k i j v k i j = v.
Proof. unfold set3D. now rewrite !Nat.eqb_refl. Qed.

Lemma set3D_cases f k i j v k' i' j' :
  (k' = k /\ i' = i /\ j' = j /\ set3D f k i j v k' i' j' = v)
  \/ ((k', i', j') <> (k, i, j) /\ set3D f k i j v k' i' j' = f k' i' j').
Proof.
  unfold set3D.
  destruct (Nat.eqb_spec k' k); [|right; split; [congruence|reflexivity]].
  destruct (Nat.eqb_spec i' i); [|right; split; [congruence|reflexivity]].
  destruct (Nat.eqb_spec j' j); [|right; split; [congruence|reflexivity]].
  left. auto.
Qed.

Lemma ContravariantVelocity_fields k iA iB i j d :
  let d' := ContravariantVelocity st dataUa dataUb k iA iB i j d in
  m_dataVorticity d' = m_dataVorticity d /\
  m_dataDivergence d' = m_dataDivergence d /\
  dConUa d' = setMatrix (dConUa d) i j (conUa k (iA + i) (iB + j)) /\
  dConUb d' = setMatrix (dConUb d) i j (conUb k (iA + i) (iB + j)).
Proof. repeat split. Qed.

(** After the first loop nest the work matrices are filled and the
    diagnostic arrays are as before. *)
Lemma ContravariantVelocity_filled k iA iB d :
  let d' :=
    for_loop n (fun i => for_loop n (fun j =>
      ContravariantVelocity st dataUa dataUb k iA iB i j)) d in
  Filled k iA iB d' /\
  m_dataVorticity d' = m_dataVorticity d /\
  m_dataDivergence d' = m_dataDivergence d.
Proof.
  cbv zeta. split.
  - intros i j Hi Hj.
    set (Q := fun t : CurlAndDiv =>
                dConUa t i j = conUa k (iA + i) (iB + j) /\
                dConUb t i j = conUb k (iA + i) (iB + j)).
    assert (Hkeep : forall i' j' t, Q t ->
              Q (ContravariantVelocity st dataUa dataUb k iA iB i' j' t)).
    { intros i' j' t [Ha Hb].
      destruct (ContravariantVelocity_fields k iA iB i' j' t)
        as (_ & _ & Ea & Eb).
      unfold Q. rewrite Ea, Eb.
      destruct (Nat.eq_dec i' i) as [->|Hi'];
        [destruct (Nat.eq_dec j' j) as [->|Hj']|].
      - now rewrite !setMatrix_same.
      - rewrite !setMatrix_other by congruence. now split.
      - rewrite !setMatrix_other by congruence. now split. }
    apply (for_loop_establish (fun _ => True) Q n _ i);
      [exact Hi | exact I | intros; exact I | |].
    + intros m t _ _ Ht. apply for_loop_preserve; [|exact Ht].
      intros j' t' _. apply Hkeep.
    + intros t _.
      apply (for_loop_establish (fun _ => True) Q n _ j);
        [exact Hj | exact I | intros; exact I | |].
      * intros j' t' _ _. apply Hkeep.
      * intros t' _.
        destruct (ContravariantVelocity_fields k iA iB i j t')
          as (_ & _ & Ea & Eb).
        unfold Q. rewrite Ea, Eb. now rewrite !setMatrix_same.
  - apply (for_loop_preserve
             (fun t => m_dataVorticity t = m_dataVorticity d /\
                       m_dataDivergence t = m_dataDivergence d));
      [|now split].
    intros i t _ Ht. apply for_loop_preserve; [|exact Ht].
    intros j t' _ Ht'. exact Ht'.
Qed.

Lemma NodeDerivatives_sums k iA iB i j d :
  Filled k iA iB d -> (i < n)%nat -> (j < n)%nat ->
  NodeDerivatives p dDxBasis1D st dataUa dataUb k iA iB i j d
  = (ColumnOperator.sumR n (fun s =>
       dDxBasis1D s i * st m_dataJacobian2D [iA + s; iB + j]%nat
       * conUa k (iA + s) (iB + j)),
     ColumnOperator.sumR n (fun s =>
       dDxBasis1D s j * st m_dataJacobian2D [iA + i; iB + s]%nat
       * conUb k (iA + i) (iB + s)),
     ColumnOperator.sumR n (fun s =>
       dDxBasis1D s i * dataUb k (iA + s)%nat (iB + j)%nat),
     ColumnOperator.sumR n (fun s =>
       dDxBasis1D s j * dataUa k (iA + i)%nat (iB + s)%nat)).
Proof.
  intros HF Hi Hj. unfold NodeDerivatives. fold n.
  assert (H : forall m, (m <= n)%nat ->
    for_loop m (fun s (acc : R * R * R * R) =>
      let '(dDaJUa, dDbJUb, dCovDaUb, dCovDbUa) := acc in
      (dDaJUa + dDxBasis1D s i
                * st m_dataJacobian2D [iA + s; iB + j]%nat
                * dConUa d s j,
       dDbJUb + dDxBasis1D s j
                * st m_dataJacobian2D [iA + i; iB + s]%nat
                * dConUb d i s,
       dCovDaUb + dDxBasis1D s i * dataUb k (iA + s)%nat (iB + j)%nat,
       dCovDbUa + dDxBasis1D s j * dataUa k (iA + i)%nat (iB + s)%nat))
      (0.0, 0.0, 0.0, 0.0)
    = (ColumnOperator.sumR m (fun s =>
         dDxBasis1D s i * st m_dataJacobian2D [iA + s; iB + j]%nat
         * conUa k (iA + s) (iB + j)),
       ColumnOperator.sumR m (fun s =>
         dDxBasis1D s j * st m_dataJacobian2D [iA + i; iB + s]%nat
         * conUb k (iA + i) (iB + s)),
       ColumnOperator.sumR m (fun s =>
         dDxBasis1D s i * dataUb k (iA + s)%nat (iB + j)%nat),
       ColumnOperator.sumR m (fun s =>
         dDxBasis1D s j * dataUa k (iA + i)%nat (iB + s)%nat))).
  { induction m as [|m IH]; intro Hm.
    - rewrite for_loop_0. cbn [ColumnOperator.sumR].
      repeat (f_equal; try lra).
    - rewrite for_loop_S, IH by lia. cbn [ColumnOperator.sumR].
      destruct (HF m j ltac:(lia) Hj) as [-> _].
      destruct (HF i m Hi ltac:(lia)) as [_ ->].
      reflexivity. }
  apply H. lia.
Qed.

Lemma CurlAndDivAtNode_fields k iA iB i j d :
  Filled k iA iB d -> (i < n)%nat -> (j < n)%nat ->
  let d' := CurlAndDivAtNode p dDxBasis1D st dataUa dataUb k iA iB i j d in
  m_dataVorticity d'
  = set3D (m_dataVorticity d) k (iA + i) (iB + j) (Vort k iA iB i j) /\
  m_dataDivergence d'
  = set3D (m_dataDivergence d) k (iA + i) (iB + j) (Div k iA iB i j) /\
  dConUa d' = dConUa d /\ dConUb d' = dConUb d.
Proof.
  intros HF Hi Hj. cbv zeta. unfold CurlAndDivAtNode.
  rewrite (NodeDerivatives_sums k iA iB i j d HF Hi Hj).
  repeat split.
Qed.

Let nA := (GetAInteriorWidth / n)%nat.
Let nB := (GetBInteriorWidth / n)%nat.
Let first_node (a : nat) : nat := (a * n + GetHaloElements)%nat.

(** Both diagnostics of the cell [K], [I], [J] hold [v] and [w]. *)
Let Holds (K I J : nat) (v w : R) (t : CurlAndDiv) : Prop :=
  m_dataVorticity t K I J = v /\ m_dataDivergence t K I J = w.

(** Any node of the loop nest that is the cell [K], [I], [J] stores [v] and
    [w]. *)
Let Agrees (K I J : nat) (v w : R) : Prop :=
  forall k a b i j,
    (k < GetRElements g)%nat -> (a < nA)%nat -> (b < nB)%nat ->
    (i < n)%nat -> (j < n)%nat ->
    K = k -> I = (first_node a + i)%nat -> J = (first_node b + j)%nat ->
    v = Vort k (first_node a) (first_node b) i j /\
    w = Div k (first_node a) (first_node b) i j.

Lemma CurlAndDivAtNode_keeps K I J v w k a b i j t :
  Agrees K I J v w ->
  (k < GetRElements g)%nat -> (a < nA)%nat -> (b < nB)%nat ->
  (i < n)%nat -> (j < n)%nat ->
  Filled k (first_node a) (first_node b) t /\ Holds K I J v w t ->
  let t' := CurlAndDivAtNode p dDxBasis1D st dataUa dataUb k
              (first_node a) (first_node b) i j t in
  Filled k (first_node a) (first_node b) t' /\ Holds K I J v w t'.
Proof.
  intros HA Hk Ha Hb Hi Hj [HF [Hv Hw]]. cbv zeta.
  destruct (CurlAndDivAtNode_fields k (first_node a) (first_node b) i j t
              HF Hi Hj) as (Ev & Ed & Ea & Eb).
  split.
  - intros i' j' Hi' Hj'. rewrite Ea, Eb. now apply HF.
  - unfold Holds. rewrite Ev, Ed.
    destruct (set3D_cases (m_dataVorticity t) k (first_node a + i)
                (first_node b + j)
                (Vort k (first_node a) (first_node b) i j) K I J)
      as [(EK & EI & EJ & E)|(Hne & E)]; rewrite E.
    + destruct (HA k a b i j Hk Ha Hb Hi Hj EK EI EJ) as [-> ->].
      subst K I J. now rewrite set3D_same.
    + split; [exact Hv|].
      destruct (set3D_cases (m_dataDivergence t) k (first_node a + i)
                  (first_node b + j)
                  (Div k (first_node a) (first_node b) i j) K I J)
        as [(EK & EI & EJ & _)|(_ & E')]; [|now rewrite E'].
      subst. contradiction.
Qed.

Lemma CurlAndDivOfElement_keeps K I J v w k a b t :
  Agrees K I J v w ->
  (k < GetRElements g)%nat -> (a < nA)%nat -> (b < nB)%nat ->
  Holds K I J v w t ->
  Holds K I J v w
    (CurlAndDivOfElement p dDxBasis1D GetHaloElements st dataUa dataUb
       k a b t).
Proof.
  intros HA Hk Ha Hb [Hv Hw]. unfold CurlAndDivOfElement; cbv zeta.
  fold n. fold (first_node a). fold (first_node b).
  destruct (ContravariantVelocity_filled k (first_node a) (first_node b) t)
    as (HF & Ev & Ed).
  set (t1 := for_loop n _ t) in *.
  apply (for_loop_preserve
           (fun t' => Filled k (first_node a) (first_node b) t' /\
                      Holds K I J v w t')).
  - intros i t' Hi Ht'. apply for_loop_preserve; [|exact Ht'].
    intros j t'' Hj Ht''.
    now apply CurlAndDivAtNode_keeps.
  - split; [exact HF|]. unfold Holds. now rewrite Ev, Ed.
Qed.

Lemma CurlAndDivOfElement_sets k a b i j t :
  (k < GetRElements g)%nat -> (a < nA)%nat -> (b < nB)%nat ->
  (i < n)%nat -> (j < n)%nat ->
  Holds k (first_node a + i) (first_node b + j)
    (Vort k (first_node a) (first_node b) i j)
    (Div k (first_node a) (first_node b) i j)
    (CurlAndDivOfElement p dDxBasis1D GetHaloElements st dataUa dataUb
       k a b t).
Proof.
  intros Hk Ha Hb Hi Hj. unfold CurlAndDivOfElement; cbv zeta.
  fold n. fold (first_node a). fold (first_node b).
  destruct (ContravariantVelocity_filled k (first_node a) (first_node b) t)
    as (HF & _ & _).
  set (t1 := for_loop n _ t) in *.
  set (Inv := Filled k (first_node a) (first_node b)).
  set (Q := Holds k (first_node a + i) (first_node b + j)
              (Vort k (first_node a) (first_node b) i j)
              (Div k (first_node a) (first_node b) i j)).
  assert (Hfill : forall i' j' t', (i' < n)%nat -> (j' < n)%nat ->
            Inv t' ->
            Inv (CurlAndDivAtNode p dDxBasis1D st dataUa dataUb k
                   (first_node a) (first_node b) i' j' t')).
  { intros i' j' t' Hi' Hj' HF'.
    destruct (CurlAndDivAtNode_fields k (first_node a) (first_node b)
                i' j' t' HF' Hi' Hj') as (_ & _ & Ea & Eb).
    intros x y Hx Hy. rewrite Ea, Eb. now apply HF'. }
  assert (Hkeep : forall i' j' t', (i' < n)%nat -> (j' < n)%nat ->
            Inv t' -> Q t' ->
            Q (CurlAndDivAtNode p dDxBasis1D st dataUa dataUb k
                 (first_node a) (first_node b) i' j' t')).
  { intros i' j' t' Hi' Hj' HF' [Hv Hw].
    destruct (CurlAndDivAtNode_fields k (first_node a) (first_node b)
                i' j' t' HF' Hi' Hj') as (Ev & Ed & _ & _).
    unfold Q, Holds. rewrite Ev, Ed. unfold set3D.
    destruct (Nat.eqb k k && Nat.eqb (first_node a + i) (first_node a + i')
              && Nat.eqb (first_node b + j) (first_node b + j')) eqn:E.
    - apply andb_true_iff in E as [E E3].
      apply andb_true_iff in E as [_ E2].
      apply Nat.eqb_eq in E2, E3.
      assert (i' = i) by lia. assert (j' = j) by lia. subst. now split.
    - now split. }
  assert (Hset : forall t', Inv t' ->
            Q (CurlAndDivAtNode p dDxBasis1D st dataUa dataUb k
                 (first_node a) (first_node b) i j t')).
  { intros t' HF'.
    destruct (CurlAndDivAtNode_fields k (first_node a) (first_node b)
                i j t' HF' Hi Hj) as (Ev & Ed & _ & _).
    unfold Q, Holds. rewrite Ev, Ed. now rewrite !set3D_same. }
  apply (for_loop_establish Inv Q n _ i); [exact Hi | exact HF | | |].
  - intros i' t' Hi' Ht'. apply for_loop_preserve; [|exact Ht'].
    intros j' t'' Hj'. now apply Hfill.
  - intros i' t' Hi' Ht' HQ.
    apply (for_loop_preserve (fun x => Inv x /\ Q x)); [|now split].
    intros j' t'' Hj' [H1 H2]. split; [now apply Hfill | now apply Hkeep].
  - intros t' Ht'.
    apply (for_loop_establish Inv Q n _ j); [exact Hj | exact Ht' | | |].
    + intros j' t'' Hj'. now apply Hfill.
    + intros j' t'' Hj'. now apply Hkeep.
    + exact Hset.
Qed.

Lemma ComputeCurlAndDiv_keeps K I J v w d :
  Agrees K I J v w ->
  m_dataVorticity d K I J = v -> m_dataDivergence d K I J = w ->
  Holds K I J v w
    (ComputeCurlAndDiv g p dDxBasis1D GetAInteriorWidth GetBInteriorWidth
       GetHaloElements st dataUa dataUb d).
Proof.
  intros HA Hv Hw. unfold ComputeCurlAndDiv; cbv zeta.
  fold n. fold nA. fold nB.
  apply for_loop_preserve; [|split; assumption].
  intros k t Hk Ht. apply for_loop_preserve; [|exact Ht].
  intros a t' Ha Ht'. apply for_loop_preserve; [|exact Ht'].
  intros b t'' Hb. now apply CurlAndDivOfElement_keeps.
Qed.

Lemma ComputeCurlAndDiv_values d k a b i j :
  (k < GetRElements g)%nat -> (a < nA)%nat -> (b < nB)%nat ->
  (i < n)%nat -> (j < n)%nat ->
  Holds k (first_node a + i) (first_node b + j)
    (Vort k (first_node a) (first_node b) i j)
    (Div k (first_node a) (first_node b) i j)
    (ComputeCurlAndDiv g p dDxBasis1D GetAInteriorWidth GetBInteriorWidth
       GetHaloElements st dataUa dataUb d).
Proof.
  intros Hk Ha Hb Hi Hj.
  assert (HA : Agrees k (first_node a + i) (first_node b + j)
                 (Vort k (first_node a) (first_node b) i j)
                 (Div k (first_node a) (first_node b) i j)).
  { intros k' a' b' i' j' _ _ _ Hi' Hj' <- EI EJ.
    unfold first_node in EI, EJ.
    apply element_node_unique in EI as [<- <-]; try assumption.
    apply element_node_unique in EJ as [<- <-]; try assumption.
    now split. }
  unfold ComputeCurlAndDiv; cbv zeta. fold n. fold nA. fold nB.
  set (Q := Holds k (first_node a + i) (first_node b + j)
              (Vort k (first_node a) (first_node b) i j)
              (Div k (first_node a) (first_node b) i j)) in *.
  assert (Hkeep : forall k' a' b' t, (k' < GetRElements g)%nat ->
            (a' < nA)%nat -> (b' < nB)%nat -> Q t ->
            Q (CurlAndDivOfElement p dDxBasis1D GetHaloElements st
                 dataUa dataUb k' a' b' t)).
  { intros k' a' b' t Hk' Ha' Hb'. now apply CurlAndDivOfElement_keeps. }
  apply (for_loop_establish (fun _ => True) Q _ _ k);
    [exact Hk | exact I | intros; exact I | |].
  - intros k' t Hk' _ Ht. apply for_loop_preserve; [|exact Ht].
    intros a' t' Ha' Ht'. apply for_loop_preserve; [|exact Ht'].
    intros b' t'' Hb'. now apply Hkeep.
  - intros t _.
    apply (for_loop_establish (fun _ => True) Q _ _ a);
      [exact Ha | exact I | intros; exact I | |].
    + intros a' t' Ha' _ Ht'. apply for_loop_preserve; [|exact Ht'].
      intros b' t'' Hb'. now apply Hkeep.
    + intros t' _.
      apply (for_loop_establish (fun _ => True) Q _ _ b);
        [exact Hb | exact I | intros; exact I | |].
      * intros b' t'' Hb' _. now apply Hkeep.
      * intros t'' _. now apply CurlAndDivOfElement_sets.
Qed.

End CurlAndDivFacts.

Lemma element_range_node (n W h I : nat) :
  (h <= I < h + (W / n) * n)%nat ->
  exists a i, (a < W / n)%nat /\ (i < n)%nat /\ I = (a * n + h + i)%nat.
Proof.
  intros [Hlo Hhi].
  destruct (Nat.eq_dec n 0) as [->|Hn]; [rewrite Nat.mul_0_r in Hhi; lia|].
  exists ((I - h) / n)%nat, ((I - h) mod n)%nat.
  pose proof (Nat.div_mod_eq (I - h) n) as E.
  pose proof (Nat.mod_upper_bound (I - h) n Hn) as Hm.
  split; [|split; [exact Hm | lia]].
  apply (Nat.mul_lt_mono_pos_r n); lia.
Qed.

Lemma element_node_range (n W h a i : nat) :
  (a < W / n)%nat -> (i < n)%nat ->
  (h <= a * n + h + i < h + (W / n) * n)%nat.
Proof.
  intros Ha Hi. split; [lia|].
  assert ((a + 1) * n <= (W / n) * n)%nat
    by (apply Nat.mul_le_mono_r; lia).
  lia.
Qed.

(** X21.  [ComputeVorticityDivergence] raises "Insufficient components for
    vorticity calculation" for a state with fewer than two components.
    Otherwise it returns, and it writes only at the nodes of the elements
    on the model levels: every other cell of the vorticity and of the
    divergence, the halo among them, holds what it held before. *)
Theorem X21_vorticity_divergence_footprint
    (g : GridPatch.Grid) (p : GridPatch.Patch) (dDxBasis1D : nat -> nat -> R)
    (GetAInteriorWidth GetBInteriorWidth GetHaloElements : nat)
    (nComponents iDataIndex : nat) (st : GridPatch.Store)
    (d : GridPatch.CurlAndDiv) :
  ((nComponents < 2)%nat ->
   GridPatch.ComputeVorticityDivergence g p dDxBasis1D GetAInteriorWidth
     GetBInteriorWidth GetHaloElements nComponents iDataIndex st d
   = Exception "Insufficient components for vorticity calculation") /\
  ((2 <= nComponents)%nat ->
   exists d',
     GridPatch.ComputeVorticityDivergence g p dDxBasis1D GetAInteriorWidth
       GetBInteriorWidth GetHaloElements nComponents iDataIndex st d
     = Ok d' /\
     forall K I J,
       ~ ((K < GridPatch.GetRElements g)%nat /\
          GridPatch.InElements p GetAInteriorWidth GetHaloElements I /\
          GridPatch.InElements p GetBInteriorWidth GetHaloElements J) ->
       GridPatch.m_dataVorticity d' K I J = GridPatch.m_dataVorticity d K I J
       /\ GridPatch.m_dataDivergence d' K I J
          = GridPatch.m_dataDivergence d K I J).
Proof.
  unfold GridPatch.ComputeVorticityDivergence. split.
  - intro H. apply Nat.ltb_lt in H. now rewrite H.
  - intro H. apply Nat.ltb_ge in H. rewrite H. cbv zeta.
    eexists. split; [reflexivity|].
    intros K I J Hout.
    apply ComputeCurlAndDiv_keeps; [|reflexivity|reflexivity].
    intros k a b i j Hk Ha Hb Hi Hj -> -> ->.
    exfalso. apply Hout. split; [exact Hk|].
    split; now apply element_node_range.
Qed.

Lemma X21_vorticity_divergence_footprint_witness :
  exists d',
    GridPatch.ComputeVorticityDivergence
      (QuadraticStretchGrid GridPatch.VerticalStaggering_CharneyPhillips
         [0.5; 0.5]) OneColumnPatch (fun _ _ => 0) 1 1 0 2 0 BottomFlowStore
      {| GridPatch.m_dataVorticity := fun _ _ _ => 7;
         GridPatch.m_dataDivergence := fun _ _ _ => 7;
         GridPatch.dConUa := fun _ _ => 0;
         GridPatch.dConUb := fun _ _ => 0 |} = Ok d' /\
    GridPatch.m_dataVorticity d' 0%nat 1%nat 0%nat = 7.
Proof.
  destruct (X21_vorticity_divergence_footprint
              (QuadraticStretchGrid GridPatch.VerticalStaggering_CharneyPhillips
                 [0.5; 0.5]) OneColumnPatch (fun _ _ => 0) 1 1 0 2 0
              BottomFlowStore
              {| GridPatch.m_dataVorticity := fun _ _ _ => 7;
                 GridPatch.m_dataDivergence := fun _ _ _ => 7;
                 GridPatch.dConUa := fun _ _ => 0;
                 GridPatch.dConUb := fun _ _ => 0 |}) as [_ H].
  destruct H as (d' & E & Hf); [lia|].
  exists d'. split; [exact E|].
  destruct (Hf 0%nat 1%nat 0%nat) as [Hv _]; [|exact Hv].
  unfold GridPatch.InElements. simpl. lia.
Defined.

(** X22.  A uniform flow has no vorticity, and no divergence on a uniform
    metric.  When the derivatives of the basis functions sum to zero at
    every node, the element widths and the 2D Jacobian are not zero, and on
    every model level both velocity components have one value on all nodes
    of the elements, [ComputeCurlAndDiv] stores the vorticity 0 at every
    node of every element on every level; if moreover the 2D Jacobian and
    the 2D contravariant metric have the same entries at all these nodes,
    it stores the divergence 0 there as well. *)
Theorem X22_uniform_flow
    (g : GridPatch.Grid) (p : GridPatch.Patch) (dDxBasis1D : nat -> nat -> R)
    (GetAInteriorWidth GetBInteriorWidth GetHaloElements : nat)
    (st : GridPatch.Store) (dataUa dataUb : GridPatch.GridData3D)
    (ua ub : nat -> R) (d : GridPatch.CurlAndDiv) :
  let InA := GridPatch.InElements p GetAInteriorWidth GetHaloElements in
  let InB := GridPatch.InElements p GetBInteriorWidth GetHaloElements in
  let d' := GridPatch.ComputeCurlAndDiv g p dDxBasis1D GetAInteriorWidth
              GetBInteriorWidth GetHaloElements st dataUa dataUb d in
  (forall i, (i < GridPatch.m_nHorizontalOrder p)%nat ->
     ColumnOperator.sumR (GridPatch.m_nHorizontalOrder p)
       (fun s => dDxBasis1D s i) = 0) ->
  GridPatch.GetElementDeltaA p <> 0 -> GridPatch.GetElementDeltaB p <> 0 ->
  (forall I J, InA I -> InB J ->
     st GridPatch.m_dataJacobian2D [I; J]%nat <> 0) ->
  (forall k I J, (k < GridPatch.GetRElements g)%nat -> InA I -> InB J ->
     dataUa k I J = ua k /\ dataUb k I J = ub k) ->
  forall k I J, (k < GridPatch.GetRElements g)%nat -> InA I -> InB J ->
    GridPatch.m_dataVorticity d' k I J = 0 /\
    ((exists J2D gA0 gA1 gB0 gB1, forall I' J', InA I' -> InB J' ->
        st GridPatch.m_dataJacobian2D [I'; J']%nat = J2D /\
        st GridPatch.m_dataContraMetric2DA [I'; J'; 0]%nat = gA0 /\
        st GridPatch.m_dataContraMetric2DA [I'; J'; 1]%nat = gA1 /\
        st GridPatch.m_dataContraMetric2DB [I'; J'; 0]%nat = gB0 /\
        st GridPatch.m_dataContraMetric2DB [I'; J'; 1]%nat = gB1) ->
     GridPatch.m_dataDivergence d' k I J = 0).
Proof.
  intros InA InB d' Hsum HdA HdB HJ Hflow k I J Hk HI HJn.
  destruct (element_range_node _ _ _ _ HI) as (a & i & Ha & Hi & ->).
  destruct (element_range_node _ _ _ _ HJn) as (b & j & Hb & Hj & ->).
  destruct (ComputeCurlAndDiv_values g p dDxBasis1D GetAInteriorWidth
              GetBInteriorWidth GetHaloElements st dataUa dataUb d
              k a b i j Hk Ha Hb Hi Hj) as [Ev Ed].
  fold d' in Ev, Ed.
  set (n := GridPatch.m_nHorizontalOrder p) in *.
  assert (RA : forall s, (s < n)%nat -> InA (a * n + GetHaloElements + s)%nat)
    by (intros s Hs; now apply element_node_range).
  assert (RB : forall s, (s < n)%nat -> InB (b * n + GetHaloElements + s)%nat)
    by (intros s Hs; now apply element_node_range).
  split.
  - rewrite Ev.
    rewrite (sumR_ext n _ (fun s => dDxBasis1D s i * ub k))
      by (intros s Hs;
          now rewrite (proj2 (Hflow k _ _ Hk (RA s Hs) (RB j Hj)))).
    rewrite (sumR_ext n (fun s => dDxBasis1D s j * dataUa k _ _)
               (fun s => dDxBasis1D s j * ua k))
      by (intros s Hs;
          now rewrite (proj1 (Hflow k _ _ Hk (RA i Hi) (RB s Hs)))).
    rewrite !sumR_scal_r, !Hsum by assumption.
    unfold Rdiv. ring.
  - intros (J2D & gA0 & gA1 & gB0 & gB1 & HM).
    rewrite Ed.
    rewrite (sumR_ext n _
               (fun s => dDxBasis1D s i * (J2D * (gA0 * ua k + gA1 * ub k)))).
    2:{ intros s Hs.
        destruct (HM _ _ (RA s Hs) (RB j Hj)) as (-> & -> & -> & _).
        destruct (Hflow k _ _ Hk (RA s Hs) (RB j Hj)) as [-> ->]. ring. }
    rewrite (sumR_ext n
               (fun s => dDxBasis1D s j * st GridPatch.m_dataJacobian2D _ * _)
               (fun s => dDxBasis1D s j * (J2D * (gB0 * ua k + gB1 * ub k)))).
    2:{ intros s Hs.
        destruct (HM _ _ (RA i Hi) (RB s Hs)) as (-> & _ & _ & -> & ->).
        destruct (Hflow k _ _ Hk (RA i Hi) (RB s Hs)) as [-> ->]. ring. }
    rewrite !sumR_scal_r, !Hsum by assumption.
    unfold Rdiv. ring.
Qed.

Lemma X22_uniform_flow_witness :
  GridPatch.m_dataVorticity
    (GridPatch.ComputeCurlAndDiv
       (QuadraticStretchGrid GridPatch.VerticalStaggering_CharneyPhillips
          [0.5; 0.5]) OneColumnPatch (fun _ _ => 0) 1 1 0
       (GridPatch.upd ZeroStore GridPatch.m_dataJacobian2D [0; 0]%nat 1)
       (fun _ _ _ => 3) (fun _ _ _ => 4)
       {| GridPatch.m_dataVorticity := fun _ _ _ => 7;
          GridPatch.m_dataDivergence := fun _ _ _ => 7;
          GridPatch.dConUa := fun _ _ => 0;
          GridPatch.dConUb := fun _ _ => 0 |}) 0%nat 0%nat 0%nat = 0.
Proof.
  apply (X22_uniform_flow
           (QuadraticStretchGrid GridPatch.VerticalStaggering_CharneyPhillips
              [0.5; 0.5]) OneColumnPatch (fun _ _ => 0) 1 1 0
           (GridPatch.upd ZeroStore GridPatch.m_dataJacobian2D [0; 0]%nat 1)
           (fun _ _ _ => 3) (fun _ _ _ => 4) (fun _ => 3) (fun _ => 4)).
  - intros i Hi. simpl. lra.
  - simpl. lra.
  - simpl. lra.
  - intros I J HI HJ. unfold GridPatch.InElements in HI, HJ.
    simpl in HI, HJ.
    assert (I = 0%nat) by lia. assert (J = 0%nat) by lia. subst.
    rewrite upd_same. lra.
  - intros k I J _ _ _. split; reflexivity.
  - simpl. lia.
  - unfold GridPatch.InElements. simpl. lia.
  - unfold GridPatch.InElements. simpl. lia.
Defined.

(** *** Interpolation at points of the patch *)

Lemma set3D_other (f : GridPatch.GridData3D) k i j v k' i' j' :
  (k', i', j') <> (k, i, j) -> GridPatch.set3D f k i j v k' i' j' = f k' i' j'.
Proof.
  intro H.
  destruct (set3D_cases f k i j v k' i' j') as [(-> & -> & -> & _)|[_ E]];
    [contradiction | exact E].
Qed.

(** A loop that accumulates into one cell. *)
Lemma cell_loop (op : R -> R -> R) (sg : R) n (f : nat -> R)
    (out : GridPatch.GridData3D) c k i :
  (forall x y, op x y = x + sg * y) ->
  forall c' k' i',
    for_loop n (fun m (t : GridPatch.GridData3D) =>
      GridPatch.set3D t c k i (op (t c k i) (f m))) out c' k' i'
    = GridPatch.set3D out c k i
        (out c k i + sg * ColumnOperator.sumR n f) c' k' i'.
Proof.
  intro Hop. induction n as [|n IH]; intros c' k' i'.
  - rewrite for_loop_0. cbn [ColumnOperator.sumR].
    destruct (set3D_cases out c k i (out c k i + sg * 0) c' k' i')
      as [(-> & -> & -> & E)|[_ E]]; rewrite E; [ring | reflexivity].
  - rewrite for_loop_S. cbn [ColumnOperator.sumR].
    set (L := for_loop n _ out) in *.
    destruct (set3D_cases L c k i (op (L c k i) (f n)) c' k' i')
      as [(-> & -> & -> & E)|[Hne E]]; rewrite E.
    + rewrite Hop, IH, !set3D_same. ring.
    + rewrite IH. now rewrite !set3D_other by exact Hne.
Qed.

Lemma cell_loop2 (op : R -> R -> R) (sg : R) n n' (f : nat -> nat -> R)
    (out : GridPatch.GridData3D) c k i :
  (forall x y, op x y = x + sg * y) ->
  forall c' k' i',
    for_loop n (fun m =>
      for_loop n' (fun m' (t : GridPatch.GridData3D) =>
        GridPatch.set3D t c k i (op (t c k i) (f m m')))) out c' k' i'
    = GridPatch.set3D out c k i
        (out c k i
         + sg * ColumnOperator.sumR n (fun m =>
                  ColumnOperator.sumR n' (f m))) c' k' i'.
Proof.
  intro Hop. induction n as [|n IH]; intros c' k' i'.
  - rewrite for_loop_0. cbn [ColumnOperator.sumR].
    destruct (set3D_cases out c k i (out c k i + sg * 0) c' k' i')
      as [(-> & -> & -> & E)|[_ E]]; rewrite E; [ring | reflexivity].
  - rewrite for_loop_S. cbn [ColumnOperator.sumR].
    set (L := for_loop n _ out) in *.
    rewrite (cell_loop op sg n' (f n) L c k i Hop).
    destruct (set3D_cases L c k i
                (L c k i + sg * ColumnOperator.sumR n' (f n)) c' k' i')
      as [(-> & -> & -> & E)|[Hne E]]; rewrite E.
    + rewrite IH, !set3D_same. ring.
    + rewrite IH. now rewrite !set3D_other by exact Hne.
Qed.

Section InterpolateDataFacts.

Import GridPatch PatchInterpolation.

Variable g : Grid.
Variable p : Patch.
Variables GetAEdges GetBEdges : list R.
Variables GetAInteriorEnd GetBInteriorEnd : nat.
Variables GetAInteriorWidth GetBInteriorWidth GetHaloElements : nat.
Variable GetPatchIndex : Z.
Variables nComponentsNode nComponentsREdge nComponentsTracers : nat.
Variable m_datavecTracers : nat -> nat -> nat -> nat -> R.
Variable diagnostics : CurlAndDiv.
Variable m_dataTemperature : GridData3D.
Variables m_dataRefStateNode m_dataRefStateREdge
  : nat -> nat -> nat -> nat -> R.
Variable st : Store.
Variable eDataType : DataType.
Variable eDataLocation : DataLocation.
Variable fIncludeReferenceState : bool.

Let n := m_nHorizontalOrder p.

Let Source :=
  SourceData m_datavecTracers diagnostics m_dataTemperature st
    eDataType eDataLocation.

(** The reference state that is subtracted, if any. *)
Let Reference (c k I J : nat) : R :=
  match eDataType, fIncludeReferenceState with
  | DataType_State, false =>
      match eDataLocation with
      | DataLocation_Node => m_dataRefStateNode c k I J
      | DataLocation_REdge => m_dataRefStateREdge c k I J
      end
  | _, _ => 0
  end.

Let Level :=
  InterpolateLevel p m_datavecTracers diagnostics m_dataTemperature
    m_dataRefStateNode m_dataRefStateREdge st eDataType eDataLocation
    fIncludeReferenceState.

(** The value stored for component [c] and level [k]. *)
Let Value (A B : nat -> R) (iA iB c k : nat) : R :=
  ColumnOperator.sumR n (fun m => ColumnOperator.sumR n (fun m' =>
    A m * B m' * Source c k (iA + m)%nat (iB + m')%nat))
  - ColumnOperator.sumR n (fun m => ColumnOperator.sumR n (fun m' =>
      A m * B m' * Reference c k (iA + m)%nat (iB + m')%nat)).

Lemma InterpolateLevel_cell A B iA iB c k i (out : DataMatrix3D) c' k' i' :
  Level A B iA iB c k i out c' k' i'
  = set3D out c k i (Value A B iA iB c k) c' k' i'.
Proof.
  unfold Level, InterpolateLevel; cbv zeta. fold n. fold Source.
  set (out1 := set3D out c k i 0.0).
  set (out2 := for_loop n _ out1).
  assert (E2 : forall x y z,
            out2 x y z
            = set3D out c k i
                (ColumnOperator.sumR n (fun m => ColumnOperator.sumR n
                   (fun m' => A m * B m' * Source c k (iA + m)%nat
                                             (iB + m')%nat))) x y z).
  { intros x y z. unfold out2.
    rewrite (cell_loop2 Rplus 1 n n
               (fun m m' => A m * B m' * Source c k (iA + m)%nat
                                           (iB + m')%nat)
               out1 c k i) by (intros; ring).
    unfold out1. rewrite set3D_same.
    destruct (set3D_cases (set3D out c k i 0.0) c k i
                (0.0 + 1 * ColumnOperator.sumR n (fun m =>
                   ColumnOperator.sumR n (fun m' =>
                     A m * B m' * Source c k (iA + m)%nat (iB + m')%nat)))
                x y z) as [(-> & -> & -> & E)|[Hne E]]; rewrite E.
    - rewrite set3D_same. lra.
    - now rewrite !set3D_other by exact Hne. }
  assert (Hzero : forall F : nat -> nat -> R,
            (forall a b, F a b = 0) ->
            ColumnOperator.sumR n (fun m => ColumnOperator.sumR n (fun m' =>
              A m * B m' * F (iA + m)%nat (iB + m')%nat)) = 0).
  { intros F HF. apply sumR_all_zero. intros m _.
    apply sumR_all_zero. intros m' _. rewrite HF. ring. }
  assert (Hsub : forall Ref : nat -> nat -> nat -> nat -> R,
            (forall a b, Reference c k a b = Ref c k a b) ->
            for_loop n (fun m => for_loop n (fun m' (t : DataMatrix3D) =>
              set3D t c k i
                (t c k i - A m * B m' * Ref c k (iA + m)%nat (iB + m')%nat)))
              out2 c' k' i'
            = set3D out c k i (Value A B iA iB c k) c' k' i').
  { intros Ref HR.
    rewrite (cell_loop2 Rminus (-1) n n
               (fun m m' => A m * B m' * Ref c k (iA + m)%nat (iB + m')%nat)
               out2 c k i) by (intros; ring).
    destruct (set3D_cases out2 c k i
                (out2 c k i
                 + -1 * ColumnOperator.sumR n (fun m =>
                     ColumnOperator.sumR n (fun m' =>
                       A m * B m' * Ref c k (iA + m)%nat (iB + m')%nat)))
                c' k' i') as [(-> & -> & -> & E)|[Hne E]]; rewrite E.
    - rewrite E2, !set3D_same. unfold Value.
      rewrite (sumR_ext n
                 (fun m => ColumnOperator.sumR n (fun m' =>
                    A m * B m' * Reference c k (iA + m)%nat (iB + m')%nat))
                 (fun m => ColumnOperator.sumR n (fun m' =>
                    A m * B m' * Ref c k (iA + m)%nat (iB + m')%nat))).
      + ring.
      + intros m _. apply sumR_ext. intros m' _. now rewrite HR.
    - rewrite E2. now rewrite !set3D_other by exact Hne. }
  assert (Hnone : (forall a b, Reference c k a b = 0) ->
            out2 c' k' i' = set3D out c k i (Value A B iA iB c k) c' k' i').
  { intro HR. rewrite E2. unfold Value.
    rewrite (Hzero (Reference c k) HR).
    destruct (set3D_cases out c k i
                (ColumnOperator.sumR n (fun m => ColumnOperator.sumR n
                   (fun m' => A m * B m' * Source c k (iA + m)%nat
                                             (iB + m')%nat)))
                c' k' i') as [(-> & -> & -> & E)|[Hne E]]; rewrite E.
    - rewrite set3D_same. ring.
    - now rewrite set3D_other by exact Hne. }
  unfold Reference in Hsub, Hnone.
  destruct eDataType, fIncludeReferenceState;
    try (apply Hnone; reflexivity).
  destruct eDataLocation; apply Hsub; reflexivity.
Qed.

(** The first node of the element of a point and its coefficients. *)
Let iAof (x : R) : nat :=
  Z.to_nat (ElementBegin p GetHaloElements x
              (GetAEdge GetAEdges (GetAInteriorBegin p))
              (GetElementDeltaA p) GetAInteriorWidth).
Let iBof (x : R) : nat :=
  Z.to_nat (ElementBegin p GetHaloElements x
              (GetBEdge GetBEdges (GetBInteriorBegin p))
              (GetElementDeltaB p) GetBInteriorWidth).
Let CoeffA (x : R) : nat -> R :=
  ColumnOperator.LagrangianPolynomialCoeffs n
    (ColumnOperator.ptr GetAEdges (iAof x)) x.
Let CoeffB (x : R) : nat -> R :=
  ColumnOperator.LagrangianPolynomialCoeffs n
    (ColumnOperator.ptr GetBEdges (iBof x)) x.

Let PointValue (x y : R) (c k : nat) : R :=
  Value (CoeffA x) (CoeffB y) (iAof x) (iBof y) c k.

(** What [InterpolatePoint] stores when it returns. *)
Let PointP (nC nK : nat) (x y : R) (i : nat) (out : DataMatrix3D)
    : DataMatrix3D :=
  for_loop nC (fun c => for_loop nK (fun k =>
    Level (CoeffA x) (CoeffB y) (iAof x) (iBof y) c k i)) out.

Lemma InterpolatePoint_cases x y i out :
  (OutOfRange p GetAEdges GetBEdges GetAInteriorEnd GetBInteriorEnd x y
   = true /\
   InterpolatePoint g p GetAEdges GetBEdges GetAInteriorEnd GetBInteriorEnd
     GetAInteriorWidth GetBInteriorWidth GetHaloElements nComponentsNode
     nComponentsREdge nComponentsTracers m_datavecTracers diagnostics
     m_dataTemperature m_dataRefStateNode m_dataRefStateREdge st eDataType
     eDataLocation fIncludeReferenceState x y i out
   = Exception "Point out of range")
  \/ (OutOfRange p GetAEdges GetBEdges GetAInteriorEnd GetBInteriorEnd x y
       = false /\
       InterpolatePoint g p GetAEdges GetBEdges GetAInteriorEnd
         GetBInteriorEnd GetAInteriorWidth GetBInteriorWidth GetHaloElements
         nComponentsNode nComponentsREdge nComponentsTracers m_datavecTracers
         diagnostics m_dataTemperature m_dataRefStateNode m_dataRefStateREdge
         st eDataType eDataLocation fIncludeReferenceState x y i out
       = match DataExtent g nComponentsNode nComponentsREdge
                 nComponentsTracers eDataType eDataLocation with
         | None => Exception "Invalid DataType"
         | Some (nC, nK) => Ok (PointP nC nK x y i out)
         end).
Proof.
  unfold InterpolatePoint.
  destruct (OutOfRange p GetAEdges GetBEdges GetAInteriorEnd GetBInteriorEnd
              x y); [left; now split | right; split; reflexivity].
Qed.

Lemma PointP_frame nC nK x y i out c k i' :
  ~ (i' = i /\ (c < nC)%nat /\ (k < nK)%nat) ->
  PointP nC nK x y i out c k i' = out c k i'.
Proof.
  intro Hout. unfold PointP.
  apply (for_loop_preserve (fun t : DataMatrix3D => t c k i' = out c k i'));
    [|reflexivity].
  intros c0 t Hc0 Ht.
  apply (for_loop_preserve (fun t : DataMatrix3D => t c k i' = out c k i'));
    [|exact Ht].
  intros k0 t' Hk0 Ht'.
  rewrite InterpolateLevel_cell, set3D_other; [exact Ht'|].
  intro E. injection E as -> -> ->. apply Hout. auto.
Qed.

Lemma PointP_value nC nK x y i out c k :
  (c < nC)%nat -> (k < nK)%nat ->
  PointP nC nK x y i out c k i = PointValue x y c k.
Proof.
  intros Hc Hk. unfold PointP.
  set (Q := fun t : DataMatrix3D => t c k i = PointValue x y c k).
  assert (Hkeep : forall c0 k0 t, Q t ->
            Q (Level (CoeffA x) (CoeffB y) (iAof x) (iBof y) c0 k0 i t)).
  { intros c0 k0 t Ht. unfold Q. rewrite InterpolateLevel_cell.
    destruct (set3D_cases t c0 k0 i
                (Value (CoeffA x) (CoeffB y) (iAof x) (iBof y) c0 k0) c k i)
      as [(-> & -> & _ & E)|[_ E]]; rewrite E; [reflexivity | exact Ht]. }
  apply (for_loop_establish (fun _ => True) Q nC _ c);
    [exact Hc | exact I | intros; exact I | |].
  - intros c0 t _ _ Ht. apply for_loop_preserve; [|exact Ht].
    intros k0 t' _. apply Hkeep.
  - intros t _.
    apply (for_loop_establish (fun _ => True) Q nK _ k);
      [exact Hk | exact I | intros; exact I | |].
    + intros k0 t' _ _. apply Hkeep.
    + intros t' _. unfold Q. rewrite InterpolateLevel_cell.
      now rewrite set3D_same.
Qed.

Variables dAlpha dBeta : list R.
Variable iPatch : list Z.
Variables fInterpAllVariables fConvertToPrimitive : bool.

Let own (i : nat) : bool := Z.eqb (nth i iPatch 0%Z) GetPatchIndex.

Let outside (i : nat) : bool :=
  OutOfRange p GetAEdges GetBEdges GetAInteriorEnd GetBInteriorEnd
    (nth i dAlpha 0) (nth i dBeta 0).

(** The body of the loop over the points. *)
Let body (i : nat) (out : DataMatrix3D) : Result DataMatrix3D :=
  if negb (own i) then Ok out
  else
    InterpolatePoint g p GetAEdges GetBEdges GetAInteriorEnd GetBInteriorEnd
      GetAInteriorWidth GetBInteriorWidth GetHaloElements nComponentsNode
      nComponentsREdge nComponentsTracers m_datavecTracers diagnostics
      m_dataTemperature m_dataRefStateNode m_dataRefStateREdge st eDataType
      eDataLocation fIncludeReferenceState
      (nth i dAlpha 0) (nth i dBeta 0) i out.

Let bodyP (nC nK : nat) (i : nat) (out : DataMatrix3D) : DataMatrix3D :=
  if negb (own i) then out
  else PointP nC nK (nth i dAlpha 0) (nth i dBeta 0) i out.

Lemma InterpolateData_unfold dInterpData :
  InterpolateData g p GetAEdges GetBEdges GetAInteriorEnd GetBInteriorEnd
    GetAInteriorWidth GetBInteriorWidth GetHaloElements GetPatchIndex
    nComponentsNode nComponentsREdge nComponentsTracers m_datavecTracers
    diagnostics m_dataTemperature m_dataRefStateNode m_dataRefStateREdge st
    dAlpha dBeta iPatch eDataType eDataLocation fInterpAllVariables
    dInterpData fIncludeReferenceState fConvertToPrimitive
  = if negb (Nat.eqb (length dAlpha) (length dBeta)) then
      Exception "Point vectors must have equivalent length."
    else for_loopM (length dAlpha) body dInterpData.
Proof. reflexivity. Qed.

Lemma points_skipped (out : DataMatrix3D) :
  (forall i, (i < length dAlpha)%nat -> own i = false) ->
  for_loopM (length dAlpha) body out = Ok out.
Proof.
  generalize (length dAlpha) as m.
  induction m as [|m IH]; intro H; [reflexivity|].
  rewrite for_loopM_S, IH by (intros; apply H; lia).
  cbn [bind]. unfold body. now rewrite (H m) by lia.
Qed.

Lemma points_decided nC nK :
  DataExtent g nComponentsNode nComponentsREdge nComponentsTracers
    eDataType eDataLocation = Some (nC, nK) ->
  DecidedBody body (bodyP nC nK)
    (fun i => own i = true /\ outside i = true) (fun _ => True)
    "Point out of range" (length dAlpha).
Proof.
  intro Hext. split; [intros; exact I|].
  intros i t _ _. unfold body, bodyP.
  destruct (own i) eqn:Eo; cbn [negb].
  - destruct (InterpolatePoint_cases (nth i dAlpha 0) (nth i dBeta 0) i t)
      as [[Hout E]|[Hin E]].
    + right. split; [split; [reflexivity | exact Hout] | exact E].
    + left. split.
      * intros [_ H]. unfold outside in H. congruence.
      * rewrite E, Hext. reflexivity.
  - left. split; [intros [H _]; discriminate | reflexivity].
Qed.

Lemma points_invalid :
  DataExtent g nComponentsNode nComponentsREdge nComponentsTracers
    eDataType eDataLocation = None ->
  (forall i, (i < length dAlpha)%nat -> own i = true -> outside i = false) ->
  DecidedBody body (fun _ t => t) (fun i => own i = true) (fun _ => True)
    "Invalid DataType" (length dAlpha).
Proof.
  intros Hext Hin. split; [intros; exact I|].
  intros i t Hi _. unfold body.
  destruct (own i) eqn:Eo; cbn [negb].
  - right. split; [reflexivity|].
    destruct (InterpolatePoint_cases (nth i dAlpha 0) (nth i dBeta 0) i t)
      as [[Hout _]|[_ E]].
    + specialize (Hin i Hi Eo). unfold outside in Hin. congruence.
    + rewrite E, Hext. reflexivity.
  - left. split; [discriminate | reflexivity].
Qed.

(** The table after the loop over the points, when it returns. *)
Lemma points_values nC nK (out : DataMatrix3D) :
  let out' := for_loop (length dAlpha) (bodyP nC nK) out in
  (forall i c k, (i < length dAlpha)%nat -> own i = true ->
     (c < nC)%nat -> (k < nK)%nat ->
     out' c k i = PointValue (nth i dAlpha 0) (nth i dBeta 0) c k) /\
  (forall i c k,
     ~ ((i < length dAlpha)%nat /\ own i = true /\
        (c < nC)%nat /\ (k < nK)%nat) ->
     out' c k i = out c k i).
Proof.
  cbv zeta. split.
  - intros i c k Hi Ho Hc Hk.
    set (Q := fun t : DataMatrix3D =>
                t c k i = PointValue (nth i dAlpha 0) (nth i dBeta 0) c k).
    apply (for_loop_establish (fun _ => True) Q _ _ i);
      [exact Hi | exact I | intros; exact I | |].
    + intros m t _ _ Ht. unfold Q, bodyP.
      destruct (own m); cbn [negb]; [|exact Ht].
      destruct (Nat.eq_dec m i) as [->|Hne].
      * now apply PointP_value.
      * rewrite PointP_frame; [exact Ht|]. intros [E _]. congruence.
    + intros t _. unfold Q, bodyP. rewrite Ho. cbn [negb].
      now apply PointP_value.
  - intros i c k Hout.
    apply (for_loop_preserve (fun t : DataMatrix3D => t c k i = out c k i));
      [|reflexivity].
    intros m t Hm Ht. unfold bodyP.
    destruct (own m) eqn:Eo; cbn [negb]; [|exact Ht].
    rewrite PointP_frame; [exact Ht|].
    intros (-> & Hc & Hk). apply Hout. auto.
Qed.

End InterpolateDataFacts.

(** *** The element of a point *)

Lemma double_to_int_nonneg r :
  0 <= r ->
  (0 <= PatchInterpolation.double_to_int r)%Z /\
  IZR (PatchInterpolation.double_to_int r) <= r
    < IZR (PatchInterpolation.double_to_int r) + 1.
Proof.
  intro Hr. unfold PatchInterpolation.double_to_int.
  destruct (Rle_dec 0 r) as [_|H]; [|contradiction].
  destruct (base_Int_part r) as [H1 H2].
  split; [|split; lra].
  assert (H : (-1 < Int_part r)%Z) by (apply lt_IZR; lra). lia.
Qed.

Lemma double_to_int_neg r :
  r < 0 -> (PatchInterpolation.double_to_int r <= 0)%Z.
Proof.
  intro Hr. unfold PatchInterpolation.double_to_int.
  destruct (Rle_dec 0 r) as [H|_]; [lra|].
  destruct (base_Int_part (- r)) as [H1 H2].
  assert (H : (-1 < Int_part (- r))%Z) by (apply lt_IZR; lra). lia.
Qed.

(** The element [ElementBegin] selects, for a tolerance [eps]. *)
Lemma ElementBegin_spec (p : GridPatch.Patch) (halo width : nat)
    (x x0 d : R) :
  let n := GridPatch.m_nHorizontalOrder p in
  (1 <= n)%nat -> (n <= width)%nat ->
  exists e,
    (e < width / n)%nat /\
    PatchInterpolation.ElementBegin p halo x x0 d width
    = Z.of_nat (halo + e * n) /\
    (forall eps, 0 < d -> 0 <= eps ->
     x0 - eps <= x <= x0 + INR (width / n) * d + eps ->
     x0 + INR e * d - eps <= x <= x0 + (INR e + 1) * d + eps).
Proof.
  intros n Hn Hw.
  assert (HN : (1 <= width / n)%nat)
    by (apply Nat.div_le_lower_bound; lia).
  unfold PatchInterpolation.ElementBegin; cbv zeta. fold n.
  rewrite <- (Nat2Z.inj_div width n).
  set (N := (width / n)%nat) in *.
  set (r := (x - x0) / d).
  set (z := PatchInterpolation.double_to_int r).
  assert (Hx : 0 < d -> x = x0 + r * d)
    by (intro Hd; unfold r; field; lra).
  destruct (Rle_dec 0 r) as [Hr|Hr].
  - destruct (double_to_int_nonneg r Hr) as (Hz0 & Hz1 & Hz2).
    fold z in Hz0, Hz1, Hz2.
    destruct (Z.ltb_spec z 0) as [H|_]; [lia|].
    destruct (Z.geb_spec z (Z.of_nat N)) as [Hge|Hlt].
    + exists (N - 1)%nat. split; [lia|]. split.
      * rewrite !Nat2Z.inj_add, Nat2Z.inj_mul, Nat2Z.inj_sub by lia.
        reflexivity.
      * intros eps Hd He [Hlo Hhi]. rewrite minus_INR by lia. simpl INR.
        apply IZR_le in Hge. rewrite <- INR_IZR_INZ in Hge.
        rewrite (Hx Hd) at 1. split; [nra | lra].
    + exists (Z.to_nat z). split; [lia|]. split.
      * rewrite !Nat2Z.inj_add, Nat2Z.inj_mul, Z2Nat.id by lia.
        reflexivity.
      * intros eps Hd He _. rewrite INR_IZR_INZ, Z2Nat.id by lia.
        rewrite (Hx Hd). split; nra.
  - assert (Hr' : r < 0) by lra.
    pose proof (double_to_int_neg r Hr') as Hz. fold z in Hz.
    exists 0%nat. split; [lia|].
    assert (E : (if (z <? 0)%Z then 0%Z else z) = 0%Z)
      by (destruct (Z.ltb_spec z 0); lia).
    rewrite E.
    destruct (Z.geb_spec 0 (Z.of_nat N)) as [Hge|_]; [lia|].
    split.
    + rewrite !Nat2Z.inj_add, Nat2Z.inj_mul. reflexivity.
    + intros eps Hd He [Hlo Hhi]. simpl INR.
      rewrite (Hx Hd) in *. split; nra.
Qed.

(** X24.  The element [InterpolateData] selects for a point.  In a
    direction with N >= 1 elements of positive width dDelta that start at
    x0, the index computed for a coordinate within 1e-10 of
    [x0, x0 + N dDelta] is the first node of an element e < N of the patch,
    and the coordinate lies within 1e-10 of
    [x0 + e dDelta, x0 + (e + 1) dDelta]; a coordinate in
    [x0, x0 + N dDelta] lies in that interval itself. *)
Theorem X24_point_element
    (p : GridPatch.Patch) (GetHaloElements width : nat) (x x0 dDelta : R) :
  let n := GridPatch.m_nHorizontalOrder p in
  (1 <= n)%nat -> (n <= width)%nat -> 0 < dDelta ->
  x0 - 1.0e-10 <= x <= x0 + INR (width / n) * dDelta + 1.0e-10 ->
  exists e,
    (e < width / n)%nat /\
    PatchInterpolation.ElementBegin p GetHaloElements x x0 dDelta width
    = Z.of_nat (GetHaloElements + e * n) /\
    x0 + INR e * dDelta - 1.0e-10 <= x
      <= x0 + (INR e + 1) * dDelta + 1.0e-10 /\
    (x0 <= x <= x0 + INR (width / n) * dDelta ->
     x0 + INR e * dDelta <= x <= x0 + (INR e + 1) * dDelta).
Proof.
  intros n Hn Hw Hd Hx.
  destruct (ElementBegin_spec p GetHaloElements width x x0 dDelta Hn Hw)
    as (e & He & E & Hin).
  exists e. split; [exact He|]. split; [exact E|]. split.
  - apply Hin; [exact Hd | lra | exact Hx].
  - intro Hx0. pose proof (Hin 0 Hd (Rle_refl 0)) as H0.
    cbv zeta in H0. subst n.
    set (u := INR e * dDelta) in *.
    set (v := (INR e + 1) * dDelta) in *.
    set (w := INR (width / GridPatch.m_nHorizontalOrder p) * dDelta) in *.
    lra.
Qed.

Lemma X24_point_element_witness :
  exists e,
    (e < 1 / 1)%nat /\
    PatchInterpolation.ElementBegin OneColumnPatch 0 (1 / 2) 0 1 1
    = Z.of_nat (0 + e * 1) /\
    0 + INR e * 1 <= 1 / 2 <= 0 + (INR e + 1) * 1.
Proof.
  destruct (X24_point_element OneColumnPatch 0 1 (1 / 2) 0 1)
    as (e & He & E & _ & Hin).
  - simpl. lia.
  - simpl. lia.
  - lra.
  - simpl. lra.
  - exists e. split; [exact He|]. split; [exact E|].
    apply Hin. simpl. lra.
Defined.

Lemma DataExtent_other g nN nE nT eDataType eDataLocation :
  PatchInterpolation.DataExtent g nN nE nT eDataType eDataLocation = None
  <-> eDataType = PatchInterpolation.DataType_Other.
Proof.
  split.
  - destruct eDataType, eDataLocation; simpl; congruence.
  - intros ->. reflexivity.
Qed.

(** X23.  The checks of [InterpolateData].  Point vectors of different
    lengths raise "Point vectors must have equivalent length.".  With equal
    lengths: if no point belongs to the patch, the table is returned as it
    is, whatever the data type; for a data type the function names, a point
    of the patch outside the interior by more than 1e-10 raises "Point out
    of range"; for another data type, when the patch has a point and all
    its points are in range, the call raises "Invalid DataType"; and when
    a named data type is interpolated at points in range the call returns
    and leaves the columns of the points of other patches as they were. *)
Theorem X23_interpolate_data_checks
    (g : GridPatch.Grid) (p : GridPatch.Patch) (GetAEdges GetBEdges : list R)
    (GetAInteriorEnd GetBInteriorEnd : nat)
    (GetAInteriorWidth GetBInteriorWidth GetHaloElements : nat)
    (GetPatchIndex : Z)
    (nComponentsNode nComponentsREdge nComponentsTracers : nat)
    (m_datavecTracers : nat -> nat -> nat -> nat -> R)
    (diagnostics : GridPatch.CurlAndDiv)
    (m_dataTemperature : GridPatch.GridData3D)
    (m_dataRefStateNode m_dataRefStateREdge : nat -> nat -> nat -> nat -> R)
    (st : GridPatch.Store) (dAlpha dBeta : list R) (iPatch : list Z)
    (eDataType : PatchInterpolation.DataType)
    (eDataLocation : GridPatch.DataLocation)
    (fInterpAllVariables : bool)
    (dInterpData : PatchInterpolation.DataMatrix3D)
    (fIncludeReferenceState fConvertToPrimitive : bool) :
  let own := fun i => nth i iPatch 0%Z = GetPatchIndex in
  let outside := fun i =>
    PatchInterpolation.OutOfRange p GetAEdges GetBEdges GetAInteriorEnd
      GetBInteriorEnd (nth i dAlpha 0) (nth i dBeta 0) = true in
  let call :=
    PatchInterpolation.InterpolateData g p GetAEdges GetBEdges
      GetAInteriorEnd GetBInteriorEnd GetAInteriorWidth GetBInteriorWidth
      GetHaloElements GetPatchIndex nComponentsNode nComponentsREdge
      nComponentsTracers m_datavecTracers diagnostics m_dataTemperature
      m_dataRefStateNode m_dataRefStateREdge st dAlpha dBeta iPatch
      eDataType eDataLocation fInterpAllVariables dInterpData
      fIncludeReferenceState fConvertToPrimitive in
  (length dAlpha <> length dBeta ->
   call = Exception "Point vectors must have equivalent length.") /\
  (length dAlpha = length dBeta ->
   ((forall i, (i < length dAlpha)%nat -> ~ own i) ->
    call = Ok dInterpData) /\
   (eDataType <> PatchInterpolation.DataType_Other ->
    (exists i, (i < length dAlpha)%nat /\ own i /\ outside i) ->
    call = Exception "Point out of range") /\
   (eDataType = PatchInterpolation.DataType_Other ->
    (exists i, (i < length dAlpha)%nat /\ own i) ->
    (forall i, (i < length dAlpha)%nat -> own i -> ~ outside i) ->
    call = Exception "Invalid DataType") /\
   (eDataType <> PatchInterpolation.DataType_Other ->
    (forall i, (i < length dAlpha)%nat -> own i -> ~ outside i) ->
    exists out,
      call = Ok out /\
      forall c k i, ~ ((i < length dAlpha)%nat /\ own i) ->
        out c k i = dInterpData c k i)).
Proof.
  intros own outside call. unfold call.
  rewrite InterpolateData_unfold. split.
  - intro Hne. apply Nat.eqb_neq in Hne. now rewrite Hne.
  - intro Heq. rewrite Heq, Nat.eqb_refl. cbn [negb]. rewrite <- Heq.
    assert (Hown : forall i, own i <->
              Z.eqb (nth i iPatch 0%Z) GetPatchIndex = true)
      by (intro i; unfold own; symmetry; apply Z.eqb_eq).
    split; [|split; [|split]].
    + intro Hnone. apply points_skipped. intros i Hi.
      destruct (Z.eqb (nth i iPatch 0%Z) GetPatchIndex) eqn:E;
        [|reflexivity].
      exfalso. apply (Hnone i Hi). now apply Hown.
    + intros Hty (i & Hi & Ho & Hout).
      destruct (PatchInterpolation.DataExtent g nComponentsNode
                  nComponentsREdge nComponentsTracers eDataType
                  eDataLocation) as [[nC nK]|] eqn:Hext;
        [|apply DataExtent_other in Hext; contradiction].
      refine (proj2 (for_loopM_decided _ _ _ _ _ _ dInterpData I
                       (points_decided g p GetAEdges GetBEdges
                          GetAInteriorEnd GetBInteriorEnd GetAInteriorWidth
                          GetBInteriorWidth GetHaloElements GetPatchIndex
                          nComponentsNode nComponentsREdge nComponentsTracers
                          m_datavecTracers diagnostics m_dataTemperature
                          m_dataRefStateNode m_dataRefStateREdge st eDataType
                          eDataLocation fIncludeReferenceState dAlpha dBeta
                          iPatch nC nK Hext)) _).
      exists i. split; [exact Hi|]. split; [now apply Hown | exact Hout].
    + intros Hty (i & Hi & Ho) Hin.
      apply DataExtent_other with (g := g) (nN := nComponentsNode)
        (nE := nComponentsREdge) (nT := nComponentsTracers)
        (eDataLocation := eDataLocation) in Hty.
      refine (proj2 (for_loopM_decided _ _ _ _ _ _ dInterpData I
                       (points_invalid g p GetAEdges GetBEdges
                          GetAInteriorEnd GetBInteriorEnd GetAInteriorWidth
                          GetBInteriorWidth GetHaloElements GetPatchIndex
                          nComponentsNode nComponentsREdge nComponentsTracers
                          m_datavecTracers diagnostics m_dataTemperature
                          m_dataRefStateNode m_dataRefStateREdge st eDataType
                          eDataLocation fIncludeReferenceState dAlpha dBeta
                          iPatch Hty _)) _).
      * intros j Hj Hoj.
        destruct (PatchInterpolation.OutOfRange p GetAEdges GetBEdges
                    GetAInteriorEnd GetBInteriorEnd (nth j dAlpha 0)
                    (nth j dBeta 0)) eqn:E; [|reflexivity].
        exfalso. apply (Hin j Hj); [now apply Hown | exact E].
      * exists i. split; [exact Hi | now apply Hown].
    + intros Hty Hin.
      destruct (PatchInterpolation.DataExtent g nComponentsNode
                  nComponentsREdge nComponentsTracers eDataType
                  eDataLocation) as [[nC nK]|] eqn:Hext;
        [|apply DataExtent_other in Hext; contradiction].
      eexists. split.
      * refine (proj1 (for_loopM_decided _ _ _ _ _ _ dInterpData I
                         (points_decided g p GetAEdges GetBEdges
                            GetAInteriorEnd GetBInteriorEnd GetAInteriorWidth
                            GetBInteriorWidth GetHaloElements GetPatchIndex
                            nComponentsNode nComponentsREdge
                            nComponentsTracers m_datavecTracers diagnostics
                            m_dataTemperature m_dataRefStateNode
                            m_dataRefStateREdge st eDataType eDataLocation
                            fIncludeReferenceState dAlpha dBeta iPatch
                            nC nK Hext)) _).
        intros i Hi [Ho Hout]. apply (Hin i Hi); [now apply Hown | exact Hout].
      * intros c k i Hout.
        apply (proj2 (points_values p GetAEdges GetBEdges GetAInteriorWidth
                        GetBInteriorWidth GetHaloElements GetPatchIndex
                        m_datavecTracers diagnostics m_dataTemperature
                        m_dataRefStateNode m_dataRefStateREdge st eDataType
                        eDataLocation fIncludeReferenceState dAlpha dBeta
                        iPatch nC nK dInterpData)).
        intros (Hi & Ho & _). apply Hout. split; [exact Hi|].
        now apply Hown.
Qed.

Lemma X23_interpolate_data_checks_witness :
  PatchInterpolation.InterpolateData
    (QuadraticStretchGrid GridPatch.VerticalStaggering_CharneyPhillips
       [0.5; 0.5]) OneColumnPatch [0; 1] [0; 1] 1 1 1 1 0 0%Z 0 0 0
    (fun _ _ _ _ => 0)
    {| GridPatch.m_dataVorticity := fun _ _ _ => 0;
       GridPatch.m_dataDivergence := fun _ _ _ => 0;
       GridPatch.dConUa := fun _ _ => 0;
       GridPatch.dConUb := fun _ _ => 0 |}
    (fun _ _ _ => 0) (fun _ _ _ _ => 0) (fun _ _ _ _ => 0) ZeroStore
    [0.5] [0.5] [1%Z] PatchInterpolation.DataType_Topography
    GridPatch.DataLocation_Node false (fun _ _ _ => 7) false false
  = Ok (fun _ _ _ => 7).
Proof.
  apply (proj1 (proj2 (X23_interpolate_data_checks
    (QuadraticStretchGrid GridPatch.VerticalStaggering_CharneyPhillips
       [0.5; 0.5]) OneColumnPatch [0; 1] [0; 1] 1 1 1 1 0 0%Z 0 0 0
    (fun _ _ _ _ => 0)
    {| GridPatch.m_dataVorticity := fun _ _ _ => 0;
       GridPatch.m_dataDivergence := fun _ _ _ => 0;
       GridPatch.dConUa := fun _ _ => 0;
       GridPatch.dConUb := fun _ _ => 0 |}
    (fun _ _ _ => 0) (fun _ _ _ _ => 0) (fun _ _ _ _ => 0) ZeroStore
    [0.5] [0.5] [1%Z] PatchInterpolation.DataType_Topography
    GridPatch.DataLocation_Node false (fun _ _ _ => 7) false false)
    eq_refl)).
  intros i Hi H. simpl in Hi.
  destruct i as [|i]; [discriminate H | lia].
Defined.

(** *** Exactness of the interpolation *)

Lemma bilinear_sum n (A B X Y : nat -> R) (F : nat -> nat -> R)
    (c0 c1 c2 x y : R) :
  ColumnOperator.sumR n A = 1 -> ColumnOperator.sumR n B = 1 ->
  ColumnOperator.sumR n (fun m => X m * A m) = x ->
  ColumnOperator.sumR n (fun m => Y m * B m) = y ->
  (forall m m', (m < n)%nat -> (m' < n)%nat ->
     F m m' = c0 + c1 * X m + c2 * Y m') ->
  ColumnOperator.sumR n (fun m => ColumnOperator.sumR n (fun m' =>
    A m * B m' * F m m')) = c0 + c1 * x + c2 * y.
Proof.
  intros HA HB HX HY HF.
  rewrite (sumR_ext n _
             (fun m => (c0 + c2 * y) * A m + c1 * (X m * A m))).
  - rewrite sumR_plus, !sumR_scal_l, HA, HX. ring.
  - intros m Hm.
    rewrite (sumR_ext n _
               (fun m' => (A m * (c0 + c1 * X m)) * B m'
                          + (A m * c2) * (Y m' * B m'))).
    + rewrite sumR_plus, !sumR_scal_l, HB, HY. ring.
    + intros m' Hm'. rewrite (HF m m' Hm Hm'). ring.
Qed.

(** The Lagrange sum over the nodes of the element of a point is exact for
    a field that is linear in the edge coordinates. *)
Lemma element_sum_linear (p : GridPatch.Patch) (halo AW BW : nat)
    (AEdges BEdges : list R) (x y xa da xb db : R)
    (F : nat -> nat -> R) (c0 c1 c2 : R) :
  let n := GridPatch.m_nHorizontalOrder p in
  let iA := Z.to_nat (PatchInterpolation.ElementBegin p halo x xa da AW) in
  let iB := Z.to_nat (PatchInterpolation.ElementBegin p halo y xb db BW) in
  (2 <= n)%nat -> (n <= AW)%nat -> (n <= BW)%nat ->
  ColumnOperator.StrictlyIncreasing AEdges ->
  ColumnOperator.StrictlyIncreasing BEdges ->
  (halo + AW <= length AEdges)%nat -> (halo + BW <= length BEdges)%nat ->
  (forall I J, GridPatch.InElements p AW halo I ->
               GridPatch.InElements p BW halo J ->
     F I J = c0 + c1 * PatchInterpolation.GetAEdge AEdges I
             + c2 * PatchInterpolation.GetBEdge BEdges J) ->
  ColumnOperator.sumR n (fun m => ColumnOperator.sumR n (fun m' =>
    ColumnOperator.LagrangianPolynomialCoeffs n
      (ColumnOperator.ptr AEdges iA) x m
    * ColumnOperator.LagrangianPolynomialCoeffs n
        (ColumnOperator.ptr BEdges iB) y m'
    * F (iA + m)%nat (iB + m')%nat))
  = c0 + c1 * x + c2 * y.
Proof.
  intros n iA iB Hn HA HB SA SB LA LB HF.
  destruct (ElementBegin_spec p halo AW x xa da ltac:(fold n; lia) HA)
    as (ea & Hea & Ea & _).
  destruct (ElementBegin_spec p halo BW y xb db ltac:(fold n; lia) HB)
    as (eb & Heb & Eb & _).
  fold n in Hea, Ea, Heb, Eb.
  assert (EiA : iA = (halo + ea * n)%nat)
    by (unfold iA; rewrite Ea; apply Nat2Z.id).
  assert (EiB : iB = (halo + eb * n)%nat)
    by (unfold iB; rewrite Eb; apply Nat2Z.id).
  assert (NA : ((AW / n) * n <= AW)%nat)
    by (rewrite Nat.mul_comm; apply Nat.Div0.mul_div_le).
  assert (NB : ((BW / n) * n <= BW)%nat)
    by (rewrite Nat.mul_comm; apply Nat.Div0.mul_div_le).
  assert (RA : forall m, (m < n)%nat ->
            GridPatch.InElements p AW halo (iA + m)).
  { intros m Hm. rewrite EiA.
    replace (halo + ea * n + m)%nat with (ea * n + halo + m)%nat by lia.
    now apply element_node_range. }
  assert (RB : forall m, (m < n)%nat ->
            GridPatch.InElements p BW halo (iB + m)).
  { intros m Hm. rewrite EiB.
    replace (halo + eb * n + m)%nat with (eb * n + halo + m)%nat by lia.
    now apply element_node_range. }
  assert (DA : ColumnOperator.distinct_nodes n (ColumnOperator.ptr AEdges iA)).
  { apply ptr_distinct; [exact SA|].
    assert ((ea + 1) * n <= (AW / n) * n)%nat
      by (apply Nat.mul_le_mono_r; lia). lia. }
  assert (DB : ColumnOperator.distinct_nodes n (ColumnOperator.ptr BEdges iB)).
  { apply ptr_distinct; [exact SB|].
    assert ((eb + 1) * n <= (BW / n) * n)%nat
      by (apply Nat.mul_le_mono_r; lia). lia. }
  apply (bilinear_sum n _ _ (ColumnOperator.ptr AEdges iA)
           (ColumnOperator.ptr BEdges iB)).
  - apply Lagrange_sum; [lia | exact DA].
  - apply Lagrange_sum; [lia | exact DB].
  - now apply Lagrange_coordinate.
  - now apply Lagrange_coordinate.
  - intros m m' Hm Hm'. rewrite (HF _ _ (RA m Hm) (RB m' Hm')).
    reflexivity.
Qed.

(** X25.  [InterpolateData] is exact for fields that are linear in the
    coordinates.  On a patch of order at least two whose edge coordinates
    increase strictly, when all points of the patch are in range and the
    interpolated array, for a component and a level, equals
    c0 + c1 a + c2 b at every node of the elements, (a, b) being the edge
    coordinates of the node, the value returned for a point (alpha, beta)
    of the patch is c0 + c1 alpha + c2 beta.  When the reference state is
    subtracted (state data, [fIncludeReferenceState] not set) and equals
    r0 + r1 a + r2 b at these nodes, the value is the difference of the
    two linear functions at (alpha, beta). *)
Theorem X25_interpolation_exact
    (g : GridPatch.Grid) (p : GridPatch.Patch) (GetAEdges GetBEdges : list R)
    (GetAInteriorEnd GetBInteriorEnd : nat)
    (GetAInteriorWidth GetBInteriorWidth GetHaloElements : nat)
    (GetPatchIndex : Z)
    (nComponentsNode nComponentsREdge nComponentsTracers : nat)
    (m_datavecTracers : nat -> nat -> nat -> nat -> R)
    (diagnostics : GridPatch.CurlAndDiv)
    (m_dataTemperature : GridPatch.GridData3D)
    (m_dataRefStateNode m_dataRefStateREdge : nat -> nat -> nat -> nat -> R)
    (st : GridPatch.Store) (dAlpha dBeta : list R) (iPatch : list Z)
    (eDataType : PatchInterpolation.DataType)
    (eDataLocation : GridPatch.DataLocation)
    (fInterpAllVariables : bool)
    (dInterpData : PatchInterpolation.DataMatrix3D)
    (fIncludeReferenceState fConvertToPrimitive : bool)
    (nC nK i c k : nat) (c0 c1 c2 r0 r1 r2 : R) :
  let n := GridPatch.m_nHorizontalOrder p in
  let own := fun j => nth j iPatch 0%Z = GetPatchIndex in
  let outside := fun j =>
    PatchInterpolation.OutOfRange p GetAEdges GetBEdges GetAInteriorEnd
      GetBInteriorEnd (nth j dAlpha 0) (nth j dBeta 0) = true in
  let InA := GridPatch.InElements p GetAInteriorWidth GetHaloElements in
  let InB := GridPatch.InElements p GetBInteriorWidth GetHaloElements in
  let subtract :=
    match eDataType, fIncludeReferenceState with
    | PatchInterpolation.DataType_State, false => true
    | _, _ => false
    end in
  let Ref :=
    match eDataLocation with
    | GridPatch.DataLocation_Node => m_dataRefStateNode
    | GridPatch.DataLocation_REdge => m_dataRefStateREdge
    end in
  length dAlpha = length dBeta ->
  PatchInterpolation.DataExtent g nComponentsNode nComponentsREdge
    nComponentsTracers eDataType eDataLocation = Some (nC, nK) ->
  (forall j, (j < length dAlpha)%nat -> own j -> ~ outside j) ->
  (i < length dAlpha)%nat -> own i -> (c < nC)%nat -> (k < nK)%nat ->
  (2 <= n)%nat -> (n <= GetAInteriorWidth)%nat ->
  (n <= GetBInteriorWidth)%nat ->
  ColumnOperator.StrictlyIncreasing GetAEdges ->
  ColumnOperator.StrictlyIncreasing GetBEdges ->
  (GetHaloElements + GetAInteriorWidth <= length GetAEdges)%nat ->
  (GetHaloElements + GetBInteriorWidth <= length GetBEdges)%nat ->
  (forall I J, InA I -> InB J ->
     PatchInterpolation.SourceData m_datavecTracers diagnostics
       m_dataTemperature st eDataType eDataLocation c k I J
     = c0 + c1 * PatchInterpolation.GetAEdge GetAEdges I
       + c2 * PatchInterpolation.GetBEdge GetBEdges J) ->
  (subtract = true -> forall I J, InA I -> InB J ->
     Ref c k I J
     = r0 + r1 * PatchInterpolation.GetAEdge GetAEdges I
       + r2 * PatchInterpolation.GetBEdge GetBEdges J) ->
  exists out,
    PatchInterpolation.InterpolateData g p GetAEdges GetBEdges
      GetAInteriorEnd GetBInteriorEnd GetAInteriorWidth GetBInteriorWidth
      GetHaloElements GetPatchIndex nComponentsNode nComponentsREdge
      nComponentsTracers m_datavecTracers diagnostics m_dataTemperature
      m_dataRefStateNode m_dataRefStateREdge st dAlpha dBeta iPatch
      eDataType eDataLocation fInterpAllVariables dInterpData
      fIncludeReferenceState fConvertToPrimitive = Ok out /\
    out c k i
    = c0 + c1 * nth i dAlpha 0 + c2 * nth i dBeta 0
      - (if subtract
         then r0 + r1 * nth i dAlpha 0 + r2 * nth i dBeta 0 else 0).
Proof.
  intros n own outside InA InB subtract Ref Hlen Hext Hin Hi Ho Hc Hk
    Hn HA HB SA SB LA LB HF HR.
  rewrite InterpolateData_unfold.
  rewrite Hlen, Nat.eqb_refl. cbn [negb]. rewrite <- Hlen.
  eexists. split.
  - refine (proj1 (for_loopM_decided _ _ _ _ _ _ dInterpData I
                     (points_decided g p GetAEdges GetBEdges
                        GetAInteriorEnd GetBInteriorEnd GetAInteriorWidth
                        GetBInteriorWidth GetHaloElements GetPatchIndex
                        nComponentsNode nComponentsREdge nComponentsTracers
                        m_datavecTracers diagnostics m_dataTemperature
                        m_dataRefStateNode m_dataRefStateREdge st eDataType
                        eDataLocation fIncludeReferenceState dAlpha dBeta
                        iPatch nC nK Hext)) _).
    intros j Hj [Hoj Hout].
    apply (Hin j Hj); [now apply Z.eqb_eq | exact Hout].
  - etransitivity;
      [exact (proj1 (points_values p GetAEdges GetBEdges GetAInteriorWidth
                       GetBInteriorWidth GetHaloElements GetPatchIndex
                       m_datavecTracers diagnostics m_dataTemperature
                       m_dataRefStateNode m_dataRefStateREdge st eDataType
                       eDataLocation fIncludeReferenceState dAlpha dBeta
                       iPatch nC nK dInterpData) i c k Hi
                (proj2 (Z.eqb_eq _ _) Ho) Hc Hk)|].
    transitivity
      ((c0 + c1 * nth i dAlpha 0 + c2 * nth i dBeta 0)
       - ((if subtract then r0 else 0)
          + (if subtract then r1 else 0) * nth i dAlpha 0
          + (if subtract then r2 else 0) * nth i dBeta 0));
      [|destruct subtract; ring].
    apply f_equal2.
    + apply (element_sum_linear p GetHaloElements GetAInteriorWidth
               GetBInteriorWidth GetAEdges GetBEdges);
        try assumption.
    + apply (element_sum_linear p GetHaloElements GetAInteriorWidth
               GetBInteriorWidth GetAEdges GetBEdges _ _ _ _ _ _
               (fun I J =>
                  match eDataType, fIncludeReferenceState with
                  | PatchInterpolation.DataType_State, false =>
                      match eDataLocation with
                      | GridPatch.DataLocation_Node =>
                          m_dataRefStateNode c k I J
                      | GridPatch.DataLocation_REdge =>
                          m_dataRefStateREdge c k I J
                      end
                  | _, _ => 0
                  end)); try assumption.
      intros I J HI HJ. unfold subtract, Ref in *.
      destruct eDataType, fIncludeReferenceState; try ring.
      destruct eDataLocation; now apply HR.
Qed.

Lemma X25_interpolation_exact_witness :
  exists out,
    PatchInterpolation.InterpolateData
      (QuadraticStretchGrid GridPatch.VerticalStaggering_CharneyPhillips
         [0.5; 0.5]) TwoNodePatch UnitEdges UnitEdges 1 1 2 2 0 0%Z 0 0 0
      (fun _ _ _ _ => 0) NoDiagnostics (fun _ _ _ => 0) (fun _ _ _ _ => 0)
      (fun _ _ _ _ => 0) SlopeStore [0.5] [0.5] [0%Z]
      PatchInterpolation.DataType_Topography GridPatch.DataLocation_Node
      false (fun _ _ _ => 7) false false = Ok out /\
    out 0%nat 0%nat 0%nat = 0.5.
Proof.
  destruct (X25_interpolation_exact
      (QuadraticStretchGrid GridPatch.VerticalStaggering_CharneyPhillips
         [0.5; 0.5]) TwoNodePatch UnitEdges UnitEdges 1 1 2 2 0 0%Z 0 0 0
      (fun _ _ _ _ => 0) NoDiagnostics (fun _ _ _ => 0) (fun _ _ _ _ => 0)
      (fun _ _ _ _ => 0) SlopeStore [0.5] [0.5] [0%Z]
      PatchInterpolation.DataType_Topography GridPatch.DataLocation_Node
      false (fun _ _ _ => 7) false false 1 1 0 0 0 0 1 0 0 0 0)
    as (out & E & V).
  - reflexivity.
  - reflexivity.
  - intros j Hj _ H. simpl in Hj. assert (j = 0%nat) by lia. subst j.
    unfold PatchInterpolation.OutOfRange, PatchInterpolation.GetAEdge,
      PatchInterpolation.GetBEdge, UnitEdges in H.
    cbn [nth GridPatch.GetAInteriorBegin GridPatch.GetBInteriorBegin
         TwoNodePatch] in H.
    repeat match type of H with
           | context [Rlt_dec ?a ?b] => destruct (Rlt_dec a b); [lra|]
           | context [Rgt_dec ?a ?b] => destruct (Rgt_dec a b); [lra|]
           end.
    discriminate H.
  - simpl. lia.
  - reflexivity.
  - lia.
  - lia.
  - simpl. lia.
  - simpl. lia.
  - simpl. lia.
  - intros a b Hab Hb. unfold UnitEdges in *. simpl in Hb.
    assert (a = 0%nat) by lia. assert (b = 1%nat) by lia. subst.
    simpl. lra.
  - intros a b Hab Hb. unfold UnitEdges in *. simpl in Hb.
    assert (a = 0%nat) by lia. assert (b = 1%nat) by lia. subst.
    simpl. lra.
  - simpl. lia.
  - simpl. lia.
  - intros I J _ _. unfold PatchInterpolation.SourceData, SlopeStore,
      PatchInterpolation.GetAEdge. ring.
  - intro H. discriminate H.
  - exists out. split; [exact E|]. rewrite V. simpl. lra.
Defined.

(** *** The band of the second-derivative operator *)

Section DiffDiffBand.

Import ColumnOperator.

Variable GL : nat -> R -> R -> (nat -> R) * (nat -> R).
Variable p : nat.
Variable Node : list R.

Let nFE := ((length Node - 1) / (p - 1))%nat.

Hypothesis HValid : ValidGLLColumn p Node.

(** Row [r] and column [c] are nodes of one element. *)
Let Coupled (r c : nat) : Prop :=
  exists a, (a < nFE)%nat /\
    (a * (p - 1) <= r < a * (p - 1) + p)%nat /\
    (a * (p - 1) <= c < a * (p - 1) + p)%nat.

Let Banded (M : nat -> nat -> R) : Prop :=
  forall r c, ~ Coupled r c -> M r c = 0.

Lemma DiffDiff_last_node : (length Node - 1 = nFE * (p - 1))%nat.
Proof.
  destruct HValid as (Hp & Hlen & Hmod).
  pose proof (Nat.div_mod_eq (length Node - 1) (p - 1)) as E.
  rewrite Hmod in E. unfold nFE. lia.
Qed.

Lemma set2_banded M r c v :
  Banded M -> Coupled r c -> Banded (set2 M r c v).
Proof.
  intros HM Hrc r' c' Hn. unfold set2.
  destruct (Nat.eqb_spec r' r); [|now apply HM].
  destruct (Nat.eqb_spec c' c); [|now apply HM].
  subst. contradiction.
Qed.

Lemma DiffDiff_Element_banded a M :
  (a < nFE)%nat -> Banded M -> Banded (DiffDiff_Element GL p Node a M).
Proof.
  intros Ha HM. destruct HValid as (Hp & Hlen & Hmod).
  pose proof DiffDiff_last_node as Hlast.
  unfold DiffDiff_Element; cbv zeta.
  assert (Hblock : forall i j, (i < p)%nat -> (j < p)%nat ->
            Coupled (j + a * (p - 1)) (i + a * (p - 1))).
  { intros i j Hi Hj. exists a. split; [exact Ha | lia]. }
  set (M1 := for_loop p _ M).
  assert (H1 : Banded M1).
  { unfold M1. apply for_loop_preserve; [|exact HM].
    intros j t Hj Ht. apply for_loop_preserve; [|exact Ht].
    intros i t' Hi Ht'. apply for_loop_preserve; [|exact Ht'].
    intros s t'' _ Ht''. apply set2_banded; [exact Ht''|].
    now apply Hblock. }
  set (M2 := if Nat.eqb a 0 then _ else M1).
  assert (H2 : Banded M2).
  { unfold M2. destruct (Nat.eqb_spec a 0) as [->|_]; [|exact H1].
    apply for_loop_preserve; [|exact H1].
    intros i t Hi Ht. apply set2_banded; [exact Ht|].
    exists 0%nat. split; [exact Ha | lia]. }
  fold nFE.
  destruct (Nat.eqb_spec a (nFE - 1)) as [E|_]; [|exact H2].
  apply for_loop_preserve; [|exact H2].
  intros i t Hi Ht. apply set2_banded; [exact Ht|].
  exists a. split; [exact Ha|].
  assert (nFE * (p - 1) = a * (p - 1) + (p - 1))%nat
    by (replace nFE with (a + 1)%nat by lia; lia).
  lia.
Qed.

Lemma DiffDiff_banded :
  exists M,
    DiffDiff_InitializeGLLNodes GL p Node = Ok M /\
    forall r c, M r c <> 0 ->
      exists a, (a < nFE)%nat /\
        (a * (p - 1) <= r < a * (p - 1) + p)%nat /\
        (a * (p - 1) <= c < a * (p - 1) + p)%nat.
Proof.
  pose proof HValid as (Hp & Hlen & Hmod).
  unfold DiffDiff_InitializeGLLNodes.
  destruct (Nat.eqb_spec (length Node) 0) as [E|_]; [lia|].
  rewrite Hmod. cbn [Nat.eqb negb].
  eexists. split; [reflexivity|].
  assert (HB : Banded (for_loop nFE (DiffDiff_Element GL p Node)
                         (fun _ _ => 0))).
  { apply for_loop_preserve.
    - intros a t Ha Ht. now apply DiffDiff_Element_banded.
    - intros r c _. reflexivity. }
  intros r c Hne.
  destruct (bounded_search (fun a =>
              (a * (p - 1) <= r < a * (p - 1) + p)%nat /\
              (a * (p - 1) <= c < a * (p - 1) + p)%nat) nFE)
    as [(a & Ha & H)|Hnone].
  - intros a _.
    destruct (le_dec (a * (p - 1)) r), (lt_dec r (a * (p - 1) + p)),
      (le_dec (a * (p - 1)) c), (lt_dec c (a * (p - 1) + p));
      (left; lia) || (right; lia).
  - exists a. split; [exact Ha | exact H].
  - exfalso. apply Hne. apply HB.
    intros (a & Ha & H). exact (Hnone a Ha H).
Qed.

End DiffDiffBand.

(** X26.  The second-derivative operator on GLL nodes couples only the
    nodes of one element.  On a valid column (order at least two, node count
    one more than a multiple of the order minus one)
    [LinearColumnDiffDiffFEM::InitializeGLLNodes] returns, and a coefficient
    that is not zero has its row and its column among the nodes of one
    finite element: both are below the node count and less than the order
    apart. *)
Theorem X26_second_derivative_band
    (GL : nat -> R -> R -> (nat -> R) * (nat -> R))
    (p : nat) (Node : list R) :
  ColumnOperator.ValidGLLColumn p Node ->
  exists M,
    ColumnOperator.DiffDiff_InitializeGLLNodes GL p Node = Ok M /\
    forall r c, M r c <> 0 ->
      (exists a, (a < (length Node - 1) / (p - 1))%nat /\
         (a * (p - 1) <= r < a * (p - 1) + p)%nat /\
         (a * (p - 1) <= c < a * (p - 1) + p)%nat) /\
      (r < length Node)%nat /\ (c < length Node)%nat /\
      (r < c + p)%nat /\ (c < r + p)%nat.
Proof.
  intro HValid.
  destruct (DiffDiff_banded GL p Node HValid) as (M & E & HM).
  exists M. split; [exact E|].
  intros r c Hne. destruct (HM r c Hne) as (a & Ha & Hr & Hc).
  split; [exists a; auto|].
  pose proof (DiffDiff_last_node p Node HValid) as Hlast.
  destruct HValid as (Hp & Hlen & _).
  set (nFE := ((length Node - 1) / (p - 1))%nat) in *.
  assert ((a + 1) * (p - 1) <= nFE * (p - 1))%nat
    by (apply Nat.mul_le_mono_r; lia).
  lia.
Qed.

Lemma X26_second_derivative_band_witness :
  exists M,
    ColumnOperator.DiffDiff_InitializeGLLNodes TwoPointLobatto 2
      TwoLevelNodes = Ok M /\
    (M 0%nat 5%nat <> 0 -> False).
Proof.
  destruct (X26_second_derivative_band TwoPointLobatto 2 TwoLevelNodes)
    as (M & E & HM).
  - unfold ColumnOperator.ValidGLLColumn, TwoLevelNodes. simpl.
    repeat split; lia.
  - exists M. split; [exact E|].
    intro H. destruct (HM 0%nat 5%nat H) as (_ & _ & Hc & _).
    simpl in Hc. lia.
Defined.

(** *** Diagnostics on the Cartesian metric *)

Section CartesianMetric2D.

Import GridPatch Footprint.

Variable g : Grid.
Variable p : Patch.
Variables st0 st' : Store.
Hypothesis Hrun : EvaluateGeometricTerms g p st0 = Ok st'.

(** The 2D metric [EvaluateGeometricTerms] leaves at the nodes of the
    elements is the identity. *)
Lemma cached_Metric2D a b i j :
  (a < GetElementCountA p)%nat -> (b < GetElementCountB p)%nat ->
  (i < m_nHorizontalOrder p)%nat -> (j < m_nHorizontalOrder p)%nat ->
  let iA := (GetAInteriorBegin p + a * m_nHorizontalOrder p + i)%nat in
  let iB := (GetBInteriorBegin p + b * m_nHorizontalOrder p + j)%nat in
  st' m_dataJacobian2D [iA; iB] = 1 /\
  st' m_dataContraMetric2DA [iA; iB; 0%nat] = 1 /\
  st' m_dataContraMetric2DA [iA; iB; 1%nat] = 0 /\
  st' m_dataContraMetric2DB [iA; iB; 0%nat] = 0 /\
  st' m_dataContraMetric2DB [iA; iB; 1%nat] = 1.
Proof.
  intros Ha Hb Hi Hj iA iB.
  destruct (EvaluateGeometricTerms_cache g p st0 st' Hrun) as [Hv _].
  assert (Hown : forall x ix,
            owned (Cells2D iA iB) x ix = true ->
            st' x ix = GeometricCache g st0 x ix).
  { intros x ix H. apply Hv.
    - now apply (visited_2D g p a b i j Ha Hb Hi Hj).
    - unfold owned, Cells2D in H. cbn [existsb fst snd] in H.
      repeat (apply orb_true_iff in H as [H|H];
              [apply cell_eqb_true in H as [<- _]; reflexivity|]).
      discriminate H. }
  repeat split;
    (rewrite Hown;
     [simpl; lra
     | unfold owned, Cells2D; cbn [existsb fst snd];
       rewrite ?cell_eqb_refl, ?orb_true_r; reflexivity]).
Qed.

Lemma geometric_terms_keep_state d c k i j :
  st' m_datavecStateNode [d; c; k; i; j]%nat
  = st0 m_datavecStateNode [d; c; k; i; j]%nat.
Proof.
  destruct (EvaluateGeometricTerms_cache g p st0 st' Hrun) as [_ Hf].
  apply Hf. apply CellsGeometricTerms_not_input. reflexivity.
Qed.

End CartesianMetric2D.

(** X27.  Vorticity and divergence after [EvaluateGeometricTerms].  On a
    patch whose elements start at the halo width and fill the interior,
    once [EvaluateGeometricTerms] has returned, [ComputeVorticityDivergence]
    for a state with at least two components stores at node (i, j) of every
    element on every level the difference, for the vorticity, and the sum,
    for the divergence, of the two velocity derivatives formed with the
    derivative matrix of the basis functions and the element widths: the 2D
    metric left by [EvaluateGeometricTerms] is the identity, and the
    velocities are those of the state before it. *)
Theorem X27_cartesian_vorticity_divergence
    (g : GridPatch.Grid) (p : GridPatch.Patch) (dDxBasis1D : nat -> nat -> R)
    (GetAInteriorWidth GetBInteriorWidth GetHaloElements : nat)
    (nComponents iDataIndex : nat) (st st' : GridPatch.Store)
    (d : GridPatch.CurlAndDiv) :
  let n := GridPatch.m_nHorizontalOrder p in
  GridPatch.EvaluateGeometricTerms g p st = Ok st' ->
  (2 <= nComponents)%nat ->
  GridPatch.GetAInteriorBegin p = GetHaloElements ->
  GridPatch.GetBInteriorBegin p = GetHaloElements ->
  GridPatch.GetElementCountA p = (GetAInteriorWidth / n)%nat ->
  GridPatch.GetElementCountB p = (GetBInteriorWidth / n)%nat ->
  exists d',
    GridPatch.ComputeVorticityDivergence g p dDxBasis1D GetAInteriorWidth
      GetBInteriorWidth GetHaloElements nComponents iDataIndex st' d
    = Ok d' /\
    forall k a b i j,
      (k < GridPatch.GetRElements g)%nat ->
      (a < GetAInteriorWidth / n)%nat -> (b < GetBInteriorWidth / n)%nat ->
      (i < n)%nat -> (j < n)%nat ->
      let iA := (a * n + GetHaloElements)%nat in
      let iB := (b * n + GetHaloElements)%nat in
      let u := fun I J =>
        st GridPatch.m_datavecStateNode [iDataIndex; 0; k; I; J]%nat in
      let v := fun I J =>
        st GridPatch.m_datavecStateNode [iDataIndex; 1; k; I; J]%nat in
      GridPatch.m_dataVorticity d' k (iA + i)%nat (iB + j)%nat
      = ColumnOperator.sumR n (fun s =>
          dDxBasis1D s i * v (iA + s)%nat (iB + j)%nat)
        / GridPatch.GetElementDeltaA p
        - ColumnOperator.sumR n (fun s =>
            dDxBasis1D s j * u (iA + i)%nat (iB + s)%nat)
          / GridPatch.GetElementDeltaB p /\
      GridPatch.m_dataDivergence d' k (iA + i)%nat (iB + j)%nat
      = ColumnOperator.sumR n (fun s =>
          dDxBasis1D s i * u (iA + s)%nat (iB + j)%nat)
        / GridPatch.GetElementDeltaA p
        + ColumnOperator.sumR n (fun s =>
            dDxBasis1D s j * v (iA + i)%nat (iB + s)%nat)
          / GridPatch.GetElementDeltaB p.
Proof.
  intros n Hrun Hc HbA HbB HcA HcB.
  unfold GridPatch.ComputeVorticityDivergence.
  apply Nat.ltb_ge in Hc. rewrite Hc. cbv zeta.
  eexists. split; [reflexivity|].
  intros k a b i j Hk Ha Hb Hi Hj.
  destruct (ComputeCurlAndDiv_values g p dDxBasis1D GetAInteriorWidth
              GetBInteriorWidth GetHaloElements st'
              (fun k i j =>
                 st' GridPatch.m_datavecStateNode
                   [iDataIndex; 0; k; i; j]%nat)
              (fun k i j =>
                 st' GridPatch.m_datavecStateNode
                   [iDataIndex; 1; k; i; j]%nat)
              d k a b i j Hk Ha Hb Hi Hj) as [Ev Ed].
  fold n in Ev, Ed.
  assert (HM : forall s t, (s < n)%nat -> (t < n)%nat ->
            st' GridPatch.m_dataJacobian2D
              [a * n + GetHaloElements + s; b * n + GetHaloElements + t]%nat
            = 1 /\
            st' GridPatch.m_dataContraMetric2DA
              [a * n + GetHaloElements + s; b * n + GetHaloElements + t; 0]%nat
            = 1 /\
            st' GridPatch.m_dataContraMetric2DA
              [a * n + GetHaloElements + s; b * n + GetHaloElements + t; 1]%nat
            = 0 /\
            st' GridPatch.m_dataContraMetric2DB
              [a * n + GetHaloElements + s; b * n + GetHaloElements + t; 0]%nat
            = 0 /\
            st' GridPatch.m_dataContraMetric2DB
              [a * n + GetHaloElements + s; b * n + GetHaloElements + t; 1]%nat
            = 1).
  { intros s t Hs Ht.
    pose proof (cached_Metric2D g p st st' Hrun a b s t
                  ltac:(rewrite HcA; exact Ha) ltac:(rewrite HcB; exact Hb)
                  Hs Ht) as H.
    cbv zeta in H. rewrite HbA, HbB in H. fold n in H.
    replace (GetHaloElements + a * n + s)%nat
      with (a * n + GetHaloElements + s)%nat in H by lia.
    replace (GetHaloElements + b * n + t)%nat
      with (b * n + GetHaloElements + t)%nat in H by lia.
    exact H. }
  cbv zeta. split.
  - rewrite Ev. destruct (HM i j Hi Hj) as (-> & _).
    unfold Rdiv at 1. rewrite Rinv_1, Rmult_1_r.
    f_equal; f_equal; apply sumR_ext; intros s Hs;
      now rewrite (geometric_terms_keep_state g p st st' Hrun).
  - rewrite Ed. destruct (HM i j Hi Hj) as (-> & _).
    unfold Rdiv at 1. rewrite Rinv_1, Rmult_1_r.
    f_equal; f_equal; apply sumR_ext; intros s Hs.
    + destruct (HM s j Hs Hj) as (-> & -> & -> & _).
      rewrite !(geometric_terms_keep_state g p st st' Hrun). ring.
    + destruct (HM i s Hi Hs) as (-> & _ & _ & -> & ->).
      rewrite !(geometric_terms_keep_state g p st st' Hrun). ring.
Qed.

Lemma X27_cartesian_vorticity_divergence_witness :
  exists st' d',
    GridPatch.EvaluateGeometricTerms
      (QuadraticStretchGrid GridPatch.VerticalStaggering_CharneyPhillips
         [0.5; 0.5]) OneColumnPatch BottomFlowStore = Ok st' /\
    GridPatch.ComputeVorticityDivergence
      (QuadraticStretchGrid GridPatch.VerticalStaggering_CharneyPhillips
         [0.5; 0.5]) OneColumnPatch (fun _ _ => 2) 1 1 0 2 0 st'
      NoDiagnostics = Ok d' /\
    GridPatch.m_dataDivergence d' 0%nat 0%nat 0%nat = 20.
Proof.
  destruct (EvaluateGeometricTerms_checks
              (QuadraticStretchGrid GridPatch.VerticalStaggering_CharneyPhillips
                 [0.5; 0.5]) OneColumnPatch BottomFlowStore)
    as (_ & _ & Hok).
  destruct Hok as [st' E].
  - unfold GridPatch.NormAreaSum; simpl.
    replace (0.0 + 1 - 1) with 0 by lra. rewrite Rabs_R0. lra.
  - right. unfold GridPatch.NormAreaSum; simpl.
    replace (0.0 + 0.5 + 0.5 - 1) with 0 by lra. rewrite Rabs_R0. lra.
  - destruct (X27_cartesian_vorticity_divergence
                (QuadraticStretchGrid
                   GridPatch.VerticalStaggering_CharneyPhillips [0.5; 0.5])
                OneColumnPatch (fun _ _ => 2) 1 1 0 2 0 BottomFlowStore st'
                NoDiagnostics E)
      as (d' & E' & H); try reflexivity; try lia.
    exists st', d'. split; [exact E|]. split; [exact E'|].
    destruct (H 0%nat 0%nat 0%nat 0%nat 0%nat) as [_ Hd];
      try (simpl; lia).
    simpl in Hd. rewrite Hd.
    unfold BottomFlowStore, GridPatch.upd, ZeroStore. simpl. lra.
Defined.

(** X28.  When the cached heights agree with the geometric terms.  After the
    node loop of [EvaluateTestCase] has returned, the height it cached for a
    level of a column of the box equals the height [EvaluateGeometricTerms]
    computes for that level over the cached topography exactly when the
    vertical stretch function returns the reference coordinate of the level
    unchanged. *)
Theorem X28_cached_heights_and_stretch
    (g : GridPatch.Grid) (p : GridPatch.Patch) (test : GridPatch.TestCase)
    (st st' : GridPatch.Store) (i j k : nat) :
  GridPatch.EvaluateTestCase_heights g p test st = Ok st' ->
  (i < GridPatch.GetATotalWidth p)%nat ->
  (j < GridPatch.GetBTotalWidth p)%nat ->
  (k < GridPatch.GetRElements g)%nat ->
  (st' GridPatch.m_dataZLevels [k; i; j]%nat
   = GridPatch.NodeTerms_dZ g (st' GridPatch.m_dataTopography [i; j]%nat) k
   <-> fst (GridPatch.EvaluateVerticalStretchF g (GridPatch.GetREtaLevel g k))
       = GridPatch.GetREtaLevel g k).
Proof.
  intros E Hi Hj Hk.
  destruct (EvaluateTestCase_heights_decided g p test st) as [Hok Hexc].
  destruct (box_search (GridPatch.GetATotalWidth p)
              (GridPatch.GetBTotalWidth p)
              (fun i j => GridPatch.EvaluateTopography_at test
                            (st GridPatch.m_dataLon [i; j]%nat)
                            (st GridPatch.m_dataLat [i; j]%nat))
              (GridPatch.GetZtop g)) as [Hbad|Hgood].
  { rewrite (Hexc Hbad) in E. discriminate. }
  rewrite (Hok Hgood) in E. injection E as <-.
  destruct (WriteHeights_values g p test st i j Hi Hj) as (Ht & Hn & _).
  rewrite Ht, (Hn k Hk). unfold GridPatch.NodeTerms_dZ; cbv zeta.
  specialize (Hgood i j Hi Hj). cbv beta in Hgood.
  set (zs := GridPatch.EvaluateTopography_at test _ _) in *.
  set (eta := GridPatch.GetREtaLevel g k).
  set (F := fst (GridPatch.EvaluateVerticalStretchF g eta)).
  split; intro H; [nra | rewrite H; ring].
Qed.

Lemma X28_cached_heights_and_stretch_witness :
  exists st',
    GridPatch.EvaluateTestCase_heights
      (QuadraticStretchGrid GridPatch.VerticalStaggering_CharneyPhillips
         [0.5; 0.5]) OneColumnPatch FlatTestCase ZeroStore = Ok st' /\
    st' GridPatch.m_dataZLevels [0; 0; 0]%nat
    <> GridPatch.NodeTerms_dZ
         (QuadraticStretchGrid GridPatch.VerticalStaggering_CharneyPhillips
            [0.5; 0.5])
         (st' GridPatch.m_dataTopography [0; 0]%nat) 0.
Proof.
  destruct (EvaluateTestCase_heights_decided
              (QuadraticStretchGrid GridPatch.VerticalStaggering_CharneyPhillips
                 [0.5; 0.5]) OneColumnPatch FlatTestCase ZeroStore)
    as [Hok _].
  eexists. split.
  - apply Hok. intros i j _ _. simpl. lra.
  - intro H.
    apply (X28_cached_heights_and_stretch
             (QuadraticStretchGrid
                GridPatch.VerticalStaggering_CharneyPhillips [0.5; 0.5])
             OneColumnPatch FlatTestCase ZeroStore _ 0 0 0) in H.
    + simpl in H. lra.
    + apply Hok. intros i j _ _. simpl. lra.
    + simpl. lia.
    + simpl. lia.
    + simpl. lia.
Defined.
